(** * mcbe-addon-ipc: the IPC router, its framing and its stream splitter

    A shallow embedding of [router.ts] (class [Router]) and of the chunk
    splitter [streamScriptEvent], together with a small model of the
    host they run on: the script-event transport, the tick scheduler
    ([system.runTimeout] / [system.clearRun]), promises and the
    continuations of [await].

    JavaScript strings are sequences of UTF-16 code units; [length],
    [slice], indexing and the regular expression used for field
    splitting all work on code units, so a string is a [list N]. *)

From Stdlib Require Import ZArith NArith Strings.String Strings.Ascii Lia.
From stdpp Require Import gmap list options.

Set Default Proof Using "Type".
Local Open Scope N_scope.

(** ** Strings *)

Module Str.

Abbreviation jsstring := (list N).

(** A string literal of the source, as code units (Latin-1 literals only). *)
Definition lit (s : string) : jsstring :=
  map N_of_ascii (list_ascii_of_string s).

Definition SPACE : N := 32.
Definition COLON : N := 58.
Definition UNDERSCORE : N := 95.

(** The characters the regular expression atom [.] does not match
    (ECMAScript LineTerminator): LF, CR, U+2028 and U+2029. *)
Definition isLineTerminator (c : N) : bool :=
  (c =? 10) || (c =? 13) || (c =? 8232) || (c =? 8233).

(** [s.indexOf(c)] *)
Fixpoint indexOf (c : N) (s : jsstring) : option nat :=
  match s with
  | [] => None
  | x :: s' => if x =? c then Some 0%nat else S <$> indexOf c s'
  end.

(** [s.includes(c)] for a one-character needle. *)
Definition includes (c : N) (s : jsstring) : bool :=
  bool_decide (is_Some (indexOf c s)).

(** The longest prefix that a greedy dot-star matches. *)
Fixpoint dotStar (s : jsstring) : jsstring :=
  match s with
  | [] => []
  | x :: s' => if isLineTerminator x then [] else x :: dotStar s'
  end.

(** [const [a, b] = s.split(re)] where [re] is the source's regular
    expression: one space followed by a capture group holding a
    greedy dot-star.

    [split] with a separator that has a capture group splices the
    capture into the result, so the array starts with the text before
    the first match and then the capture of that match.  The first
    match of [re] is at the first space; its capture is the run of
    characters up to the next line terminator.  Without a space the
    array is [[s]] and [b] is [undefined] ([None]). *)
Definition splitFirst (s : jsstring) : jsstring * option jsstring :=
  match indexOf SPACE s with
  | None => (s, None)
  | Some i => (take i s, Some (dotStar (drop (S i) s)))
  end.

(** [event.split(":")[1]]: the text between the first and the second
    colon, [undefined] without a colon. *)
Fixpoint upTo (c : N) (s : jsstring) : jsstring :=
  match s with
  | [] => []
  | x :: s' => if x =? c then [] else x :: upTo c s'
  end.

Definition splitColon1 (s : jsstring) : option jsstring :=
  match indexOf COLON s with
  | None => None
  | Some i => Some (upTo COLON (drop (S i) s))
  end.

(** [s.startsWith("_")] *)
Definition startsWithUnderscore (s : jsstring) : bool :=
  match s with
  | x :: _ => x =? UNDERSCORE
  | [] => false
  end.

(** String conversion of a possibly [undefined] string, as done by
    [+] and by [JSON.parse]. *)
Definition toStringU (s : option jsstring) : jsstring :=
  match s with
  | Some x => x
  | None => lit "undefined"
  end.

(** [n.toString(radix)] for a non-negative integer. *)
Definition digitChar (d : N) : N :=
  if d <? 10 then 48 + d else 87 + d.

Fixpoint digitsOf (fuel : nat) (radix n : N) (acc : jsstring) : jsstring :=
  match fuel with
  | O => acc
  | S fuel' =>
      let acc' := digitChar (n mod radix) :: acc in
      if n / radix =? 0 then acc' else digitsOf fuel' radix (n / radix) acc'
  end.

Definition toStringRadix (radix n : N) : jsstring :=
  digitsOf (S (N.size_nat n)) radix n [].

End Str.
Import Str.

Arguments lit : simpl never.
Arguments toStringRadix : simpl never.


(** ** The serializer: [JSON.stringify] and [JSON.parse]

    The built-in serializer on the values the protocol carries.
    Numbers are modelled for integers only (a literal with a fraction
    or an exponent is outside the model and is refused by [parse]);
    the members of an object are kept in textual order, a repeated key
    keeping its first position and its last value. *)

Module JSON.

#[local] Set Warnings "-register-all".

Inductive Json :=
| JNull
| JBool (b : bool)
| JNumber (z : Z)
| JString (s : jsstring)
| JArray (elems : list Json)
| JObject (members : list (jsstring * Json)).

Definition QUOTE : N := 34.
Definition BACKSLASH : N := 92.

Definition hex4 (c : N) : jsstring :=
  [digitChar ((c / 4096) mod 16); digitChar ((c / 256) mod 16);
   digitChar ((c / 16) mod 16); digitChar (c mod 16)].

Definition unicodeEscape (c : N) : jsstring := BACKSLASH :: 117 :: hex4 c.

Definition isLeadingSurrogate (c : N) : bool := (55296 <=? c) && (c <=? 56319).
Definition isTrailingSurrogate (c : N) : bool := (56320 <=? c) && (c <=? 57343).

(** One code unit of QuoteJSONString that is not part of a surrogate pair. *)
Definition quoteUnit (c : N) : jsstring :=
  if c =? 8 then [BACKSLASH; 98]
  else if c =? 9 then [BACKSLASH; 116]
  else if c =? 10 then [BACKSLASH; 110]
  else if c =? 12 then [BACKSLASH; 102]
  else if c =? 13 then [BACKSLASH; 114]
  else if c =? QUOTE then [BACKSLASH; QUOTE]
  else if c =? BACKSLASH then [BACKSLASH; BACKSLASH]
  else if (c <? 32) || isLeadingSurrogate c || isTrailingSurrogate c
       then unicodeEscape c
  else [c].

Fixpoint quoteUnits (s : jsstring) : jsstring :=
  match s with
  | [] => []
  | c :: rest =>
      if isLeadingSurrogate c then
        match rest with
        | d :: rest' =>
            if isTrailingSurrogate d then c :: d :: quoteUnits rest'
            else unicodeEscape c ++ quoteUnits rest
        | [] => unicodeEscape c
        end
      else quoteUnit c ++ quoteUnits rest
  end.

(** QuoteJSONString *)
Definition quote (s : jsstring) : jsstring := QUOTE :: quoteUnits s ++ [QUOTE].

Definition numberToString (z : Z) : jsstring :=
  match z with
  | Z0 => lit "0"
  | Zpos p => toStringRadix 10 (Npos p)
  | Zneg p => 45 :: toStringRadix 10 (Npos p)
  end.

Fixpoint joinComma (l : list jsstring) : jsstring :=
  match l with
  | [] => []
  | [x] => x
  | x :: l' => x ++ 44 :: joinComma l'
  end.

(** [JSON.stringify(j)] *)
Fixpoint stringify (j : Json) : jsstring :=
  match j with
  | JNull => lit "null"
  | JBool true => lit "true"
  | JBool false => lit "false"
  | JNumber z => numberToString z
  | JString s => quote s
  | JArray elems => 91 :: joinComma (map stringify elems) ++ [93]
  | JObject members =>
      123 :: joinComma
               (map (fun kv : jsstring * Json =>
                       let (k, v) := kv in quote k ++ 58 :: stringify v)
                    members) ++ [125]
  end.

(** *** Parsing *)

Definition isWhitespace (c : N) : bool :=
  (c =? 32) || (c =? 9) || (c =? 10) || (c =? 13).

Fixpoint skipWs (s : jsstring) : jsstring :=
  match s with
  | c :: rest => if isWhitespace c then skipWs rest else s
  | [] => []
  end.

Definition hexValue (c : N) : option N :=
  if (48 <=? c) && (c <=? 57) then Some (c - 48)
  else if (97 <=? c) && (c <=? 102) then Some (c - 87)
  else if (65 <=? c) && (c <=? 70) then Some (c - 55)
  else None.

Definition hex4Value (a b c d : N) : option N :=
  a' ← hexValue a; b' ← hexValue b; c' ← hexValue c; d' ← hexValue d;
  Some (a' * 4096 + b' * 256 + c' * 16 + d').

Definition simpleEscape (e : N) : option N :=
  if e =? QUOTE then Some QUOTE
  else if e =? BACKSLASH then Some BACKSLASH
  else if e =? 47 then Some 47
  else if e =? 98 then Some 8
  else if e =? 102 then Some 12
  else if e =? 110 then Some 10
  else if e =? 114 then Some 13
  else if e =? 116 then Some 9
  else None.

(** The characters of a string literal after its opening quote, up to
    and including the closing quote. *)
Fixpoint parseStringBody (s : jsstring) : option (jsstring * jsstring) :=
  match s with
  | [] => None
  | c :: rest =>
      if c =? QUOTE then Some ([], rest)
      else if c =? BACKSLASH then
        match rest with
        | [] => None
        | e :: rest1 =>
            if e =? 117 then
              match rest1 with
              | h1 :: h2 :: h3 :: h4 :: rest2 =>
                  u ← hex4Value h1 h2 h3 h4;
                  '(str, r) ← parseStringBody rest2;
                  Some (u :: str, r)
              | _ => None
              end
            else
              u ← simpleEscape e;
              '(str, r) ← parseStringBody rest1;
              Some (u :: str, r)
        end
      else if c <? 32 then None
      else
        '(str, r) ← parseStringBody rest;
        Some (c :: str, r)
  end.

Definition isDigit (c : N) : bool := (48 <=? c) && (c <=? 57).

Fixpoint parseDigits (s : jsstring) (acc : N) : N * jsstring :=
  match s with
  | c :: rest => if isDigit c then parseDigits rest (acc * 10 + (c - 48)) else (acc, s)
  | [] => (acc, [])
  end.

(** An integer literal; [None] on a malformed literal and on a literal
    with a fraction or an exponent. *)
Definition parseNumber (s : jsstring) : option (Z * jsstring) :=
  let '(negative, digits) :=
    match s with
    | c :: rest => if c =? 45 then (true, rest) else (false, s)
    | [] => (false, s)
    end in
  match digits with
  | d :: rest =>
      if isDigit d then
        let '(n, r) :=
          if d =? 48 then (0, rest) else parseDigits digits 0 in
        match r with
        | c :: _ =>
            if isDigit c || (c =? 46) || (c =? 101) || (c =? 69) then None
            else Some (if negative then (- Z.of_N n)%Z else Z.of_N n, r)
        | [] => Some (if negative then (- Z.of_N n)%Z else Z.of_N n, r)
        end
      else None
  | [] => None
  end.

(** [text] at the head of [s]. *)
Fixpoint expect (text s : jsstring) : option jsstring :=
  match text, s with
  | [], _ => Some s
  | t :: text', c :: s' => if t =? c then expect text' s' else None
  | _ :: _, [] => None
  end.

(** [obj[k] = v] on the member list. *)
Fixpoint setMember (k : jsstring) (v : Json) (members : list (jsstring * Json))
  : list (jsstring * Json) :=
  match members with
  | [] => [(k, v)]
  | (k', v') :: rest =>
      if bool_decide (k' = k) then (k', v) :: rest
      else (k', v') :: setMember k v rest
  end.

Section Value.
Variable parseValue : jsstring -> option (Json * jsstring).

(** The elements of an array after the first one's start, up to the
    closing bracket. *)
Fixpoint parseElements (fuel : nat) (s : jsstring) (acc : list Json)
  : option (list Json * jsstring) :=
  match fuel with
  | O => None
  | S fuel' =>
      '(v, r) ← parseValue s;
      match skipWs r with
      | c :: r' =>
          if c =? 44 then parseElements fuel' (skipWs r') (acc ++ [v])
          else if c =? 93 then Some (acc ++ [v], r')
          else None
      | [] => None
      end
  end.

Fixpoint parseMembers (fuel : nat) (s : jsstring) (acc : list (jsstring * Json))
  : option (list (jsstring * Json) * jsstring) :=
  match fuel with
  | O => None
  | S fuel' =>
      match s with
      | q :: s1 =>
          if q =? QUOTE then
            '(k, r) ← parseStringBody s1;
            match skipWs r with
            | c :: r1 =>
                if c =? 58 then
                  '(v, r2) ← parseValue (skipWs r1);
                  match skipWs r2 with
                  | d :: r3 =>
                      if d =? 44 then
                        parseMembers fuel' (skipWs r3) (setMember k v acc)
                      else if d =? 125 then Some (setMember k v acc, r3)
                      else None
                  | [] => None
                  end
                else None
            | [] => None
            end
          else None
      | [] => None
      end
  end.
End Value.

(** A value at the head of [s] (no leading whitespace). *)
Fixpoint parseValue (fuel : nat) (s : jsstring) : option (Json * jsstring) :=
  match fuel with
  | O => None
  | S fuel' =>
      match s with
      | [] => None
      | c :: rest =>
          if c =? 110 then r ← expect (lit "ull") rest; Some (JNull, r)
          else if c =? 116 then r ← expect (lit "rue") rest; Some (JBool true, r)
          else if c =? 102 then r ← expect (lit "alse") rest; Some (JBool false, r)
          else if c =? QUOTE then
            '(str, r) ← parseStringBody rest; Some (JString str, r)
          else if c =? 91 then
            match skipWs rest with
            | d :: r =>
                if d =? 93 then Some (JArray [], r)
                else '(elems, r') ← parseElements (parseValue fuel') fuel' (d :: r) [];
                     Some (JArray elems, r')
            | [] => None
            end
          else if c =? 123 then
            match skipWs rest with
            | d :: r =>
                if d =? 125 then Some (JObject [], r)
                else '(members, r') ← parseMembers (parseValue fuel') fuel' (d :: r) [];
                     Some (JObject members, r')
            | [] => None
            end
          else '(z, r) ← parseNumber s; Some (JNumber z, r)
      end
  end.

(** [JSON.parse(text)]; [None] when it throws a SyntaxError. *)
Definition parse (text : jsstring) : option Json :=
  '(j, r) ← parseValue (S (length text)) (skipWs text);
  match skipWs r with
  | [] => Some j
  | _ :: _ => None
  end.

End JSON.
Import JSON.

(** ** The stream splitter ([streamScriptEvent]) *)

Module Stream.

(** A frame handed to the transport: the event id and the message of
    one [scriptevent] command ([dispatchScriptEventRaw]). *)
Definition Frame : Type := jsstring * jsstring.

Definition MAX_MESSAGE_LENGTH : nat := 428.
Definition MAX_NAMESPACE_LENGTH : nat := 30.
Definition MAX_EVENT_ID_LENGTH : nat := 70.

Definition HANDLER_MESSAGE_PADDING : nat := MAX_NAMESPACE_LENGTH + 25.
Definition STREAM_MESSAGE_PADDING : nat := MAX_NAMESPACE_LENGTH + 5.

Definition maxMessageLengthWithPadding : nat :=
  MAX_MESSAGE_LENGTH - STREAM_MESSAGE_PADDING.

(** The first loop of [streamScriptEvent]: as long as the last part is
    longer than [maxLen], cut it at [maxLen] and push what is left.
    [None] when the fuel runs out before the loop breaks. *)
Fixpoint splitLoop (maxLen fuel : nat) (parts : list jsstring)
  : option (list jsstring) :=
  match fuel with
  | O => None
  | S fuel' =>
      let lastPart := default [] (last parts) in
      if bool_decide (length lastPart ≤ maxLen)%nat then Some parts
      else
        let left := take maxLen lastPart in
        let right := drop maxLen lastPart in
        let parts1 := <[(length parts - 1)%nat := left]> parts in
        let parts2 :=
          if bool_decide (length right = 0%nat) then parts1
          else parts1 ++ [right] in
        splitLoop maxLen fuel' parts2
  end.

Definition splitParts (stringifiedPayload : jsstring) : option (list jsstring) :=
  splitLoop maxMessageLengthWithPadding (S (length stringifiedPayload))
    [stringifiedPayload].

Definition FLAG_END : N := 116.      (* "t" *)
Definition FLAG_MORE : N := 102.     (* "f" *)

(** The message of part [i]: stream id, end flag and part, separated
    by single spaces. *)
Definition chunkMessage (streamId : jsstring) (count i : nat) (part : jsstring)
  : jsstring :=
  let isLastPart := bool_decide (count - 1 ≤ i)%nat in
  streamId ++ SPACE :: (if isLastPart then FLAG_END else FLAG_MORE) :: SPACE :: part.

(** The second loop: one message per part, in order. *)
Definition chunkMessages (streamId : jsstring) (parts : list jsstring)
  : list jsstring :=
  imap (chunkMessage streamId (length parts)) parts.

(** [streamScriptEvent(event, namespace, payload, force)] run to its
    end, with the module counter [streamCount] passed in and out: the
    error thrown, or the frames dispatched, one per [yield]. *)
Definition streamScriptEvent (event namespace : jsstring) (payload : Json)
    (force : bool) (streamCount : N)
  : option (list Frame * N) :=
  if negb force && bool_decide (MAX_NAMESPACE_LENGTH < length namespace)%nat
  then None
  else
    let streamId := namespace ++ toStringRadix 10 streamCount in
    match splitParts (stringify payload) with
    | Some parts =>
        Some (map (pair event) (chunkMessages streamId parts), streamCount + 1)
    | None => None
    end.

End Stream.
Import Stream.

(** ** Values, listeners and the host *)

(** What [common.js] and [constants.js] export and the sources do not
    show: the four one-character type flags of [IpcTypeFlag] and the
    bound on a router's uid.  They stay parameters. *)
Class Common := {
  IpcTypeFlag_Send : N;
  IpcTypeFlag_Invoke : N;
  IpcTypeFlag_SendStream : N;
  IpcTypeFlag_InvokeStream : N;
  MAX_ROUTER_UID_LENGTH : nat;
}.

(** The members of the enum are pairwise different. *)
Definition flagsDistinct `{Common} : Prop :=
  NoDup [IpcTypeFlag_Send; IpcTypeFlag_Invoke;
         IpcTypeFlag_SendStream; IpcTypeFlag_InvokeStream].

(** [SerializableValue]: plain data or a [Failure] instance.  The
    message of a [Failure] is typed as a string; one built from an
    inbound payload holds whatever value the reserved key had. *)
Inductive SerializableValue :=
| Plain (j : Json)
| Failure (message : Json).

Definition IPCFAILURE : jsstring := lit "__IPCFAILURE__".

(** Any value the code throws, rejects with or logs. *)
Inductive Value :=
| Error (message : jsstring)
| SyntaxError
| TypeError
| Data (v : SerializableValue)
| Undefined.

(** Truthiness, as tested by [if (err)]. *)
Definition truthy (x : Value) : bool :=
  match x with
  | Undefined => false
  | Data (Plain JNull) => false
  | Data (Plain (JBool b)) => b
  | Data (Plain (JNumber z)) => negb (z =? 0)%Z
  | Data (Plain (JString s)) => negb (bool_decide (s = []))
  | _ => true
  end.

(** How a promise settles. *)
Inductive Settlement :=
| Fulfilled (v : SerializableValue)
| Rejected (e : Value).

(** What calling a listener does: it returns a value, throws, or
    returns a promise, which settles later ([Some]) or never ([None]). *)
Inductive Completion :=
| Return (v : SerializableValue)
| Throw (e : Value)
| ReturnPromise (outcome : option Settlement).

(** [ScriptEventListener]: an application callback, or one of the two
    closures the router itself registers for the response of an invoke.
    A closure is represented by what it captures: [InvokeResponse] is
    the arrow function of [invokeInternal] ([responseListenerId], the
    constant [timeoutId], [options.throwFailures] and the promise whose
    [resolve] and [reject] it calls); [InvokeStreamResponse] is the one
    of [invokeStreamInternal], which captures the variable [timeoutId]
    instead of a value. *)
Inductive ScriptEventListener :=
| Callback (f : SerializableValue -> Completion)
| InvokeResponse (responseListenerId : jsstring) (timeoutId : nat)
    (throwFailures : bool) (promise : nat)
| InvokeStreamResponse (responseListenerId : jsstring) (timeoutIdVar : nat)
    (throwFailures : bool) (promise : nat).

(** The callback given to [system.runTimeout] by an invoke. *)
Inductive RunCallback :=
| InvokeTimeout (responseListenerId : jsstring) (promise : nat) (event : jsstring).

Record Run := {
  runId : nat;
  dueTick : nat;
  runCallback : RunCallback;
}.

(** The callback given to [finally] by [invokeStreamInternal]. *)
Inductive Finally :=
| ArmInvokeTimeout (timeoutIdVar : nat) (responseListenerId : jsstring)
    (promise : nat) (event : jsstring).

(** A chunk stream in transmission: the frames still to send and the
    [finally] callback of its promise. *)
Record StreamJob := {
  pendingFrames : list Frame;
  onFinally : option Finally;
}.

(** An async function suspended at its [await]. *)
Inductive Continuation :=
| AfterInvoke (responseEvent : jsstring)     (* [invokeListener] *)
| AfterCall.                                 (* [callListener] *)

Record Task := {
  continuation : Continuation;
  awaited : option Settlement;
  isMicrotask : bool;
}.

Record SendOptions := {
  so_event : jsstring;
  so_payload : SerializableValue;
  so_force : bool;
}.

Record InvokeOptions := {
  io_event : jsstring;
  io_payload : SerializableValue;
  io_force : bool;
  io_throwFailures : bool;
}.

(** [InternalInvokeOptions]: the payload is already serialized. *)
Record InternalInvokeOptions := {
  ii_event : jsstring;
  ii_payload : jsstring;
  ii_force : bool;
  ii_throwFailures : bool;
}.

(** ** The router *)

Record Router := {
  uid : jsstring;
  internalIsValid : bool;
  pendingStreams : gmap jsstring jsstring;
  listeners : gmap jsstring ScriptEventListener;
  listenerUidsGenerated : N;
  streamUidsGenerated : N;
}.

(** The router together with the host state its methods act on. *)
Record World := {
  router : Router;
  (** is [onScriptEventRecieved] subscribed to [scriptEventReceive]? *)
  subscribed : bool;
  currentTick : nat;
  (** the runs scheduled by [system.runTimeout], oldest first *)
  runs : list Run;
  nextRunId : nat;
  (** the settled promises of the invokes; a promise not in the map is pending *)
  promises : gmap nat Settlement;
  nextPromise : nat;
  (** the [timeoutId] variables of [invokeStreamInternal]; [undefined] when absent *)
  timeoutIdVars : gmap nat nat;
  nextVar : nat;
  (** the frames handed to the transport, oldest first *)
  wire : list Frame;
  jobs : list StreamJob;
  tasks : list Task;
  (** the arguments of [console.warn], oldest first *)
  warnings : list Value;
  (** the reasons of the rejected promises nobody handles *)
  rejections : list Value;
  (** the exceptions that left [onScriptEventRecieved] *)
  hostErrors : list Value;
}.

Definition withRouter (f : Router -> Router) (w : World) : World :=
  {| router := f (router w); subscribed := subscribed w;
     currentTick := currentTick w; runs := runs w; nextRunId := nextRunId w;
     promises := promises w; nextPromise := nextPromise w;
     timeoutIdVars := timeoutIdVars w; nextVar := nextVar w;
     wire := wire w; jobs := jobs w; tasks := tasks w;
     warnings := warnings w; rejections := rejections w;
     hostErrors := hostErrors w |}.

Definition withSubscribed (b : bool) (w : World) : World :=
  {| router := router w; subscribed := b;
     currentTick := currentTick w; runs := runs w; nextRunId := nextRunId w;
     promises := promises w; nextPromise := nextPromise w;
     timeoutIdVars := timeoutIdVars w; nextVar := nextVar w;
     wire := wire w; jobs := jobs w; tasks := tasks w;
     warnings := warnings w; rejections := rejections w;
     hostErrors := hostErrors w |}.

Definition withTick (n : nat) (w : World) : World :=
  {| router := router w; subscribed := subscribed w;
     currentTick := n; runs := runs w; nextRunId := nextRunId w;
     promises := promises w; nextPromise := nextPromise w;
     timeoutIdVars := timeoutIdVars w; nextVar := nextVar w;
     wire := wire w; jobs := jobs w; tasks := tasks w;
     warnings := warnings w; rejections := rejections w;
     hostErrors := hostErrors w |}.

Definition withRuns (rs : list Run) (w : World) : World :=
  {| router := router w; subscribed := subscribed w;
     currentTick := currentTick w; runs := rs; nextRunId := nextRunId w;
     promises := promises w; nextPromise := nextPromise w;
     timeoutIdVars := timeoutIdVars w; nextVar := nextVar w;
     wire := wire w; jobs := jobs w; tasks := tasks w;
     warnings := warnings w; rejections := rejections w;
     hostErrors := hostErrors w |}.

Definition withNextRunId (n : nat) (w : World) : World :=
  {| router := router w; subscribed := subscribed w;
     currentTick := currentTick w; runs := runs w; nextRunId := n;
     promises := promises w; nextPromise := nextPromise w;
     timeoutIdVars := timeoutIdVars w; nextVar := nextVar w;
     wire := wire w; jobs := jobs w; tasks := tasks w;
     warnings := warnings w; rejections := rejections w;
     hostErrors := hostErrors w |}.

Definition withPromises (ps : gmap nat Settlement) (w : World) : World :=
  {| router := router w; subscribed := subscribed w;
     currentTick := currentTick w; runs := runs w; nextRunId := nextRunId w;
     promises := ps; nextPromise := nextPromise w;
     timeoutIdVars := timeoutIdVars w; nextVar := nextVar w;
     wire := wire w; jobs := jobs w; tasks := tasks w;
     warnings := warnings w; rejections := rejections w;
     hostErrors := hostErrors w |}.

Definition withNextPromise (n : nat) (w : World) : World :=
  {| router := router w; subscribed := subscribed w;
     currentTick := currentTick w; runs := runs w; nextRunId := nextRunId w;
     promises := promises w; nextPromise := n;
     timeoutIdVars := timeoutIdVars w; nextVar := nextVar w;
     wire := wire w; jobs := jobs w; tasks := tasks w;
     warnings := warnings w; rejections := rejections w;
     hostErrors := hostErrors w |}.

Definition withTimeoutIdVars (vs : gmap nat nat) (w : World) : World :=
  {| router := router w; subscribed := subscribed w;
     currentTick := currentTick w; runs := runs w; nextRunId := nextRunId w;
     promises := promises w; nextPromise := nextPromise w;
     timeoutIdVars := vs; nextVar := nextVar w;
     wire := wire w; jobs := jobs w; tasks := tasks w;
     warnings := warnings w; rejections := rejections w;
     hostErrors := hostErrors w |}.

Definition withNextVar (n : nat) (w : World) : World :=
  {| router := router w; subscribed := subscribed w;
     currentTick := currentTick w; runs := runs w; nextRunId := nextRunId w;
     promises := promises w; nextPromise := nextPromise w;
     timeoutIdVars := timeoutIdVars w; nextVar := n;
     wire := wire w; jobs := jobs w; tasks := tasks w;
     warnings := warnings w; rejections := rejections w;
     hostErrors := hostErrors w |}.

Definition withWire (fs : list Frame) (w : World) : World :=
  {| router := router w; subscribed := subscribed w;
     currentTick := currentTick w; runs := runs w; nextRunId := nextRunId w;
     promises := promises w; nextPromise := nextPromise w;
     timeoutIdVars := timeoutIdVars w; nextVar := nextVar w;
     wire := fs; jobs := jobs w; tasks := tasks w;
     warnings := warnings w; rejections := rejections w;
     hostErrors := hostErrors w |}.

Definition withJobs (js : list StreamJob) (w : World) : World :=
  {| router := router w; subscribed := subscribed w;
     currentTick := currentTick w; runs := runs w; nextRunId := nextRunId w;
     promises := promises w; nextPromise := nextPromise w;
     timeoutIdVars := timeoutIdVars w; nextVar := nextVar w;
     wire := wire w; jobs := js; tasks := tasks w;
     warnings := warnings w; rejections := rejections w;
     hostErrors := hostErrors w |}.

Definition withTasks (ts : list Task) (w : World) : World :=
  {| router := router w; subscribed := subscribed w;
     currentTick := currentTick w; runs := runs w; nextRunId := nextRunId w;
     promises := promises w; nextPromise := nextPromise w;
     timeoutIdVars := timeoutIdVars w; nextVar := nextVar w;
     wire := wire w; jobs := jobs w; tasks := ts;
     warnings := warnings w; rejections := rejections w;
     hostErrors := hostErrors w |}.

Definition withWarnings (xs : list Value) (w : World) : World :=
  {| router := router w; subscribed := subscribed w;
     currentTick := currentTick w; runs := runs w; nextRunId := nextRunId w;
     promises := promises w; nextPromise := nextPromise w;
     timeoutIdVars := timeoutIdVars w; nextVar := nextVar w;
     wire := wire w; jobs := jobs w; tasks := tasks w;
     warnings := xs; rejections := rejections w;
     hostErrors := hostErrors w |}.

Definition withRejections (xs : list Value) (w : World) : World :=
  {| router := router w; subscribed := subscribed w;
     currentTick := currentTick w; runs := runs w; nextRunId := nextRunId w;
     promises := promises w; nextPromise := nextPromise w;
     timeoutIdVars := timeoutIdVars w; nextVar := nextVar w;
     wire := wire w; jobs := jobs w; tasks := tasks w;
     warnings := warnings w; rejections := xs;
     hostErrors := hostErrors w |}.

Definition withHostErrors (xs : list Value) (w : World) : World :=
  {| router := router w; subscribed := subscribed w;
     currentTick := currentTick w; runs := runs w; nextRunId := nextRunId w;
     promises := promises w; nextPromise := nextPromise w;
     timeoutIdVars := timeoutIdVars w; nextVar := nextVar w;
     wire := wire w; jobs := jobs w; tasks := tasks w;
     warnings := warnings w; rejections := rejections w;
     hostErrors := xs |}.

Definition withListeners (f : gmap jsstring ScriptEventListener ->
                              gmap jsstring ScriptEventListener)
    (r : Router) : Router :=
  {| uid := uid r; internalIsValid := internalIsValid r;
     pendingStreams := pendingStreams r; listeners := f (listeners r);
     listenerUidsGenerated := listenerUidsGenerated r;
     streamUidsGenerated := streamUidsGenerated r |}.

Definition withPendingStreams (f : gmap jsstring jsstring -> gmap jsstring jsstring)
    (r : Router) : Router :=
  {| uid := uid r; internalIsValid := internalIsValid r;
     pendingStreams := f (pendingStreams r); listeners := listeners r;
     listenerUidsGenerated := listenerUidsGenerated r;
     streamUidsGenerated := streamUidsGenerated r |}.

(** What a call leaves behind: it returns, or it throws [e]; either
    way [w] is the world at that point. *)
Inductive Result :=
| Ok (w : World)
| Throws (e : Value) (w : World).

Definition worldOf (r : Result) : World :=
  match r with
  | Ok w => w
  | Throws _ w => w
  end.

(** *** The host: console, promises, scheduler *)

(** [console.warn(x)] *)
Definition warn (x : Value) (w : World) : World :=
  withWarnings (warnings w ++ [x]) w.

(** A rejected promise that nothing handles. *)
Definition unhandledRejection (x : Value) (w : World) : World :=
  withRejections (rejections w ++ [x]) w.

(** [resolve(v)] and [reject(e)] of promise [p]: the first call settles
    it, later calls do nothing. *)
Definition settle (p : nat) (s : Settlement) (w : World) : World :=
  match promises w !! p with
  | Some _ => w
  | None => withPromises (<[p := s]> (promises w)) w
  end.

(** [system.runTimeout(callback, delay)]: the new run's id and the world. *)
Definition runTimeout (callback : RunCallback) (delay : nat) (w : World)
  : nat * World :=
  let id := nextRunId w in
  (id, withNextRunId (S id)
         (withRuns (runs w ++ [{| runId := id;
                                  dueTick := currentTick w + delay;
                                  runCallback := callback |}]) w)).

(** [system.clearRun(id)] *)
Definition clearRun (id : nat) (w : World) : World :=
  withRuns (filter (fun r => runId r ≠ id) (runs w)) w.

(** *** [send.js]: putting frames on the transport *)

(** Modelled from the spec: [sendInternal] of [send.js] is not among
    the sources.  A frame is the type flag followed by the payload
    (§4.1); a payload longer than the limit is refused unless the
    caller forces it (§4.4, §7, §8). *)
Definition sendInternal (ipcTypeFlag : N) (event payload : jsstring)
    (force : bool) (w : World) : Result :=
  if negb force && bool_decide (MAX_MESSAGE_LENGTH < length payload)%nat
  then Throws (Error (lit "Failed to send event '" ++ event ++
                      lit "'. The message is too long.")) w
  else Ok (withWire (wire w ++ [(event, ipcTypeFlag :: payload)]) w).

(** The chunk frames of one stream: the messages [streamScriptEvent]
    builds, each behind the type flag. *)
Definition chunkFrames (ipcTypeFlag : N) (event payload streamId : jsstring)
  : list Frame :=
  map (fun m => (event, ipcTypeFlag :: m))
      (chunkMessages streamId (default [] (splitParts payload))).

(** Modelled from the spec: [sendStreamInternal] of [send.js] is not
    among the sources.  The payload is cut into fragments as
    [streamScriptEvent] does and each goes out as one chunk frame
    (§4.1, §4.3); the frames are transmitted one at a time, each
    transmission a suspend point, and the promise the call returns
    settles once the last one is out.  [fin] is the callback the
    caller attaches with [finally]. *)
Definition sendStreamInternal (ipcTypeFlag : N) (event payload streamId : jsstring)
    (force : bool) (fin : option Finally) (w : World) : World :=
  withJobs (jobs w ++ [{| pendingFrames := chunkFrames ipcTypeFlag event payload streamId;
                          onFinally := fin |}]) w.

(** Modelled from the spec: [JSON.stringify] of a payload.
    [failure.js] is not among the sources; a [Failure] instance
    carries its one message string. *)
Definition serialize (v : SerializableValue) : jsstring :=
  match v with
  | Plain j => stringify j
  | Failure m => stringify (JObject [(lit "message", m)])
  end.

Section Router.
Context `{Common}.

(** Modelled from the spec: [send] of [send.js] is not among the
    sources: it serializes the payload and sends one Send frame. *)
Definition send_js (options : SendOptions) (w : World) : Result :=
  sendInternal IpcTypeFlag_Send (so_event options)
    (serialize (so_payload options)) (so_force options) w.

(** Modelled from the spec: [sendStream] of [send.js] is not among the
    sources: it serializes the payload and streams it. *)
Definition sendStream_js (options : SendOptions) (streamId : jsstring)
    (w : World) : World :=
  sendStreamInternal IpcTypeFlag_SendStream (so_event options)
    (serialize (so_payload options)) streamId (so_force options) None w.

(** *** The methods of [Router] *)

(** [new Router(uid)] on a fresh host; [inl] is the error thrown. *)
Definition newRouter (uid : jsstring) : Value + World :=
  if bool_decide (uid = []) || bool_decide (MAX_ROUTER_UID_LENGTH < length uid)%nat
  then inl (Error (lit "Router UID must be at least one character and less than "
                   ++ toStringRadix 10 (N.of_nat MAX_ROUTER_UID_LENGTH)
                   ++ lit " characters."))
  else inr {| router := {| uid := uid; internalIsValid := true;
                           pendingStreams := ∅; listeners := ∅;
                           listenerUidsGenerated := 0;
                           streamUidsGenerated := 0 |};
              subscribed := true;
              currentTick := 0; runs := []; nextRunId := 0;
              promises := ∅; nextPromise := 0;
              timeoutIdVars := ∅; nextVar := 0;
              wire := []; jobs := []; tasks := [];
              warnings := []; rejections := []; hostErrors := [] |}.

(** [get isValid()] *)
Definition isValid (w : World) : bool := internalIsValid (router w).

(** [destroy()] *)
Definition destroy (w : World) : World :=
  withRouter
    (fun r => {| uid := uid r; internalIsValid := false;
                 pendingStreams := pendingStreams r; listeners := listeners r;
                 listenerUidsGenerated := listenerUidsGenerated r;
                 streamUidsGenerated := streamUidsGenerated r |})
    (withSubscribed false w).

(** [registerListener(event, callback)] *)
Definition registerListener (event : jsstring) (callback : ScriptEventListener)
    (w : World) : Result :=
  if bool_decide (is_Some (listeners (router w) !! event)) then
    Throws (Error (lit "Failed to register listener '" ++ event ++
                   lit "'. A listener with this ID has already been registered.")) w
  else if negb (includes COLON event)
          || match splitColon1 event with
             | Some part => startsWithUnderscore part
             | None => false
             end then
    Throws (Error (lit "Failed to register listener '" ++ event ++
                   lit "'. Listener IDs must have a namespace and cannot start with an underscore after the namespace.")) w
  else Ok (withRouter (withListeners (insert event callback)) w).

(** [removeListener(event)]: the boolean returned and the world. *)
Definition removeListener (event : jsstring) (w : World) : bool * World :=
  (bool_decide (is_Some (listeners (router w) !! event)),
   withRouter (withListeners (delete event)) w).

(** [setListener(event, callback)] *)
Definition setListener (event : jsstring) (callback : ScriptEventListener)
    (w : World) : World :=
  withRouter (withListeners (insert event callback)) w.

(** [generateListenerUid()] *)
Definition generateListenerUid (w : World) : jsstring * World :=
  let r := router w in
  (uid r ++ lit ":__" ++ toStringRadix 36 (listenerUidsGenerated r),
   withRouter
     (fun r => {| uid := uid r; internalIsValid := internalIsValid r;
                  pendingStreams := pendingStreams r; listeners := listeners r;
                  listenerUidsGenerated := listenerUidsGenerated r + 1;
                  streamUidsGenerated := streamUidsGenerated r |}) w).

(** [generateStreamUid()] *)
Definition generateStreamUid (w : World) : jsstring * World :=
  let r := router w in
  (uid r ++ toStringRadix 36 (streamUidsGenerated r),
   withRouter
     (fun r => {| uid := uid r; internalIsValid := internalIsValid r;
                  pendingStreams := pendingStreams r; listeners := listeners r;
                  listenerUidsGenerated := listenerUidsGenerated r;
                  streamUidsGenerated := streamUidsGenerated r + 1 |}) w).

(** [send(options)] *)
Definition send (options : SendOptions) (w : World) : Result :=
  send_js options w.

(** [sendStream(options)] *)
Definition sendStream (options : SendOptions) (w : World) : World :=
  let '(streamId, w1) := generateStreamUid w in
  sendStream_js options streamId w1.

(** [sendAuto(options)].  The function is [async] but has no [await]:
    all it does happens during the call; what it throws is the reason
    its promise is rejected with. *)
Definition sendAuto (options : SendOptions) (w : World) : Result :=
  let serialized := serialize (so_payload options) in
  if bool_decide (MAX_MESSAGE_LENGTH < length serialized)%nat then
    let '(streamId, w1) := generateStreamUid w in
    Ok (sendStreamInternal IpcTypeFlag_SendStream (so_event options) serialized
           streamId (so_force options) None w1)
  else
    sendInternal IpcTypeFlag_Send (so_event options) serialized
      (so_force options) w.

(** [void this.sendAuto(options)] *)
Definition voidSendAuto (options : SendOptions) (w : World) : World :=
  match sendAuto options w with
  | Ok w' => w'
  | Throws e w' => unhandledRejection e w'
  end.

(** The message of the timeout error. *)
Definition timedOut (event : jsstring) : Value :=
  Error (lit "Invoke '" ++ event ++ lit "' timed out.").

(** [invokeInternal(options, responseListenerId)]: the promise
    returned and the world. *)
Definition invokeInternal (options : InternalInvokeOptions)
    (responseListenerId : jsstring) (w : World) : nat * World :=
  let promise := nextPromise w in
  let w0 := withNextPromise (S promise) w in
  let '(timeoutId, w1) :=
    runTimeout (InvokeTimeout responseListenerId promise (ii_event options)) 20 w0 in
  let w2 :=
    setListener responseListenerId
      (InvokeResponse responseListenerId timeoutId (ii_throwFailures options) promise)
      w1 in
  match sendInternal IpcTypeFlag_Invoke (ii_event options)
          (responseListenerId ++ SPACE :: ii_payload options)
          (ii_force options) w2 with
  | Ok w3 => (promise, w3)
  | Throws e w3 => (promise, settle promise (Rejected e) w3)
  end.

(** [invokeStreamInternal(options, responseListenerId, streamId)] *)
Definition invokeStreamInternal (options : InternalInvokeOptions)
    (responseListenerId streamId : jsstring) (w : World) : nat * World :=
  let timeoutIdVar := nextVar w in
  let promise := nextPromise w in
  let w0 := withNextVar (S timeoutIdVar) (withNextPromise (S promise) w) in
  let w1 :=
    setListener responseListenerId
      (InvokeStreamResponse responseListenerId timeoutIdVar
         (ii_throwFailures options) promise)
      w0 in
  (promise,
   sendStreamInternal IpcTypeFlag_InvokeStream (ii_event options)
     (responseListenerId ++ SPACE :: ii_payload options) streamId
     (ii_force options)
     (Some (ArmInvokeTimeout timeoutIdVar responseListenerId promise
              (ii_event options)))
     w1).

(** [invoke(options)] *)
Definition invoke (options : InvokeOptions) (w : World) : nat * World :=
  let internal :=
    {| ii_event := io_event options;
       ii_payload := serialize (io_payload options);
       ii_force := io_force options;
       ii_throwFailures := io_throwFailures options |} in
  let '(responseListenerId, w1) := generateListenerUid w in
  invokeInternal internal responseListenerId w1.

(** [invokeStream(options)] *)
Definition invokeStream (options : InvokeOptions) (w : World) : nat * World :=
  let internal :=
    {| ii_event := io_event options;
       ii_payload := serialize (io_payload options);
       ii_force := io_force options;
       ii_throwFailures := io_throwFailures options |} in
  let '(responseListenerId, w1) := generateListenerUid w in
  let '(streamId, w2) := generateStreamUid w1 in
  invokeStreamInternal internal responseListenerId streamId w2.

(** [invokeAuto(options)] *)
Definition invokeAuto (options : InvokeOptions) (w : World) : nat * World :=
  let serialized := serialize (io_payload options) in
  let '(responseListenerId, w1) := generateListenerUid w in
  let actualPayloadLength :=
    (length serialized + length responseListenerId + 1)%nat in
  let internal :=
    {| ii_event := io_event options;
       ii_payload := serialized;
       ii_force := io_force options;
       ii_throwFailures := io_throwFailures options |} in
  if bool_decide (MAX_MESSAGE_LENGTH < actualPayloadLength)%nat then
    let '(streamId, w2) := generateStreamUid w1 in
    invokeStreamInternal internal responseListenerId streamId w2
  else invokeInternal internal responseListenerId w1.

(** [payload instanceof Failure] *)
Definition isFailure (v : SerializableValue) : bool :=
  match v with
  | Failure _ => true
  | Plain _ => false
  end.

(** [payload.__IPCFAILURE__] when ["__IPCFAILURE__" in payload]. *)
Fixpoint getMember (k : jsstring) (members : list (jsstring * Json))
  : option Json :=
  match members with
  | [] => None
  | (k', v) :: rest => if bool_decide (k' = k) then Some v else getMember k rest
  end.

(** [parseRawPayload(rawPayload)]; [None] when [JSON.parse] throws.
    At run time the argument can be [undefined]. *)
Definition parseRawPayload (rawPayload : option jsstring)
  : option SerializableValue :=
  match parse (toStringU rawPayload) with
  | None => None
  | Some payload =>
      match payload with
      | JObject members =>
          match getMember IPCFAILURE members with
          | Some m => Some (Failure m)
          | None => Some (Plain payload)
          end
      | _ => Some (Plain payload)
      end
  end.

(** The promise of an invoke is settled by its response closure. *)
Definition settleInvoke (throwFailures : bool) (promise : nat)
    (payload : SerializableValue) (w : World) : World :=
  if isFailure payload && throwFailures
  then settle promise (Rejected (Data payload)) w
  else settle promise (Fulfilled payload) w.

(** [listener(payload)] *)
Definition callFunction (listener : ScriptEventListener)
    (payload : SerializableValue) (w : World) : Completion * World :=
  match listener with
  | Callback f => (f payload, w)
  | InvokeResponse responseListenerId timeoutId throwFailures promise =>
      let w1 := snd (removeListener responseListenerId w) in
      let w2 := clearRun timeoutId w1 in
      (Return (Plain JNull), settleInvoke throwFailures promise payload w2)
  | InvokeStreamResponse responseListenerId timeoutIdVar throwFailures promise =>
      let w1 := snd (removeListener responseListenerId w) in
      let w2 :=
        match timeoutIdVars w1 !! timeoutIdVar with
        | Some timeoutId => clearRun timeoutId w1
        | None => w1
        end in
      (Return (Plain JNull), settleInvoke throwFailures promise payload w2)
  end.

(** Suspend at [await x]. *)
Definition suspend (k : Continuation) (outcome : option Settlement)
    (micro : bool) (w : World) : World :=
  withTasks (tasks w ++ [{| continuation := k; awaited := outcome;
                            isMicrotask := micro |}]) w.

(** [if (response instanceof Failure) response = { __IPCFAILURE__: response.message }] *)
Definition envelope (response : SerializableValue) : SerializableValue :=
  match response with
  | Failure message => Plain (JObject [(IPCFAILURE, message)])
  | Plain _ => response
  end.

(** [invokeListener] from the end of its [try] statement on:
    [response] and [err] are what the [try] left. *)
Definition invokeListenerRest (responseEvent : jsstring)
    (response : SerializableValue) (err : Value) (w : World) : World :=
  let w1 :=
    voidSendAuto {| so_event := responseEvent; so_payload := envelope response;
                    so_force := false |} w in
  if truthy err then warn err w1 else w1.

(** [invokeListener(listener, responseEvent, rawPayload)] up to its
    [await]; at run time [rawPayload] can be [undefined]. *)
Definition invokeListener (listener : ScriptEventListener)
    (responseEvent : jsstring) (rawPayload : option jsstring) (w : World)
  : World :=
  match parseRawPayload rawPayload with
  | None => unhandledRejection SyntaxError w
  | Some payload =>
      let '(c, w1) := callFunction listener payload w in
      match c with
      | Throw e => invokeListenerRest responseEvent (Plain JNull) e w1
      | Return v =>
          suspend (AfterInvoke responseEvent) (Some (Fulfilled v)) true w1
      | ReturnPromise outcome =>
          suspend (AfterInvoke responseEvent) outcome false w1
      end
  end.

(** [callListener] after its [await]. *)
Definition callListenerRest (s : Settlement) (w : World) : World :=
  match s with
  | Fulfilled (Failure m) => warn (Data (Failure m)) w
  | Fulfilled (Plain _) => w
  | Rejected err => warn err w
  end.

(** [callListener(listener, rawPayload)] up to its [await]. *)
Definition callListener (listener : ScriptEventListener)
    (rawPayload : option jsstring) (w : World) : World :=
  match parseRawPayload rawPayload with
  | None => unhandledRejection SyntaxError w
  | Some payload =>
      let '(c, w1) := callFunction listener payload w in
      match c with
      | Throw err => warn err w1
      | Return v => suspend AfterCall (Some (Fulfilled v)) true w1
      | ReturnPromise outcome => suspend AfterCall outcome false w1
      end
  end.

(** The continuation of an [await], once what it waits for settled. *)
Definition resume (k : Continuation) (s : Settlement) (w : World) : World :=
  match k with
  | AfterInvoke responseEvent =>
      match s with
      | Fulfilled v => invokeListenerRest responseEvent v Undefined w
      | Rejected e => invokeListenerRest responseEvent (Plain JNull) e w
      end
  | AfterCall => callListenerRest s w
  end.

(** [routeEvent(id, rawMsg)] *)
Definition routeEvent (id rawMsg : jsstring) (w : World) : Result :=
  match listeners (router w) !! id with
  | None => Ok w
  | Some listener =>
      match rawMsg with
      | [] => Ok w
      | ipcTypeFlag :: message =>
          if ipcTypeFlag =? IpcTypeFlag_Send then
            Ok (callListener listener (Some message) w)
          else if ipcTypeFlag =? IpcTypeFlag_Invoke then
            let '(responseEvent, payload) := splitFirst message in
            Ok (invokeListener listener responseEvent payload w)
          else if (ipcTypeFlag =? IpcTypeFlag_InvokeStream)
                  || (ipcTypeFlag =? IpcTypeFlag_SendStream) then
            let '(id, afterId) := splitFirst message in
            match afterId with
            | None => Throws TypeError w
            | Some afterId =>
                let '(isEndRaw, content) := splitFirst afterId in
                let isEnd := bool_decide (isEndRaw = [FLAG_END]) in
                let cachedContent :=
                  default [] (pendingStreams (router w) !! id) in
                let fullContent := cachedContent ++ toStringU content in
                if negb isEnd then
                  Ok (withRouter (withPendingStreams (insert id fullContent)) w)
                else
                  let w1 := withRouter (withPendingStreams (delete id)) w in
                  if ipcTypeFlag =? IpcTypeFlag_InvokeStream then
                    let '(responseEvent, payload) := splitFirst fullContent in
                    Ok (invokeListener listener responseEvent payload w1)
                  else Ok (callListener listener (Some fullContent) w1)
            end
          else Ok w
      end
  end.

(** *** The host's event loop *)

(** [onScriptEventRecieved(e)], called by the host while subscribed. *)
Definition onScriptEventRecieved (id message : jsstring) (w : World) : World :=
  match routeEvent id message w with
  | Ok w' => w'
  | Throws e w' => withHostErrors (hostErrors w' ++ [e]) w'
  end.

(** The callback of a run. *)
Definition fire (r : Run) (w : World) : World :=
  match runCallback r with
  | InvokeTimeout responseListenerId promise event =>
      settle promise (Rejected (timedOut event))
        (snd (removeListener responseListenerId w))
  end.

Definition isDue (now : nat) (r : Run) : bool := bool_decide (dueTick r ≤ now)%nat.

(** One game tick: the runs that are due are taken off the schedule
    and their callbacks called, oldest first. *)
Definition tick (w : World) : World :=
  let now := S (currentTick w) in
  let due := filter (fun r => isDue now r = true) (runs w) in
  let rest := filter (fun r => isDue now r ≠ true) (runs w) in
  foldl (fun w r => fire r w) (withRuns rest (withTick now w)) due.

(** The [finally] callback of [invokeStreamInternal]. *)
Definition runFinally (fin : Finally) (w : World) : World :=
  match fin with
  | ArmInvokeTimeout timeoutIdVar responseListenerId promise event =>
      let '(timeoutId, w1) :=
        runTimeout (InvokeTimeout responseListenerId promise event) 20 w in
      withTimeoutIdVars (<[timeoutIdVar := timeoutId]> (timeoutIdVars w1)) w1
  end.

(** Stream job [k] transmits its next frame; after the last one its
    promise settles and the [finally] callback runs. *)
Definition transmit (k : nat) (w : World) : World :=
  match jobs w !! k with
  | None => w
  | Some job =>
      match pendingFrames job with
      | [] => w
      | frame :: rest =>
          let w1 := withWire (wire w ++ [frame]) w in
          match rest with
          | _ :: _ =>
              withJobs (<[k := {| pendingFrames := rest;
                                  onFinally := onFinally job |}]> (jobs w1)) w1
          | [] =>
              let w2 :=
                withJobs (<[k := {| pendingFrames := []; onFinally := None |}]>
                            (jobs w1)) w1 in
              match onFinally job with
              | Some fin => runFinally fin w2
              | None => w2
              end
          end
      end
  end.

(** The promise task [k] waits for settles and the task resumes. *)
Definition settleTask (k : nat) (w : World) : World :=
  match tasks w !! k with
  | None => w
  | Some t =>
      match awaited t with
      | None => w
      | Some s => resume (continuation t) s (withTasks (delete k (tasks w)) w)
      end
  end.

(** The microtask queue is emptied: every task that waits for a plain
    value resumes, oldest first. *)
Definition resumeTask (w : World) (t : Task) : World :=
  match awaited t with
  | Some s => resume (continuation t) s w
  | None => w
  end.

Definition runMicrotasks (w : World) : World :=
  let micro := filter (fun t => isMicrotask t = true) (tasks w) in
  let rest := filter (fun t => isMicrotask t ≠ true) (tasks w) in
  foldl resumeTask (withTasks rest w) micro.

(** What the host does between two runs of the router's code. *)
Inductive Event :=
| ScriptEvent (id message : jsstring)   (* a script event is received *)
| Tick                                  (* a game tick passes *)
| Transmit (job : nat)                  (* a stream transmits a chunk *)
| Settle (task : nat).                  (* an awaited promise settles *)

Definition handle (e : Event) (w : World) : World :=
  match e with
  | ScriptEvent id message =>
      if subscribed w then onScriptEventRecieved id message w else w
  | Tick => tick w
  | Transmit k => transmit k w
  | Settle k => settleTask k w
  end.

(** One turn of the event loop. *)
Definition step (w : World) (e : Event) : World :=
  runMicrotasks (handle e w).

Definition run (es : list Event) (w : World) : World := foldl step w es.

End Router.

(** ** Notions used in the statements *)

(** A text without line terminator is matched whole by the dot-star. *)
Definition singleLine (s : jsstring) : Prop :=
  Forall (fun c => isLineTerminator c = false) s.

(** The message of one chunk: stream id, end flag and fragment. *)
Definition chunkBody (streamId : jsstring) (flag : N) (part : jsstring) : jsstring :=
  streamId ++ SPACE :: flag :: SPACE :: part.

Section Notions.
Context `{Common}.

(** A stream type flag. *)
Definition isStreamFlag (flag : N) : Prop :=
  flag = IpcTypeFlag_SendStream \/ flag = IpcTypeFlag_InvokeStream.

(** The buffer of a stream is set, is removed, is read. *)
Definition buffered (streamId content : jsstring) (w : World) : World :=
  withRouter (withPendingStreams (insert streamId content)) w.

Definition unbuffered (streamId : jsstring) (w : World) : World :=
  withRouter (withPendingStreams (delete streamId)) w.

Definition cached (streamId : jsstring) (w : World) : jsstring :=
  default [] (pendingStreams (router w) !! streamId).

(** The frames of one stream arrive one after the other. *)
Definition deliverAll (id : jsstring) (messages : list jsstring) (w : World)
  : World :=
  foldl (fun w m => onScriptEventRecieved id m w) w messages.

End Notions.

(** ** Frames and invariants of the event loop *)

(** [w'] comes from [w] by steps that leave alone everything an invoke
    depends on: listeners, scheduled runs, promises, [timeoutId]
    variables, the clock and the subscription; stream jobs may have
    been added, none with a [finally] callback. *)
Record quiet (w w' : World) : Prop := {
  quiet_listeners : listeners (router w') = listeners (router w);
  quiet_runs : runs w' = runs w;
  quiet_nextRunId : nextRunId w' = nextRunId w;
  quiet_promises : promises w' = promises w;
  quiet_nextPromise : nextPromise w' = nextPromise w;
  quiet_vars : timeoutIdVars w' = timeoutIdVars w;
  quiet_nextVar : nextVar w' = nextVar w;
  quiet_tick : currentTick w' = currentTick w;
  quiet_subscribed : subscribed w' = subscribed w;
  quiet_jobs : exists new, jobs w' = jobs w ++ new
                           /\ Forall (fun j => onFinally j = None) new;
}.

(** No task waits in the microtask queue. *)
Definition drained (w : World) : Prop :=
  Forall (fun t => isMicrotask t = false) (tasks w).

(** The number of game ticks in a trace. *)
Fixpoint ticks (es : list Event) : nat :=
  match es with
  | [] => 0
  | Tick :: es' => S (ticks es')
  | _ :: es' => ticks es'
  end.

(** No script event of the trace is addressed to [id]. *)
Definition silentEvent (id : jsstring) (e : Event) : Prop :=
  match e with
  | ScriptEvent id' _ => id' ≠ id
  | _ => True
  end.

Definition silent (id : jsstring) (es : list Event) : Prop :=
  Forall (silentEvent id) es.

(** A listener, a run or a [finally] callback that belongs to another
    invoke than the one with response id [respId] and promise [p]. *)
Definition foreignListener (respId : jsstring) (p : nat)
    (l : ScriptEventListener) : Prop :=
  match l with
  | Callback _ => True
  | InvokeResponse rid _ _ p' => rid ≠ respId /\ p' ≠ p
  | InvokeStreamResponse rid _ _ p' => rid ≠ respId /\ p' ≠ p
  end.

Definition foreignCallback (respId : jsstring) (p : nat) (c : RunCallback)
  : Prop :=
  match c with
  | InvokeTimeout rid p' _ => rid ≠ respId /\ p' ≠ p
  end.

Definition foreignFinally (respId : jsstring) (p : nat) (fin : Finally) : Prop :=
  match fin with
  | ArmInvokeTimeout _ rid p' _ => rid ≠ respId /\ p' ≠ p
  end.

Definition finallyVar (fin : Finally) : nat :=
  match fin with
  | ArmInvokeTimeout var _ _ _ => var
  end.

(** The run id a response closure would clear. *)
Definition clearsRun (t : nat) (l : ScriptEventListener) : Prop :=
  match l with
  | InvokeResponse _ t' _ _ => t' = t
  | _ => False
  end.

(** The invoke with response id [respId] and promise [p] waits for its
    response: its closure [l] is registered, its promise is pending,
    and no other listener belongs to it. *)
Record awaiting (respId : jsstring) (p : nat) (l : ScriptEventListener)
    (w : World) : Prop := {
  aw_listener : listeners (router w) !! respId = Some l;
  aw_pending : promises w !! p = None;
  aw_foreign : forall k l', listeners (router w) !! k = Some l' -> k ≠ respId ->
                 foreignListener respId p l';
}.

(** The timeout of that invoke is scheduled as run [t] for tick [due],
    nothing else can clear this run, and every other run, and every
    run that can still be scheduled, belongs to another invoke. *)
Record armed (respId : jsstring) (t p : nat) (event : jsstring) (due : nat)
    (w : World) : Prop := {
  ar_run : {| runId := t; dueTick := due;
              runCallback := InvokeTimeout respId p event |} ∈ runs w;
  ar_unique : forall r, r ∈ runs w -> runId r = t ->
                r = {| runId := t; dueTick := due;
                       runCallback := InvokeTimeout respId p event |};
  ar_runs : forall r, r ∈ runs w -> runId r ≠ t ->
              foreignCallback respId p (runCallback r);
  ar_fresh : (t < nextRunId w)%nat;
  ar_listeners : forall k l', listeners (router w) !! k = Some l' -> k ≠ respId ->
                   ~ clearsRun t l';
  ar_vars : forall var, timeoutIdVars w !! var ≠ Some t;
  ar_jobs : forall job fin, job ∈ jobs w -> onFinally job = Some fin ->
              foreignFinally respId p fin;
}.

(** Stream job [j] has frames left to transmit. *)
Definition incomplete (j : nat) (w : World) : Prop :=
  exists job, jobs w !! j = Some job /\ pendingFrames job ≠ [].

(** The streamed invoke with response id [respId] and promise [p] is
    still transmitting as job [j]: the [finally] callback that arms its
    timeout has not run, its [timeoutId] variable is [undefined], and
    every run, and every other run that can still be scheduled,
    belongs to another invoke. *)
Record unarmed (respId : jsstring) (p var j : nat) (event : jsstring)
    (w : World) : Prop := {
  un_job : exists job, jobs w !! j = Some job /\ pendingFrames job ≠ []
             /\ onFinally job = Some (ArmInvokeTimeout var respId p event);
  un_runs : forall r, r ∈ runs w -> foreignCallback respId p (runCallback r);
  un_var : timeoutIdVars w !! var = None;
  un_jobs : forall k job fin, jobs w !! k = Some job -> k ≠ j ->
              onFinally job = Some fin ->
              foreignFinally respId p fin /\ finallyVar fin ≠ var;
}.

(** What a world must satisfy for a new invoke with response id
    [respId] to be on its own: nothing in it refers to [respId], to
    the promise or to the run the invoke is about to create. *)
Record unused (respId : jsstring) (w : World) : Prop := {
  nu_listeners : forall k l, listeners (router w) !! k = Some l -> k ≠ respId ->
                   foreignListener respId (nextPromise w) l
                   /\ ~ clearsRun (nextRunId w) l;
  nu_runs : forall r, r ∈ runs w ->
              (runId r < nextRunId w)%nat
              /\ foreignCallback respId (nextPromise w) (runCallback r);
  nu_vars : forall var, timeoutIdVars w !! var ≠ Some (nextRunId w);
  nu_var : timeoutIdVars w !! nextVar w = None;
  nu_jobs : forall job fin, job ∈ jobs w -> onFinally job = Some fin ->
              foreignFinally respId (nextPromise w) fin
              /\ finallyVar fin ≠ nextVar w;
  nu_promise : promises w !! nextPromise w = None;
}.

(** [w'] is a later world than [w]: a listener id that is free stays
    free and a promise that is settled stays as it is. *)
Definition later (w w' : World) : Prop :=
  (forall k, listeners (router w) !! k = None ->
             listeners (router w') !! k = None)
  /\ (forall p s, promises w !! p = Some s -> promises w' !! p = Some s).

(** [w'] differs from [w] by listeners that were removed and promises
    that were settled. *)
Record narrowed (w w' : World) : Prop := {
  na_listeners : forall k l, listeners (router w') !! k = Some l ->
                   listeners (router w) !! k = Some l;
  na_runs : runs w' = runs w;
  na_nextRunId : nextRunId w' = nextRunId w;
  na_vars : timeoutIdVars w' = timeoutIdVars w;
  na_jobs : jobs w' = jobs w;
  na_tick : currentTick w' = currentTick w;
}.

(** How the promise of an invoke settles when [payload] is delivered
    to its response listener. *)
Definition responseOutcome (throwFailures : bool) (payload : SerializableValue)
  : Settlement :=
  if isFailure payload && throwFailures then Rejected (Data payload)
  else Fulfilled payload.

(** Run [t] is not scheduled and its id is used up. *)
Definition noRun (t : nat) (w : World) : Prop :=
  (forall r, r ∈ runs w -> runId r ≠ t) /\ (t < nextRunId w)%nat.

Section Effects.
Context `{Common}.

(** A world the call of one listener leads to, or the world itself. *)
Definition afterCall (id : jsstring) (w w1 : World) : Prop :=
  w1 = w
  \/ exists l payload, listeners (router w) !! id = Some l
                       /\ w1 = (callFunction l payload w).2.

(** One turn of the event loop is: at most one listener call for a
    script event, the tick, or one transmission; followed by steps
    that are quiet. *)
Definition effectOf (e : Event) (w w1 : World) : Prop :=
  match e with
  | ScriptEvent id _ => afterCall id w w1
  | Tick => w1 = tick w
  | Transmit k => w1 = transmit k w
  | Settle _ => w1 = w
  end.

End Effects.

(** Proves [quiet w w'] when [w'] is [w] with other fields updated. *)
Ltac quiet_tac :=
  constructor; simpl; try done; by (exists []; rewrite app_nil_r).

(** ** A concrete setting for the examples *)

(** The flags are the digits 0 to 3 and a uid has at most 32
    characters. *)
Definition exampleCommon : Common :=
  {| IpcTypeFlag_Send := 48; IpcTypeFlag_Invoke := 49;
     IpcTypeFlag_SendStream := 50; IpcTypeFlag_InvokeStream := 51;
     MAX_ROUTER_UID_LENGTH := 32 |}.

(** The world right after [new Router("r")] and the registration of
    [callback] under ["app:h"]. *)
Definition exampleWorld (callback : ScriptEventListener) : World :=
  {| router := {| uid := lit "r"; internalIsValid := true;
                  pendingStreams := ∅;
                  listeners := {[ lit "app:h" := callback ]};
                  listenerUidsGenerated := 0;
                  streamUidsGenerated := 0 |};
     subscribed := true;
     currentTick := 0; runs := []; nextRunId := 0;
     promises := ∅; nextPromise := 0;
     timeoutIdVars := ∅; nextVar := 0;
     wire := []; jobs := []; tasks := [];
     warnings := []; rejections := []; hostErrors := [] |}.

(** An application callback that returns what it is given. *)
Definition echo : ScriptEventListener := Callback Return.

(** An application callback that returns [Failure(message)]. *)
Definition failing (message : jsstring) : ScriptEventListener :=
  Callback (fun _ => Return (Failure (JString message))).

(** An application callback that returns a string of 500 characters. *)
Definition verbose : ScriptEventListener :=
  Callback (fun _ => Return (Plain (JString (repeat 97 500)))).

(** A string of 501 characters with the line separator U+2028 in it,
    and its serialized text. *)
Definition twoLines : jsstring := repeat 97 400 ++ 8232 :: repeat 98 100.

(** The script events that deliver [frames], in order. *)
Definition delivery (frames : list Frame) : list Event :=
  map (fun f => ScriptEvent f.1 f.2) frames.

(** The options of an invoke of ["app:h"] with payload [null]. *)
Definition exampleInvoke (throwFailures : bool) : InternalInvokeOptions :=
  {| ii_event := lit "app:h"; ii_payload := lit "null";
     ii_force := false; ii_throwFailures := throwFailures |}.

(** ** Notions for the round trips through the serializer *)

(** The value of a digit character written by [toString(radix)]. *)
Definition digitValue (c : N) : N := if c <? 58 then c - 48 else c - 87.

(** The number a string of such digits denotes. *)
Definition valueOf (radix : N) (s : jsstring) : N :=
  foldl (fun a c => a * radix + digitValue c) 0 s.

(** A value [JSON.parse] can return: no object in it has a key twice. *)
Fixpoint canonical (j : Json) : bool :=
  match j with
  | JArray elems => forallb canonical elems
  | JObject members =>
      bool_decide (NoDup (map fst members))
      && forallb (fun kv : jsstring * Json => canonical kv.2) members
  | _ => true
  end.

(** No string and no key of the value holds one of the two separators
    [JSON.stringify] writes as they are, U+2028 and U+2029. *)
Definition plainString (s : jsstring) : bool :=
  forallb (fun c => negb ((c =? 8232) || (c =? 8233))) s.

Fixpoint plainText (j : Json) : bool :=
  match j with
  | JString s => plainString s
  | JArray elems => forallb plainText elems
  | JObject members =>
      forallb (fun kv : jsstring * Json => plainString kv.1 && plainText kv.2) members
  | _ => true
  end.

(** The text that follows a value inside a larger one: nothing, a
    comma, or a closing bracket or brace. *)
Definition delimited (r : jsstring) : Prop :=
  match r with
  | [] => True
  | c :: _ => c = 44 \/ c = 93 \/ c = 125
  end.

(** What may follow a number literal. *)
Definition endsNumber (r : jsstring) : Prop :=
  match r with
  | [] => True
  | c :: _ => isDigit c = false /\ c ≠ 46 /\ c ≠ 101 /\ c ≠ 69
  end.

(** A serialized value followed by a delimiter is read back, given [f]
    units of fuel. *)
Definition readsBack (f : nat) (j : Json) : Prop :=
  forall r, delimited r -> parseValue f (stringify j ++ r) = Some (j, r).

(** The text of one member of an object, as [stringify] writes it. *)
Definition memberText (kv : jsstring * Json) : jsstring :=
  let (k, v) := kv in quote k ++ 58 :: stringify v.

(** What [parseRawPayload] makes of the value [JSON.parse] returned. *)
Definition asPayload (payload : Json) : SerializableValue :=
  match payload with
  | JObject members =>
      match getMember IPCFAILURE members with
      | Some m => Failure m
      | None => Plain payload
      end
  | _ => Plain payload
  end.

(** The value [invokeListener] hands to [sendAuto] for [response]. *)
Definition onWire (response : SerializableValue) : Json :=
  match response with
  | Plain j => j
  | Failure message => JObject [(IPCFAILURE, message)]
  end.

(** Plain data that is not an object with the reserved key. *)
Definition unreserved (v : SerializableValue) : Prop :=
  match v with
  | Plain (JObject members) => getMember IPCFAILURE members = None
  | _ => True
  end.

(** The events of a trace that are not script events. *)
Definition isScriptEvent (e : Event) : bool :=
  match e with
  | ScriptEvent _ _ => true
  | _ => false
  end.

Definition hostEvents (es : list Event) : list Event :=
  filter (fun e => isScriptEvent e = false) es.

(** A non-terminal chunk on arrival: the event id it is addressed to,
    its stream type flag, its stream id and its fragment. *)
Record Fragment := {
  fr_event : jsstring;
  fr_flag : N;
  fr_stream : jsstring;
  fr_part : jsstring;
}.

(** The fragments of stream [s] among [cs], in order of arrival. *)
Definition fragmentsOf (s : jsstring) (cs : list Fragment) : list jsstring :=
  map fr_part (filter (fun c => fr_stream c = s) cs).

Section Fragments.
Context `{Common}.

Definition deliverFragment (w : World) (c : Fragment) : World :=
  onScriptEventRecieved (fr_event c)
    (fr_flag c :: chunkBody (fr_stream c) FLAG_MORE (fr_part c)) w.

Definition deliverFragments (cs : list Fragment) (w : World) : World :=
  foldl deliverFragment w cs.

(** [w] with the stream buffers [m]. *)
Definition withBuffers (m : gmap jsstring jsstring) (w : World) : World :=
  withRouter (withPendingStreams (fun _ => m)) w.

End Fragments.

(** * The function-based module that preceded the router

    The module keeps its registries in top-level variables; they are
    the fields of [State], together with the state of the host. *)

Module Legacy.

(** What a call of an application function does: it returns a value
    or throws. *)
Inductive Outcome (A : Type) :=
| Returns (a : A)
| Raises (e : Value).
Arguments Returns {A} a.
Arguments Raises {A} e.

(** A [ScriptEventHandler]: its argument and its result can be
    [undefined] ([None]). *)
Definition Handler : Type := option Json -> Outcome (option Json).

(** A [ScriptEventListener]: an application callback, which returns
    ([None]) or throws, or the closure [invokeScriptEvent] registers for
    the response, represented by what it captures. *)
Inductive Listener :=
| Callback (f : Json -> option Value)
| ResponseListener (responseListenerId : jsstring) (timeoutId : nat) (promise : nat).

(** The callback [invokeScriptEvent] gives to [system.runTimeout]. *)
Inductive RunCallback :=
| Timeout (responseListenerId : jsstring) (promise : nat) (event : jsstring).

Record Run := {
  runId : nat;
  dueTick : nat;
  runCallback : RunCallback;
}.

#[global] Instance RunCallback_eq_dec : EqDecision RunCallback.
Proof. solve_decision. Defined.

#[global] Instance Run_eq_dec : EqDecision Run.
Proof. solve_decision. Defined.

Inductive Settled :=
| Resolved (payload : Json)
| Rejected (e : Value).

Record State := {
  (** the module's three registries *)
  listeners : gmap jsstring Listener;
  streamListeners : gmap jsstring (Json -> option Value);
  handlers : gmap jsstring Handler;
  (** the module counters *)
  invokeCount : N;
  streamCount : N;
  (** key: stream id; value: the content received so far *)
  pendingStreams : gmap jsstring jsstring;
  (** the host: clock, scheduled runs, settled promises, the commands run
      by [dispatchScriptEventRaw] and the exceptions that reached the host *)
  currentTick : nat;
  runs : list Run;
  nextRunId : nat;
  promises : gmap nat Settled;
  nextPromise : nat;
  wire : list Frame;
  hostErrors : list Value;
}.

Definition withListeners (x : gmap jsstring Listener) (s : State) : State :=
  {| listeners := x; streamListeners := streamListeners s;
     handlers := handlers s; invokeCount := invokeCount s;
     streamCount := streamCount s; pendingStreams := pendingStreams s;
     currentTick := currentTick s; runs := runs s; nextRunId := nextRunId s;
     promises := promises s; nextPromise := nextPromise s; wire := wire s;
     hostErrors := hostErrors s |}.

Definition withStreamListeners (x : gmap jsstring (Json -> option Value)) (s : State) : State :=
  {| listeners := listeners s; streamListeners := x; handlers := handlers s;
     invokeCount := invokeCount s; streamCount := streamCount s;
     pendingStreams := pendingStreams s; currentTick := currentTick s;
     runs := runs s; nextRunId := nextRunId s; promises := promises s;
     nextPromise := nextPromise s; wire := wire s;
     hostErrors := hostErrors s |}.

Definition withHandlers (x : gmap jsstring Handler) (s : State) : State :=
  {| listeners := listeners s; streamListeners := streamListeners s;
     handlers := x; invokeCount := invokeCount s;
     streamCount := streamCount s; pendingStreams := pendingStreams s;
     currentTick := currentTick s; runs := runs s; nextRunId := nextRunId s;
     promises := promises s; nextPromise := nextPromise s; wire := wire s;
     hostErrors := hostErrors s |}.

Definition withInvokeCount (x : N) (s : State) : State :=
  {| listeners := listeners s; streamListeners := streamListeners s;
     handlers := handlers s; invokeCount := x; streamCount := streamCount s;
     pendingStreams := pendingStreams s; currentTick := currentTick s;
     runs := runs s; nextRunId := nextRunId s; promises := promises s;
     nextPromise := nextPromise s; wire := wire s;
     hostErrors := hostErrors s |}.

Definition withStreamCount (x : N) (s : State) : State :=
  {| listeners := listeners s; streamListeners := streamListeners s;
     handlers := handlers s; invokeCount := invokeCount s; streamCount := x;
     pendingStreams := pendingStreams s; currentTick := currentTick s;
     runs := runs s; nextRunId := nextRunId s; promises := promises s;
     nextPromise := nextPromise s; wire := wire s;
     hostErrors := hostErrors s |}.

Definition withPendingStreams (x : gmap jsstring jsstring) (s : State) : State :=
  {| listeners := listeners s; streamListeners := streamListeners s;
     handlers := handlers s; invokeCount := invokeCount s;
     streamCount := streamCount s; pendingStreams := x;
     currentTick := currentTick s; runs := runs s; nextRunId := nextRunId s;
     promises := promises s; nextPromise := nextPromise s; wire := wire s;
     hostErrors := hostErrors s |}.

Definition withCurrentTick (x : nat) (s : State) : State :=
  {| listeners := listeners s; streamListeners := streamListeners s;
     handlers := handlers s; invokeCount := invokeCount s;
     streamCount := streamCount s; pendingStreams := pendingStreams s;
     currentTick := x; runs := runs s; nextRunId := nextRunId s;
     promises := promises s; nextPromise := nextPromise s; wire := wire s;
     hostErrors := hostErrors s |}.

Definition withRuns (x : list Run) (s : State) : State :=
  {| listeners := listeners s; streamListeners := streamListeners s;
     handlers := handlers s; invokeCount := invokeCount s;
     streamCount := streamCount s; pendingStreams := pendingStreams s;
     currentTick := currentTick s; runs := x; nextRunId := nextRunId s;
     promises := promises s; nextPromise := nextPromise s; wire := wire s;
     hostErrors := hostErrors s |}.

Definition withNextRunId (x : nat) (s : State) : State :=
  {| listeners := listeners s; streamListeners := streamListeners s;
     handlers := handlers s; invokeCount := invokeCount s;
     streamCount := streamCount s; pendingStreams := pendingStreams s;
     currentTick := currentTick s; runs := runs s; nextRunId := x;
     promises := promises s; nextPromise := nextPromise s; wire := wire s;
     hostErrors := hostErrors s |}.

Definition withPromises (x : gmap nat Settled) (s : State) : State :=
  {| listeners := listeners s; streamListeners := streamListeners s;
     handlers := handlers s; invokeCount := invokeCount s;
     streamCount := streamCount s; pendingStreams := pendingStreams s;
     currentTick := currentTick s; runs := runs s; nextRunId := nextRunId s;
     promises := x; nextPromise := nextPromise s; wire := wire s;
     hostErrors := hostErrors s |}.

Definition withNextPromise (x : nat) (s : State) : State :=
  {| listeners := listeners s; streamListeners := streamListeners s;
     handlers := handlers s; invokeCount := invokeCount s;
     streamCount := streamCount s; pendingStreams := pendingStreams s;
     currentTick := currentTick s; runs := runs s; nextRunId := nextRunId s;
     promises := promises s; nextPromise := x; wire := wire s;
     hostErrors := hostErrors s |}.

Definition withWire (x : list Frame) (s : State) : State :=
  {| listeners := listeners s; streamListeners := streamListeners s;
     handlers := handlers s; invokeCount := invokeCount s;
     streamCount := streamCount s; pendingStreams := pendingStreams s;
     currentTick := currentTick s; runs := runs s; nextRunId := nextRunId s;
     promises := promises s; nextPromise := nextPromise s; wire := x;
     hostErrors := hostErrors s |}.

Definition withHostErrors (x : list Value) (s : State) : State :=
  {| listeners := listeners s; streamListeners := streamListeners s;
     handlers := handlers s; invokeCount := invokeCount s;
     streamCount := streamCount s; pendingStreams := pendingStreams s;
     currentTick := currentTick s; runs := runs s; nextRunId := nextRunId s;
     promises := promises s; nextPromise := nextPromise s; wire := wire s;
     hostErrors := x |}.
(** What a call leaves behind: it returns, or it throws [e]. *)
Inductive Result :=
| Ok (s : State)
| Throws (e : Value) (s : State).

Definition initial : State :=
  {| listeners := ∅; streamListeners := ∅; handlers := ∅;
     invokeCount := 0; streamCount := 0; pendingStreams := ∅;
     currentTick := 0; runs := []; nextRunId := 0;
     promises := ∅; nextPromise := 0; wire := []; hostErrors := [] |}.

(** *** The host *)

(** [resolve] and [reject] of promise [p]: the first call settles it. *)
Definition settle (p : nat) (x : Settled) (s : State) : State :=
  match promises s !! p with
  | Some _ => s
  | None => withPromises (<[p := x]> (promises s)) s
  end.

(** [system.runTimeout(callback, delay)] *)
Definition runTimeout (callback : RunCallback) (delay : nat) (s : State)
  : nat * State :=
  let id := nextRunId s in
  (id, withNextRunId (S id)
         (withRuns (runs s ++ [{| runId := id; dueTick := currentTick s + delay;
                                  runCallback := callback |}]) s)).

(** [system.clearRun(id)] *)
Definition clearRun (id : nat) (s : State) : State :=
  withRuns (filter (fun r => runId r ≠ id) (runs s)) s.

(** *** The registries *)

(** [eventHasAnythingRegistered(event)] *)
Definition eventHasAnythingRegistered (event : jsstring) (s : State) : bool :=
  bool_decide (is_Some (listeners s !! event))
  || bool_decide (is_Some (streamListeners s !! event))
  || bool_decide (is_Some (handlers s !! event)).

Definition alreadyRegistered (what event : jsstring) : Value :=
  Error (lit "can't register script event " ++ what ++ lit " for event '" ++ event
         ++ lit "': a listener, stream listener, or handler for this event has already been registered").

Definition tooLong (what event : jsstring) : Value :=
  Error (lit "can't register " ++ what ++ lit " for event '" ++ event ++ lit "': '"
         ++ event ++ lit "' is longer than "
         ++ toStringRadix 10 (N.of_nat MAX_EVENT_ID_LENGTH)).

(** [registerScriptEventListener(event, callback)] *)
Definition registerScriptEventListener (event : jsstring) (callback : Listener)
    (s : State) : Result :=
  if eventHasAnythingRegistered event s then
    Throws (alreadyRegistered (lit "listener") event) s
  else if bool_decide (MAX_EVENT_ID_LENGTH < length event)%nat then
    Throws (tooLong (lit "listener") event) s
  else Ok (withListeners (<[event := callback]> (listeners s)) s).

(** [removeScriptEventListener(event)]: the boolean returned and the state. *)
Definition removeScriptEventListener (event : jsstring) (s : State) : bool * State :=
  (bool_decide (is_Some (listeners s !! event)),
   withListeners (delete event (listeners s)) s).

(** [registerScriptEventStreamListener(event, callback)] *)
Definition registerScriptEventStreamListener (event : jsstring)
    (callback : Json -> option Value) (s : State) : Result :=
  if eventHasAnythingRegistered event s then
    Throws (alreadyRegistered (lit "stream listener") event) s
  else if bool_decide (MAX_EVENT_ID_LENGTH < length event)%nat then
    Throws (tooLong (lit "stream listener") event) s
  else Ok (withStreamListeners (<[event := callback]> (streamListeners s)) s).

(** [removeScriptEventStreamListener(event)] *)
Definition removeScriptEventStreamListener (event : jsstring) (s : State)
  : bool * State :=
  (bool_decide (is_Some (streamListeners s !! event)),
   withStreamListeners (delete event (streamListeners s)) s).

(** [registerScriptEventHandler(event, callback)] *)
Definition registerScriptEventHandler (event : jsstring) (callback : Handler)
    (s : State) : Result :=
  if eventHasAnythingRegistered event s then
    Throws (alreadyRegistered (lit "handler") event) s
  else if bool_decide (MAX_EVENT_ID_LENGTH < length event)%nat then
    Throws (tooLong (lit "handler") event) s
  else Ok (withHandlers (<[event := callback]> (handlers s)) s).

(** [removeScriptEventHandler(event)] *)
Definition removeScriptEventHandler (event : jsstring) (s : State) : bool * State :=
  (bool_decide (is_Some (handlers s !! event)),
   withHandlers (delete event (handlers s)) s).

(** *** Dispatching *)

(** [dispatchScriptEventRaw(event, message)]: the command
    [scriptevent <event> <message>] is run; the frame records the two
    strings. *)
Definition dispatchScriptEventRaw (event message : jsstring) (s : State) : State :=
  withWire (wire s ++ [(event, message)]) s.

(** [dispatchScriptEvent(event, payload, force)].  [JSON.stringify] of
    [undefined] is [undefined], whose [length] cannot be read. *)
Definition dispatchScriptEvent (event : jsstring) (payload : option Json)
    (force : bool) (s : State) : Result :=
  let stringifiedPayload := stringify <$> payload in
  if negb force then
    if bool_decide (MAX_EVENT_ID_LENGTH < length event)%nat then
      Throws (Error (lit "can't dispatch script event for event '" ++ event
                     ++ lit "' as the event ID is more than "
                     ++ toStringRadix 10 (N.of_nat MAX_EVENT_ID_LENGTH))) s
    else
      match stringifiedPayload with
      | None => Throws TypeError s
      | Some text =>
          if bool_decide (MAX_MESSAGE_LENGTH < length text)%nat then
            Throws (Error (lit "can't dispatch script event with a message longer than "
                           ++ toStringRadix 10 (N.of_nat MAX_MESSAGE_LENGTH)
                           ++ lit " characters")) s
          else Ok (dispatchScriptEventRaw event text s)
      end
  else Ok (dispatchScriptEventRaw event (toStringU stringifiedPayload) s).

(** The object [{ re: responseListenerId, pl: payload }]; a member
    whose value is [undefined] is left out by [JSON.stringify]. *)
Definition handlerPayload (responseListenerId : jsstring) (payload : option Json)
  : Json :=
  JObject ((lit "re", JString responseListenerId)
           :: match payload with
              | Some pl => [(lit "pl", pl)]
              | None => []
              end).

Definition timedOut (event : jsstring) : Value :=
  Error (lit "invoke script event '" ++ event
         ++ lit "' timed out: did not recieve a response").

(** [invokeScriptEvent(event, namespace, payload, force)]: the promise
    returned and the state.  What the async function or the executor of
    its promise throws is the reason the promise is rejected with. *)
Definition invokeScriptEvent (event namespace : jsstring) (payload : option Json)
    (force : bool) (s : State) : nat * State :=
  let promise := nextPromise s in
  let s0 := withNextPromise (S promise) s in
  if negb force && bool_decide (MAX_NAMESPACE_LENGTH < length namespace)%nat then
    (promise,
     settle promise
       (Rejected (Error (lit "can't invoke script event '" ++ event
                         ++ lit "' using namespace '" ++ namespace ++ lit "': '"
                         ++ namespace ++ lit "' is longer than "
                         ++ toStringRadix 10 (N.of_nat MAX_NAMESPACE_LENGTH)
                         ++ lit " characters"))) s0)
  else
    let responseListenerId :=
      namespace ++ lit ":ipc.__hrl" ++ toStringRadix 10 (invokeCount s0) in
    let s1 := withInvokeCount (invokeCount s0 + 1) s0 in
    let '(timeoutId, s2) :=
      runTimeout (Timeout responseListenerId promise event) 20 s1 in
    match registerScriptEventListener responseListenerId
            (ResponseListener responseListenerId timeoutId promise) s2 with
    | Throws e s3 => (promise, settle promise (Rejected e) s3)
    | Ok s3 =>
        match dispatchScriptEvent event
                (Some (handlerPayload responseListenerId payload)) force s3 with
        | Throws e s4 => (promise, settle promise (Rejected e) s4)
        | Ok s4 => (promise, s4)
        end
    end.

(** [streamScriptEvent(event, namespace, payload, force)] run to its
    end: every frame is dispatched. *)
Definition streamScriptEvent (event namespace : jsstring) (payload : Json)
    (force : bool) (s : State) : Result :=
  match Stream.streamScriptEvent event namespace payload force (streamCount s) with
  | None =>
      Throws (Error (lit "can't stream script event '" ++ event
                     ++ lit "' using namespace '" ++ namespace ++ lit "': '"
                     ++ namespace ++ lit "' is longer than "
                     ++ toStringRadix 10 (N.of_nat MAX_NAMESPACE_LENGTH)
                     ++ lit " characters")) s
  | Some (frames, count) => Ok (withWire (wire s ++ frames) (withStreamCount count s))
  end.

(** *** Receiving *)

(** [listener(payload)] *)
Definition callListener (listener : Listener) (payload : Json) (s : State) : Result :=
  match listener with
  | Callback f =>
      match f payload with
      | Some e => Throws e s
      | None => Ok s
      end
  | ResponseListener responseListenerId timeoutId promise =>
      let s1 := snd (removeScriptEventListener responseListenerId s) in
      let s2 := clearRun timeoutId s1 in
      Ok (settle promise (Resolved payload) s2)
  end.

(** [payload.key] for a parsed payload that is not [null]; [None] is
    [undefined]. *)
Definition field (key : jsstring) (payload : Json) : option Json :=
  match payload with
  | JObject members => getMember key members
  | _ => None
  end.

(** The handler branch of the event callback.  [None]: the response
    event the request names is neither a string nor missing, a case
    the model leaves out. *)
Definition handleRequest (handler : Handler) (message : jsstring) (s : State)
  : option Result :=
  match parse message with
  | None => Some (Throws SyntaxError s)
  | Some JNull => Some (Throws TypeError s)
  | Some payload =>
      match handler (field (lit "pl") payload) with
      | Raises e => Some (Throws e s)
      | Returns response =>
          match field (lit "re") payload with
          | Some (JString re) => Some (dispatchScriptEvent re response false s)
          | None | Some JNull => Some (Throws TypeError s)
          | Some _ => None
          end
      end
  end.

(** The stream branch of the event callback. *)
Definition receiveChunk (streamListener : Json -> option Value)
    (message : jsstring) (s : State) : Result :=
  let '(id, afterId) := splitFirst message in
  match afterId with
  | None => Throws TypeError s
  | Some afterId =>
      let '(isEndRaw, content) := splitFirst afterId in
      let isEnd := bool_decide (isEndRaw = [FLAG_END]) in
      let cachedContent := default [] (pendingStreams s !! id) in
      if isEnd then
        let s1 := withPendingStreams (delete id (pendingStreams s)) s in
        match parse (cachedContent ++ toStringU content) with
        | None => Throws SyntaxError s1
        | Some payload =>
            match streamListener payload with
            | Some e => Throws e s1
            | None => Ok s1
            end
        end
      else
        Ok (withPendingStreams
              (<[id := cachedContent ++ toStringU content]> (pendingStreams s)) s)
  end.

(** The callback subscribed to [scriptEventReceive]. *)
Definition onScriptEventReceive (id message : jsstring) (s : State) : option Result :=
  match listeners s !! id with
  | Some listener =>
      match parse message with
      | None => Some (Throws SyntaxError s)
      | Some payload => Some (callListener listener payload s)
      end
  | None =>
      let handled :=
        match handlers s !! id with
        | Some handler => handleRequest handler message s
        | None => Some (Ok s)
        end in
      match handled with
      | Some (Ok s1) =>
          match streamListeners s1 !! id with
          | Some streamListener => Some (receiveChunk streamListener message s1)
          | None => Some (Ok s1)
          end
      | other => other
      end
  end.

(** The callback of a run. *)
Definition fire (r : Run) (s : State) : State :=
  match runCallback r with
  | Timeout responseListenerId promise event =>
      settle promise (Rejected (timedOut event))
        (snd (removeScriptEventListener responseListenerId s))
  end.

Definition isDue (now : nat) (r : Run) : bool := bool_decide (dueTick r ≤ now)%nat.

(** One game tick. *)
Definition tick (s : State) : State :=
  let now := S (currentTick s) in
  let due := filter (fun r => isDue now r = true) (runs s) in
  let rest := filter (fun r => isDue now r ≠ true) (runs s) in
  foldl (fun s r => fire r s) (withRuns rest (withCurrentTick now s)) due.

(** What the host does: it delivers a script event or lets a tick pass. *)
Inductive Event :=
| ScriptEvent (id message : jsstring)
| Tick.

(** An exception that leaves the event callback reaches the host. *)
Definition settled (r : Result) : State :=
  match r with
  | Ok s => s
  | Throws e s => withHostErrors (hostErrors s ++ [e]) s
  end.

Definition step (s : State) (e : Event) : option State :=
  match e with
  | ScriptEvent id message => settled <$> onScriptEventReceive id message s
  | Tick => Some (tick s)
  end.

Fixpoint run (es : list Event) (s : State) : option State :=
  match es with
  | [] => Some s
  | e :: es' => s' ← step s e; run es' s'
  end.

(** The calls an application can make. *)
Inductive Call :=
| RegisterListener (event : jsstring) (f : Json -> option Value)
| RemoveListener (event : jsstring)
| RegisterStreamListener (event : jsstring) (f : Json -> option Value)
| RemoveStreamListener (event : jsstring)
| RegisterHandler (event : jsstring) (h : Handler)
| RemoveHandler (event : jsstring)
| Dispatch (event : jsstring) (payload : option Json) (force : bool)
| Invoke (event namespace : jsstring) (payload : option Json) (force : bool)
| StreamAll (event namespace : jsstring) (payload : Json) (force : bool).

Definition stateOf (r : Result) : State :=
  match r with
  | Ok s => s
  | Throws _ s => s
  end.

(** The state a call leaves, whether it returns or throws. *)
Definition call (c : Call) (s : State) : State :=
  match c with
  | RegisterListener event f => stateOf (registerScriptEventListener event (Callback f) s)
  | RemoveListener event => snd (removeScriptEventListener event s)
  | RegisterStreamListener event f => stateOf (registerScriptEventStreamListener event f s)
  | RemoveStreamListener event => snd (removeScriptEventStreamListener event s)
  | RegisterHandler event h => stateOf (registerScriptEventHandler event h s)
  | RemoveHandler event => snd (removeScriptEventHandler event s)
  | Dispatch event payload force => stateOf (dispatchScriptEvent event payload force s)
  | Invoke event namespace payload force =>
      snd (invokeScriptEvent event namespace payload force s)
  | StreamAll event namespace payload force =>
      stateOf (streamScriptEvent event namespace payload force s)
  end.

(** A history of the module: calls of the application and events of
    the host, in any order. *)
Inductive Action :=
| Api (c : Call)
| Host (e : Event).

Definition act (s : State) (a : Action) : option State :=
  match a with
  | Api c => Some (call c s)
  | Host e => step s e
  end.

Fixpoint history (acts : list Action) (s : State) : option State :=
  match acts with
  | [] => Some s
  | a :: acts' => s' ← act s a; history acts' s'
  end.


(** The registries of [s'] are those of [s] with entries removed. *)
Definition narrowed (s s' : State) : Prop :=
  listeners s' ⊆ listeners s
  /\ streamListeners s' ⊆ streamListeners s
  /\ handlers s' ⊆ handlers s.

(** The promise a run rejects. *)
Definition promiseOf (r : Run) : nat :=
  match runCallback r with
  | Timeout _ promise _ => promise
  end.

(** A listener that is not the response closure of the invoke with
    promise [p] and run [t]. *)
Definition foreign (p t : nat) (l : Listener) : Prop :=
  match l with
  | Callback _ => True
  | ResponseListener _ t' p' => p' ≠ p /\ t' ≠ t
  end.


(** Nothing in [s] has to do with the promise and the run the next
    invoke creates. *)
Record unused (s : State) : Prop := {
  nu_promise : promises s !! nextPromise s = None;
  nu_runs : forall r, r ∈ runs s ->
              promiseOf r ≠ nextPromise s /\ runId r ≠ nextRunId s;
  nu_listeners : forall event l, listeners s !! event = Some l ->
                   foreign (nextPromise s) (nextRunId s) l;
}.

(** [s'] comes from [s] by steps that keep the timeout [r] and do not
    settle promise [p]. *)
Definition calm (p : nat) (r : Run) (s s' : State) : Prop :=
  (forall r', r' ∈ runs s' -> r' ∈ runs s)
  /\ (r ∈ runs s -> r ∈ runs s')
  /\ promises s' !! p = promises s !! p
  /\ listeners s' ⊆ listeners s.



(** No script event of the trace is addressed to [id]. *)
Definition silentEvent (id : jsstring) (e : Event) : Prop :=
  match e with
  | ScriptEvent id' _ => id' ≠ id
  | Tick => True
  end.

(** The number of game ticks in a trace. *)
Fixpoint ticks (es : list Event) : nat :=
  match es with
  | [] => 0
  | Tick :: es' => S (ticks es')
  | _ :: es' => ticks es'
  end.

(** The script events that deliver [frames], in order. *)
Definition delivery (frames : list Frame) : list Event :=
  map (fun f => ScriptEvent f.1 f.2) frames.


End Legacy.

(** ** A concrete setting for the function-based module *)

(** A handler that answers [true], and one that returns nothing. *)
Definition exampleHandler : Legacy.Handler :=
  fun _ => Legacy.Returns (Some (JBool true)).


(** The module after the registration of [h] under ["app:h"]. *)
Definition exampleState (h : Legacy.Handler) : Legacy.State :=
  Legacy.call (Legacy.RegisterHandler (lit "app:h") h) Legacy.initial.

(** The module after the registration of a stream listener that
    accepts everything under ["app:s"]. *)
Definition exampleStreamState : Legacy.State :=
  Legacy.call (Legacy.RegisterStreamListener (lit "app:s") (fun _ => None))
    Legacy.initial.

(** Two fragments of stream ["s"], addressed to ["app:h"]. *)
Definition exampleFragments `{Common} : list Fragment :=
  [{| fr_event := lit "app:h"; fr_flag := IpcTypeFlag_SendStream;
      fr_stream := lit "s"; fr_part := lit "ab" |};
   {| fr_event := lit "app:h"; fr_flag := IpcTypeFlag_InvokeStream;
      fr_stream := lit "s"; fr_part := lit "cd" |}].


(** ** The application's side *)

(** What the application calls on a router.  A listener it registers
    is one of its own callbacks. *)
Inductive Call :=
| RegisterListener (event : jsstring) (callback : SerializableValue -> Completion)
| RemoveListener (event : jsstring)
| Send (options : SendOptions)
| SendStream (options : SendOptions)
| SendAuto (options : SendOptions)
| Invoke (options : InvokeOptions)
| InvokeStream (options : InvokeOptions)
| InvokeAuto (options : InvokeOptions)
| Destroy.

(** What happens to a router: the application calls a method or the
    host takes a turn of its event loop. *)
Inductive Action :=
| Api (c : Call)
| Host (e : Event).

(** The counters the ids of an invoke are drawn from. *)
Definition counters (w : World) : jsstring * N * nat * nat :=
  (uid (router w), listenerUidsGenerated (router w), nextPromise w, nextVar w).

(** [respId] is one of the ids [generateListenerUid] has returned. *)
Definition generated (respId : jsstring) (w : World) : Prop :=
  exists n, (n < listenerUidsGenerated (router w))%N
            /\ respId = uid (router w) ++ lit ":__" ++ toStringRadix 36 n.

(** A closure of the router refers to ids, runs, variables and
    promises that were handed out before. *)
Definition ownedListener (w : World) (l : ScriptEventListener) : Prop :=
  match l with
  | Callback _ => True
  | InvokeResponse rid t _ p =>
      generated rid w /\ (t < nextRunId w)%nat /\ (p < nextPromise w)%nat
  | InvokeStreamResponse rid var _ p =>
      generated rid w /\ (var < nextVar w)%nat /\ (p < nextPromise w)%nat
  end.

Definition ownedCallback (w : World) (c : RunCallback) : Prop :=
  match c with
  | InvokeTimeout rid p _ => generated rid w /\ (p < nextPromise w)%nat
  end.

Definition ownedFinally (w : World) (fin : Finally) : Prop :=
  match fin with
  | ArmInvokeTimeout var rid p _ =>
      generated rid w /\ (var < nextVar w)%nat /\ (p < nextPromise w)%nat
  end.

(** Everything in the world refers to what was handed out before:
    the closures registered as listeners, the scheduled runs, the
    [timeoutId] variables, the [finally] callbacks of the stream jobs
    and the settled promises. *)
Record coherent (w : World) : Prop := {
  co_listeners : forall k l, listeners (router w) !! k = Some l -> ownedListener w l;
  co_runs : forall r, r ∈ runs w ->
              (runId r < nextRunId w)%nat /\ ownedCallback w (runCallback r);
  co_vars : forall var t, timeoutIdVars w !! var = Some t ->
              (var < nextVar w)%nat /\ (t < nextRunId w)%nat;
  co_jobs : forall job fin, job ∈ jobs w -> onFinally job = Some fin ->
              ownedFinally w fin;
  co_promises : forall p s, promises w !! p = Some s -> (p < nextPromise w)%nat;
}.

Section Reachable.
Context `{Common}.

(** One call of a public method; what it returns or throws is dropped. *)
Definition call (c : Call) (w : World) : World :=
  match c with
  | RegisterListener event callback =>
      worldOf (registerListener event (Callback callback) w)
  | RemoveListener event => (removeListener event w).2
  | Send options => worldOf (send options w)
  | SendStream options => sendStream options w
  | SendAuto options => worldOf (sendAuto options w)
  | Invoke options => (invoke options w).2
  | InvokeStream options => (invokeStream options w).2
  | InvokeAuto options => (invokeAuto options w).2
  | Destroy => destroy w
  end.

Definition act (w : World) (a : Action) : World :=
  match a with
  | Api c => call c w
  | Host e => step w e
  end.

(** The world after a sequence of calls and turns of the event loop. *)
Definition history (actions : list Action) (w : World) : World :=
  foldl act w actions.

End Reachable.

(** What [invoke], [invokeStream] and [invokeAuto] pass on:
    [{ ...options, payload: JSON.stringify(options.payload) }]. *)
Definition internalOptions (options : InvokeOptions) : InternalInvokeOptions :=
  {| ii_event := io_event options;
     ii_payload := serialize (io_payload options);
     ii_force := io_force options;
     ii_throwFailures := io_throwFailures options |}.

(** The world right after [new Router("r")]. *)
Definition exampleRouter : World :=
  {| router := {| uid := lit "r"; internalIsValid := true;
                  pendingStreams := ∅; listeners := ∅;
                  listenerUidsGenerated := 0;
                  streamUidsGenerated := 0 |};
     subscribed := true;
     currentTick := 0; runs := []; nextRunId := 0;
     promises := ∅; nextPromise := 0;
     timeoutIdVars := ∅; nextVar := 0;
     wire := []; jobs := []; tasks := [];
     warnings := []; rejections := []; hostErrors := [] |}.

(** The stream buffers of the router. *)
Definition buffers (w : World) : gmap jsstring jsstring :=
  pendingStreams (router w).

(** A script event whose message, behind the type flag, names stream
    [streamId] in its first field. *)
Definition namesStream (streamId : jsstring) (a : Action) : Prop :=
  match a with
  | Host (ScriptEvent _ (_ :: message)) => (splitFirst message).1 = streamId
  | _ => False
  end.

(** A response closure that reads the [timeoutId] variable [var]. *)
Definition readsVar (var : nat) (l : ScriptEventListener) : Prop :=
  match l with
  | InvokeStreamResponse _ var' _ _ => var' = var
  | _ => False
  end.

(** The timeout of the streamed invoke with response id [respId] and
    promise [p] is scheduled as run [t] for tick [due]; the variable
    [var] holds its id and no other variable does; no other listener
    clears the run or reads the variable; every other run, and every
    run that can still be scheduled, belongs to another invoke, and no
    [finally] callback writes the variable. *)
Record armedVia (respId : jsstring) (var t p : nat) (event : jsstring)
    (due : nat) (w : World) : Prop := {
  av_var : timeoutIdVars w !! var = Some t;
  av_vars : forall var', timeoutIdVars w !! var' = Some t -> var' = var;
  av_run : {| runId := t; dueTick := due;
              runCallback := InvokeTimeout respId p event |} ∈ runs w;
  av_unique : forall r, r ∈ runs w -> runId r = t ->
                r = {| runId := t; dueTick := due;
                       runCallback := InvokeTimeout respId p event |};
  av_runs : forall r, r ∈ runs w -> runId r ≠ t ->
              foreignCallback respId p (runCallback r);
  av_fresh : (t < nextRunId w)%nat;
  av_listeners : forall k l', listeners (router w) !! k = Some l' -> k ≠ respId ->
                   ~ clearsRun t l' /\ ~ readsVar var l';
  av_jobs : forall job fin, job ∈ jobs w -> onFinally job = Some fin ->
              foreignFinally respId p fin /\ finallyVar fin ≠ var;
}.

(** ** The earlier router: synchronous listeners

    The class [Router] as it was before its listeners became [async]:
    one counter for both kinds of ids, written in decimal; a listener
    is called and its result used within the call of [routeEvent];
    what [JSON.parse] or a plain listener throws leaves
    [onScriptEventRecieved].  The methods [send], [sendStream],
    [invoke], [invokeStream] and [invokeAuto] only pass their
    arguments to [send.js] and [invoke.js], which are not among the
    sources, and are left out. *)

Module Sync.

(** What calling a listener does: it returns a value or throws. *)
Inductive Completion :=
| Return (v : SerializableValue)
| Throw (e : Value).

Definition ScriptEventListener : Type := SerializableValue -> Completion.

Record Router := {
  uid : jsstring;
  internalIsValid : bool;
  pendingStreams : gmap jsstring jsstring;
  listeners : gmap jsstring ScriptEventListener;
  uidsGenerated : N;
}.

(** The router together with the host state its methods act on. *)
Record World := {
  router : Router;
  (** is [onScriptEventRecieved] subscribed to [scriptEventReceive]? *)
  subscribed : bool;
  (** the frames handed to the transport by [sendInternal], oldest first *)
  wire : list Frame;
  (** the chunk frames of the streams handed to [sendStreamInternal] *)
  streams : list (list Frame);
  (** the arguments of [console.warn], oldest first *)
  warnings : list Value;
  (** the reasons of the rejected promises nobody handles *)
  rejections : list Value;
  (** the exceptions that left [onScriptEventRecieved] *)
  hostErrors : list Value;
}.

Definition withRouter (f : Router -> Router) (w : World) : World :=
  {| router := f (router w); subscribed := subscribed w; wire := wire w;
     streams := streams w; warnings := warnings w;
     rejections := rejections w; hostErrors := hostErrors w |}.

Definition withListeners (f : gmap jsstring ScriptEventListener ->
                              gmap jsstring ScriptEventListener)
    (r : Router) : Router :=
  {| uid := uid r; internalIsValid := internalIsValid r;
     pendingStreams := pendingStreams r; listeners := f (listeners r);
     uidsGenerated := uidsGenerated r |}.

Definition withPendingStreams (f : gmap jsstring jsstring -> gmap jsstring jsstring)
    (r : Router) : Router :=
  {| uid := uid r; internalIsValid := internalIsValid r;
     pendingStreams := f (pendingStreams r); listeners := listeners r;
     uidsGenerated := uidsGenerated r |}.

Definition withWire (fs : list Frame) (w : World) : World :=
  {| router := router w; subscribed := subscribed w; wire := fs;
     streams := streams w; warnings := warnings w;
     rejections := rejections w; hostErrors := hostErrors w |}.

Definition withStreams (ss : list (list Frame)) (w : World) : World :=
  {| router := router w; subscribed := subscribed w; wire := wire w;
     streams := ss; warnings := warnings w;
     rejections := rejections w; hostErrors := hostErrors w |}.

Definition withHostErrors (xs : list Value) (w : World) : World :=
  {| router := router w; subscribed := subscribed w; wire := wire w;
     streams := streams w; warnings := warnings w;
     rejections := rejections w; hostErrors := xs |}.

(** What a call leaves behind: it returns, or it throws [e]; either
    way [w] is the world at that point. *)
Inductive Result :=
| Ok (w : World)
| Throws (e : Value) (w : World).

Definition worldOf (r : Result) : World :=
  match r with
  | Ok w => w
  | Throws _ w => w
  end.

(** What the host is left with when a call it made returns or throws. *)
Definition toHost (r : Result) : World :=
  match r with
  | Ok w => w
  | Throws e w => withHostErrors (hostErrors w ++ [e]) w
  end.

(** [console.warn(x)] *)
Definition warn (x : Value) (w : World) : World :=
  {| router := router w; subscribed := subscribed w; wire := wire w;
     streams := streams w; warnings := warnings w ++ [x];
     rejections := rejections w; hostErrors := hostErrors w |}.

(** A rejected promise that nothing handles. *)
Definition unhandledRejection (x : Value) (w : World) : World :=
  {| router := router w; subscribed := subscribed w; wire := wire w;
     streams := streams w; warnings := warnings w;
     rejections := rejections w ++ [x]; hostErrors := hostErrors w |}.

(** Modelled from the spec: [sendInternal] of [send.js] is not among
    the sources.  A frame is the type flag followed by the payload
    (§4.1); a payload longer than the limit is refused unless the
    caller forces it (§4.4, §7, §8). *)
Definition sendInternal (ipcTypeFlag : N) (event payload : jsstring)
    (force : bool) (w : World) : Result :=
  if negb force && bool_decide (MAX_MESSAGE_LENGTH < length payload)%nat
  then Throws (Error (lit "Failed to send event '" ++ event ++
                      lit "'. The message is too long.")) w
  else Ok (withWire (wire w ++ [(event, ipcTypeFlag :: payload)]) w).

(** Modelled from the spec: [sendStreamInternal] of [send.js] is not
    among the sources.  The payload is cut into fragments as
    [streamScriptEvent] does and each goes out as one chunk frame
    (§4.1, §4.3). *)
Definition sendStreamInternal (ipcTypeFlag : N) (event payload streamId : jsstring)
    (force : bool) (w : World) : World :=
  withStreams (streams w ++ [chunkFrames ipcTypeFlag event payload streamId]) w.

Section Router.
Context `{Common}.

(** [new Router(uid)] on a fresh host; [inl] is the error thrown. *)
Definition newRouter (uid : jsstring) : Value + World :=
  if bool_decide (uid = []) || bool_decide (MAX_ROUTER_UID_LENGTH < length uid)%nat
  then inl (Error (lit "Router UID must be at least one character and less than "
                   ++ toStringRadix 10 (N.of_nat MAX_ROUTER_UID_LENGTH)
                   ++ lit " characters."))
  else inr {| router := {| uid := uid; internalIsValid := true;
                           pendingStreams := ∅; listeners := ∅;
                           uidsGenerated := 0 |};
              subscribed := true; wire := []; streams := [];
              warnings := []; rejections := []; hostErrors := [] |}.

(** [get isValid()] *)
Definition isValid (w : World) : bool := internalIsValid (router w).

(** [destroy()] *)
Definition destroy (w : World) : World :=
  {| router := {| uid := uid (router w); internalIsValid := false;
                  pendingStreams := pendingStreams (router w);
                  listeners := listeners (router w);
                  uidsGenerated := uidsGenerated (router w) |};
     subscribed := false; wire := wire w; streams := streams w;
     warnings := warnings w; rejections := rejections w;
     hostErrors := hostErrors w |}.

(** [registerListener(event, callback)] *)
Definition registerListener (event : jsstring) (callback : ScriptEventListener)
    (w : World) : Result :=
  if bool_decide (is_Some (listeners (router w) !! event)) then
    Throws (Error (lit "can't register listener for event '" ++ event ++
                   lit "': a listener for this event has already been registered")) w
  else Ok (withRouter (withListeners (insert event callback)) w).

(** [removeListener(event)]: the boolean returned and the world. *)
Definition removeListener (event : jsstring) (w : World) : bool * World :=
  (bool_decide (is_Some (listeners (router w) !! event)),
   withRouter (withListeners (delete event)) w).

(** [generateListenerUid()] *)
Definition generateListenerUid (w : World) : jsstring * World :=
  let r := router w in
  (uid r ++ lit ":l" ++ toStringRadix 10 (uidsGenerated r),
   withRouter
     (fun r => {| uid := uid r; internalIsValid := internalIsValid r;
                  pendingStreams := pendingStreams r; listeners := listeners r;
                  uidsGenerated := uidsGenerated r + 1 |}) w).

(** [generateStreamUid()] *)
Definition generateStreamUid (w : World) : jsstring * World :=
  let r := router w in
  (uid r ++ toStringRadix 10 (uidsGenerated r),
   withRouter
     (fun r => {| uid := uid r; internalIsValid := internalIsValid r;
                  pendingStreams := pendingStreams r; listeners := listeners r;
                  uidsGenerated := uidsGenerated r + 1 |}) w).

(** [sendAuto(options)].  The function is [async] but has no [await]:
    all it does happens during the call; what it throws is the reason
    its promise is rejected with. *)
Definition sendAuto (options : SendOptions) (w : World) : Result :=
  let serialized := serialize (so_payload options) in
  if bool_decide (MAX_MESSAGE_LENGTH < length serialized)%nat then
    let '(streamId, w1) := generateStreamUid w in
    Ok (sendStreamInternal IpcTypeFlag_SendStream (so_event options) serialized
           streamId (so_force options) w1)
  else
    sendInternal IpcTypeFlag_Send (so_event options) serialized
      (so_force options) w.

(** [void this.sendAuto(options)] *)
Definition voidSendAuto (options : SendOptions) (w : World) : World :=
  match sendAuto options w with
  | Ok w' => w'
  | Throws e w' => unhandledRejection e w'
  end.

(** [invokeListener(listener, responseEvent, rawPayload)]; at run time
    [rawPayload] can be [undefined].  [JSON.parse] is called before
    the [try] statement. *)
Definition invokeListener (listener : ScriptEventListener)
    (responseEvent : jsstring) (rawPayload : option jsstring) (w : World)
  : Result :=
  match parseRawPayload rawPayload with
  | None => Throws SyntaxError w
  | Some payload =>
      let '(response, err) :=
        match listener payload with
        | Return v => (v, Undefined)
        | Throw e => (Plain JNull, e)
        end in
      let w1 :=
        voidSendAuto {| so_event := responseEvent; so_payload := envelope response;
                        so_force := false |} w in
      Ok (if truthy err then warn err w1 else w1)
  end.

(** [callListener(listener, rawPayload)] *)
Definition callListener (listener : ScriptEventListener)
    (rawPayload : option jsstring) (w : World) : Result :=
  match parseRawPayload rawPayload with
  | None => Throws SyntaxError w
  | Some payload =>
      match listener payload with
      | Throw e => Throws e w
      | Return result =>
          Ok (if isFailure result then warn (Data result) w else w)
      end
  end.

(** [routeEvent(id, rawMsg)] *)
Definition routeEvent (id rawMsg : jsstring) (w : World) : Result :=
  match listeners (router w) !! id with
  | None => Ok w
  | Some listener =>
      match rawMsg with
      | [] => Ok w
      | ipcTypeFlag :: message =>
          if ipcTypeFlag =? IpcTypeFlag_Send then
            callListener listener (Some message) w
          else if ipcTypeFlag =? IpcTypeFlag_Invoke then
            let '(responseEvent, payload) := splitFirst message in
            invokeListener listener responseEvent payload w
          else if (ipcTypeFlag =? IpcTypeFlag_InvokeStream)
                  || (ipcTypeFlag =? IpcTypeFlag_SendStream) then
            let '(id, afterId) := splitFirst message in
            match afterId with
            | None => Throws TypeError w
            | Some afterId =>
                let '(isEndRaw, content) := splitFirst afterId in
                let isEnd := bool_decide (isEndRaw = [FLAG_END]) in
                let cachedContent :=
                  default [] (pendingStreams (router w) !! id) in
                let fullContent := cachedContent ++ toStringU content in
                if negb isEnd then
                  Ok (withRouter (withPendingStreams (insert id fullContent)) w)
                else
                  let w1 := withRouter (withPendingStreams (delete id)) w in
                  if ipcTypeFlag =? IpcTypeFlag_InvokeStream then
                    let '(responseEvent, payload) := splitFirst fullContent in
                    invokeListener listener responseEvent payload w1
                  else callListener listener (Some fullContent) w1
            end
          else Ok w
      end
  end.

(** [onScriptEventRecieved(e)], called by the host while subscribed;
    what it throws goes to the host. *)
Definition onScriptEventRecieved (id message : jsstring) (w : World) : World :=
  toHost (routeEvent id message w).

(** The host delivers one script event. *)
Definition receive (w : World) (f : Frame) : World :=
  if subscribed w then onScriptEventRecieved f.1 f.2 w else w.

(** The host delivers the script events [frames], in order. *)
Definition deliver (frames : list Frame) (w : World) : World :=
  foldl receive w frames.

End Router.

End Sync.

(** The world right after [new Router("r")] of the earlier router and
    the registration of [listener] under ["app:h"]. *)
Definition exampleSyncWorld (listener : Sync.ScriptEventListener) : Sync.World :=
  {| Sync.router := {| Sync.uid := lit "r"; Sync.internalIsValid := true;
                       Sync.pendingStreams := ∅;
                       Sync.listeners := {[ lit "app:h" := listener ]};
                       Sync.uidsGenerated := 0 |};
     Sync.subscribed := true; Sync.wire := []; Sync.streams := [];
     Sync.warnings := []; Sync.rejections := []; Sync.hostErrors := [] |}.

(** * Properties *)

(** ** Field splitting *)

Lemma indexOf_None c s : indexOf c s = None <-> c ∉ s.
Proof.
  induction s as [|x s IH]; simpl.
  - split; [intros _; apply not_elem_of_nil | done].
  - destruct (N.eqb_spec x c) as [->|Hne].
    + split; [done | intros Hn; exfalso; apply Hn; left].
    + rewrite not_elem_of_cons. destruct (indexOf c s); simpl.
      * split; [done | intros [_ Hn]; exfalso; by apply IH in Hn].
      * split; [intros _; split; [congruence | by apply IH] | done].
Qed.

Lemma indexOf_first c a b :
  c ∉ a -> indexOf c (a ++ c :: b) = Some (length a).
Proof.
  induction a as [|x a IH]; simpl; intros Hn.
  - by rewrite N.eqb_refl.
  - apply not_elem_of_cons in Hn as [Hx Ha].
    destruct (N.eqb_spec x c) as [->|_]; [done |].
    by rewrite IH.
Qed.

Lemma includes_false c s : includes c s = false <-> c ∉ s.
Proof.
  unfold includes. rewrite bool_decide_eq_false, <- indexOf_None.
  symmetry. apply eq_None_not_Some.
Qed.

Lemma includes_true c s : includes c s = true <-> c ∈ s.
Proof.
  destruct (includes c s) eqn:E.
  - split; [intros _ | done].
    destruct (decide (c ∈ s)) as [|Hn]; [done |].
    apply includes_false in Hn. congruence.
  - apply includes_false in E. split; [done | intros; contradiction].
Qed.

Lemma dotStar_singleLine s : singleLine s -> dotStar s = s.
Proof.
  induction 1 as [|c s Hc _ IH]; simpl; [done |].
  by rewrite Hc, IH.
Qed.

Lemma dotStar_prefix s : exists rest, s = dotStar s ++ rest.
Proof.
  induction s as [|c s [rest IH]]; simpl.
  - by exists [].
  - destruct (isLineTerminator c).
    + by exists (c :: s).
    + exists rest. simpl. by rewrite <- IH.
Qed.

Lemma dotStar_stops a c b :
  singleLine a -> isLineTerminator c = true -> dotStar (a ++ c :: b) = a.
Proof.
  induction 1 as [|x a Hx _ IH]; simpl; intros Hc.
  - by rewrite Hc.
  - by rewrite Hx, IH.
Qed.

Lemma splitFirst_at_first_space a b :
  SPACE ∉ a -> splitFirst (a ++ SPACE :: b) = (a, Some (dotStar b)).
Proof.
  intros Ha. unfold splitFirst. rewrite indexOf_first by done.
  rewrite take_app_length.
  replace (S (length a)) with (length (a ++ [SPACE])) by (rewrite length_app; simpl; lia).
  replace (a ++ SPACE :: b) with ((a ++ [SPACE]) ++ b) by (by rewrite <- app_assoc).
  by rewrite drop_app_length.
Qed.

Lemma splitFirst_without_space s :
  SPACE ∉ s -> splitFirst s = (s, None).
Proof.
  intros Hs. unfold splitFirst. apply indexOf_None in Hs. by rewrite Hs.
Qed.

Lemma singleLine_app a b : singleLine (a ++ b) <-> singleLine a /\ singleLine b.
Proof. apply Forall_app. Qed.

Lemma singleLine_concat (parts : list jsstring) :
  singleLine (concat parts) -> Forall singleLine parts.
Proof.
  induction parts as [|p parts IH]; simpl; [constructor |].
  intros [Hp Hr]%singleLine_app. constructor; auto.
Qed.

(** ** The namespace test of [registerListener] *)

Lemma upTo_head c x s : x ≠ c -> upTo c (x :: s) = x :: upTo c s.
Proof. intros Hne. simpl. by destruct (N.eqb_spec x c). Qed.

Lemma splitColon1_local ns rest :
  COLON ∉ ns ->
  splitColon1 (ns ++ COLON :: rest) = Some (upTo COLON rest).
Proof.
  intros Hns. unfold splitColon1. rewrite indexOf_first by done.
  replace (S (length ns)) with (length (ns ++ [COLON])) by (rewrite length_app; simpl; lia).
  replace (ns ++ COLON :: rest) with ((ns ++ [COLON]) ++ rest) by (by rewrite <- app_assoc).
  by rewrite drop_app_length.
Qed.

(** ** The splitter *)

Section SplitLoop.
Variable maxLen : nat.
Hypothesis maxLen_pos : (0 < maxLen)%nat.

(** What the first loop of [streamScriptEvent] computes. *)
Lemma splitLoop_spec fuel : forall (pre : list jsstring) (lastPart : jsstring),
  (length lastPart < fuel)%nat ->
  exists ps,
    splitLoop maxLen fuel (pre ++ [lastPart]) = Some (pre ++ ps)
    /\ concat ps = lastPart
    /\ Forall (fun p => length p ≤ maxLen)%nat ps
    /\ ps ≠ []
    /\ ((maxLen < length lastPart)%nat -> (2 ≤ length ps)%nat).
Proof using maxLen_pos.
  induction fuel as [|fuel IH]; intros pre lastPart Hfuel; [lia |].
  simpl. rewrite last_snoc. simpl.
  case_bool_decide as Hlen.
  - exists [lastPart]. simpl. rewrite app_nil_r.
    repeat split; [by repeat constructor | done | lia].
  - assert (Hins : <[(length (pre ++ [lastPart]) - 1)%nat := take maxLen lastPart]>
                     (pre ++ [lastPart]) = pre ++ [take maxLen lastPart]).
    { rewrite length_app. simpl.
      replace (length pre + 1 - 1)%nat with (length pre + 0)%nat by lia.
      by rewrite insert_app_r. }
    rewrite Hins.
    rewrite bool_decide_eq_false_2 by (rewrite length_drop; lia).
    destruct (IH (pre ++ [take maxLen lastPart]) (drop maxLen lastPart))
      as (ps & Heq & Hcat & Hall & Hne & _).
    { rewrite length_drop. lia. }
    exists (take maxLen lastPart :: ps).
    rewrite Heq, <- app_assoc. simpl.
    repeat split.
    + by rewrite Hcat, take_drop.
    + constructor; [rewrite length_take; lia | done].
    + done.
    + intros _. destruct ps; [done | simpl; lia].
Qed.

End SplitLoop.

Lemma maxMessageLengthWithPadding_value : maxMessageLengthWithPadding = 393%nat.
Proof. reflexivity. Qed.

(** The splitter always returns: the fuel it is given is enough. *)
Lemma splitParts_spec (payload : jsstring) :
  exists parts,
    splitParts payload = Some parts
    /\ concat parts = payload
    /\ Forall (fun p => length p ≤ MAX_MESSAGE_LENGTH - STREAM_MESSAGE_PADDING)%nat parts
    /\ parts ≠ []
    /\ ((MAX_MESSAGE_LENGTH < length payload)%nat -> (2 ≤ length parts)%nat).
Proof.
  destruct (splitLoop_spec maxMessageLengthWithPadding ltac:(rewrite maxMessageLengthWithPadding_value; lia)
              (S (length payload)) [] payload ltac:(lia))
    as (ps & Heq & Hcat & Hall & Hne & Htwo).
  exists ps. repeat split; try done.
  intros Hlong. apply Htwo. rewrite maxMessageLengthWithPadding_value.
  unfold MAX_MESSAGE_LENGTH in Hlong. lia.
Qed.

Lemma chunkMessages_snoc streamId (init : list jsstring) (lastPart : jsstring) :
  chunkMessages streamId (init ++ [lastPart])
  = map (chunkBody streamId FLAG_MORE) init ++ [chunkBody streamId FLAG_END lastPart].
Proof.
  unfold chunkMessages. rewrite imap_app. f_equal.
  - rewrite <- (imap_const (chunkBody streamId FLAG_MORE)).
    apply imap_ext. intros i x Hi. unfold chunkMessage, chunkBody.
    apply lookup_lt_Some in Hi.
    rewrite bool_decide_eq_false_2; [done |].
    rewrite length_app. simpl. lia.
  - simpl. unfold chunkMessage, chunkBody.
    rewrite bool_decide_eq_true_2; [done |].
    rewrite length_app. simpl. lia.
Qed.

Lemma nonempty_snoc {A} (l : list A) : l ≠ [] -> exists init x, l = init ++ [x].
Proof.
  intros Hne. destruct (decide (l = [])) as [|_]; [done |].
  induction l as [|a l IH] using rev_ind; [done |]. by exists l, a.
Qed.

(** ** Registration and destruction *)

Section RouterFacts.
Context `{Common}.

Lemma world_eta (w : World) :
  {| router := router w; subscribed := subscribed w;
     currentTick := currentTick w; runs := runs w; nextRunId := nextRunId w;
     promises := promises w; nextPromise := nextPromise w;
     timeoutIdVars := timeoutIdVars w; nextVar := nextVar w;
     wire := wire w; jobs := jobs w; tasks := tasks w;
     warnings := warnings w; rejections := rejections w;
     hostErrors := hostErrors w |} = w.
Proof. by destruct w. Qed.

Lemma router_eta (r : Router) :
  {| uid := uid r; internalIsValid := internalIsValid r;
     pendingStreams := pendingStreams r; listeners := listeners r;
     listenerUidsGenerated := listenerUidsGenerated r;
     streamUidsGenerated := streamUidsGenerated r |} = r.
Proof. by destruct r. Qed.

Lemma destroy_destroy (w : World) : destroy (destroy w) = destroy w.
Proof. reflexivity. Qed.

Lemma destroy_iter (w : World) (n : nat) :
  Nat.iter (S n) destroy w = destroy w.
Proof.
  induction n as [|n IH]; [done |].
  change (Nat.iter (S (S n)) destroy w) with (destroy (Nat.iter (S n) destroy w)).
  by rewrite IH, destroy_destroy.
Qed.

(** C10.  [destroy] can be called any number of times (the model has
    no path on which it throws); from the first call on [isValid] is
    false and the world is the one the first call left; and apart from
    the validity flag and the subscription nothing changes: the
    listener map, the stream buffers, both uid counters and the uid of
    the router, and all of the host state, are as they were. *)
Theorem destroy_idempotent_and_narrow (w : World) (n : nat) :
  Nat.iter (S n) destroy w = destroy w
  /\ isValid (Nat.iter (S n) destroy w) = false
  /\ subscribed (destroy w) = false
  /\ listeners (router (destroy w)) = listeners (router w)
  /\ pendingStreams (router (destroy w)) = pendingStreams (router w)
  /\ listenerUidsGenerated (router (destroy w)) = listenerUidsGenerated (router w)
  /\ streamUidsGenerated (router (destroy w)) = streamUidsGenerated (router w)
  /\ uid (router (destroy w)) = uid (router w)
  /\ destroy w
     = withRouter
         (fun r => {| uid := uid r; internalIsValid := false;
                      pendingStreams := pendingStreams r;
                      listeners := listeners r;
                      listenerUidsGenerated := listenerUidsGenerated r;
                      streamUidsGenerated := streamUidsGenerated r |})
         (withSubscribed false w).
Proof.
  rewrite destroy_iter. repeat split.
Qed.

Lemma registerListener_registered event callback w :
  is_Some (listeners (router w) !! event) ->
  exists e, registerListener event callback w = Throws e w.
Proof.
  intros Hsome. unfold registerListener.
  rewrite bool_decide_eq_true_2 by done. by eexists.
Qed.

Lemma registerListener_no_namespace event callback w :
  COLON ∉ event ->
  exists e, registerListener event callback w = Throws e w.
Proof.
  intros Hno. unfold registerListener.
  case_bool_decide; [by eexists |].
  apply includes_false in Hno. rewrite Hno. simpl. by eexists.
Qed.

Lemma registerListener_reserved ns rest callback w :
  COLON ∉ ns ->
  exists e,
    registerListener (ns ++ COLON :: UNDERSCORE :: rest) callback w = Throws e w.
Proof.
  intros Hns. unfold registerListener.
  case_bool_decide; [by eexists |].
  rewrite splitColon1_local by done.
  rewrite upTo_head by done. simpl.
  rewrite orb_true_r. by eexists.
Qed.

(** C8.  [registerListener] throws, and leaves the world as it was,
    for an id that is already registered, for an id without a colon,
    and for an id whose part after the first colon begins with an
    underscore.  [removeListener] returns true exactly when the id had
    an entry; the entry is gone afterwards and the other entries are
    untouched; a second call returns false and changes nothing. *)
Theorem registerListener_rejects_and_removeListener_reports
    (event : jsstring) (callback : ScriptEventListener) (w : World) :
  (is_Some (listeners (router w) !! event) ->
     exists e, registerListener event callback w = Throws e w)
  /\ (COLON ∉ event ->
     exists e, registerListener event callback w = Throws e w)
  /\ (forall ns rest, COLON ∉ ns -> event = ns ++ COLON :: UNDERSCORE :: rest ->
     exists e, registerListener event callback w = Throws e w)
  /\ (fst (removeListener event w) = true
      <-> is_Some (listeners (router w) !! event))
  /\ listeners (router (snd (removeListener event w)))
     = delete event (listeners (router w))
  /\ removeListener event (snd (removeListener event w))
     = (false, snd (removeListener event w)).
Proof.
  split; [apply registerListener_registered |].
  split; [apply registerListener_no_namespace |].
  split; [intros ns rest Hns ->; by apply registerListener_reserved |].
  split; [unfold removeListener; simpl; apply bool_decide_eq_true |].
  split; [done |].
  unfold removeListener. simpl. f_equal.
  - apply bool_decide_eq_false_2. rewrite lookup_delete_eq. by apply is_Some_None.
  - unfold withRouter, withListeners. simpl. do 2 f_equal.
    apply delete_delete_eq.
Qed.

(** ** Sending *)

Lemma transmit_all (k : nat) (frames : list Frame) : forall (w : World),
  jobs w !! k = Some {| pendingFrames := frames; onFinally := None |} ->
  wire (Nat.iter (length frames) (transmit k) w) = wire w ++ frames.
Proof.
  induction frames as [|f frames IH]; intros w Hjob.
  - simpl. by rewrite app_nil_r.
  - change (length (f :: frames)) with (S (length frames)).
    rewrite Nat.iter_succ_r.
    assert (Hk : (k < length (jobs w))%nat) by (eapply lookup_lt_Some; eauto).
    destruct frames as [|f' frames].
    + simpl. unfold transmit. rewrite Hjob. simpl. done.
    + rewrite IH.
      * unfold transmit. rewrite Hjob. simpl. by rewrite <- app_assoc.
      * unfold transmit. rewrite Hjob. simpl.
        by rewrite list_lookup_insert_eq.
Qed.

Lemma sendAuto_short (options : SendOptions) (w : World) :
  (length (serialize (so_payload options)) ≤ MAX_MESSAGE_LENGTH)%nat ->
  sendAuto options w
  = Ok (withWire (wire w ++ [(so_event options,
                              IpcTypeFlag_Send :: serialize (so_payload options))]) w).
Proof.
  intros Hlen. unfold sendAuto.
  rewrite bool_decide_eq_false_2 by lia.
  unfold sendInternal.
  rewrite bool_decide_eq_false_2 by lia.
  by rewrite andb_false_r.
Qed.

Lemma sendAuto_long (options : SendOptions) (w : World) :
  (MAX_MESSAGE_LENGTH < length (serialize (so_payload options)))%nat ->
  sendAuto options w
  = Ok (sendStreamInternal IpcTypeFlag_SendStream (so_event options)
          (serialize (so_payload options)) (fst (generateStreamUid w))
          (so_force options) None (snd (generateStreamUid w))).
Proof.
  intros Hlen. unfold sendAuto.
  by rewrite bool_decide_eq_true_2 by lia.
Qed.

Lemma chunkFrames_snoc flag event payload streamId init lastPart :
  splitParts payload = Some (init ++ [lastPart]) ->
  chunkFrames flag event payload streamId
  = map (fun p => (event, flag :: chunkBody streamId FLAG_MORE p)) init
    ++ [(event, flag :: chunkBody streamId FLAG_END lastPart)].
Proof.
  intros Hparts. unfold chunkFrames. rewrite Hparts. simpl.
  rewrite chunkMessages_snoc, map_app, map_map. done.
Qed.

(** C4.  A payload whose serialized text is within the limit goes out
    as one Send frame, through [send] and through [sendAuto] alike.  A
    longer one is streamed by [sendAuto]: the splitter returns at
    least two parts, none longer than the limit minus the padding,
    whose concatenation is the serialized text; every part but the
    last goes out flagged [f], the last flagged [t], in this order. *)
Theorem sendAuto_one_frame_or_chunks (options : SendOptions) (w : World) :
  let serialized := serialize (so_payload options) in
  let event := so_event options in
  ((length serialized ≤ MAX_MESSAGE_LENGTH)%nat ->
     let w' := withWire (wire w ++ [(event, IpcTypeFlag_Send :: serialized)]) w in
     send options w = Ok w' /\ sendAuto options w = Ok w')
  /\ ((MAX_MESSAGE_LENGTH < length serialized)%nat ->
     exists init lastPart,
       let parts := init ++ [lastPart] in
       let streamId := fst (generateStreamUid w) in
       let frames :=
         map (fun p => (event, IpcTypeFlag_SendStream ::
                                 streamId ++ SPACE :: FLAG_MORE :: SPACE :: p)) init
         ++ [(event, IpcTypeFlag_SendStream ::
                       streamId ++ SPACE :: FLAG_END :: SPACE :: lastPart)] in
       let w' := withJobs (jobs w ++ [{| pendingFrames := frames; onFinally := None |}])
                   (snd (generateStreamUid w)) in
       splitParts serialized = Some parts
       /\ (2 ≤ length parts)%nat
       /\ Forall (fun p => length p ≤ MAX_MESSAGE_LENGTH - STREAM_MESSAGE_PADDING)%nat parts
       /\ concat parts = serialized
       /\ sendAuto options w = Ok w'
       /\ wire (Nat.iter (length frames) (transmit (length (jobs w))) w')
          = wire w ++ frames).
Proof.
  intros serialized event. split.
  - intros Hlen w'. split; [| by apply sendAuto_short].
    unfold send, send_js, sendInternal.
    rewrite bool_decide_eq_false_2 by (fold serialized; lia).
    by rewrite andb_false_r.
  - intros Hlen.
    destruct (splitParts_spec serialized) as (parts & Hparts & Hcat & Hall & Hne & Htwo).
    destruct (nonempty_snoc parts Hne) as (init & lastPart & ->).
    exists init, lastPart. cbv zeta.
    split; [done |]. split; [by apply Htwo |]. split; [done |]. split; [done |].
    assert (Hsend : sendAuto options w
                    = Ok (withJobs (jobs w ++
                            [{| pendingFrames :=
                                  map (fun p => (event, IpcTypeFlag_SendStream ::
                                          fst (generateStreamUid w) ++ SPACE :: FLAG_MORE :: SPACE :: p)) init
                                  ++ [(event, IpcTypeFlag_SendStream ::
                                          fst (generateStreamUid w) ++ SPACE :: FLAG_END :: SPACE :: lastPart)];
                                onFinally := None |}])
                            (snd (generateStreamUid w)))).
    { rewrite sendAuto_long by done. unfold sendStreamInternal.
      by rewrite (chunkFrames_snoc _ _ _ _ init lastPart). }
    split; [done |].
    rewrite transmit_all; [done |].
    simpl. by rewrite lookup_app_r, Nat.sub_diag by lia.
Qed.

End RouterFacts.

(** ** Routing one frame *)

Section Routing.
Context `{Common}.

Lemma flagsDistinct_ne :
  flagsDistinct ->
  IpcTypeFlag_Send ≠ IpcTypeFlag_Invoke
  /\ IpcTypeFlag_Send ≠ IpcTypeFlag_SendStream
  /\ IpcTypeFlag_Send ≠ IpcTypeFlag_InvokeStream
  /\ IpcTypeFlag_Invoke ≠ IpcTypeFlag_SendStream
  /\ IpcTypeFlag_Invoke ≠ IpcTypeFlag_InvokeStream
  /\ IpcTypeFlag_SendStream ≠ IpcTypeFlag_InvokeStream.
Proof.
  unfold flagsDistinct. intros Hnd.
  apply NoDup_cons in Hnd as [H1 Hnd].
  apply NoDup_cons in Hnd as [H2 Hnd].
  apply NoDup_cons in Hnd as [H3 _].
  repeat split; intros E.
  - apply H1. rewrite E. left.
  - apply H1. rewrite E. right. left.
  - apply H1. rewrite E. do 2 right. left.
  - apply H2. rewrite E. left.
  - apply H2. rewrite E. right. left.
  - apply H3. rewrite E. left.
Qed.

Lemma routeEvent_unregistered id rawMsg w :
  listeners (router w) !! id = None -> routeEvent id rawMsg w = Ok w.
Proof. intros Hl. unfold routeEvent. by rewrite Hl. Qed.

Lemma routeEvent_Send id listener message w :
  listeners (router w) !! id = Some listener ->
  routeEvent id (IpcTypeFlag_Send :: message) w
  = Ok (callListener listener (Some message) w).
Proof. intros Hl. unfold routeEvent. by rewrite Hl, N.eqb_refl. Qed.

Lemma routeEvent_Invoke id listener message w :
  flagsDistinct ->
  listeners (router w) !! id = Some listener ->
  routeEvent id (IpcTypeFlag_Invoke :: message) w
  = Ok (invokeListener listener (splitFirst message).1 (splitFirst message).2 w).
Proof.
  intros (Hsi & _)%flagsDistinct_ne Hl. unfold routeEvent. rewrite Hl.
  destruct (N.eqb_spec IpcTypeFlag_Invoke IpcTypeFlag_Send); [congruence |].
  rewrite N.eqb_refl. by destruct (splitFirst message).
Qed.


Lemma streamFlag_tests flag :
  flagsDistinct -> isStreamFlag flag ->
  (flag =? IpcTypeFlag_Send) = false
  /\ (flag =? IpcTypeFlag_Invoke) = false
  /\ ((flag =? IpcTypeFlag_InvokeStream) || (flag =? IpcTypeFlag_SendStream)) = true.
Proof.
  intros (H1 & H2 & H3 & H4 & H5 & H6)%flagsDistinct_ne [-> | ->];
    rewrite N.eqb_refl, ?orb_true_r;
    repeat split; try done; apply N.eqb_neq; congruence.
Qed.

(** The stream branch on a body without any space: [afterId] is
    [undefined] and reading its [split] throws. *)
Lemma routeEvent_chunk_without_separator id listener flag body w :
  flagsDistinct -> isStreamFlag flag ->
  listeners (router w) !! id = Some listener ->
  SPACE ∉ body ->
  routeEvent id (flag :: body) w = Throws TypeError w.
Proof.
  intros Hd Hf Hl Hb. unfold routeEvent. rewrite Hl.
  destruct (streamFlag_tests flag Hd Hf) as (-> & -> & ->).
  by rewrite splitFirst_without_space.
Qed.

Lemma splitFirst_chunk streamId flagChar part :
  SPACE ∉ streamId -> flagChar ≠ SPACE -> isLineTerminator flagChar = false ->
  splitFirst (chunkBody streamId flagChar part)
  = (streamId,
     Some (flagChar :: SPACE :: dotStar part)).
Proof.
  intros Hs Hf Hlt. unfold chunkBody.
  rewrite splitFirst_at_first_space by done. simpl. by rewrite Hlt.
Qed.

Lemma splitFirst_flag flagChar rest :
  flagChar ≠ SPACE ->
  splitFirst (flagChar :: SPACE :: rest) = ([flagChar], Some (dotStar rest)).
Proof.
  intros Hf. apply (splitFirst_at_first_space [flagChar] rest).
  apply not_elem_of_cons. split; [done | apply not_elem_of_nil].
Qed.

Lemma dotStar_idem s : dotStar (dotStar s) = dotStar s.
Proof.
  induction s as [|c s IH]; simpl; [done |].
  destruct (isLineTerminator c) eqn:E; simpl; [done |].
  by rewrite E, IH.
Qed.

(** A chunk flagged [f]: the fragment, as far as the dot-star matches
    it, is appended to the buffer of the stream and nothing else
    happens. *)
Lemma routeEvent_chunk_more id listener flag streamId part w :
  flagsDistinct -> isStreamFlag flag ->
  listeners (router w) !! id = Some listener ->
  SPACE ∉ streamId ->
  routeEvent id (flag :: chunkBody streamId FLAG_MORE part) w
  = Ok (buffered streamId (cached streamId w ++ dotStar part) w).
Proof.
  intros Hd Hf Hl Hs. unfold routeEvent. rewrite Hl.
  destruct (streamFlag_tests flag Hd Hf) as (-> & -> & ->).
  rewrite splitFirst_chunk by done.
  rewrite splitFirst_flag by done. rewrite dotStar_idem.
  by rewrite bool_decide_eq_false_2 by done.
Qed.

(** A chunk flagged [t]: the buffer of the stream is removed and the
    buffered text followed by the fragment is dispatched. *)
Lemma routeEvent_chunk_end id listener flag streamId part w :
  flagsDistinct -> isStreamFlag flag ->
  listeners (router w) !! id = Some listener ->
  SPACE ∉ streamId ->
  let fullContent := cached streamId w ++ dotStar part in
  routeEvent id (flag :: chunkBody streamId FLAG_END part) w
  = Ok (if flag =? IpcTypeFlag_InvokeStream
        then invokeListener listener (splitFirst fullContent).1
               (splitFirst fullContent).2 (unbuffered streamId w)
        else callListener listener (Some fullContent) (unbuffered streamId w)).
Proof.
  intros Hd Hf Hl Hs. unfold routeEvent. rewrite Hl.
  destruct (streamFlag_tests flag Hd Hf) as (-> & -> & ->).
  rewrite splitFirst_chunk by done.
  rewrite splitFirst_flag by done. rewrite dotStar_idem.
  rewrite bool_decide_eq_true_2 by done. simpl.
  fold (cached streamId w). fold (unbuffered streamId w).
  destruct (flag =? IpcTypeFlag_InvokeStream); [| done].
  by destruct (splitFirst (cached streamId w ++ dotStar part)).
Qed.

Lemma buffered_buffered streamId a b w :
  buffered streamId b (buffered streamId a w) = buffered streamId b w.
Proof.
  unfold buffered, withRouter, withPendingStreams. simpl.
  do 2 f_equal. apply insert_insert_eq.
Qed.

Lemma cached_buffered streamId a w :
  cached streamId (buffered streamId a w) = a.
Proof. unfold cached, buffered. simpl. by rewrite lookup_insert_eq. Qed.

Lemma unbuffered_buffered streamId a w :
  unbuffered streamId (buffered streamId a w) = unbuffered streamId w.
Proof.
  unfold buffered, unbuffered, withRouter, withPendingStreams. simpl.
  do 2 f_equal. apply delete_insert_eq.
Qed.

Lemma unbuffered_fresh streamId w :
  pendingStreams (router w) !! streamId = None -> unbuffered streamId w = w.
Proof.
  intros Hnone. unfold unbuffered, withRouter, withPendingStreams.
  rewrite delete_id by done. rewrite router_eta. apply world_eta.
Qed.

(** The chunks flagged [f] of a stream only append to its buffer. *)
Lemma deliverAll_more id listener flag streamId (init : list jsstring) :
  flagsDistinct -> isStreamFlag flag -> SPACE ∉ streamId ->
  forall (part : jsstring) (w : World),
  listeners (router w) !! id = Some listener ->
  deliverAll id (map (fun p => flag :: chunkBody streamId FLAG_MORE p) (part :: init)) w
  = buffered streamId
      (cached streamId w ++ concat (map dotStar (part :: init))) w.
Proof.
  intros Hd Hf Hs.
  induction init as [|q init IH]; intros part w Hl.
  - simpl. unfold onScriptEventRecieved.
    rewrite (routeEvent_chunk_more _ listener) by done.
    by rewrite app_nil_r.
  - change (deliverAll id (map (fun p => flag :: chunkBody streamId FLAG_MORE p)
                             (part :: q :: init)) w)
      with (deliverAll id (map (fun p => flag :: chunkBody streamId FLAG_MORE p)
                             (q :: init))
              (onScriptEventRecieved id (flag :: chunkBody streamId FLAG_MORE part) w)).
    unfold onScriptEventRecieved at 1.
    rewrite (routeEvent_chunk_more _ listener) by done.
    rewrite IH by done.
    rewrite cached_buffered, buffered_buffered.
    simpl. by rewrite <- app_assoc.
Qed.

(** Feeding all chunk frames of a stream, in order, to a router that
    holds [listener] under [id]. *)
Lemma deliverAll_chunks id listener flag streamId (init : list jsstring)
    (lastPart : jsstring) (w : World) :
  flagsDistinct -> isStreamFlag flag -> SPACE ∉ streamId ->
  listeners (router w) !! id = Some listener ->
  let fullContent :=
    cached streamId w ++ concat (map dotStar (init ++ [lastPart])) in
  deliverAll id (map (cons flag) (chunkMessages streamId (init ++ [lastPart]))) w
  = if flag =? IpcTypeFlag_InvokeStream
    then invokeListener listener (splitFirst fullContent).1
           (splitFirst fullContent).2 (unbuffered streamId w)
    else callListener listener (Some fullContent) (unbuffered streamId w).
Proof.
  intros Hd Hf Hs Hl fullContent. subst fullContent.
  rewrite chunkMessages_snoc, map_app, map_map. unfold deliverAll.
  rewrite foldl_app. simpl.
  destruct init as [|part init].
  - simpl. unfold onScriptEventRecieved.
    rewrite (routeEvent_chunk_end _ listener) by done.
    by rewrite app_nil_r.
  - fold (deliverAll id (map (fun p => flag :: chunkBody streamId FLAG_MORE p)
                           (part :: init)) w).
    rewrite (deliverAll_more _ listener) by done.
    unfold onScriptEventRecieved.
    rewrite (routeEvent_chunk_end _ listener) by done.
    rewrite cached_buffered, unbuffered_buffered.
    rewrite map_app, concat_app. simpl. rewrite app_nil_r.
    by rewrite <- !app_assoc.
Qed.

Lemma map_dotStar_singleLine (parts : list jsstring) :
  Forall singleLine parts -> map dotStar parts = parts.
Proof.
  induction 1 as [|p parts Hp _ IH]; simpl; [done |].
  by rewrite dotStar_singleLine, IH.
Qed.

End Routing.

(** ** What one turn of the event loop can change *)

Section Frames.
Context `{Common}.

Lemma quiet_refl w : quiet w w.
Proof. quiet_tac. Qed.

Lemma quiet_trans w1 w2 w3 : quiet w1 w2 -> quiet w2 w3 -> quiet w1 w3.
Proof.
  intros [? ? ? ? ? ? ? ? ? (n1 & Hj1 & Hn1)] [? ? ? ? ? ? ? ? ? (n2 & Hj2 & Hn2)].
  constructor; try congruence.
  exists (n1 ++ n2). split.
  - by rewrite Hj2, Hj1, app_assoc.
  - by apply Forall_app.
Qed.

Lemma quiet_warn x w : quiet w (warn x w).
Proof. quiet_tac. Qed.

Lemma quiet_unhandledRejection x w : quiet w (unhandledRejection x w).
Proof. quiet_tac. Qed.

Lemma quiet_suspend k o m w : quiet w (suspend k o m w).
Proof. quiet_tac. Qed.

Lemma quiet_withTasks ts w : quiet w (withTasks ts w).
Proof. quiet_tac. Qed.

Lemma quiet_withHostErrors xs w : quiet w (withHostErrors xs w).
Proof. quiet_tac. Qed.

Lemma quiet_buffered streamId content w : quiet w (buffered streamId content w).
Proof. quiet_tac. Qed.

Lemma quiet_unbuffered streamId w : quiet w (unbuffered streamId w).
Proof. quiet_tac. Qed.

Lemma quiet_sendInternal flag event payload force w :
  quiet w (worldOf (sendInternal flag event payload force w)).
Proof. unfold sendInternal. case_match; simpl; quiet_tac. Qed.

Lemma quiet_sendAuto options w : quiet w (worldOf (sendAuto options w)).
Proof.
  unfold sendAuto. case_bool_decide.
  - simpl. constructor; simpl; try done.
    eexists. split; [done |]. by repeat constructor.
  - apply quiet_sendInternal.
Qed.

Lemma quiet_voidSendAuto options w : quiet w (voidSendAuto options w).
Proof.
  unfold voidSendAuto. pose proof (quiet_sendAuto options w) as Hq.
  destruct (sendAuto options w) as [w' | e w']; simpl in Hq; [done |].
  eapply quiet_trans; [done | apply quiet_unhandledRejection].
Qed.

Lemma quiet_invokeListenerRest responseEvent response err w :
  quiet w (invokeListenerRest responseEvent response err w).
Proof.
  unfold invokeListenerRest.
  destruct (truthy err).
  - eapply quiet_trans; [apply quiet_voidSendAuto | apply quiet_warn].
  - apply quiet_voidSendAuto.
Qed.

Lemma quiet_callListenerRest s w : quiet w (callListenerRest s w).
Proof.
  unfold callListenerRest. repeat case_match;
    first [apply quiet_warn | apply quiet_refl].
Qed.

Lemma quiet_resume k s w : quiet w (resume k s w).
Proof.
  unfold resume. repeat case_match;
    first [apply quiet_invokeListenerRest | apply quiet_callListenerRest].
Qed.

Lemma quiet_resumeTask w t : quiet w (resumeTask w t).
Proof.
  unfold resumeTask. case_match; [apply quiet_resume | apply quiet_refl].
Qed.

Lemma quiet_foldl {A} (f : World -> A -> World) (xs : list A) :
  (forall w x, quiet w (f w x)) -> forall w, quiet w (foldl f w xs).
Proof.
  intros Hf. induction xs as [|x xs IH]; intros w; simpl.
  - apply quiet_refl.
  - eapply quiet_trans; [apply Hf | apply IH].
Qed.

Lemma quiet_runMicrotasks w : quiet w (runMicrotasks w).
Proof.
  unfold runMicrotasks.
  eapply quiet_trans; [apply quiet_withTasks |].
  apply quiet_foldl, quiet_resumeTask.
Qed.

Lemma quiet_settleTask k w : quiet w (settleTask k w).
Proof.
  unfold settleTask. repeat case_match; try apply quiet_refl.
  eapply quiet_trans; [apply quiet_withTasks | apply quiet_resume].
Qed.

(** Resuming continuations adds no task. *)
Lemma tasks_voidSendAuto options w : tasks (voidSendAuto options w) = tasks w.
Proof.
  unfold voidSendAuto, sendAuto, sendInternal, generateStreamUid.
  case_bool_decide; simpl; [done |].
  by destruct (negb (so_force options) && _).
Qed.

Lemma tasks_invokeListenerRest responseEvent response err w :
  tasks (invokeListenerRest responseEvent response err w) = tasks w.
Proof.
  unfold invokeListenerRest. destruct (truthy err); simpl;
    apply tasks_voidSendAuto.
Qed.

Lemma tasks_resume k s w : tasks (resume k s w) = tasks w.
Proof.
  destruct k as [responseEvent|]; simpl.
  - destruct s; apply tasks_invokeListenerRest.
  - by destruct s as [[j|m]|e].
Qed.

Lemma tasks_foldl_resumeTask ts : forall w,
  tasks (foldl resumeTask w ts) = tasks w.
Proof.
  induction ts as [|t ts IH]; intros w; simpl; [done |].
  rewrite IH. unfold resumeTask. case_match; [apply tasks_resume | done].
Qed.

Lemma drained_runMicrotasks w : drained (runMicrotasks w).
Proof.
  unfold drained, runMicrotasks. rewrite tasks_foldl_resumeTask. simpl.
  apply Forall_forall. intros t Ht%list_elem_of_filter.
  destruct Ht as [Hm _]. by destruct (isMicrotask t).
Qed.

Lemma runMicrotasks_drained w : drained w -> runMicrotasks w = w.
Proof.
  unfold drained, runMicrotasks. intros Hd.
  assert (Hmicro : filter (fun t => isMicrotask t = true) (tasks w) = []).
  { induction Hd as [|t ts Ht _ IH]; [done |].
    rewrite filter_cons_False; [done | simpl; congruence]. }
  assert (Hrest : filter (fun t => isMicrotask t ≠ true) (tasks w) = tasks w).
  { clear Hmicro. induction Hd as [|t ts Ht _ IH]; [done |].
    rewrite filter_cons_True by (simpl; congruence). by rewrite IH. }
  rewrite Hmicro, Hrest. simpl. unfold withTasks. apply world_eta.
Qed.

Lemma drained_step w e : drained (step w e).
Proof. apply drained_runMicrotasks. Qed.

Lemma drained_run es w : es ≠ [] -> drained (run es w).
Proof.
  intros Hne. destruct (nonempty_snoc es Hne) as (es' & e & ->).
  unfold run. rewrite foldl_app. simpl. apply drained_step.
Qed.

(** *** Calling a listener *)

(** What a response closure does to the world. *)
Lemma callFunction_closure l payload w :
  (callFunction l payload w).2
  = match l with
    | Callback _ => w
    | InvokeResponse rid t tf p =>
        settleInvoke tf p payload (clearRun t (removeListener rid w).2)
    | InvokeStreamResponse rid var tf p =>
        settleInvoke tf p payload
          (match timeoutIdVars w !! var with
           | Some t => clearRun t (removeListener rid w).2
           | None => (removeListener rid w).2
           end)
    end.
Proof. by destruct l. Qed.

Lemma callFunction_closure_returns l payload w :
  match l with Callback _ => False | _ => True end ->
  (callFunction l payload w).1 = Return (Plain JNull).
Proof. by destruct l. Qed.

Lemma quiet_settle p s w w' :
  quiet w w' -> quiet (settle p s w) (settle p s w').
Proof.
  intros [? ? ? Hp ? ? ? ? ? ?]. unfold settle. rewrite Hp.
  destruct (promises w !! p); constructor; simpl; try done; by rewrite Hp.
Qed.

Lemma quiet_settleInvoke tf p payload w w' :
  quiet w w' -> quiet (settleInvoke tf p payload w) (settleInvoke tf p payload w').
Proof. intros Hq. unfold settleInvoke. case_match; by apply quiet_settle. Qed.

Lemma quiet_removeListener rid w w' :
  quiet w w' -> quiet (removeListener rid w).2 (removeListener rid w').2.
Proof.
  intros [Hl ? ? ? ? ? ? ? ? ?]. constructor; simpl; try done. by rewrite Hl.
Qed.

Lemma quiet_clearRun t w w' :
  quiet w w' -> quiet (clearRun t w) (clearRun t w').
Proof.
  intros [? Hr ? ? ? ? ? ? ? ?]. constructor; simpl; try done. by rewrite Hr.
Qed.

Lemma quiet_callFunction l payload w w' :
  quiet w w' ->
  quiet (callFunction l payload w).2 (callFunction l payload w').2.
Proof.
  intros Hq. rewrite !callFunction_closure. destruct l as [f | rid t tf p | rid var tf p].
  - done.
  - by apply quiet_settleInvoke, quiet_clearRun, quiet_removeListener.
  - apply quiet_settleInvoke. rewrite (quiet_vars _ _ Hq).
    destruct (timeoutIdVars w !! var).
    + by apply quiet_clearRun, quiet_removeListener.
    + by apply quiet_removeListener.
Qed.

Lemma callListener_effect id l raw w0 w :
  listeners (router w) !! id = Some l -> quiet w w0 ->
  exists w1, afterCall id w w1 /\ quiet w1 (callListener l raw w0).
Proof.
  intros Hl Hq. unfold callListener.
  destruct (parseRawPayload raw) as [payload|].
  - exists (callFunction l payload w).2. split; [right; by exists l, payload |].
    pose proof (quiet_callFunction l payload w w0 Hq) as Hq'.
    destruct (callFunction l payload w0) as [c w1] eqn:E. simpl in Hq'.
    eapply quiet_trans; [done |].
    destruct c; [apply quiet_suspend | apply quiet_warn | apply quiet_suspend].
  - exists w. split; [by left |].
    eapply quiet_trans; [done | apply quiet_unhandledRejection].
Qed.

Lemma invokeListener_effect id l responseEvent raw w0 w :
  listeners (router w) !! id = Some l -> quiet w w0 ->
  exists w1, afterCall id w w1 /\ quiet w1 (invokeListener l responseEvent raw w0).
Proof.
  intros Hl Hq. unfold invokeListener.
  destruct (parseRawPayload raw) as [payload|].
  - exists (callFunction l payload w).2. split; [right; by exists l, payload |].
    pose proof (quiet_callFunction l payload w w0 Hq) as Hq'.
    destruct (callFunction l payload w0) as [c w1] eqn:E. simpl in Hq'.
    eapply quiet_trans; [done |].
    destruct c; [apply quiet_suspend | apply quiet_invokeListenerRest | apply quiet_suspend].
  - exists w. split; [by left |].
    eapply quiet_trans; [done | apply quiet_unhandledRejection].
Qed.

Lemma routeEvent_effect id rawMsg w :
  exists w1, afterCall id w w1 /\ quiet w1 (worldOf (routeEvent id rawMsg w)).
Proof.
  unfold routeEvent.
  destruct (listeners (router w) !! id) as [l|] eqn:Hl;
    [| exists w; split; [by left | apply quiet_refl]].
  destruct rawMsg as [|flag message];
    [exists w; split; [by left | apply quiet_refl] |].
  destruct (flag =? IpcTypeFlag_Send).
  { simpl. apply (callListener_effect id); [done | apply quiet_refl]. }
  destruct (flag =? IpcTypeFlag_Invoke).
  { destruct (splitFirst message) as [responseEvent payload]. simpl.
    apply (invokeListener_effect id); [done | apply quiet_refl]. }
  destruct ((flag =? IpcTypeFlag_InvokeStream) || (flag =? IpcTypeFlag_SendStream));
    [| exists w; split; [by left | apply quiet_refl]].
  destruct (splitFirst message) as [streamId [afterId|]];
    [| exists w; split; [by left | apply quiet_refl]].
  destruct (splitFirst afterId) as [isEndRaw content].
  destruct (negb (bool_decide (isEndRaw = [FLAG_END]))).
  { exists w. split; [by left |]. simpl. apply quiet_buffered. }
  destruct (flag =? IpcTypeFlag_InvokeStream).
  - destruct (splitFirst _) as [responseEvent payload]. simpl.
    apply (invokeListener_effect id); [done | apply quiet_unbuffered].
  - simpl. apply (callListener_effect id); [done | apply quiet_unbuffered].
Qed.

Lemma onScriptEventRecieved_effect id message w :
  exists w1, afterCall id w w1 /\ quiet w1 (onScriptEventRecieved id message w).
Proof.
  destruct (routeEvent_effect id message w) as (w1 & Ha & Hq).
  exists w1. split; [done |]. unfold onScriptEventRecieved.
  destruct (routeEvent id message w) as [w' | e w']; simpl in Hq; [done |].
  eapply quiet_trans; [done | apply quiet_withHostErrors].
Qed.

(** One turn of the event loop: an effect, followed by steps that
    are quiet. *)
Lemma step_effect w e :
  exists w1, effectOf e w w1 /\ quiet w1 (step w e).
Proof.
  unfold step. destruct e as [id message | | k | k]; simpl.
  - destruct (subscribed w).
    + destruct (onScriptEventRecieved_effect id message w) as (w1 & Ha & Hq).
      exists w1. split; [done |].
      eapply quiet_trans; [done | apply quiet_runMicrotasks].
    + exists w. split; [by left | apply quiet_runMicrotasks].
  - exists (tick w). split; [done | apply quiet_runMicrotasks].
  - exists (transmit k w). split; [done | apply quiet_runMicrotasks].
  - exists w. split; [done |].
    eapply quiet_trans; [apply quiet_settleTask | apply quiet_runMicrotasks].
Qed.

End Frames.

(** ** Listeners are only removed, promises only settled *)

Section Later.
Context `{Common}.

Lemma later_refl w : later w w.
Proof. by split. Qed.

Lemma later_trans w1 w2 w3 : later w1 w2 -> later w2 w3 -> later w1 w3.
Proof. intros [? ?] [? ?]. split; auto. Qed.

Lemma later_quiet w w' : quiet w w' -> later w w'.
Proof.
  intros Hq. split.
  - intros k. by rewrite (quiet_listeners _ _ Hq).
  - intros p s. by rewrite (quiet_promises _ _ Hq).
Qed.

Lemma settle_lookup p s q w :
  promises (settle p s w) !! q
  = match promises w !! q with
    | Some s' => Some s'
    | None => if decide (p = q) then Some s else None
    end.
Proof.
  unfold settle. destruct (promises w !! p) eqn:Ep.
  - destruct (promises w !! q) eqn:Eq; [done |].
    case_decide; [congruence | done].
  - simpl. rewrite lookup_insert. case_decide.
    + subst. by rewrite Ep.
    + by destruct (promises w !! q).
Qed.

Lemma settle_lookup_ne p s q w :
  p ≠ q -> promises (settle p s w) !! q = promises w !! q.
Proof.
  intros Hne. rewrite settle_lookup.
  destruct (promises w !! q); [done |]. by case_decide.
Qed.

Lemma settle_listeners p s w :
  listeners (router (settle p s w)) = listeners (router w).
Proof. unfold settle. by case_match. Qed.

Lemma settle_runs p s w : runs (settle p s w) = runs w.
Proof. unfold settle. by case_match. Qed.

Lemma settle_narrowed p s w : narrowed w (settle p s w).
Proof. unfold settle. case_match; by constructor. Qed.

Lemma settleInvoke_narrowed tf p payload w : narrowed w (settleInvoke tf p payload w).
Proof. unfold settleInvoke. case_match; apply settle_narrowed. Qed.

Lemma removeListener_narrowed rid w : narrowed w (removeListener rid w).2.
Proof.
  constructor; simpl; try done.
  intros k l Hl. by apply lookup_delete_Some in Hl as [_ ?].
Qed.

Lemma narrowed_refl w : narrowed w w.
Proof. by constructor. Qed.

Lemma narrowed_trans w1 w2 w3 : narrowed w1 w2 -> narrowed w2 w3 -> narrowed w1 w3.
Proof.
  intros [Hl1 ? ? ? ? ?] [Hl2 ? ? ? ? ?]. constructor; try congruence.
  intros k l Hl. auto.
Qed.

Lemma later_settle p s w : later w (settle p s w).
Proof.
  split.
  - intros k. by rewrite settle_listeners.
  - intros q s' Hq. by rewrite settle_lookup, Hq.
Qed.

Lemma later_settleInvoke tf p payload w : later w (settleInvoke tf p payload w).
Proof. unfold settleInvoke. case_match; apply later_settle. Qed.

Lemma later_removeListener rid w : later w (removeListener rid w).2.
Proof.
  split; [| done]. intros k Hk. simpl.
  apply lookup_delete_None. by right.
Qed.

Lemma later_clearRun t w : later w (clearRun t w).
Proof. by split. Qed.

Lemma later_callFunction l payload w : later w (callFunction l payload w).2.
Proof.
  rewrite callFunction_closure. destruct l as [f | rid t tf p | rid var tf p].
  - apply later_refl.
  - eapply later_trans; [apply later_removeListener |].
    eapply later_trans; [apply later_clearRun | apply later_settleInvoke].
  - eapply later_trans; [| apply later_settleInvoke].
    destruct (timeoutIdVars w !! var).
    + eapply later_trans; [apply later_removeListener | apply later_clearRun].
    + apply later_removeListener.
Qed.

Lemma fire_unfold r w :
  fire r w
  = match runCallback r with
    | InvokeTimeout rid p event =>
        settle p (Rejected (timedOut event)) (removeListener rid w).2
    end.
Proof. done. Qed.

Lemma later_fire r w : later w (fire r w).
Proof.
  rewrite fire_unfold. destruct (runCallback r) as [rid p event].
  eapply later_trans; [apply later_removeListener | apply later_settle].
Qed.

Lemma narrowed_fire r w : narrowed w (fire r w).
Proof.
  rewrite fire_unfold. destruct (runCallback r) as [rid p event].
  eapply narrowed_trans; [apply removeListener_narrowed | apply settle_narrowed].
Qed.

Lemma later_foldl {A} (f : World -> A -> World) (xs : list A) :
  (forall w x, later w (f w x)) -> forall w, later w (foldl f w xs).
Proof.
  intros Hf. induction xs as [|x xs IH]; intros w; simpl.
  - apply later_refl.
  - eapply later_trans; [apply Hf | apply IH].
Qed.

Lemma narrowed_foldl {A} (f : World -> A -> World) (xs : list A) :
  (forall w x, narrowed w (f w x)) -> forall w, narrowed w (foldl f w xs).
Proof.
  intros Hf. induction xs as [|x xs IH]; intros w; simpl.
  - apply narrowed_refl.
  - eapply narrowed_trans; [apply Hf | apply IH].
Qed.

(** The world in which the callbacks of a tick run. *)
Lemma tick_unfold w :
  tick w
  = foldl (fun w r => fire r w)
      (withRuns (filter (fun r => isDue (S (currentTick w)) r ≠ true) (runs w))
         (withTick (S (currentTick w)) w))
      (filter (fun r => isDue (S (currentTick w)) r = true) (runs w)).
Proof. done. Qed.

Lemma later_tick w : later w (tick w).
Proof.
  rewrite tick_unfold.
  eapply later_trans; [| apply later_foldl; intros; apply later_fire].
  by split.
Qed.

(** What a transmission does. *)
Lemma transmit_cases k w :
  transmit k w = w
  \/ (exists job frame rest,
        jobs w !! k = Some job /\ pendingFrames job = frame :: rest /\ rest ≠ []
        /\ transmit k w
           = withJobs (<[k := {| pendingFrames := rest; onFinally := onFinally job |}]>
                         (jobs w))
               (withWire (wire w ++ [frame]) w))
  \/ (exists job frame,
        jobs w !! k = Some job /\ pendingFrames job = [frame]
        /\ transmit k w
           = let w2 := withJobs (<[k := {| pendingFrames := []; onFinally := None |}]>
                                   (jobs w))
                         (withWire (wire w ++ [frame]) w) in
             match onFinally job with
             | Some fin => runFinally fin w2
             | None => w2
             end).
Proof.
  unfold transmit. destruct (jobs w !! k) as [job|] eqn:Hj; [| by left].
  destruct (pendingFrames job) as [|frame rest] eqn:Hp; [by left |].
  destruct rest as [|frame' rest].
  - right; right. by exists job, frame.
  - right; left. by exists job, frame, (frame' :: rest).
Qed.

Lemma runFinally_unfold fin w :
  runFinally fin w
  = match fin with
    | ArmInvokeTimeout var rid p event =>
        withTimeoutIdVars (<[var := nextRunId w]> (timeoutIdVars w))
          (withNextRunId (S (nextRunId w))
             (withRuns (runs w ++ [{| runId := nextRunId w;
                                      dueTick := currentTick w + 20;
                                      runCallback := InvokeTimeout rid p event |}]) w))
    end.
Proof. by destruct fin. Qed.

Lemma transmit_listeners k w :
  listeners (router (transmit k w)) = listeners (router w).
Proof.
  destruct (transmit_cases k w) as [-> | [(job & f & rest & _ & _ & _ & ->)
                                         | (job & f & _ & _ & ->)]]; try done.
  simpl. destruct (onFinally job) as [fin|]; [| done].
  rewrite runFinally_unfold. by destruct fin.
Qed.

Lemma transmit_promises k w : promises (transmit k w) = promises w.
Proof.
  destruct (transmit_cases k w) as [-> | [(job & f & rest & _ & _ & _ & ->)
                                         | (job & f & _ & _ & ->)]]; try done.
  simpl. destruct (onFinally job) as [fin|]; [| done].
  rewrite runFinally_unfold. by destruct fin.
Qed.

Lemma later_transmit k w : later w (transmit k w).
Proof.
  split.
  - intros ?. by rewrite transmit_listeners.
  - intros ? ?. by rewrite transmit_promises.
Qed.

Lemma later_step w e : later w (step w e).
Proof.
  destruct (step_effect w e) as (w1 & He & Hq).
  eapply later_trans; [| by apply later_quiet].
  destruct e as [id message | | k | k]; simpl in He; subst;
    try apply later_refl.
  - destruct He as [-> | (l & payload & _ & ->)];
      [apply later_refl | apply later_callFunction].
  - apply later_tick.
  - apply later_transmit.
Qed.

Lemma run_app es1 es2 w : run (es1 ++ es2) w = run es2 (run es1 w).
Proof. apply foldl_app. Qed.

Lemma run_cons e es w : run (e :: es) w = run es (step w e).
Proof. done. Qed.

Lemma later_run es : forall w, later w (run es w).
Proof.
  induction es as [|e es IH]; intros w.
  - apply later_refl.
  - rewrite run_cons. eapply later_trans; [apply later_step | apply IH].
Qed.

(** A script event addressed to an id without listener is ignored. *)
Lemma step_ignored id message w :
  listeners (router w) !! id = None -> drained w ->
  step w (ScriptEvent id message) = w.
Proof.
  intros Hl Hd. unfold step, handle, onScriptEventRecieved.
  rewrite routeEvent_unregistered by done.
  destruct (subscribed w); by apply runMicrotasks_drained.
Qed.

End Later.

(** ** An invoke that waits for its response *)

Section Awaiting.
Context `{Common}.

Lemma awaiting_same respId p l w w' :
  listeners (router w') = listeners (router w) ->
  promises w' = promises w ->
  awaiting respId p l w -> awaiting respId p l w'.
Proof.
  intros Hl Hp [H1 H2 H3]. constructor; rewrite ?Hl, ?Hp; done.
Qed.

Lemma awaiting_quiet respId p l w w' :
  quiet w w' -> awaiting respId p l w -> awaiting respId p l w'.
Proof.
  intros Hq. apply awaiting_same; [apply Hq | apply Hq].
Qed.

(** Removing the listener of another invoke and settling its promise
    does not disturb this one. *)
Lemma awaiting_respond respId p l rid p' s w0 w :
  rid ≠ respId -> p' ≠ p ->
  listeners (router w0) = delete rid (listeners (router w)) ->
  promises w0 = promises w ->
  awaiting respId p l w -> awaiting respId p l (settle p' s w0).
Proof.
  intros Hrid Hp Hl Hs [H1 H2 H3]. constructor.
  - rewrite settle_listeners, Hl. by rewrite lookup_delete_ne.
  - rewrite settle_lookup_ne, Hs; done.
  - intros k l'. rewrite settle_listeners, Hl.
    intros [_ Hk]%lookup_delete_Some. by apply H3.
Qed.

Lemma awaiting_callFunction respId p l l' payload w :
  foreignListener respId p l' ->
  awaiting respId p l w -> awaiting respId p l (callFunction l' payload w).2.
Proof.
  intros Hf Haw. rewrite callFunction_closure.
  destruct l' as [f | rid t tf p' | rid var tf p']; [done | |];
    destruct Hf as [Hrid Hp].
  - unfold settleInvoke.
    destruct (isFailure payload && tf);
      by apply (awaiting_respond respId p l rid p' _ _ w).
  - unfold settleInvoke.
    destruct (isFailure payload && tf), (timeoutIdVars w !! var);
      by apply (awaiting_respond respId p l rid p' _ _ w).
Qed.

Lemma awaiting_fire respId p l r w :
  foreignCallback respId p (runCallback r) ->
  awaiting respId p l w -> awaiting respId p l (fire r w).
Proof.
  intros Hf Haw. rewrite fire_unfold.
  destruct (runCallback r) as [rid p' event]. destruct Hf as [Hrid Hp].
  by apply (awaiting_respond respId p l rid p' _ _ w).
Qed.

Lemma awaiting_foldl_fire respId p l (rs : list Run) : forall w,
  Forall (fun r => foreignCallback respId p (runCallback r)) rs ->
  awaiting respId p l w ->
  awaiting respId p l (foldl (fun w r => fire r w) w rs).
Proof.
  induction rs as [|r rs IH]; intros w Hall Haw; simpl; [done |].
  apply Forall_cons in Hall as [Hr Hall].
  apply IH; [done |]. by apply awaiting_fire.
Qed.

Lemma awaiting_tick respId p l w :
  (forall r, r ∈ runs w -> (dueTick r ≤ S (currentTick w))%nat ->
             foreignCallback respId p (runCallback r)) ->
  awaiting respId p l w -> awaiting respId p l (tick w).
Proof.
  intros Hdue Haw. rewrite tick_unfold.
  apply awaiting_foldl_fire.
  - apply Forall_forall. intros r [Hd Hr]%list_elem_of_filter.
    apply Hdue; [done |]. unfold isDue in Hd. by apply bool_decide_eq_true in Hd.
  - by apply (awaiting_same respId p l w).
Qed.

(** One turn of the event loop that neither delivers a script event to
    [respId] nor runs a timeout of this invoke leaves it waiting. *)
Lemma awaiting_step respId p l w e :
  silentEvent respId e ->
  (e = Tick -> forall r, r ∈ runs w -> (dueTick r ≤ S (currentTick w))%nat ->
               foreignCallback respId p (runCallback r)) ->
  awaiting respId p l w -> awaiting respId p l (step w e).
Proof.
  intros Hs Hdue Haw.
  destruct (step_effect w e) as (w1 & He & Hq).
  apply (awaiting_quiet respId p l w1); [done |].
  destruct e as [id message | | k | k]; simpl in He, Hs; subst; try done.
  - destruct He as [-> | (l' & payload & Hl' & ->)]; [done |].
    apply awaiting_callFunction; [| done].
    by apply (aw_foreign _ _ _ _ Haw id).
  - by apply awaiting_tick; [apply Hdue |].
  - apply (awaiting_same respId p l w); [apply transmit_listeners
                                        | apply transmit_promises | done].
Qed.

(** The response arrives: a Send frame addressed to [respId] whose
    payload parses calls the closure. *)
Lemma step_response respId l text payload w :
  subscribed w = true ->
  listeners (router w) !! respId = Some l ->
  match l with Callback _ => False | _ => True end ->
  parseRawPayload (Some text) = Some payload ->
  quiet (callFunction l payload w).2
        (step w (ScriptEvent respId (IpcTypeFlag_Send :: text))).
Proof.
  intros Hsub Hl Hclosure Hparse.
  unfold step, handle. rewrite Hsub. unfold onScriptEventRecieved.
  rewrite (routeEvent_Send _ l) by done. unfold callListener. rewrite Hparse.
  pose proof (callFunction_closure_returns l payload w Hclosure) as Hret.
  destruct (callFunction l payload w) as [c w1]. simpl in *. subst c.
  eapply quiet_trans; [apply quiet_suspend | apply quiet_runMicrotasks].
Qed.

End Awaiting.

(** ** The timeout of an invoke *)

Section Armed.
Context `{Common}.

Lemma armed_quiet respId t p event due w w' :
  quiet w w' -> armed respId t p event due w -> armed respId t p event due w'.
Proof.
  intros [Hl Hr Hn _ _ Hv _ _ _ (new & Hj & Hnew)] [H1 H2 H3 H4 H5 H6 H7].
  constructor; rewrite ?Hl, ?Hr, ?Hn, ?Hv; try done.
  intros job fin. rewrite Hj. intros [Hin | Hin]%elem_of_app Hfin.
  - by apply (H7 job).
  - rewrite Forall_forall in Hnew. rewrite (Hnew job Hin) in Hfin. done.
Qed.

Lemma armed_narrowed respId t p event due w w' :
  narrowed w w' -> armed respId t p event due w -> armed respId t p event due w'.
Proof.
  intros [Hl Hr Hn Hv Hj _] [H1 H2 H3 H4 H5 H6 H7].
  constructor; rewrite ?Hr, ?Hn, ?Hv, ?Hj; try done.
  intros k l' Hk. apply H5. by apply Hl.
Qed.

Lemma armed_clearRun respId t p event due t' w :
  t' ≠ t ->
  armed respId t p event due w -> armed respId t p event due (clearRun t' w).
Proof.
  intros Hne [H1 H2 H3 H4 H5 H6 H7]. constructor; simpl; try done.
  - apply list_elem_of_filter. split; [simpl; congruence | done].
  - intros r [_ Hr]%list_elem_of_filter. by apply H2.
  - intros r [_ Hr]%list_elem_of_filter. by apply H3.
Qed.

Lemma armed_callFunction respId t p event due l' payload w :
  ~ clearsRun t l' ->
  armed respId t p event due w ->
  armed respId t p event due (callFunction l' payload w).2.
Proof.
  intros Hc Har. rewrite callFunction_closure.
  destruct l' as [f | rid t' tf p' | rid var tf p']; [done | |].
  - eapply armed_narrowed; [apply settleInvoke_narrowed |].
    apply armed_clearRun; [simpl in Hc; congruence |].
    eapply armed_narrowed; [apply removeListener_narrowed | done].
  - eapply armed_narrowed; [apply settleInvoke_narrowed |].
    destruct (timeoutIdVars w !! var) as [t'|] eqn:Hv.
    + apply armed_clearRun.
      * intros ->. by apply (ar_vars _ _ _ _ _ _ Har var).
      * eapply armed_narrowed; [apply removeListener_narrowed | done].
    + eapply armed_narrowed; [apply removeListener_narrowed | done].
Qed.

Lemma armed_tick respId t p event due w :
  (S (currentTick w) < due)%nat ->
  armed respId t p event due w -> armed respId t p event due (tick w).
Proof.
  intros Hlt Har. rewrite tick_unfold.
  eapply armed_narrowed;
    [apply narrowed_foldl; intros; apply narrowed_fire |].
  destruct Har as [H1 H2 H3 H4 H5 H6 H7]. constructor; simpl; try done.
  - apply list_elem_of_filter. split; [| done].
    unfold isDue. simpl. rewrite bool_decide_eq_false_2 by lia. done.
  - intros r [_ Hr]%list_elem_of_filter. by apply H2.
  - intros r [_ Hr]%list_elem_of_filter. by apply H3.
Qed.

Lemma elem_of_list_insert_inv {A} (l : list A) (k : nat) (x y : A) :
  y ∈ <[k := x]> l -> y = x \/ y ∈ l.
Proof.
  intros [i Hi]%list_elem_of_lookup.
  apply list_lookup_insert_Some in Hi as [(_ & -> & _) | (_ & Hi)].
  - by left.
  - right. apply list_elem_of_lookup. by exists i.
Qed.

Lemma armed_transmit respId t p event due k w :
  armed respId t p event due w -> armed respId t p event due (transmit k w).
Proof.
  intros Har.
  destruct (transmit_cases k w) as [-> | [(job & f & rest & Hj & Hp & Hne & ->)
                                         | (job & f & Hj & Hp & ->)]]; [done | |].
  - destruct Har as [H1 H2 H3 H4 H5 H6 H7]. constructor; simpl; try done.
    intros job' fin [-> | Hin]%elem_of_list_insert_inv Hfin.
    + simpl in Hfin. apply (H7 job); [| done].
      apply list_elem_of_lookup. by exists k.
    + by apply (H7 job').
  - assert (Har2 : armed respId t p event due
                     (withJobs (<[k := {| pendingFrames := []; onFinally := None |}]> (jobs w))
                        (withWire (wire w ++ [f]) w))).
    { destruct Har as [H1 H2 H3 H4 H5 H6 H7]. constructor; simpl; try done.
      intros job' fin [-> | Hin]%elem_of_list_insert_inv Hfin; [done |].
      by apply (H7 job'). }
    cbv zeta. destruct (onFinally job) as [fin|] eqn:Hfin; [| done].
    assert (Hforeign : foreignFinally respId p fin).
    { apply (ar_jobs _ _ _ _ _ _ Har job); [| done].
      apply list_elem_of_lookup. by exists k. }
    rewrite runFinally_unfold. destruct fin as [var rid p' event'].
    destruct Har2 as [H1 H2 H3 H4 H5 H6 H7]. simpl in *.
    constructor; simpl; try done.
    + apply elem_of_app. by left.
    + intros r [Hr | Hr%list_elem_of_singleton]%elem_of_app Hid; [by apply H2 |].
      subst r. simpl in Hid. lia.
    + intros r [Hr | Hr%list_elem_of_singleton]%elem_of_app Hid; [by apply H3 |].
      by subst r.
    + lia.
    + intros var'. rewrite lookup_insert. case_decide; [| apply H6].
      intros [= Heq]. lia.
Qed.

(** One turn of the event loop before the timeout is due, without a
    script event for [respId], leaves the timeout scheduled. *)
Lemma armed_step respId t p event due w e :
  silentEvent respId e ->
  (e = Tick -> (S (currentTick w) < due)%nat) ->
  armed respId t p event due w -> armed respId t p event due (step w e).
Proof.
  intros Hs Hdue Har.
  destruct (step_effect w e) as (w1 & He & Hq).
  apply (armed_quiet respId t p event due w1); [done |].
  destruct e as [id message | | k | k]; simpl in He, Hs; subst; try done.
  - destruct He as [-> | (l' & payload & Hl' & ->)]; [done |].
    apply armed_callFunction; [| done].
    by apply (ar_listeners _ _ _ _ _ _ Har id).
  - by apply armed_tick; [apply Hdue |].
  - by apply armed_transmit.
Qed.

(** The runs of the tick at which the timeout is due. *)
Lemma foldl_fire_timeout respId p event (own : Run) (rs : list Run) : forall w,
  runCallback own = InvokeTimeout respId p event ->
  own ∈ rs ->
  (forall r, r ∈ rs -> r = own \/ foreignCallback respId p (runCallback r)) ->
  promises w !! p = None ->
  let w' := foldl (fun w r => fire r w) w rs in
  promises w' !! p = Some (Rejected (timedOut event))
  /\ listeners (router w') !! respId = None.
Proof.
  intros w Hown. revert w.
  assert (Hfired : forall rs w, promises w !! p = None ->
            let w' := foldl (fun w r => fire r w) (fire own w) rs in
            promises w' !! p = Some (Rejected (timedOut event))
            /\ listeners (router w') !! respId = None).
  { intros rs' w Hpending.
    destruct (later_foldl (fun w r => fire r w) rs'
                ltac:(intros; apply later_fire) (fire own w)) as [Hl' Hp'].
    split.
    - apply Hp'. rewrite fire_unfold, Hown, settle_lookup. simpl.
      rewrite Hpending. by case_decide.
    - apply Hl'. rewrite fire_unfold, Hown, settle_listeners. simpl.
      apply lookup_delete_eq. }
  induction rs as [|r rs IH]; intros w Hin Hall Hpending.
  - by apply elem_of_nil in Hin.
  - apply elem_of_cons in Hin as [Heq | Hin].
    + rewrite <- Heq. simpl. by apply Hfired.
    + destruct (Hall r) as [Heq | Hforeign]; [left | |].
      * rewrite Heq. simpl. by apply Hfired.
      * simpl. apply IH; try done.
        -- intros r' Hr'. apply Hall. by right.
        -- rewrite fire_unfold. destruct (runCallback r) as [rid p' event'].
           destruct Hforeign as [_ Hp']. by rewrite settle_lookup_ne.
Qed.

(** The tick at which the timeout is due: the promise is rejected with
    the timeout error and the response listener is removed. *)
Lemma armed_timeout respId t p event due w :
  armed respId t p event due w -> promises w !! p = None ->
  (due ≤ S (currentTick w))%nat ->
  promises (step w Tick) !! p = Some (Rejected (timedOut event))
  /\ listeners (router (step w Tick)) !! respId = None.
Proof.
  intros Har Hpending Hdue.
  pose proof (quiet_runMicrotasks (tick w)) as Hq.
  unfold step, handle.
  rewrite (quiet_promises _ _ Hq), (quiet_listeners _ _ Hq).
  rewrite tick_unfold.
  apply (foldl_fire_timeout respId p event
           {| runId := t; dueTick := due; runCallback := InvokeTimeout respId p event |}).
  - done.
  - apply list_elem_of_filter. split; [| apply Har].
    unfold isDue. simpl. by rewrite bool_decide_eq_true_2.
  - intros r [_ Hr]%list_elem_of_filter.
    destruct (decide (runId r = t)) as [Hid | Hid].
    + left. by apply (ar_unique _ _ _ _ _ _ Har).
    + right. by apply (ar_runs _ _ _ _ _ _ Har).
  - done.
Qed.

End Armed.

(** ** [invoke]: timeout and response *)

Section Invoke.
Context `{Common}.

Lemma callFunction_tick l payload w :
  currentTick (callFunction l payload w).2 = currentTick w.
Proof.
  rewrite callFunction_closure.
  destruct l as [f | rid t tf p | rid var tf p]; [done | |].
  - unfold settleInvoke, settle. by repeat case_match.
  - unfold settleInvoke, settle. by repeat case_match.
Qed.

Lemma tick_tick w : currentTick (tick w) = S (currentTick w).
Proof.
  rewrite tick_unfold.
  rewrite (na_tick _ _ (narrowed_foldl (fun w r => fire r w) _
                          ltac:(intros; apply narrowed_fire) _)).
  done.
Qed.

Lemma transmit_tick k w : currentTick (transmit k w) = currentTick w.
Proof.
  destruct (transmit_cases k w) as [-> | [(job & f & rest & _ & _ & _ & ->)
                                         | (job & f & _ & _ & ->)]]; try done.
  simpl. destruct (onFinally job) as [fin|]; [| done].
  rewrite runFinally_unfold. by destruct fin.
Qed.

Lemma step_tick w e :
  currentTick (step w e) = (currentTick w + ticks [e])%nat.
Proof.
  destruct (step_effect w e) as (w1 & He & Hq).
  rewrite (quiet_tick _ _ Hq).
  destruct e as [id message | | k | k]; simpl in *; subst.
  - destruct He as [-> | (l & payload & _ & ->)];
      [lia | rewrite callFunction_tick; lia].
  - rewrite tick_tick. lia.
  - rewrite transmit_tick. lia.
  - lia.
Qed.

Lemma ticks_app es1 es2 : ticks (es1 ++ es2) = (ticks es1 + ticks es2)%nat.
Proof.
  induction es1 as [|e es1 IH]; simpl; [done |].
  destruct e; simpl; lia.
Qed.

Lemma run_tick es : forall w,
  currentTick (run es w) = (currentTick w + ticks es)%nat.
Proof.
  induction es as [|e es IH]; intros w.
  - simpl. lia.
  - rewrite run_cons, IH, step_tick.
    change (e :: es) with ([e] ++ es). rewrite ticks_app. lia.
Qed.

Lemma step_subscribed w e : subscribed (step w e) = subscribed w.
Proof.
  destruct (step_effect w e) as (w1 & He & Hq).
  rewrite (quiet_subscribed _ _ Hq).
  destruct e as [id message | | k | k]; simpl in *; subst; try done.
  - destruct He as [-> | (l & payload & _ & ->)]; [done |].
    rewrite callFunction_closure.
    destruct l as [f | rid t tf p | rid var tf p]; [done | |];
      unfold settleInvoke, settle; by repeat case_match.
  - rewrite tick_unfold.
    assert (Hsub : forall rs w0, subscribed (foldl (fun w r => fire r w) w0 rs)
                                 = subscribed w0).
    { induction rs as [|r rs IH]; intros w0; simpl; [done |].
      rewrite IH, fire_unfold. destruct (runCallback r).
      unfold settle. by case_match. }
    by rewrite Hsub.
  - destruct (transmit_cases k w) as [-> | [(job & f & rest & _ & _ & _ & ->)
                                           | (job & f & _ & _ & ->)]]; try done.
    simpl. destruct (onFinally job) as [fin|]; [| done].
    rewrite runFinally_unfold. by destruct fin.
Qed.

Lemma run_subscribed es : forall w, subscribed (run es w) = subscribed w.
Proof.
  induction es as [|e es IH]; intros w; [done |].
  by rewrite run_cons, IH, step_subscribed.
Qed.

(** As long as the timeout is not due and no script event is addressed
    to [respId], the invoke stays as it is. *)
Lemma pending_run respId t p event due l es : forall w,
  awaiting respId p l w -> armed respId t p event due w ->
  silent respId es -> (currentTick w + ticks es < due)%nat ->
  awaiting respId p l (run es w) /\ armed respId t p event due (run es w).
Proof.
  induction es as [|e es IH]; intros w Haw Har Hs Hlt; [done |].
  apply Forall_cons in Hs as [He Hs].
  change (e :: es) with ([e] ++ es) in Hlt. rewrite ticks_app in Hlt.
  rewrite run_cons. apply IH; try done.
  - apply awaiting_step; try done.
    intros -> r Hr Hdue. simpl in Hlt.
    destruct (decide (runId r = t)) as [Hid | Hid].
    + rewrite (ar_unique _ _ _ _ _ _ Har r Hr Hid) in Hdue. simpl in Hdue. lia.
    + by apply (ar_runs _ _ _ _ _ _ Har).
  - apply armed_step; try done. intros ->. simpl in Hlt. lia.
  - rewrite step_tick. lia.
Qed.

(** A trace with at least [n + 1] ticks, cut at tick [n + 1]. *)
Lemma ticks_split n es :
  (n < ticks es)%nat ->
  exists es1 es2, es = es1 ++ Tick :: es2 /\ ticks es1 = n.
Proof.
  revert n. induction es as [|e es IH]; intros n Hn; simpl in Hn; [lia |].
  destruct e as [id message | | k | k].
  - destruct (IH n Hn) as (es1 & es2 & -> & Ht).
    by exists (ScriptEvent id message :: es1), es2.
  - destruct n as [|n].
    + by exists [], es.
    + destruct (IH n ltac:(lia)) as (es1 & es2 & -> & Ht).
      exists (Tick :: es1), es2. simpl. by rewrite Ht.
  - destruct (IH n Hn) as (es1 & es2 & -> & Ht).
    by exists (Transmit k :: es1), es2.
  - destruct (IH n Hn) as (es1 & es2 & -> & Ht).
    by exists (Settle k :: es1), es2.
Qed.

Lemma silent_app id es1 es2 :
  silent id (es1 ++ es2) <-> silent id es1 /\ silent id es2.
Proof. apply Forall_app. Qed.

(** *** A cleared run never comes back *)

Lemma noRun_quiet t w w' : quiet w w' -> noRun t w -> noRun t w'.
Proof.
  intros Hq [H1 H2]. split.
  - by rewrite (quiet_runs _ _ Hq).
  - by rewrite (quiet_nextRunId _ _ Hq).
Qed.

Lemma noRun_narrowed t w w' : narrowed w w' -> noRun t w -> noRun t w'.
Proof.
  intros Hn [H1 H2]. split.
  - by rewrite (na_runs _ _ Hn).
  - by rewrite (na_nextRunId _ _ Hn).
Qed.

Lemma noRun_clearRun t t' w : noRun t w -> noRun t (clearRun t' w).
Proof.
  intros [H1 H2]. split; [| done].
  intros r [_ Hr]%list_elem_of_filter. by apply H1.
Qed.

Lemma noRun_callFunction t l payload w :
  noRun t w -> noRun t (callFunction l payload w).2.
Proof.
  intros Hno. rewrite callFunction_closure.
  destruct l as [f | rid t' tf p | rid var tf p]; [done | |].
  - eapply noRun_narrowed; [apply settleInvoke_narrowed |].
    apply noRun_clearRun.
    eapply noRun_narrowed; [apply removeListener_narrowed | done].
  - eapply noRun_narrowed; [apply settleInvoke_narrowed |].
    destruct (timeoutIdVars w !! var).
    + apply noRun_clearRun.
      eapply noRun_narrowed; [apply removeListener_narrowed | done].
    + eapply noRun_narrowed; [apply removeListener_narrowed | done].
Qed.

Lemma noRun_tick t w : noRun t w -> noRun t (tick w).
Proof.
  intros [H1 H2]. rewrite tick_unfold.
  eapply noRun_narrowed;
    [apply narrowed_foldl; intros; apply narrowed_fire |].
  split; [| done]. simpl.
  intros r [_ Hr]%list_elem_of_filter. by apply H1.
Qed.

Lemma noRun_transmit t k w : noRun t w -> noRun t (transmit k w).
Proof.
  intros [H1 H2].
  destruct (transmit_cases k w) as [-> | [(job & f & rest & _ & _ & _ & ->)
                                         | (job & f & _ & _ & ->)]]; try done.
  cbv zeta. destruct (onFinally job) as [fin|]; [| done].
  rewrite runFinally_unfold. destruct fin as [var rid p event].
  split; simpl; [| lia].
  intros r [Hr | Hr%list_elem_of_singleton]%elem_of_app; [by apply H1 |].
  subst r. simpl. lia.
Qed.

Lemma noRun_step t w e : noRun t w -> noRun t (step w e).
Proof.
  intros Hno. destruct (step_effect w e) as (w1 & He & Hq).
  apply (noRun_quiet t w1); [done |].
  destruct e as [id message | | k | k]; simpl in He; subst; try done.
  - destruct He as [-> | (l & payload & _ & ->)];
      [done | by apply noRun_callFunction].
  - by apply noRun_tick.
  - by apply noRun_transmit.
Qed.

Lemma noRun_run t es : forall w, noRun t w -> noRun t (run es w).
Proof.
  induction es as [|e es IH]; intros w Hno; [done |].
  rewrite run_cons. by apply IH, noRun_step.
Qed.

(** *** What [invokeInternal] sets up *)

Lemma invokeInternal_promise options respId w :
  (invokeInternal options respId w).1 = nextPromise w.
Proof.
  unfold invokeInternal, runTimeout. simpl. by case_match.
Qed.

Lemma invokeInternal_cases options respId w :
  let p := nextPromise w in
  let t := nextRunId w in
  let w2 :=
    setListener respId (InvokeResponse respId t (ii_throwFailures options) p)
      (withNextRunId (S t)
         (withRuns (runs w ++ [{| runId := t; dueTick := currentTick w + 20;
                                  runCallback :=
                                    InvokeTimeout respId p (ii_event options) |}])
            (withNextPromise (S p) w))) in
  (invokeInternal options respId w).2
  = withWire (wire w ++ [(ii_event options,
                          IpcTypeFlag_Invoke :: respId ++ SPACE :: ii_payload options)])
      w2
  \/ exists e, (invokeInternal options respId w).2 = settle p (Rejected e) w2.
Proof.
  unfold invokeInternal, runTimeout, sendInternal. cbv zeta.
  destruct (negb (ii_force options) && _).
  - right. by eexists.
  - by left.
Qed.

Lemma invokeInternal_establishes options respId w :
  let p := nextPromise w in
  let t := nextRunId w in
  let w1 := (invokeInternal options respId w).2 in
  unused respId w ->
  promises w1 !! p = None ->
  awaiting respId p (InvokeResponse respId t (ii_throwFailures options) p) w1
  /\ armed respId t p (ii_event options) (currentTick w + 20) w1
  /\ currentTick w1 = currentTick w
  /\ subscribed w1 = subscribed w.
Proof.
  intros p t w1 [Hl Hr Hv _ Hj Hp] Hpending. subst p t w1.
  destruct (invokeInternal_cases options respId w) as [-> | [e Heq]].
  2: { rewrite Heq, settle_lookup in Hpending.
       destruct (promises _ !! _); [done |]. by case_decide. }
  split; [| split; [| done]].
  - constructor; simpl.
    + apply lookup_insert_eq.
    + done.
    + intros k l' Hk Hne. rewrite lookup_insert_ne in Hk by done.
      by apply (Hl k l').
  - constructor; simpl.
    + apply elem_of_app. right. by apply list_elem_of_singleton.
    + intros r [Hin | Hin%list_elem_of_singleton]%elem_of_app Hid; [| done].
      destruct (Hr r Hin) as [Hlt _]. lia.
    + intros r [Hin | Hin%list_elem_of_singleton]%elem_of_app Hid.
      * by apply (Hr r).
      * by subst r.
    + lia.
    + intros k l' Hk Hne. rewrite lookup_insert_ne in Hk by done.
      by apply (Hl k l').
    + done.
    + intros job fin Hin Hfin. by apply (Hj job fin).
Qed.

End Invoke.

Section InvokeRace.
Context `{Common}.

Lemma settleInvoke_lookup tf p payload w :
  promises w !! p = None ->
  promises (settleInvoke tf p payload w) !! p = Some (responseOutcome tf payload).
Proof.
  intros Hp. unfold settleInvoke, responseOutcome.
  destruct (isFailure payload && tf); rewrite settle_lookup, Hp; by case_decide.
Qed.

Lemma settleInvoke_listeners tf p payload w :
  listeners (router (settleInvoke tf p payload w)) = listeners (router w).
Proof. unfold settleInvoke. case_match; apply settle_listeners. Qed.

Lemma settleInvoke_runs tf p payload w :
  runs (settleInvoke tf p payload w) = runs w.
Proof. unfold settleInvoke. case_match; apply settle_runs. Qed.

Lemma settleInvoke_nextRunId tf p payload w :
  nextRunId (settleInvoke tf p payload w) = nextRunId w.
Proof. apply (na_nextRunId _ _ (settleInvoke_narrowed tf p payload w)). Qed.

(** The response of a waiting invoke arrives before its timeout. *)
Lemma response_settles respId t p tf event due text payload w :
  awaiting respId p (InvokeResponse respId t tf p) w ->
  armed respId t p event due w ->
  subscribed w = true ->
  parseRawPayload (Some text) = Some payload ->
  let w2 := step w (ScriptEvent respId (IpcTypeFlag_Send :: text)) in
  promises w2 !! p = Some (responseOutcome tf payload)
  /\ listeners (router w2) !! respId = None
  /\ noRun t w2.
Proof.
  intros Haw Har Hsub Hparse w2.
  pose proof (step_response respId _ text payload w Hsub
                (aw_listener _ _ _ _ Haw) I Hparse) as Hq.
  fold w2 in Hq. rewrite callFunction_closure in Hq.
  split; [| split].
  - rewrite (quiet_promises _ _ Hq). apply settleInvoke_lookup. simpl.
    apply Haw.
  - rewrite (quiet_listeners _ _ Hq), settleInvoke_listeners. simpl.
    apply lookup_delete_eq.
  - eapply noRun_quiet; [done |]. split.
    + rewrite settleInvoke_runs. simpl.
      intros r [Hr _]%list_elem_of_filter. done.
    + rewrite settleInvoke_nextRunId. simpl. apply Har.
Qed.

(** C3.  An invoke whose frame went out (its promise is pending after
    the call) in a world where nothing else refers to its response id.
    Timeout: if no script event is addressed to the response id until
    the twentieth tick after the call has passed, the promise is
    rejected with the timeout error and the response listener is
    removed; from then on a script event addressed to the response id
    changes nothing at all, and the promise stays as it is whatever
    happens.  Response: if a Send frame with a payload that parses is
    routed to the response id before the twentieth tick, the promise
    settles with that payload (rejected with it when it is a Failure
    and [throwFailures] is set, resolved otherwise), the listener is
    removed and the timeout run is cleared; whatever happens later the
    promise stays as it is and the timeout run is never scheduled
    again.  So of timeout and response only the first has an effect. *)
Theorem invoke_timeout_or_response_first_wins
    (options : InternalInvokeOptions) (respId : jsstring) (w : World) :
  let p := nextPromise w in
  let t := nextRunId w in
  let w1 := (invokeInternal options respId w).2 in
  unused respId w ->
  subscribed w = true ->
  promises w1 !! p = None ->
  (invokeInternal options respId w).1 = p
  /\ (forall es, silent respId es -> (20 ≤ ticks es)%nat ->
        let w2 := run es w1 in
        promises w2 !! p = Some (Rejected (timedOut (ii_event options)))
        /\ listeners (router w2) !! respId = None
        /\ forall es' message,
             step (run es' w2) (ScriptEvent respId message) = run es' w2
             /\ promises (run es' w2) !! p
                = Some (Rejected (timedOut (ii_event options))))
  /\ (forall es text payload,
        silent respId es -> (ticks es < 20)%nat ->
        parseRawPayload (Some text) = Some payload ->
        let w2 := step (run es w1) (ScriptEvent respId (IpcTypeFlag_Send :: text)) in
        let outcome := responseOutcome (ii_throwFailures options) payload in
        promises w2 !! p = Some outcome
        /\ listeners (router w2) !! respId = None
        /\ forall es',
             promises (run es' w2) !! p = Some outcome
             /\ forall r, r ∈ runs (run es' w2) -> runId r ≠ t).
Proof.
  intros p t w1 Hunused Hsub Hpending.
  destruct (invokeInternal_establishes options respId w Hunused Hpending)
    as (Haw & Har & Htick & Hsub1).
  fold p t w1 in Haw, Har, Htick, Hsub1.
  split; [apply invokeInternal_promise |]. split.
  - (* timeout *)
    intros es Hs Hticks w2.
    destruct (ticks_split 19 es ltac:(lia)) as (es1 & es2 & -> & Ht1).
    apply silent_app in Hs as [Hs1 Hs2].
    destruct (pending_run respId t p (ii_event options) (currentTick w + 20) _
                es1 w1 Haw Har Hs1 ltac:(lia)) as [Haw1 Har1].
    destruct (armed_timeout respId t p (ii_event options) (currentTick w + 20)
                (run es1 w1) Har1 (aw_pending _ _ _ _ Haw1))
      as [Hrejected Hremoved].
    { rewrite run_tick. lia. }
    assert (Hlater : forall es', later (step (run es1 w1) Tick) (run es' w2)).
    { intros es'. subst w2. rewrite run_app, run_cons.
      eapply later_trans; apply later_run. }
    split; [| split].
    + apply (Hlater []). done.
    + apply (Hlater []). done.
    + intros es' message. split.
      * apply step_ignored; [by apply (Hlater es') |].
        subst w2. rewrite <- run_app. apply drained_run.
        by destruct es1.
      * by apply (Hlater es').
  - (* response *)
    intros es text payload Hs Hticks Hparse w2 outcome.
    destruct (pending_run respId t p (ii_event options) (currentTick w + 20) _
                es w1 Haw Har Hs ltac:(lia)) as [Haw1 Har1].
    destruct (response_settles respId t p _ _ _ text payload (run es w1)
                Haw1 Har1 ltac:(by rewrite run_subscribed, Hsub1) Hparse)
      as (Hsettled & Hremoved & Hno).
    fold w2 in Hsettled, Hremoved, Hno.
    split; [done |]. split; [done |].
    intros es'. split.
    + by apply (later_run es' w2).
    + apply (noRun_run t es' w2 Hno).
Qed.

End InvokeRace.

(** ** [invokeStream]: the timeout is armed by the last chunk *)

Section StreamInvoke.
Context `{Common}.

Lemma unarmed_quiet respId p var j event w w' :
  quiet w w' -> unarmed respId p var j event w -> unarmed respId p var j event w'.
Proof.
  intros [_ Hr _ _ _ Hv _ _ _ (new & Hj & Hnew)] [(job & Hjob & Hne & Hfin) H2 H3 H4].
  constructor; rewrite ?Hr, ?Hv; try done.
  - exists job. split; [| done]. rewrite Hj.
    rewrite lookup_app_l; [done | by eapply lookup_lt_Some].
  - intros k job' fin. rewrite Hj. intros Hk Hkj Hfin'.
    destruct (decide (k < length (jobs w))%nat) as [Hlt | Hge].
    + rewrite lookup_app_l in Hk by done. by apply (H4 k job').
    + rewrite lookup_app_r in Hk by lia.
      apply list_elem_of_lookup_2 in Hk. rewrite Forall_forall in Hnew.
      rewrite (Hnew job' Hk) in Hfin'. done.
Qed.

Lemma unarmed_shrunk respId p var j event w w' :
  (forall r, r ∈ runs w' -> r ∈ runs w) ->
  timeoutIdVars w' = timeoutIdVars w -> jobs w' = jobs w ->
  unarmed respId p var j event w -> unarmed respId p var j event w'.
Proof.
  intros Hr Hv Hj [H1 H2 H3 H4]. constructor; rewrite ?Hv, ?Hj; try done.
  intros r Hin. by apply H2, Hr.
Qed.

Lemma callFunction_shrunk l payload w :
  (forall r, r ∈ runs (callFunction l payload w).2 -> r ∈ runs w)
  /\ timeoutIdVars (callFunction l payload w).2 = timeoutIdVars w
  /\ jobs (callFunction l payload w).2 = jobs w.
Proof.
  rewrite callFunction_closure.
  destruct l as [f | rid t tf p | rid var tf p]; [done | |].
  - pose proof (settleInvoke_narrowed tf p payload (clearRun t (removeListener rid w).2))
      as [_ Hr _ Hv Hj _].
    rewrite Hr, Hv, Hj. simpl. split; [| done].
    by intros r [_ Hin]%list_elem_of_filter.
  - destruct (timeoutIdVars w !! var) as [t|].
    + pose proof (settleInvoke_narrowed tf p payload (clearRun t (removeListener rid w).2))
        as [_ Hr _ Hv Hj _].
      rewrite Hr, Hv, Hj. simpl. split; [| done].
      by intros r [_ Hin]%list_elem_of_filter.
    + pose proof (settleInvoke_narrowed tf p payload (removeListener rid w).2)
        as [_ Hr _ Hv Hj _].
      by rewrite Hr, Hv, Hj.
Qed.

Lemma tick_shrunk w :
  (forall r, r ∈ runs (tick w) -> r ∈ runs w)
  /\ timeoutIdVars (tick w) = timeoutIdVars w
  /\ jobs (tick w) = jobs w.
Proof.
  rewrite tick_unfold.
  pose proof (narrowed_foldl (fun w r => fire r w)
                (filter (fun r => isDue (S (currentTick w)) r = true) (runs w))
                ltac:(intros; apply narrowed_fire)
                (withRuns (filter (fun r => isDue (S (currentTick w)) r ≠ true) (runs w))
                   (withTick (S (currentTick w)) w)))
    as [_ Hr _ Hv Hj _].
  rewrite Hr, Hv, Hj. simpl. split; [| done].
  by intros r [_ Hin]%list_elem_of_filter.
Qed.

Lemma unarmed_transmit respId p var j event k w :
  unarmed respId p var j event w -> incomplete j (transmit k w) ->
  unarmed respId p var j event (transmit k w).
Proof.
  intros Hun Hinc.
  destruct (transmit_cases k w) as [Heq | [(job & f & rest & Hj & Hp & Hne & Heq)
                                         | (job & f & Hj & Hp & Heq)]];
    rewrite Heq in *; clear Heq; [done | |].
  - destruct Hun as [(job0 & Hjob0 & Hne0 & Hfin0) H2 H3 H4].
    constructor; simpl; try done.
    + destruct (decide (k = j)) as [-> | Hkj].
      * rewrite Hj in Hjob0. injection Hjob0 as <-.
        eexists. split; [apply list_lookup_insert_eq; by eapply lookup_lt_Some |].
        done.
      * exists job0. by rewrite list_lookup_insert_ne.
    + intros k' job' fin Hk' Hk'j Hfin'.
      apply list_lookup_insert_Some in Hk' as [(<- & <- & _) | (_ & Hk')].
      * simpl in Hfin'. by apply (H4 k job).
      * by apply (H4 k' job').
  - cbv zeta in *.
    assert (Hkj : k ≠ j).
    { intros ->. destruct Hinc as (job' & Hjob' & Hne').
      destruct (onFinally job) as [fin|].
      - rewrite runFinally_unfold in Hjob'. destruct fin. simpl in Hjob'.
        rewrite list_lookup_insert_eq in Hjob' by (by eapply lookup_lt_Some).
        injection Hjob' as <-. done.
      - simpl in Hjob'.
        rewrite list_lookup_insert_eq in Hjob' by (by eapply lookup_lt_Some).
        injection Hjob' as <-. done. }
    assert (Hun2 : unarmed respId p var j event
                     (withJobs (<[k := {| pendingFrames := []; onFinally := None |}]> (jobs w))
                        (withWire (wire w ++ [f]) w))).
    { destruct Hun as [(job0 & Hjob0 & Hne0 & Hfin0) H2 H3 H4].
      constructor; simpl; try done.
      - exists job0. by rewrite list_lookup_insert_ne.
      - intros k' job' fin Hk' Hk'j Hfin'.
        apply list_lookup_insert_Some in Hk' as [(<- & <- & _) | (_ & Hk')]; [done |].
        by apply (H4 k' job'). }
    destruct (onFinally job) as [fin|] eqn:Hfin; [| done].
    destruct (un_jobs _ _ _ _ _ _ Hun k job fin Hj Hkj Hfin) as [Hforeign Hvar].
    rewrite runFinally_unfold. destruct fin as [var' rid p' event'].
    destruct Hun2 as [H1 H2 H3 H4]. simpl in *.
    constructor; simpl; try done.
    + intros r [Hr | Hr%list_elem_of_singleton]%elem_of_app; [by apply H2 |].
      by subst r.
    + by rewrite lookup_insert_ne.
Qed.

Lemma effect_jobs_length e w w1 :
  effectOf e w w1 -> length (jobs w1) = length (jobs w).
Proof.
  destruct e as [id message | | k | k]; simpl; intros He; subst; try done.
  - destruct He as [-> | (l & payload & _ & ->)]; [done |].
    by rewrite (proj2 (proj2 (callFunction_shrunk l payload w))).
  - by rewrite (proj2 (proj2 (tick_shrunk w))).
  - destruct (transmit_cases k w) as [-> | [(job & f & rest & _ & _ & _ & ->)
                                           | (job & f & _ & _ & ->)]]; [done | |].
    + simpl. apply length_insert.
    + cbv zeta. destruct (onFinally job) as [fin|].
      * rewrite runFinally_unfold. destruct fin. simpl. apply length_insert.
      * simpl. apply length_insert.
Qed.

Lemma incomplete_quiet_back j w w' :
  quiet w w' -> (j < length (jobs w))%nat -> incomplete j w' -> incomplete j w.
Proof.
  intros Hq Hlt (job & Hjob & Hne).
  destruct (quiet_jobs _ _ Hq) as (new & Hj & _).
  rewrite Hj, lookup_app_l in Hjob by done. by exists job.
Qed.

Lemma step_jobs_length w e : (length (jobs w) ≤ length (jobs (step w e)))%nat.
Proof.
  destruct (step_effect w e) as (w1 & He & Hq).
  destruct (quiet_jobs _ _ Hq) as (new & Hj & _).
  rewrite Hj, length_app, (effect_jobs_length e w w1 He). lia.
Qed.

Lemma run_jobs_length es : forall w, (length (jobs w) ≤ length (jobs (run es w)))%nat.
Proof.
  induction es as [|e es IH]; intros w; [done |].
  rewrite run_cons. etrans; [apply step_jobs_length | apply IH].
Qed.

Lemma unarmed_step respId p var j event w e :
  unarmed respId p var j event w -> incomplete j (step w e) ->
  unarmed respId p var j event (step w e).
Proof.
  intros Hun Hinc.
  destruct (step_effect w e) as (w1 & He & Hq).
  assert (Hlt : (j < length (jobs w1))%nat).
  { rewrite (effect_jobs_length e w w1 He).
    destruct (un_job _ _ _ _ _ _ Hun) as (job & Hjob & _).
    by eapply lookup_lt_Some. }
  pose proof (incomplete_quiet_back j w1 _ Hq Hlt Hinc) as Hinc1.
  apply (unarmed_quiet respId p var j event w1); [done |].
  destruct e as [id message | | k | k]; simpl in He; subst; try done.
  - destruct He as [-> | (l & payload & _ & ->)]; [done |].
    destruct (callFunction_shrunk l payload w) as (Hr & Hv & Hj).
    by apply (unarmed_shrunk respId p var j event w).
  - destruct (tick_shrunk w) as (Hr & Hv & Hj).
    by apply (unarmed_shrunk respId p var j event w).
  - by apply unarmed_transmit.
Qed.

Lemma incomplete_back_step j w e :
  (j < length (jobs w))%nat -> incomplete j (step w e) -> incomplete j w.
Proof.
  intros Hlt Hinc.
  destruct (step_effect w e) as (w1 & He & Hq).
  pose proof (effect_jobs_length e w w1 He) as Hlen.
  apply (incomplete_quiet_back j w1) in Hinc; [| done | lia].
  destruct e as [id message | | k | k]; simpl in He; subst; try done.
  - destruct He as [-> | (l & payload & _ & ->)]; [done |].
    unfold incomplete in *.
    by rewrite (proj2 (proj2 (callFunction_shrunk l payload w))) in Hinc.
  - unfold incomplete in *.
    by rewrite (proj2 (proj2 (tick_shrunk w))) in Hinc.
  - destruct Hinc as (job' & Hjob' & Hne').
    destruct (transmit_cases k w) as [Heq | [(job & f & rest & Hj & Hp & Hne & Heq)
                                           | (job & f & Hj & Hp & Heq)]];
      rewrite Heq in *; clear Heq.
    + by exists job'.
    + simpl in Hjob'.
      apply list_lookup_insert_Some in Hjob' as [(-> & <- & _) | (_ & Hjob')].
      * exists job. split; [done |]. by rewrite Hp.
      * by exists job'.
    + assert (Hjob2 : <[k := {| pendingFrames := []; onFinally := None |}]> (jobs w) !! j
                      = Some job').
      { cbv zeta in Hjob'. destruct (onFinally job) as [fin|]; [| done].
        rewrite runFinally_unfold in Hjob'. by destruct fin. }
      apply list_lookup_insert_Some in Hjob2 as [(-> & <- & _) | (_ & Hjob2)]; [done |].
      by exists job'.
Qed.

Lemma incomplete_back_run j es : forall w,
  (j < length (jobs w))%nat -> incomplete j (run es w) -> incomplete j w.
Proof.
  induction es as [|e es IH]; intros w Hlt Hinc; [done |].
  rewrite run_cons in Hinc.
  apply (incomplete_back_step j w e); [done |].
  apply IH; [| done].
  pose proof (step_jobs_length w e). lia.
Qed.

(** While chunks are left to transmit, nothing arms the timeout. *)
Lemma unarmed_run respId p var j event es : forall w,
  unarmed respId p var j event w -> incomplete j (run es w) ->
  unarmed respId p var j event (run es w).
Proof.
  induction es as [|e es IH]; intros w Hun Hinc; [done |].
  rewrite run_cons in *. apply IH; [| done].
  apply unarmed_step; [done |].
  apply (incomplete_back_run j es); [| done].
  destruct (un_job _ _ _ _ _ _ Hun) as (job & Hjob & _).
  apply lookup_lt_Some in Hjob. pose proof (step_jobs_length w e). lia.
Qed.

(** ... and the invoke keeps waiting for its response. *)
Lemma streaming_run respId p var j event l es : forall w,
  awaiting respId p l w -> unarmed respId p var j event w ->
  silent respId es -> incomplete j (run es w) ->
  awaiting respId p l (run es w).
Proof.
  induction es as [|e es IH]; intros w Haw Hun Hs Hinc; [done |].
  apply Forall_cons in Hs as [He Hs].
  rewrite run_cons in *.
  assert (Hinc1 : incomplete j (step w e)).
  { apply (incomplete_back_run j es); [| done].
    destruct (un_job _ _ _ _ _ _ Hun) as (job & Hjob & _).
    apply lookup_lt_Some in Hjob. pose proof (step_jobs_length w e). lia. }
  apply IH; try done.
  - apply awaiting_step; try done.
    intros _ r Hr _. by apply (un_runs _ _ _ _ _ _ Hun).
  - by apply unarmed_step.
Qed.

(** The transmission of the last chunk arms the timeout, twenty ticks
    ahead. *)
Lemma unarmed_arm respId p var j event job frame w :
  unarmed respId p var j event w ->
  jobs w !! j = Some job -> pendingFrames job = [frame] ->
  let w2 := step w (Transmit j) in
  runs w2 = runs w ++ [{| runId := nextRunId w; dueTick := currentTick w + 20;
                          runCallback := InvokeTimeout respId p event |}]
  /\ timeoutIdVars w2 !! var = Some (nextRunId w).
Proof.
  intros Hun Hjob Hp w2.
  pose proof (quiet_runMicrotasks (transmit j w)) as Hq.
  subst w2. unfold step, handle.
  rewrite (quiet_runs _ _ Hq), (quiet_vars _ _ Hq).
  destruct (un_job _ _ _ _ _ _ Hun) as (job0 & Hjob0 & _ & Hfin).
  rewrite Hjob in Hjob0. injection Hjob0 as <-.
  unfold transmit. rewrite Hjob, Hp, Hfin. simpl.
  split; [done | apply lookup_insert_eq].
Qed.

Lemma chunkFrames_nonempty flag event payload streamId :
  chunkFrames flag event payload streamId ≠ [].
Proof.
  destruct (splitParts_spec payload) as (parts & Hparts & _ & _ & Hne & _).
  destruct (nonempty_snoc parts Hne) as (init & lastPart & ->).
  rewrite (chunkFrames_snoc _ _ _ _ init lastPart) by done.
  by destruct (map _ init).
Qed.

Lemma invokeStreamInternal_promise options respId streamId w :
  (invokeStreamInternal options respId streamId w).1 = nextPromise w.
Proof. done. Qed.

Lemma invokeStreamInternal_establishes options respId streamId w :
  let p := nextPromise w in
  let var := nextVar w in
  let w1 := (invokeStreamInternal options respId streamId w).2 in
  unused respId w ->
  awaiting respId p
    (InvokeStreamResponse respId var (ii_throwFailures options) p) w1
  /\ unarmed respId p var (length (jobs w)) (ii_event options) w1
  /\ subscribed w1 = subscribed w.
Proof.
  intros p var w1 [Hl Hr Hv Hvar Hj Hp]. subst p var w1.
  unfold invokeStreamInternal, sendStreamInternal, setListener. simpl.
  split; [| split; [| done]].
  - constructor; simpl.
    + apply lookup_insert_eq.
    + done.
    + intros k l' Hk Hne. rewrite lookup_insert_ne in Hk by done.
      by apply (Hl k l').
  - constructor; simpl.
    + eexists. split; [by rewrite lookup_app_r, Nat.sub_diag by lia |].
      simpl. split; [apply chunkFrames_nonempty | done].
    + intros r Hin. by apply (Hr r).
    + done.
    + intros k job fin Hk Hne Hfin.
      destruct (decide (k < length (jobs w))%nat) as [Hlt | Hge].
      * rewrite lookup_app_l in Hk by done.
        apply (Hj job fin); [| done]. by eapply list_elem_of_lookup_2.
      * rewrite lookup_app_r in Hk by lia.
        destruct (k - length (jobs w))%nat as [|n] eqn:Hn; [lia | done].
Qed.

(** The response of a streamed invoke arrives. *)
Lemma stream_response_settles respId var p tf text payload w :
  awaiting respId p (InvokeStreamResponse respId var tf p) w ->
  subscribed w = true ->
  parseRawPayload (Some text) = Some payload ->
  let w2 := step w (ScriptEvent respId (IpcTypeFlag_Send :: text)) in
  promises w2 !! p = Some (responseOutcome tf payload)
  /\ listeners (router w2) !! respId = None.
Proof.
  intros Haw Hsub Hparse w2.
  pose proof (step_response respId _ text payload w Hsub
                (aw_listener _ _ _ _ Haw) I Hparse) as Hq.
  fold w2 in Hq. rewrite callFunction_closure in Hq.
  split.
  - rewrite (quiet_promises _ _ Hq). apply settleInvoke_lookup.
    destruct (timeoutIdVars w !! var); simpl; apply Haw.
  - rewrite (quiet_listeners _ _ Hq), settleInvoke_listeners.
    destruct (timeoutIdVars w !! var); simpl; apply lookup_delete_eq.
Qed.

End StreamInvoke.

Section StreamInvokeTimeout.
Context `{Common}.

(** C9 (as amended).  A streamed invoke in a world where nothing else
    refers to its response id.  As long as its stream job has chunks
    left to transmit, whatever else happens, no run of this invoke is
    scheduled and its [timeoutId] variable is [undefined]; the
    transmission of the last chunk schedules the timeout, twenty ticks
    ahead, and stores its id in the variable.  A Send frame with a
    payload that parses, routed to the response id while chunks are
    still left (the timeout not yet armed), settles the promise with
    that payload and removes the listener, and whatever happens later
    (the timeout armed by the last chunk included) the promise stays
    as it is. *)
Theorem invokeStream_timeout_armed_by_last_chunk
    (options : InternalInvokeOptions) (respId streamId : jsstring) (w : World) :
  let p := nextPromise w in
  let var := nextVar w in
  let j := length (jobs w) in
  let w1 := (invokeStreamInternal options respId streamId w).2 in
  unused respId w ->
  subscribed w = true ->
  (invokeStreamInternal options respId streamId w).1 = p
  /\ incomplete j w1
  /\ (forall es, incomplete j (run es w1) ->
        (forall r, r ∈ runs (run es w1) ->
                   foreignCallback respId p (runCallback r))
        /\ timeoutIdVars (run es w1) !! var = None)
  /\ (forall es job frame,
        jobs (run es w1) !! j = Some job -> pendingFrames job = [frame] ->
        let w' := run es w1 in
        let w2 := step w' (Transmit j) in
        runs w2 = runs w' ++ [{| runId := nextRunId w';
                                 dueTick := currentTick w' + 20;
                                 runCallback :=
                                   InvokeTimeout respId p (ii_event options) |}]
        /\ timeoutIdVars w2 !! var = Some (nextRunId w'))
  /\ (forall es text payload,
        silent respId es -> incomplete j (run es w1) ->
        parseRawPayload (Some text) = Some payload ->
        let w2 := step (run es w1) (ScriptEvent respId (IpcTypeFlag_Send :: text)) in
        let outcome := responseOutcome (ii_throwFailures options) payload in
        promises w2 !! p = Some outcome
        /\ listeners (router w2) !! respId = None
        /\ forall es', promises (run es' w2) !! p = Some outcome).
Proof.
  intros p var j w1 Hunused Hsub.
  destruct (invokeStreamInternal_establishes options respId streamId w Hunused)
    as (Haw & Hun & Hsub1).
  fold p var j w1 in Haw, Hun, Hsub1.
  split; [done |]. split.
  { destruct (un_job _ _ _ _ _ _ Hun) as (job & Hjob & Hne & _). by exists job. }
  split; [| split].
  - intros es Hinc.
    pose proof (unarmed_run respId p var j (ii_event options) es w1 Hun Hinc) as Hun'.
    split; [apply Hun' | apply Hun'].
  - intros es job frame Hjob Hp w' w2.
    assert (Hinc : incomplete j (run es w1)).
    { exists job. split; [done |]. by rewrite Hp. }
    pose proof (unarmed_run respId p var j (ii_event options) es w1 Hun Hinc) as Hun'.
    by apply (unarmed_arm respId p var j (ii_event options) job frame).
  - intros es text payload Hs Hinc Hparse w2 outcome.
    pose proof (streaming_run respId p var j (ii_event options) _ es w1
                  Haw Hun Hs Hinc) as Haw'.
    destruct (stream_response_settles respId var p _ text payload (run es w1)
                Haw' ltac:(by rewrite run_subscribed, Hsub1) Hparse)
      as [Hsettled Hremoved].
    fold w2 in Hsettled, Hremoved.
    split; [done |]. split; [done |].
    intros es'. by apply (later_run es' w2).
Qed.

End StreamInvokeTimeout.

(** ** Answering an Invoke frame *)

Section Answer.
Context `{Common}.

Lemma filter_microtasks_drained (ts : list Task) :
  Forall (fun t => isMicrotask t = false) ts ->
  filter (fun t => isMicrotask t = true) ts = []
  /\ filter (fun t => isMicrotask t ≠ true) ts = ts.
Proof.
  induction 1 as [|t ts Ht _ [IH1 IH2]]; [done |]. split.
  - rewrite filter_cons_False; [done | simpl; congruence].
  - rewrite filter_cons_True by (simpl; congruence). by rewrite IH2.
Qed.

Lemma withTasks_suspend k o m w :
  withTasks (tasks w) (suspend k o m w) = w.
Proof. unfold withTasks, suspend. simpl. apply world_eta. Qed.

(** A continuation that waits for a plain value resumes when the
    microtask queue is emptied. *)
Lemma runMicrotasks_suspend k s w :
  drained w -> runMicrotasks (suspend k (Some s) true w) = resume k s w.
Proof.
  intros Hd. destruct (filter_microtasks_drained _ Hd) as [Hmicro Hrest].
  unfold runMicrotasks.
  change (tasks (suspend k (Some s) true w))
    with (tasks w ++ [{| continuation := k; awaited := Some s; isMicrotask := true |}]).
  rewrite !filter_app, Hmicro, Hrest.
  assert (E1 : filter (fun t : Task => isMicrotask t ≠ true)
                 [{| continuation := k; awaited := Some s; isMicrotask := true |}]
               = []) by done.
  assert (E2 : filter (fun t : Task => isMicrotask t = true)
                 [{| continuation := k; awaited := Some s; isMicrotask := true |}]
               = [{| continuation := k; awaited := Some s; isMicrotask := true |}])
    by done.
  rewrite E1, E2, app_nil_r. simpl.
  unfold resumeTask. simpl. by rewrite withTasks_suspend.
Qed.

Lemma drained_suspend_later k o w :
  drained w -> drained (suspend k o false w).
Proof.
  intros Hd. unfold drained. simpl. apply Forall_app. split; [done |].
  by repeat constructor.
Qed.

Lemma drained_same w w' : tasks w' = tasks w -> drained w -> drained w'.
Proof. unfold drained. by intros ->. Qed.

Lemma drained_invokeListenerRest responseEvent response err w :
  drained w -> drained (invokeListenerRest responseEvent response err w).
Proof. apply drained_same, tasks_invokeListenerRest. Qed.

(** The promise a suspended [invokeListener] waits for settles. *)
Lemma settleTask_suspended responseEvent s w :
  drained w ->
  step (suspend (AfterInvoke responseEvent) (Some s) false w)
       (Settle (length (tasks w)))
  = resume (AfterInvoke responseEvent) s w.
Proof.
  intros Hd. unfold step, handle, settleTask.
  change (tasks (suspend (AfterInvoke responseEvent) (Some s) false w))
    with (tasks w ++ [{| continuation := AfterInvoke responseEvent;
                         awaited := Some s; isMicrotask := false |}]).
  rewrite lookup_app_r, Nat.sub_diag by lia. simpl.
  assert (Hdel : delete (length (tasks w))
                   (tasks w ++ [{| continuation := AfterInvoke responseEvent;
                                   awaited := Some s; isMicrotask := false |}])
                 = tasks w).
  { induction (tasks w) as [|t ts IH]; simpl; [done |]. by rewrite IH. }
  rewrite Hdel, withTasks_suspend.
  apply runMicrotasks_drained.
  destruct s; by apply drained_invokeListenerRest.
Qed.

Lemma invokeListenerRest_no_error responseEvent response w :
  invokeListenerRest responseEvent response Undefined w
  = voidSendAuto {| so_event := responseEvent; so_payload := envelope response;
                    so_force := false |} w.
Proof. done. Qed.

(** [sendAuto] of a response: one Send frame, or one chunk stream of at
    least two frames. *)
Lemma voidSendAuto_response responseEvent (v : SerializableValue) w :
  let options := {| so_event := responseEvent; so_payload := v; so_force := false |} in
  ((length (serialize v) ≤ MAX_MESSAGE_LENGTH)%nat ->
     voidSendAuto options w
     = withWire (wire w ++ [(responseEvent, IpcTypeFlag_Send :: serialize v)]) w)
  /\ ((MAX_MESSAGE_LENGTH < length (serialize v))%nat ->
     exists frames,
       (2 ≤ length frames)%nat
       /\ voidSendAuto options w
          = withJobs (jobs w ++ [{| pendingFrames := frames; onFinally := None |}])
              (generateStreamUid w).2).
Proof.
  intros options. unfold voidSendAuto. split; intros Hlen.
  - by rewrite sendAuto_short.
  - rewrite sendAuto_long by done. eexists. split; [| done].
    destruct (splitParts_spec (serialize v)) as (parts & Hparts & _ & _ & Hne & Htwo).
    specialize (Htwo Hlen).
    unfold chunkFrames, chunkMessages. simpl. rewrite Hparts. simpl.
    by rewrite length_map, length_imap.
Qed.

End Answer.

Section Dispatch.
Context `{Common}.

Lemma step_Invoke_Callback id f responseEvent text payload w :
  flagsDistinct -> subscribed w = true ->
  listeners (router w) !! id = Some (Callback f) ->
  SPACE ∉ responseEvent -> singleLine text ->
  parseRawPayload (Some text) = Some payload ->
  handle (ScriptEvent id (IpcTypeFlag_Invoke :: responseEvent ++ SPACE :: text)) w
  = match f payload with
    | Return v => suspend (AfterInvoke responseEvent) (Some (Fulfilled v)) true w
    | Throw e => invokeListenerRest responseEvent (Plain JNull) e w
    | ReturnPromise outcome => suspend (AfterInvoke responseEvent) outcome false w
    end.
Proof.
  intros Hd Hsub Hl Hre Htext Hparse. unfold handle, onScriptEventRecieved.
  rewrite Hsub, (routeEvent_Invoke _ (Callback f)) by done.
  rewrite splitFirst_at_first_space, dotStar_singleLine by done. simpl.
  unfold invokeListener. rewrite Hparse. simpl. by destruct (f payload).
Qed.

(** C2 (as amended).  A well-formed Invoke frame routed to an
    application callback is answered by exactly one call of [sendAuto]
    for the response event id, and nothing else happens.  A callback
    that returns [v] is answered with [v], in its envelope if it is a
    Failure; one that throws [e] is answered with [null], and [e] is
    logged when it is truthy; one that returns a promise is answered
    when the promise settles, in the same two ways, and not at all
    when it never settles.  The answer is one Send frame when its
    serialized text is within the limit and one chunk stream of at
    least two frames otherwise. *)
Theorem invoke_frame_answered_by_one_sendAuto
    (id : jsstring) (f : SerializableValue -> Completion)
    (responseEvent text : jsstring) (payload : SerializableValue) (w : World) :
  flagsDistinct -> subscribed w = true -> drained w ->
  listeners (router w) !! id = Some (Callback f) ->
  SPACE ∉ responseEvent -> singleLine text ->
  parseRawPayload (Some text) = Some payload ->
  let frame := IpcTypeFlag_Invoke :: responseEvent ++ SPACE :: text in
  let answer := fun (v : SerializableValue) (w : World) =>
    voidSendAuto {| so_event := responseEvent; so_payload := envelope v;
                    so_force := false |} w in
  let logged := fun (e : Value) (w : World) =>
    if truthy e then warn e w else w in
  let w' := step w (ScriptEvent id frame) in
  match f payload with
  | Return v => w' = answer v w
  | Throw e => w' = logged e (answer (Plain JNull) w)
  | ReturnPromise outcome =>
      w' = suspend (AfterInvoke responseEvent) outcome false w
      /\ match outcome with
         | Some (Fulfilled v) =>
             step w' (Settle (length (tasks w))) = answer v w
         | Some (Rejected e) =>
             step w' (Settle (length (tasks w)))
             = logged e (answer (Plain JNull) w)
         | None => step w' (Settle (length (tasks w))) = w'
         end
  end
  /\ forall (v : SerializableValue) (w0 : World),
       ((length (serialize (envelope v)) ≤ MAX_MESSAGE_LENGTH)%nat ->
          answer v w0
          = withWire (wire w0 ++ [(responseEvent,
                                   IpcTypeFlag_Send :: serialize (envelope v))]) w0)
       /\ ((MAX_MESSAGE_LENGTH < length (serialize (envelope v)))%nat ->
          exists frames,
            (2 ≤ length frames)%nat
            /\ answer v w0
               = withJobs (jobs w0 ++ [{| pendingFrames := frames;
                                          onFinally := None |}])
                   (generateStreamUid w0).2).
Proof.
  intros Hd Hsub Hdr Hl Hre Htext Hparse frame answer logged w'.
  split; [| intros v w0; apply voidSendAuto_response].
  assert (Hstep : w' = match f payload with
                       | Return v => answer v w
                       | Throw e => logged e (answer (Plain JNull) w)
                       | ReturnPromise outcome =>
                           suspend (AfterInvoke responseEvent) outcome false w
                       end).
  { subst w'. unfold step.
    rewrite (step_Invoke_Callback id f responseEvent text payload) by done.
    destruct (f payload) as [v | e | outcome].
    - by rewrite runMicrotasks_suspend.
    - apply runMicrotasks_drained. by apply drained_invokeListenerRest.
    - apply runMicrotasks_drained. by apply drained_suspend_later. }
  rewrite Hstep. clear Hstep.
  destruct (f payload) as [v | e | outcome]; [done | done |].
  split; [done |].
  destruct outcome as [[v | e] |].
  - by rewrite settleTask_suspended.
  - by rewrite settleTask_suspended.
  - unfold step, handle, settleTask.
    change (tasks (suspend (AfterInvoke responseEvent) None false w))
      with (tasks w ++ [{| continuation := AfterInvoke responseEvent;
                           awaited := None; isMicrotask := false |}]).
    rewrite lookup_app_r, Nat.sub_diag by lia. simpl.
    apply runMicrotasks_drained. by apply drained_suspend_later.
Qed.

(** *** Frames that are dropped *)


(** *** Splitting at the first space *)

(** The fields of a body are cut at its first space: what is before
    is the response event id (the stream id of a chunk), and what
    follows, up to the first line terminator, is the payload (the rest
    of the chunk), spaces included. *)
Theorem fields_split_at_first_space (id : jsstring) (l : ScriptEventListener)
    (w : World) :
  listeners (router w) !! id = Some l ->
  flagsDistinct ->
  (forall responseEvent payload,
     SPACE ∉ responseEvent -> singleLine payload ->
     routeEvent id (IpcTypeFlag_Invoke :: responseEvent ++ SPACE :: payload) w
     = Ok (invokeListener l responseEvent (Some payload) w))
  /\ (forall flag streamId part,
        isStreamFlag flag -> SPACE ∉ streamId -> singleLine part ->
        routeEvent id (flag :: streamId ++ SPACE :: FLAG_MORE :: SPACE :: part) w
        = Ok (buffered streamId (cached streamId w ++ part) w)).
Proof.
  intros Hl Hd. split.
  - intros responseEvent payload Hre Hp.
    rewrite (routeEvent_Invoke _ l) by done.
    by rewrite splitFirst_at_first_space, dotStar_singleLine.
  - intros flag streamId part Hf Hs Hp.
    pose proof (routeEvent_chunk_more id l flag streamId part w Hd Hf Hl Hs) as Hr.
    unfold chunkBody in Hr. by rewrite Hr, dotStar_singleLine.
Qed.

(** *** Reassembly *)

(** The chunk frames of a serialized text without line terminator, fed
    in order to a router that holds a listener under their event id and
    no buffer under their stream id: after each frame but the last the
    world differs only by the buffer of the stream, which holds the
    parts received so far; the last frame removes the buffer and
    dispatches the whole text, once. *)
Theorem chunks_reassemble_single_line (id : jsstring) (l : ScriptEventListener)
    (flag : N) (streamId payload : jsstring) (w : World) :
  flagsDistinct -> isStreamFlag flag -> SPACE ∉ streamId ->
  singleLine payload ->
  listeners (router w) !! id = Some l ->
  pendingStreams (router w) !! streamId = None ->
  exists parts,
    splitParts payload = Some parts
    /\ concat parts = payload
    /\ map snd (chunkFrames flag id payload streamId)
       = map (cons flag) (chunkMessages streamId parts)
    /\ (forall n, (0 < n < length parts)%nat ->
          deliverAll id (take n (map snd (chunkFrames flag id payload streamId))) w
          = buffered streamId (concat (take n parts)) w)
    /\ deliverAll id (map snd (chunkFrames flag id payload streamId)) w
       = if flag =? IpcTypeFlag_InvokeStream
         then invokeListener l (splitFirst payload).1 (splitFirst payload).2 w
         else callListener l (Some payload) w.
Proof.
  intros Hd Hf Hs Hline Hl Hfresh.
  destruct (splitParts_spec payload) as (parts & Hparts & Hcat & _ & Hne & _).
  exists parts. split; [done |]. split; [done |].
  assert (Hframes : map snd (chunkFrames flag id payload streamId)
                    = map (cons flag) (chunkMessages streamId parts)).
  { unfold chunkFrames. rewrite Hparts. simpl. rewrite map_map. done. }
  rewrite Hframes. split; [done |].
  assert (Hlines : Forall singleLine parts).
  { apply singleLine_concat. by rewrite Hcat. }
  assert (Hcached : cached streamId w = []) by (unfold cached; by rewrite Hfresh).
  destruct (nonempty_snoc parts Hne) as (init & lastPart & ->).
  split.
  - intros n [Hn0 Hn]. rewrite length_app in Hn. simpl in Hn.
    rewrite chunkMessages_snoc, map_app, map_map.
    rewrite !take_app_le by (rewrite ?length_map; lia).
    rewrite firstn_map.
    apply Forall_app in Hlines as [Hinit _].
    assert (Htake : Forall singleLine (take n init)) by (by apply Forall_take).
    destruct (take n init) as [|part rest] eqn:E.
    { apply (f_equal length) in E. rewrite length_take in E. simpl in E. lia. }
    rewrite (deliverAll_more id l) by done.
    by rewrite Hcached, map_dotStar_singleLine.
  - rewrite (deliverAll_chunks id l) by done.
    rewrite Hcached, map_dotStar_singleLine, Hcat by done. simpl.
    by rewrite unbuffered_fresh.
Qed.

(** *** The failure envelope *)

(** A Failure returned by a callback is sent as an object with the one
    key [__IPCFAILURE__]; a payload that parses to an object with that
    key is handed to the listener as a Failure that wraps the value of
    the key; and when such a payload is routed, in a Send frame, to the
    response listener of an invoke that is waiting, the promise is
    rejected with that Failure if [throwFailures] is set and resolved
    with it otherwise. *)
Theorem failure_envelope_round_trip (respId : jsstring) (t p : nat)
    (throwFailures : bool) (event : jsstring) (due : nat)
    (message : Json) (text : jsstring) (members : list (jsstring * Json))
    (w : World) :
  awaiting respId p (InvokeResponse respId t throwFailures p) w ->
  armed respId t p event due w ->
  subscribed w = true ->
  parse text = Some (JObject members) ->
  getMember IPCFAILURE members = Some message ->
  envelope (Failure message) = Plain (JObject [(IPCFAILURE, message)])
  /\ (forall responseEvent w0,
        invokeListenerRest responseEvent (Failure message) Undefined w0
        = voidSendAuto {| so_event := responseEvent;
                          so_payload := Plain (JObject [(IPCFAILURE, message)]);
                          so_force := false |} w0)
  /\ parseRawPayload (Some text) = Some (Failure message)
  /\ promises (step w (ScriptEvent respId (IpcTypeFlag_Send :: text))) !! p
     = Some (if throwFailures then Rejected (Data (Failure message))
             else Fulfilled (Failure message)).
Proof.
  intros Haw Har Hsub Hparse Hmember.
  assert (Hraw : parseRawPayload (Some text) = Some (Failure message)).
  { unfold parseRawPayload. simpl. by rewrite Hparse, Hmember. }
  repeat split; try done.
  destruct (response_settles respId t p throwFailures event due text
              (Failure message) w Haw Har Hsub Hraw) as (Hp & _ & _).
  rewrite Hp. unfold responseOutcome. simpl. by destruct throwFailures.
Qed.

End Dispatch.

(** * Concrete runs *)

Section Examples.
#[local] Existing Instance exampleCommon.

Lemma exampleCommon_flagsDistinct : flagsDistinct.
Proof.
  unfold flagsDistinct. simpl.
  repeat (apply NoDup_cons; split;
          [rewrite ?not_elem_of_cons; repeat split; try discriminate;
           apply not_elem_of_nil |]).
  apply NoDup_nil_2.
Qed.

Lemma exampleWorld_unused callback respId :
  match callback with Callback _ => True | _ => False end ->
  unused respId (exampleWorld callback).
Proof.
  intros Hc. constructor; simpl.
  - intros k l [_ <-]%lookup_singleton_Some _.
    destruct callback; try done. split; [done | by intros []].
  - intros r Hr. by apply elem_of_nil in Hr.
  - intros var. by rewrite lookup_empty.
  - apply lookup_empty.
  - intros job fin Hin. by apply elem_of_nil in Hin.
  - apply lookup_empty.
Qed.

Lemma not_elem_of_indexOf c s : indexOf c s = None -> c ∉ s.
Proof. apply indexOf_None. Qed.

(** ** C1, C5, C7: a line separator in a payload *)

(** C1.  The payload is a string of 501 characters with U+2028 at
    position 400.  Its serialized text has 503 characters and is
    streamed in two chunk frames.  Fed back in order, the second
    fragment is cut at the separator: what is dispatched is the first
    401 characters of the serialized text, which is not the serialized
    text and does not parse, so the listener is never called. *)
Theorem stream_with_line_separator_not_reassembled :
  let payload := Plain (JString twoLines) in
  let serialized := serialize payload in
  let w1 := worldOf (sendAuto {| so_event := lit "app:h"; so_payload := payload;
                                 so_force := false |} (exampleWorld echo)) in
  let w2 := Nat.iter 2 (transmit 0) w1 in
  let w3 := deliverAll (lit "app:h") (map snd (wire w2)) w2 in
  (MAX_MESSAGE_LENGTH < length serialized)%nat
  /\ map fst (wire w2) = [lit "app:h"; lit "app:h"]
  /\ parse serialized = Some (JString twoLines)
  /\ w3 = callListener echo (Some (take 401 serialized)) w2
  /\ take 401 serialized ≠ serialized
  /\ rejections w3 = [SyntaxError]
  /\ tasks w3 = [].
Proof.
  cbv zeta. split; [vm_compute; lia |].
  split; [by vm_compute |]. split; [by vm_compute |].
  split; [by vm_compute |].
  split; [| split; by vm_compute].
  intros E. apply (f_equal length) in E. vm_compute in E. discriminate.
Qed.

(** C7.  An Invoke body whose payload is the serialized string
    ["a  b"]: the payload handed on is cut at the separator, it is
    not the rest of the body, and the callback is not called. *)
Theorem invoke_payload_cut_at_line_separator :
  let payload := stringify (JString [97; 32; 8232; 98]) in
  let body := lit "r:__0" ++ SPACE :: payload in
  let w := exampleWorld echo in
  splitFirst body = (lit "r:__0", Some (take 3 payload))
  /\ take 3 payload ≠ payload
  /\ parse payload = Some (JString [97; 32; 8232; 98])
  /\ routeEvent (lit "app:h") (IpcTypeFlag_Invoke :: body) w
     = Ok (invokeListener echo (lit "r:__0") (Some (take 3 payload)) w)
  /\ routeEvent (lit "app:h") (IpcTypeFlag_Invoke :: body) w
     = Ok (unhandledRejection SyntaxError w).
Proof.
  cbv zeta. split; [by vm_compute |]. split; [by vm_compute |].
  split; [by vm_compute |]. split; by vm_compute.
Qed.

(** C5.  The callback under ["app:h"] returns a Failure whose message
    has 501 characters with U+2028 among them.  The invoke is sent, the
    callback answers with the envelope, which is streamed in two chunk
    frames; the caller's router cuts the second fragment, the
    reassembled text does not parse and the response listener is not
    called: the promise is still pending after the last frame, and
    twenty ticks later it is rejected with the timeout error. *)
Theorem long_failure_with_line_separator_times_out :
  let w0 := exampleWorld (failing twoLines) in
  let call := invoke {| io_event := lit "app:h"; io_payload := Plain JNull;
                        io_force := false; io_throwFailures := false |} w0 in
  let w1 := run (delivery (wire call.2)) call.2 in
  let w2 := run [Transmit 0; Transmit 0]%nat w1 in
  let w3 := run (delivery (drop 1 (wire w2))) w2 in
  let w4 := run (replicate 20 Tick) w3 in
  call.1 = 0%nat
  /\ wire call.2 = [(lit "app:h", IpcTypeFlag_Invoke :: lit "r:__0 null")]
  /\ (MAX_MESSAGE_LENGTH
      < length (serialize (envelope (Failure (JString twoLines)))))%nat
  /\ map fst (drop 1 (wire w2)) = [lit "r:__0"; lit "r:__0"]
  /\ promises w3 !! 0%nat = None
  /\ rejections w3 = [SyntaxError]
  /\ promises w4 !! 0%nat = Some (Rejected (timedOut (lit "app:h"))).
Proof.
  cbv zeta. split; [by vm_compute |]. split; [by vm_compute |].
  split; [vm_compute; lia |].
  split; [by vm_compute |]. split; [by vm_compute |].
  split; by vm_compute.
Qed.

(** ** C6: a chunk body without separator *)

(** C6.  A SendStream frame whose body holds no space, addressed to a
    registered listener: [routeEvent] throws a TypeError, which leaves
    the router and reaches the host. *)
Theorem chunk_without_separator_throws :
  let w := exampleWorld echo in
  let frame := IpcTypeFlag_SendStream :: lit "r0" in
  routeEvent (lit "app:h") frame w = Throws TypeError w
  /\ hostErrors (step w (ScriptEvent (lit "app:h") frame)) = [TypeError].
Proof. cbv zeta. split; by vm_compute. Qed.

(** ** C2: an answer of two frames *)

(** The callback returns a string of 500 characters; the answer to one
    Invoke frame is a stream of two chunk frames, both addressed to the
    response event id. *)
Lemma long_answer_takes_two_frames :
  let w0 := exampleWorld verbose in
  let w' := run [ScriptEvent (lit "app:h") (IpcTypeFlag_Invoke :: lit "r:__0 null");
                 Transmit 0; Transmit 0]%nat w0 in
  map fst (wire w') = [lit "r:__0"; lit "r:__0"]
  /\ jobs w' = [{| pendingFrames := []; onFinally := None |}]
  /\ ~ exists frame, wire w' = [frame].
Proof.
  cbv zeta. split; [by vm_compute |]. split; [by vm_compute |].
  intros [frame E]. apply (f_equal length) in E. vm_compute in E. discriminate.
Qed.

(** ** C9: the timeout of an invoke that is already settled *)

(** A streamed invoke whose response arrives before its only chunk is
    transmitted: the promise is resolved by the response; the chunk,
    transmitted afterwards, still schedules the timeout for this
    invoke; the timeout runs twenty ticks later and leaves the promise
    as it is. *)
Lemma stream_timeout_armed_after_early_response :
  let w0 := exampleWorld echo in
  let call := invokeStreamInternal (exampleInvoke false) (lit "r:__0") (lit "r0") w0 in
  let w1 := call.2 in
  let w2 := step w1 (ScriptEvent (lit "r:__0") (IpcTypeFlag_Send :: lit "true")) in
  let w3 := step w2 (Transmit 0) in
  let w4 := run (replicate 19 Tick) w3 in
  let w5 := step w4 Tick in
  incomplete 0 w1
  /\ runs w2 = []
  /\ promises w2 !! call.1 = Some (Fulfilled (Plain (JBool true)))
  /\ runs w3 = [{| runId := 0; dueTick := 20;
                   runCallback := InvokeTimeout (lit "r:__0") call.1 (lit "app:h") |}]
  /\ runs w4 = runs w3
  /\ runs w5 = []
  /\ promises w5 !! call.1 = Some (Fulfilled (Plain (JBool true)))
  /\ ~ (forall r, r ∈ runs w3 ->
          foreignCallback (lit "r:__0") call.1 (runCallback r)).
Proof.
  cbv zeta. split.
  { eexists. split; [by vm_compute | by vm_compute]. }
  split; [by vm_compute |]. split; [by vm_compute |].
  split; [by vm_compute |]. split; [by vm_compute |].
  split; [by vm_compute |]. split; [by vm_compute |].
  intros Hall.
  assert (Hin : {| runId := 0; dueTick := 20;
                   runCallback := InvokeTimeout (lit "r:__0") 0 (lit "app:h") |}
                ∈ runs (step (step (invokeStreamInternal (exampleInvoke false)
                                      (lit "r:__0") (lit "r0") (exampleWorld echo)).2
                                (ScriptEvent (lit "r:__0") (IpcTypeFlag_Send :: lit "true")))
                          (Transmit 0))).
  { vm_compute. left. }
  destruct (Hall _ Hin) as [Hne _]. by apply Hne.
Qed.

(** ** The general statements at concrete inputs *)

Lemma singleLine_forallb (s : jsstring) :
  forallb (fun c => negb (isLineTerminator c)) s = true -> singleLine s.
Proof.
  intros Hall. apply Forall_forall. intros c Hc%list_elem_of_In.
  rewrite forallb_forall in Hall. specialize (Hall c Hc).
  by destruct (isLineTerminator c).
Qed.

Lemma invoke_frame_answered_by_one_sendAuto_witness :
  flagsDistinct
  /\ drained (exampleWorld echo)
  /\ (SPACE ∉ lit "r:__0")
  /\ singleLine (lit "null")
  /\ parseRawPayload (Some (lit "null")) = Some (Plain JNull)
  /\ step (exampleWorld echo)
        (ScriptEvent (lit "app:h")
           (IpcTypeFlag_Invoke :: lit "r:__0" ++ SPACE :: lit "null"))
     = voidSendAuto {| so_event := lit "r:__0"; so_payload := envelope (Plain JNull);
                       so_force := false |} (exampleWorld echo).
Proof.
  assert (Hd : drained (exampleWorld echo)) by constructor.
  assert (Hs : SPACE ∉ lit "r:__0") by (apply not_elem_of_indexOf; by vm_compute).
  assert (Hl : singleLine (lit "null")) by (apply singleLine_forallb; by vm_compute).
  assert (Hp : parseRawPayload (Some (lit "null")) = Some (Plain JNull))
    by (by vm_compute).
  repeat (split; [done || apply exampleCommon_flagsDistinct |]).
  exact (proj1 (invoke_frame_answered_by_one_sendAuto (lit "app:h") Return
                  (lit "r:__0") (lit "null") (Plain JNull) (exampleWorld echo)
                  exampleCommon_flagsDistinct eq_refl Hd eq_refl Hs Hl Hp)).
Defined.

Lemma invoke_timeout_or_response_first_wins_witness :
  let w := exampleWorld echo in
  let w1 := (invokeInternal (exampleInvoke false) (lit "r:__0") w).2 in
  unused (lit "r:__0") w
  /\ promises w1 !! 0%nat = None
  /\ silent (lit "r:__0") (replicate 20 Tick)
  /\ promises (run (replicate 20 Tick) w1) !! 0%nat
     = Some (Rejected (timedOut (lit "app:h"))).
Proof.
  cbv zeta.
  assert (Hu : unused (lit "r:__0") (exampleWorld echo))
    by (by apply exampleWorld_unused).
  assert (Hp : promises (invokeInternal (exampleInvoke false) (lit "r:__0")
                           (exampleWorld echo)).2 !! 0%nat = None)
    by (by vm_compute).
  assert (Hs : silent (lit "r:__0") (replicate 20 Tick))
    by (repeat constructor).
  split; [done |]. split; [done |]. split; [done |].
  destruct (invoke_timeout_or_response_first_wins (exampleInvoke false)
              (lit "r:__0") (exampleWorld echo) Hu eq_refl Hp)
    as (_ & Htimeout & _).
  assert (Ht : (20 ≤ ticks (replicate 20 Tick))%nat) by (vm_compute; lia).
  exact (proj1 (Htimeout (replicate 20 Tick) Hs Ht)).
Defined.

Lemma sendAuto_one_frame_or_chunks_witness :
  let options := {| so_event := lit "app:h"; so_payload := Plain JNull;
                    so_force := false |} in
  let w := exampleWorld echo in
  (length (serialize (Plain JNull)) ≤ MAX_MESSAGE_LENGTH)%nat
  /\ sendAuto options w
     = Ok (withWire [(lit "app:h", IpcTypeFlag_Send :: lit "null")] w).
Proof.
  cbv zeta.
  assert (Hlen : (length (serialize (Plain JNull)) ≤ MAX_MESSAGE_LENGTH)%nat)
    by (vm_compute; lia).
  split; [done |].
  exact (proj2 (proj1 (sendAuto_one_frame_or_chunks
                         {| so_event := lit "app:h"; so_payload := Plain JNull;
                            so_force := false |} (exampleWorld echo)) Hlen)).
Defined.

Lemma registerListener_rejects_and_removeListener_reports_witness :
  let w := exampleWorld echo in
  is_Some (listeners (router w) !! lit "app:h")
  /\ (exists e, registerListener (lit "app:h") verbose w = Throws e w)
  /\ fst (removeListener (lit "app:h") w) = true.
Proof.
  cbv zeta.
  assert (Hsome : is_Some (listeners (router (exampleWorld echo)) !! lit "app:h"))
    by (by eexists).
  destruct (registerListener_rejects_and_removeListener_reports (lit "app:h")
              verbose (exampleWorld echo)) as (Hreg & _ & _ & Hrem & _).
  split; [done |]. split; [by apply Hreg | by apply Hrem].
Defined.

Lemma invokeStream_timeout_armed_by_last_chunk_witness :
  let w := exampleWorld echo in
  let w1 := (invokeStreamInternal (exampleInvoke false) (lit "r:__0") (lit "r0") w).2 in
  let w2 := step w1 (ScriptEvent (lit "r:__0") (IpcTypeFlag_Send :: lit "true")) in
  unused (lit "r:__0") w
  /\ incomplete 0 w1
  /\ parseRawPayload (Some (lit "true")) = Some (Plain (JBool true))
  /\ promises w2 !! 0%nat = Some (Fulfilled (Plain (JBool true)))
  /\ promises (run (Transmit 0 :: replicate 20 Tick) w2) !! 0%nat
     = Some (Fulfilled (Plain (JBool true))).
Proof.
  cbv zeta.
  assert (Hu : unused (lit "r:__0") (exampleWorld echo))
    by (by apply exampleWorld_unused).
  assert (Hp : parseRawPayload (Some (lit "true")) = Some (Plain (JBool true)))
    by (by vm_compute).
  destruct (invokeStream_timeout_armed_by_last_chunk (exampleInvoke false)
              (lit "r:__0") (lit "r0") (exampleWorld echo) Hu eq_refl)
    as (_ & Hinc & _ & _ & Hresp).
  destruct (Hresp [] (lit "true") (Plain (JBool true)) (Forall_nil_2 _) Hinc Hp)
    as (Hsettled & _ & Hstays).
  split; [done |]. split; [done |]. split; [done |]. split; [done |].
  exact (Hstays (Transmit 0 :: replicate 20 Tick)).
Defined.


Lemma fields_split_at_first_space_witness :
  let w := exampleWorld echo in
  (SPACE ∉ lit "r:__0")
  /\ singleLine (lit "[1, 2]")
  /\ routeEvent (lit "app:h")
        (IpcTypeFlag_Invoke :: lit "r:__0" ++ SPACE :: lit "[1, 2]") w
     = Ok (invokeListener echo (lit "r:__0") (Some (lit "[1, 2]")) w).
Proof.
  cbv zeta.
  assert (Hs : SPACE ∉ lit "r:__0") by (apply not_elem_of_indexOf; by vm_compute).
  assert (Hl : singleLine (lit "[1, 2]")) by (apply singleLine_forallb; by vm_compute).
  split; [done |]. split; [done |].
  exact (proj1 (fields_split_at_first_space (lit "app:h") echo (exampleWorld echo)
                  eq_refl exampleCommon_flagsDistinct) (lit "r:__0") (lit "[1, 2]") Hs Hl).
Defined.

Lemma chunks_reassemble_single_line_witness :
  let w := exampleWorld echo in
  let payload := serialize (Plain (JString (repeat 97 500))) in
  (SPACE ∉ lit "r0")
  /\ singleLine payload
  /\ exists parts,
       splitParts payload = Some parts
       /\ concat parts = payload
       /\ deliverAll (lit "app:h")
            (map snd (chunkFrames IpcTypeFlag_SendStream (lit "app:h") payload (lit "r0"))) w
          = callListener echo (Some payload) w.
Proof.
  cbv zeta.
  assert (Hs : SPACE ∉ lit "r0") by (apply not_elem_of_indexOf; by vm_compute).
  assert (Hl : singleLine (serialize (Plain (JString (repeat 97 500)))))
    by (apply singleLine_forallb; by vm_compute).
  split; [done |]. split; [done |].
  destruct (chunks_reassemble_single_line (lit "app:h") echo IpcTypeFlag_SendStream
              (lit "r0") (serialize (Plain (JString (repeat 97 500))))
              (exampleWorld echo) exampleCommon_flagsDistinct (or_introl eq_refl)
              Hs Hl eq_refl eq_refl)
    as (parts & Hparts & Hcat & _ & _ & Hall).
  exists parts. split; [done |]. split; [done |]. exact Hall.
Defined.

Lemma failure_envelope_round_trip_witness :
  let w := (invokeInternal (exampleInvoke true) (lit "r:__0") (exampleWorld echo)).2 in
  let text := stringify (JObject [(IPCFAILURE, JString (lit "x"))]) in
  awaiting (lit "r:__0") 0 (InvokeResponse (lit "r:__0") 0 true 0) w
  /\ armed (lit "r:__0") 0 0 (lit "app:h") 20 w
  /\ parse text = Some (JObject [(IPCFAILURE, JString (lit "x"))])
  /\ promises (step w (ScriptEvent (lit "r:__0") (IpcTypeFlag_Send :: text))) !! 0%nat
     = Some (Rejected (Data (Failure (JString (lit "x"))))).
Proof.
  cbv zeta.
  assert (Hu : unused (lit "r:__0") (exampleWorld echo))
    by (by apply exampleWorld_unused).
  assert (Hp : promises (invokeInternal (exampleInvoke true) (lit "r:__0")
                           (exampleWorld echo)).2 !! 0%nat = None)
    by (by vm_compute).
  destruct (invokeInternal_establishes (exampleInvoke true) (lit "r:__0")
              (exampleWorld echo) Hu Hp) as (Haw & Har & _ & _).
  assert (Hparse : parse (stringify (JObject [(IPCFAILURE, JString (lit "x"))]))
                   = Some (JObject [(IPCFAILURE, JString (lit "x"))]))
    by (by vm_compute).
  split; [exact Haw |]. split; [exact Har |]. split; [done |].
  destruct (failure_envelope_round_trip (lit "r:__0") 0 0 true (lit "app:h") 20
              (JString (lit "x"))
              (stringify (JObject [(IPCFAILURE, JString (lit "x"))]))
              [(IPCFAILURE, JString (lit "x"))] _ Haw Har eq_refl Hparse eq_refl)
    as (_ & _ & _ & Hsettled).
  exact Hsettled.
Defined.

End Examples.
Example splitFirst_three_words :
  splitFirst (lit "abc def ghi") = (lit "abc", Some (lit "def ghi")).
Proof. reflexivity. Qed.

Example splitFirst_no_space : splitFirst (lit "abc") = (lit "abc", None).
Proof. reflexivity. Qed.

Example toString36_35 : toStringRadix 36 35 = lit "z".
Proof. reflexivity. Qed.

Example toString36_1295 : toStringRadix 36 1296 = lit "100".
Proof. reflexivity. Qed.

(** * Numbers and strings of the serializer *)

(** ** [toString(radix)] *)

Lemma size_nat_gt (n : N) : n < 2 ^ N.of_nat (N.size_nat n).
Proof.
  destruct n as [|p]; [done |]. simpl.
  induction p as [p IH | p IH |]; simpl Pos.size_nat.
  - rewrite Nat2N.inj_succ, N.pow_succ_r'. lia.
  - rewrite Nat2N.inj_succ, N.pow_succ_r'. lia.
  - done.
Qed.

Section Radix.
Variable radix : N.
Hypothesis radix_ge : 2 <= radix.

Lemma digitsOf_app fuel : forall n acc,
  digitsOf fuel radix n acc = digitsOf fuel radix n [] ++ acc.
Proof.
  induction fuel as [|fuel IH]; intros n acc; simpl; [done |].
  destruct (n / radix =? 0); [done |].
  rewrite IH. rewrite (IH _ [_]). by rewrite <- app_assoc.
Qed.

Lemma digitsOf_fuel k : forall f1 f2 n acc,
  n < 2 ^ N.of_nat k -> (k < f1)%nat -> (k < f2)%nat ->
  digitsOf f1 radix n acc = digitsOf f2 radix n acc.
Proof using radix_ge.
  induction k as [|k IH]; intros f1 f2 n acc Hn H1 H2;
    destruct f1 as [|f1]; [lia | | lia |]; destruct f2 as [|f2]; try lia; simpl.
  - assert (n = 0) as -> by (simpl in Hn; lia).
    by rewrite N.Div0.div_0_l.
  - destruct (n / radix =? 0); [done |].
    apply IH; [| lia | lia].
    rewrite Nat2N.inj_succ, N.pow_succ_r' in Hn.
    apply N.Div0.div_lt_upper_bound. nia.
Qed.

(** The digits of [n]: those of [n / radix] followed by the last one. *)
Lemma toStringRadix_eq (n : N) :
  toStringRadix radix n
  = if n / radix =? 0 then [digitChar (n mod radix)]
    else toStringRadix radix (n / radix) ++ [digitChar (n mod radix)].
Proof using radix_ge.
  unfold toStringRadix at 1. simpl.
  destruct (N.eqb_spec (n / radix) 0) as [|Hne]; [done |].
  rewrite digitsOf_app. f_equal. unfold toStringRadix.
  pose proof (size_nat_gt n) as Hn.
  pose proof (size_nat_gt (n / radix)) as Hm.
  assert (Hpos : (0 < N.size_nat n)%nat).
  { destruct n; [by rewrite N.Div0.div_0_l in Hne | simpl; destruct p; simpl; lia]. }
  destruct (N.size_nat n) as [|k] eqn:E; [lia |].
  rewrite Nat2N.inj_succ, N.pow_succ_r' in Hn.
  transitivity (digitsOf (S (k + N.size_nat (n / radix))) radix (n / radix) []).
  - apply (digitsOf_fuel k); [| lia | lia].
    apply N.Div0.div_lt_upper_bound. nia.
  - apply (digitsOf_fuel (N.size_nat (n / radix))); [done | lia | lia].
Qed.

Lemma toStringRadix_nonempty (n : N) : toStringRadix radix n ≠ [].
Proof using radix_ge.
  rewrite toStringRadix_eq. destruct (n / radix =? 0); [done |].
  by destruct (toStringRadix radix (n / radix)).
Qed.

(** Every character of the result has property [P] when every digit has. *)
Lemma toStringRadix_Forall (P : N -> Prop) :
  (forall d, d < radix -> P (digitChar d)) ->
  forall n, Forall P (toStringRadix radix n).
Proof using radix_ge.
  intros Hd n. induction n as [n IH] using (well_founded_induction N.lt_wf_0).
  rewrite toStringRadix_eq.
  assert (Hmod : n mod radix < radix) by (apply N.mod_lt; lia).
  destruct (N.eqb_spec (n / radix) 0) as [|Hne].
  - repeat constructor. by apply Hd.
  - apply Forall_app. split; [| repeat constructor; by apply Hd].
    apply IH. apply N.div_lt; [| lia].
    destruct n; [by rewrite N.Div0.div_0_l in Hne | lia].
Qed.

Hypothesis radix_le : radix <= 36.

Lemma digitValue_digitChar d : d < radix -> digitValue (digitChar d) = d.
Proof using radix_le.
  clear radix_ge. intros Hd. unfold digitValue, digitChar.
  destruct (N.ltb_spec d 10).
  - destruct (N.ltb_spec (48 + d) 58); lia.
  - destruct (N.ltb_spec (87 + d) 58); lia.
Qed.

(** [toString(radix)] can be read back. *)
Lemma valueOf_toStringRadix (n : N) : valueOf radix (toStringRadix radix n) = n.
Proof using radix_ge radix_le.
  induction n as [n IH] using (well_founded_induction N.lt_wf_0).
  rewrite toStringRadix_eq.
  assert (Hmod : n mod radix < radix) by (apply N.mod_lt; lia).
  pose proof (N.div_mod n radix ltac:(lia)) as Hdm.
  destruct (N.eqb_spec (n / radix) 0) as [Hz|Hne].
  - unfold valueOf. simpl. rewrite digitValue_digitChar by done.
    rewrite Hz in Hdm. lia.
  - unfold valueOf. rewrite foldl_app. simpl. fold (valueOf radix (toStringRadix radix (n / radix))).
    assert (Hlt : n / radix < n).
    { apply N.div_lt; [| lia].
      destruct n; [by rewrite N.Div0.div_0_l in Hne | lia]. }
    rewrite IH, digitValue_digitChar by done. lia.
Qed.

Lemma toStringRadix_inj (n m : N) :
  toStringRadix radix n = toStringRadix radix m -> n = m.
Proof using radix_ge radix_le.
  intros E. apply (f_equal (valueOf radix)) in E.
  by rewrite !valueOf_toStringRadix in E.
Qed.

End Radix.

(** ** String literals *)

Lemma hexValue_digitChar d : d < 16 -> hexValue (digitChar d) = Some d.
Proof.
  intros Hd.
  assert (Hcases : d = 0 \/ d = 1 \/ d = 2 \/ d = 3 \/ d = 4 \/ d = 5 \/ d = 6
                   \/ d = 7 \/ d = 8 \/ d = 9 \/ d = 10 \/ d = 11 \/ d = 12
                   \/ d = 13 \/ d = 14 \/ d = 15) by lia.
  repeat (destruct Hcases as [-> | Hcases]; [reflexivity |]). by subst.
Qed.

Lemma hex4Value_hex4 c rest :
  c < 65536 ->
  match hex4 c ++ rest with
  | h1 :: h2 :: h3 :: h4 :: rest2 => hex4Value h1 h2 h3 h4 = Some c /\ rest2 = rest
  | _ => False
  end.
Proof.
  intros Hc. unfold hex4. simpl. split; [| done]. unfold hex4Value.
  rewrite !hexValue_digitChar by (apply N.mod_lt; lia). simpl. f_equal.
  pose proof (N.div_mod c 16 ltac:(lia)).
  pose proof (N.div_mod (c / 16) 16 ltac:(lia)).
  pose proof (N.div_mod (c / 256) 16 ltac:(lia)).
  assert (c / 4096 mod 16 = c / 4096).
  { apply N.mod_small. apply N.Div0.div_lt_upper_bound. lia. }
  assert (c / 16 / 16 = c / 256) by (rewrite N.Div0.div_div; done).
  assert (c / 256 / 16 = c / 4096) by (rewrite N.Div0.div_div; done).
  lia.
Qed.

Lemma parse_unicodeEscape c rest :
  c < 65536 ->
  parseStringBody (unicodeEscape c ++ rest)
  = '(str, r) ← parseStringBody rest; Some (c :: str, r).
Proof.
  intros Hc. unfold unicodeEscape.
  pose proof (hex4Value_hex4 c rest Hc) as Hh.
  change ((BACKSLASH :: 117 :: hex4 c) ++ rest)
    with (BACKSLASH :: 117 :: (hex4 c ++ rest)).
  destruct (hex4 c ++ rest) as [|h1 [|h2 [|h3 [|h4 rest2]]]]; try done.
  destruct Hh as [Hv ->]. simpl. by rewrite Hv.
Qed.

Lemma parse_plainUnit c rest :
  c ≠ QUOTE -> c ≠ BACKSLASH -> 32 <= c ->
  parseStringBody (c :: rest) = '(str, r) ← parseStringBody rest; Some (c :: str, r).
Proof.
  intros Hq Hb Hc. simpl.
  destruct (N.eqb_spec c QUOTE); [done |].
  destruct (N.eqb_spec c BACKSLASH); [done |].
  destruct (N.ltb_spec c 32); [lia | done].
Qed.

Lemma parse_simpleEscape e c rest :
  e ≠ 117 -> simpleEscape e = Some c ->
  parseStringBody (BACKSLASH :: e :: rest)
  = '(str, r) ← parseStringBody rest; Some (c :: str, r).
Proof.
  intros He Hs. simpl.
  destruct (N.eqb_spec e 117); [done |]. by rewrite Hs.
Qed.

Lemma isLeadingSurrogate_range c :
  isLeadingSurrogate c = true -> 55296 <= c <= 56319.
Proof.
  unfold isLeadingSurrogate. intros [H1 H2]%andb_true_iff.
  apply N.leb_le in H1, H2. lia.
Qed.

Lemma isTrailingSurrogate_range c :
  isTrailingSurrogate c = true -> 56320 <= c <= 57343.
Proof.
  unfold isTrailingSurrogate. intros [H1 H2]%andb_true_iff.
  apply N.leb_le in H1, H2. lia.
Qed.

Lemma parse_quoteUnit c rest :
  parseStringBody (quoteUnit c ++ rest)
  = '(str, r) ← parseStringBody rest; Some (c :: str, r).
Proof.
  unfold quoteUnit.
  repeat (match goal with
          | |- context [if ?x =? ?y then _ else _] =>
              destruct (N.eqb_spec x y) as [-> |]; [by apply parse_simpleEscape |]
          end).
  destruct (N.ltb_spec c 32); simpl orb.
  { apply parse_unicodeEscape. lia. }
  destruct (isLeadingSurrogate c) eqn:El; simpl orb.
  { apply parse_unicodeEscape. apply isLeadingSurrogate_range in El. lia. }
  destruct (isTrailingSurrogate c) eqn:Et.
  { apply parse_unicodeEscape. apply isTrailingSurrogate_range in Et. lia. }
  by apply parse_plainUnit.
Qed.

Lemma quoteUnits_cons c rest :
  quoteUnits (c :: rest)
  = if isLeadingSurrogate c then
      match rest with
      | d :: rest' =>
          if isTrailingSurrogate d then c :: d :: quoteUnits rest'
          else unicodeEscape c ++ quoteUnits rest
      | [] => unicodeEscape c
      end
    else quoteUnit c ++ quoteUnits rest.
Proof. reflexivity. Qed.

(** A string literal written by [JSON.stringify] is read back as the
    string, whatever its code units are. *)
Lemma parseStringBody_quoteUnits (s r : jsstring) :
  parseStringBody (quoteUnits s ++ QUOTE :: r) = Some (s, r).
Proof.
  remember (length s) as n eqn:Hn. revert s Hn.
  induction n as [n IH] using lt_wf_ind. intros s Hn.
  destruct s as [|c rest]; [done |].
  rewrite quoteUnits_cons.
  destruct (isLeadingSurrogate c) eqn:El.
  - assert (Hc : 55296 <= c <= 56319) by (by apply isLeadingSurrogate_range).
    destruct rest as [|d rest'].
    + rewrite parse_unicodeEscape by lia. done.
    + destruct (isTrailingSurrogate d) eqn:Et.
      * assert (Hd : 56320 <= d <= 57343) by (by apply isTrailingSurrogate_range).
        change ((c :: d :: quoteUnits rest') ++ QUOTE :: r)
          with (c :: d :: (quoteUnits rest' ++ QUOTE :: r)).
        rewrite parse_plainUnit by (unfold QUOTE, BACKSLASH; lia).
        rewrite parse_plainUnit by (unfold QUOTE, BACKSLASH; lia).
        rewrite (IH (length rest')) by (simpl in Hn; (lia || done)). done.
      * rewrite <- app_assoc, parse_unicodeEscape by lia.
        rewrite (IH (length (d :: rest'))) by (simpl in *; (lia || done)). done.
  - rewrite <- app_assoc, parse_quoteUnit.
    rewrite (IH (length rest)) by (simpl in *; (lia || done)). done.
Qed.

(** ** Number literals *)

Lemma isDigit_range c : isDigit c = true <-> 48 <= c <= 57.
Proof.
  unfold isDigit. rewrite andb_true_iff, !N.leb_le. done.
Qed.

Lemma parseDigits_app ds : forall r acc,
  Forall (fun c => isDigit c = true) ds ->
  match r with c :: _ => isDigit c = false | [] => True end ->
  parseDigits (ds ++ r) acc = (foldl (fun a c => a * 10 + digitValue c) acc ds, r).
Proof.
  induction ds as [|d ds IH]; intros r acc Hds Hr.
  - simpl. destruct r as [|c r]; [done |]. simpl. by rewrite Hr.
  - apply Forall_cons in Hds as [Hd Hds]. simpl. rewrite Hd.
    rewrite IH by done. do 2 f_equal.
    apply isDigit_range in Hd. unfold digitValue.
    destruct (N.ltb_spec d 58); [done | lia].
Qed.

Lemma toStringRadix10_digits n :
  Forall (fun c => isDigit c = true) (toStringRadix 10 n).
Proof.
  apply toStringRadix_Forall; [lia |].
  intros d Hd. apply isDigit_range. unfold digitChar.
  destruct (N.ltb_spec d 10); lia.
Qed.

Lemma toStringRadix10_head n :
  n ≠ 0 ->
  exists d rest, toStringRadix 10 n = d :: rest /\ isDigit d = true /\ d ≠ 48.
Proof.
  induction n as [n IH] using (well_founded_induction N.lt_wf_0). intros Hn.
  rewrite (toStringRadix_eq 10) by lia.
  pose proof (N.div_mod n 10 ltac:(lia)) as Hdm.
  assert (Hmod : n mod 10 < 10) by (apply N.mod_lt; lia).
  destruct (N.eqb_spec (n / 10) 0) as [Hz|Hne].
  - exists (digitChar (n mod 10)), []. split; [done |].
    rewrite Hz in Hdm. unfold digitChar.
    destruct (N.ltb_spec (n mod 10) 10); [| lia].
    split; [apply isDigit_range; lia | lia].
  - destruct (IH (n / 10)) as (d & rest & -> & Hd & Hd0); [| done |].
    { apply N.div_lt; lia. }
    by exists d, (rest ++ [digitChar (n mod 10)]).
Qed.

Lemma parseNumber_numberToString z r :
  endsNumber r -> parseNumber (numberToString z ++ r) = Some (z, r).
Proof.
  intros Hr.
  assert (Hnd : match r with c :: _ => isDigit c = false | [] => True end).
  { destruct r; [done | apply Hr]. }
  assert (Hpos : forall p, parseNumber (toStringRadix 10 (Npos p) ++ r)
                           = Some (Zpos p, r)).
  { intros p.
    destruct (toStringRadix10_head (Npos p)) as (d & rest & E & Hd & Hd0); [done |].
    pose proof (toStringRadix10_digits (Npos p)) as Hds.
    pose proof (parseDigits_app _ r 0 Hds Hnd) as Hp.
    fold (valueOf 10 (toStringRadix 10 (N.pos p))) in Hp.
    rewrite valueOf_toStringRadix in Hp by lia.
    rewrite E in Hp |- *. unfold parseNumber.
    change ((d :: rest) ++ r) with (d :: (rest ++ r)) in *.
    apply isDigit_range in Hd as Hdr.
    cbv beta iota zeta.
    destruct (N.eqb_spec d 45); [lia |]. cbv beta iota zeta. rewrite Hd.
    destruct (N.eqb_spec d 48); [done |]. rewrite Hp.
    destruct r as [|c r']; [done |].
    destruct Hr as (-> & H1 & H2 & H3). simpl.
    destruct (N.eqb_spec c 46); [done |].
    destruct (N.eqb_spec c 101); [done |].
    by destruct (N.eqb_spec c 69). }
  destruct z as [|p|p]; simpl numberToString.
  - unfold parseNumber. simpl.
    destruct r as [|c r']; [done |].
    destruct Hr as (-> & H1 & H2 & H3). simpl.
    destruct (N.eqb_spec c 46); [done |].
    destruct (N.eqb_spec c 101); [done |].
    by destruct (N.eqb_spec c 69).
  - apply Hpos.
  - specialize (Hpos p).
    destruct (toStringRadix10_head (Npos p)) as (d & rest & E & Hd & Hd0); [done |].
    rewrite E in Hpos |- *. apply isDigit_range in Hd as Hdr.
    unfold parseNumber in Hpos |- *.
    change ((45 :: d :: rest) ++ r) with (45 :: (d :: rest) ++ r).
    change ((d :: rest) ++ r) with (d :: (rest ++ r)) in *.
    cbv beta iota zeta in Hpos |- *. rewrite N.eqb_refl.
    destruct (N.eqb_spec d 45); [lia |]. cbv beta iota zeta in Hpos |- *.
    rewrite Hd in Hpos |- *.
    destruct (if d =? 48 then (0, rest ++ r) else parseDigits (d :: rest ++ r) 0)
      as [m r1].
    destruct r1 as [|c r1'].
    + injection Hpos as Hn ->. f_equal. f_equal. lia.
    + destruct (isDigit c || (c =? 46) || (c =? 101) || (c =? 69)); [done |].
      injection Hpos as Hn ->. f_equal. f_equal. lia.
Qed.

(** * The serializer round trip *)

Lemma Json_induction (P : Json -> Prop) :
  P JNull -> (forall b, P (JBool b)) -> (forall z, P (JNumber z)) ->
  (forall s, P (JString s)) ->
  (forall elems, Forall P elems -> P (JArray elems)) ->
  (forall members, Forall (fun kv : jsstring * Json => P kv.2) members ->
                   P (JObject members)) ->
  forall j, P j.
Proof.
  intros Hnull Hbool Hnum Hstr Harr Hobj.
  fix IH 1. intros [ | b | z | s | elems | members].
  - apply Hnull.
  - apply Hbool.
  - apply Hnum.
  - apply Hstr.
  - apply Harr. induction elems as [|e elems IHe]; constructor; [apply IH | apply IHe].
  - apply Hobj. induction members as [|[k v] members IHm]; constructor;
      [apply IH | apply IHm].
Qed.

Lemma forallb_Forall {A} (f : A -> bool) (l : list A) :
  forallb f l = true <-> Forall (fun x => f x = true) l.
Proof.
  induction l as [|x l IH]; simpl.
  - split; [constructor | done].
  - rewrite andb_true_iff, Forall_cons, IH. done.
Qed.

Lemma numberToString_head z :
  exists d rest, numberToString z = d :: rest /\ (d = 45 \/ 48 <= d <= 57).
Proof.
  destruct z as [|p|p]; simpl.
  - exists 48, []. split; [done | right; lia].
  - destruct (toStringRadix10_head (Npos p)) as (d & rest & -> & Hd & _); [done |].
    exists d, rest. split; [done | right; by apply isDigit_range].
  - by exists 45, (toStringRadix 10 (N.pos p)); split; [| left].
Qed.

(** The first character of a serialized value. *)
Lemma stringify_head j :
  exists c rest, stringify j = c :: rest
    /\ (c = 110 \/ c = 116 \/ c = 102 \/ c = 34 \/ c = 91 \/ c = 123 \/ c = 45
        \/ 48 <= c <= 57).
Proof.
  destruct j as [ | [|] | z | s | elems | members]; simpl.
  - exists 110, (lit "ull"). split; [done | tauto].
  - exists 116, (lit "rue"). split; [done | tauto].
  - exists 102, (lit "alse"). split; [done | tauto].
  - destruct (numberToString_head z) as (d & rest & -> & Hd).
    exists d, rest. split; [done | tauto].
  - unfold quote. eexists _, _. split; [done | tauto].
  - eexists _, _. split; [done | tauto].
  - eexists _, _. split; [done | tauto].
Qed.

Lemma skipWs_stringify j r : skipWs (stringify j ++ r) = stringify j ++ r.
Proof.
  destruct (stringify_head j) as (c & rest & -> & Hc). simpl.
  assert (Hws : isWhitespace c = false).
  { unfold isWhitespace.
    destruct (N.eqb_spec c 32); [lia |]. destruct (N.eqb_spec c 9); [lia |].
    destruct (N.eqb_spec c 10); [lia |]. destruct (N.eqb_spec c 13); [lia | done]. }
  by rewrite Hws.
Qed.

Lemma stringify_length j : (1 ≤ length (stringify j))%nat.
Proof. destruct (stringify_head j) as (c & rest & -> & _). simpl. lia. Qed.

Lemma joinComma_cons2 (x y : jsstring) l :
  joinComma (x :: y :: l) = x ++ 44 :: joinComma (y :: l).
Proof. reflexivity. Qed.

Lemma joinComma_length_elem (l : list jsstring) x :
  x ∈ l -> (length x ≤ length (joinComma l))%nat.
Proof.
  induction l as [|y l IH]; [by intros ?%elem_of_nil |].
  intros [-> | Hin]%elem_of_cons.
  - destruct l; [done |]. rewrite joinComma_cons2, length_app. lia.
  - destruct l as [|z l]; [by apply elem_of_nil in Hin |].
    rewrite joinComma_cons2, length_app. cbn [length]. specialize (IH Hin). lia.
Qed.

Lemma joinComma_length_count (l : list jsstring) :
  Forall (fun x => 1 ≤ length x)%nat l -> (length l ≤ length (joinComma l))%nat.
Proof.
  induction 1 as [|x l Hx Hl IH]; [done |].
  destruct l as [|z l]; [simpl; lia |].
  rewrite joinComma_cons2, length_app. cbn [length] in *. lia.
Qed.

Lemma delimited_endsNumber r : delimited r -> endsNumber r.
Proof.
  destruct r as [|c r]; [done |]. simpl.
  intros [-> | [-> | ->]]; by vm_compute.
Qed.

Section Elements.
Variable f : nat.

Lemma parseElements_joinComma (elems : list Json) : forall fuel acc r,
  elems ≠ [] -> (length elems ≤ fuel)%nat -> Forall (readsBack f) elems ->
  parseElements (parseValue f) fuel (joinComma (map stringify elems) ++ 93 :: r) acc
  = Some (acc ++ elems, r).
Proof.
  induction elems as [|e elems IH]; intros fuel acc r Hne Hfuel Hall; [done |].
  apply Forall_cons in Hall as [He Hall].
  destruct fuel as [|fuel]; [simpl in Hfuel; lia |].
  destruct elems as [|e' elems].
  - simpl. rewrite He by (simpl; tauto). simpl. done.
  - change (map stringify (e :: e' :: elems))
      with (stringify e :: stringify e' :: map stringify elems).
    rewrite joinComma_cons2, <- app_assoc.
    change ((44 :: joinComma (stringify e' :: map stringify elems)) ++ 93 :: r)
      with (44 :: (joinComma (map stringify (e' :: elems)) ++ 93 :: r)).
    cbn [parseElements]. rewrite He by (simpl; tauto). cbn [mbind option_bind skipWs isWhitespace N.eqb Pos.eqb orb].
    change (44 =? 44) with true. cbv iota.
    destruct (joinComma (map stringify (e' :: elems)) ++ 93 :: r) eqn:E.
    { destruct (stringify_head e') as (c & rest & Hs & _). simpl in E.
      rewrite Hs in E. by destruct elems. }
    rewrite <- E. clear E.
    assert (Hskip : skipWs (joinComma (map stringify (e' :: elems)) ++ 93 :: r)
                    = joinComma (map stringify (e' :: elems)) ++ 93 :: r).
    { destruct elems as [|e'' elems].
      - simpl. apply skipWs_stringify.
      - change (map stringify (e' :: e'' :: elems))
          with (stringify e' :: stringify e'' :: map stringify elems).
        rewrite joinComma_cons2, <- app_assoc. apply skipWs_stringify. }
    rewrite Hskip, IH; [| done | simpl in *; lia | done].
    by rewrite <- app_assoc.
Qed.

End Elements.

Lemma setMember_fresh k v (acc : list (jsstring * Json)) :
  k ∉ map fst acc -> setMember k v acc = acc ++ [(k, v)].
Proof.
  induction acc as [|[k' v'] acc IH]; simpl; [done |].
  intros [Hne Hin]%not_elem_of_cons.
  rewrite bool_decide_eq_false_2 by done. by rewrite IH.
Qed.

(** The text of one member of an object. *)
Lemma quote_app k rest : quote k ++ rest = QUOTE :: quoteUnits k ++ QUOTE :: rest.
Proof. unfold quote. simpl. by rewrite <- app_assoc. Qed.

Lemma memberText_app k v rest :
  memberText (k, v) ++ rest
  = QUOTE :: quoteUnits k ++ QUOTE :: 58 :: (stringify v ++ rest).
Proof.
  unfold memberText. rewrite <- app_assoc, quote_app. done.
Qed.

Section Members.
Variable f : nat.

Lemma parseMembers_member fuel k v d r acc :
  readsBack f v -> delimited (d :: r) ->
  parseMembers (parseValue f) (S fuel) (memberText (k, v) ++ d :: r) acc
  = if d =? 44 then parseMembers (parseValue f) fuel (skipWs r) (setMember k v acc)
    else if d =? 125 then Some (setMember k v acc, r)
    else None.
Proof.
  intros Hv Hd. rewrite memberText_app. cbn [parseMembers]. rewrite N.eqb_refl.
  rewrite parseStringBody_quoteUnits. cbn [mbind option_bind].
  change (skipWs (58 :: stringify v ++ d :: r)) with (58 :: (stringify v ++ d :: r)).
  change (58 =? 58) with true. cbv iota.
  rewrite skipWs_stringify, Hv by done. cbn [mbind option_bind].
  assert (Hws : skipWs (d :: r) = d :: r).
  { simpl in Hd. destruct Hd as [-> | [-> | ->]]; reflexivity. }
  by rewrite Hws.
Qed.

Lemma parseMembers_joinComma (members : list (jsstring * Json)) : forall fuel acc r,
  members ≠ [] -> (length members ≤ fuel)%nat ->
  Forall (fun kv => readsBack f kv.2) members ->
  NoDup (map fst (acc ++ members)) ->
  parseMembers (parseValue f) fuel (joinComma (map memberText members) ++ 125 :: r) acc
  = Some (acc ++ members, r).
Proof.
  induction members as [|[k v] members IH]; intros fuel acc r Hne Hfuel Hall Hnd;
    [done |].
  apply Forall_cons in Hall as [Hv Hall]. simpl in Hv.
  destruct fuel as [|fuel]; [simpl in Hfuel; lia |].
  assert (Hfresh : k ∉ map fst acc).
  { rewrite map_app in Hnd. apply NoDup_app in Hnd as (_ & Hdisj & _).
    intros Hin. apply (Hdisj k Hin). simpl. left. }
  destruct members as [|kv' members].
  - change (joinComma (map memberText [(k, v)])) with (memberText (k, v)).
    rewrite parseMembers_member by (done || (simpl; tauto)).
    simpl. by rewrite setMember_fresh.
  - change (map memberText ((k, v) :: kv' :: members))
      with (memberText (k, v) :: memberText kv' :: map memberText members).
    rewrite joinComma_cons2, <- app_assoc.
    change ((44 :: joinComma (memberText kv' :: map memberText members)) ++ 125 :: r)
      with (44 :: (joinComma (map memberText (kv' :: members)) ++ 125 :: r)).
    rewrite parseMembers_member by (done || (simpl; tauto)).
    change (44 =? 44) with true. cbv iota.
    assert (Hskip : skipWs (joinComma (map memberText (kv' :: members)) ++ 125 :: r)
                    = joinComma (map memberText (kv' :: members)) ++ 125 :: r).
    { destruct kv' as [k' v']. destruct members as [|kv'' members].
      - change (joinComma (map memberText [(k', v')])) with (memberText (k', v')).
        by rewrite memberText_app.
      - change (map memberText ((k', v') :: kv'' :: members))
          with (memberText (k', v') :: memberText kv'' :: map memberText members).
        rewrite joinComma_cons2, <- app_assoc. by rewrite memberText_app. }
    rewrite Hskip, setMember_fresh by done.
    rewrite IH; [| done | simpl in *; lia | done |].
    + by rewrite <- app_assoc.
    + by rewrite <- app_assoc.
Qed.

End Members.

Lemma elem_of_map {A B} (f : A -> B) (l : list A) (y : B) :
  y ∈ map f l <-> exists x, y = f x /\ x ∈ l.
Proof.
  rewrite list_elem_of_In, in_map_iff. split.
  - intros (x & <- & Hx). exists x. by rewrite list_elem_of_In.
  - intros (x & -> & Hx). exists x. by rewrite <- list_elem_of_In.
Qed.

Lemma stringify_JArray elems :
  stringify (JArray elems) = 91 :: joinComma (map stringify elems) ++ [93].
Proof. reflexivity. Qed.

Lemma stringify_JObject members :
  stringify (JObject members) = 123 :: joinComma (map memberText members) ++ [125].
Proof. reflexivity. Qed.

(** A serialized value, followed by a delimiter, is read back by
    [parseValue] with any fuel above the length of its text. *)
Lemma parseValue_stringify (j : Json) :
  canonical j = true ->
  forall fuel r, (length (stringify j) < fuel)%nat -> delimited r ->
  parseValue fuel (stringify j ++ r) = Some (j, r).
Proof.
  induction j as [ | b | z | s | elems IH | members IH] using Json_induction;
    intros Hcan fuel r Hfuel Hr; (destruct fuel as [|f]; [lia |]).
  - reflexivity.
  - by destruct b.
  - destruct (numberToString_head z) as (d & rest & E & Hd).
    pose proof (parseNumber_numberToString z r (delimited_endsNumber r Hr)) as Hp.
    simpl stringify. rewrite E in Hp |- *.
    change ((d :: rest) ++ r) with (d :: (rest ++ r)) in *.
    cbn [parseValue].
    destruct (N.eqb_spec d 110); [lia |]. destruct (N.eqb_spec d 116); [lia |].
    destruct (N.eqb_spec d 102); [lia |]. destruct (N.eqb_spec d QUOTE); [unfold QUOTE in *; lia |].
    destruct (N.eqb_spec d 91); [lia |]. destruct (N.eqb_spec d 123); [lia |].
    by rewrite Hp.
  - simpl stringify. rewrite quote_app. cbn [parseValue].
    change (QUOTE =? 110) with false. change (QUOTE =? 116) with false.
    change (QUOTE =? 102) with false. rewrite N.eqb_refl. cbv iota.
    by rewrite parseStringBody_quoteUnits.
  - rewrite stringify_JArray in Hfuel |- *.
    change ((91 :: joinComma (map stringify elems) ++ [93]) ++ r)
      with (91 :: ((joinComma (map stringify elems) ++ [93]) ++ r)).
    rewrite <- app_assoc. cbn [parseValue].
    change (91 =? 110) with false. change (91 =? 116) with false.
    change (91 =? 102) with false. change (91 =? QUOTE) with false.
    change (91 =? 91) with true. cbv iota.
    cbn [length] in Hfuel. rewrite length_app in Hfuel. cbn [length] in Hfuel.
    destruct elems as [|e elems]; [reflexivity |].
    simpl in Hcan. apply andb_true_iff in Hcan as [Hce Hcs].
    assert (Hskip : skipWs (joinComma (map stringify (e :: elems)) ++ [93] ++ r)
                    = joinComma (map stringify (e :: elems)) ++ [93] ++ r).
    { destruct elems as [|e' elems].
      - simpl joinComma. apply skipWs_stringify.
      - change (map stringify (e :: e' :: elems))
          with (stringify e :: stringify e' :: map stringify elems).
        rewrite joinComma_cons2, <- app_assoc. apply skipWs_stringify. }
    rewrite Hskip.
    destruct (joinComma (map stringify (e :: elems)) ++ [93] ++ r) as [|d r0] eqn:E.
    { destruct (stringify_head e) as (c & rest & Hs & _). simpl in E.
      rewrite Hs in E. by destruct elems. }
    assert (Hd : (d =? 93) = false).
    { destruct (stringify_head e) as (c & rest & Hs & Hc). simpl in E.
      rewrite Hs in E. apply N.eqb_neq.
      destruct elems; simpl in E; injection E as <- _; lia. }
    rewrite Hd, <- E. clear E Hd.
    change ([93] ++ r) with (93 :: r).
    rewrite (parseElements_joinComma f); [done | done | |].
    + pose proof (joinComma_length_count (map stringify (e :: elems))) as Hcount.
      rewrite length_map in Hcount.
      assert (Hone : Forall (fun x => 1 ≤ length x)%nat (map stringify (e :: elems))).
      { apply Forall_forall. intros x (y & -> & _)%elem_of_map.
        apply stringify_length. }
      specialize (Hcount Hone). lia.
    + apply Forall_forall. intros x Hx r' Hr'.
      rewrite Forall_forall in IH. apply (IH x Hx); [| | done].
      * assert (Hall : forallb canonical (e :: elems) = true)
          by (simpl; by rewrite Hce, Hcs).
        rewrite forallb_Forall, Forall_forall in Hall. by apply Hall.
      * pose proof (joinComma_length_elem (map stringify (e :: elems)) (stringify x)
                      ltac:(apply elem_of_map; by eexists)) as Hlen.
        lia.
  - rewrite stringify_JObject in Hfuel |- *.
    change ((123 :: joinComma (map memberText members) ++ [125]) ++ r)
      with (123 :: ((joinComma (map memberText members) ++ [125]) ++ r)).
    rewrite <- app_assoc. cbn [parseValue].
    change (123 =? 110) with false. change (123 =? 116) with false.
    change (123 =? 102) with false. change (123 =? QUOTE) with false.
    change (123 =? 91) with false. change (123 =? 123) with true. cbv iota.
    cbn [length] in Hfuel. rewrite length_app in Hfuel. cbn [length] in Hfuel.
    destruct members as [|[k v] members]; [reflexivity |].
    cbn [canonical] in Hcan. apply andb_true_iff in Hcan as [Hnd Hcs].
    apply bool_decide_eq_true in Hnd.
    assert (Hhead : exists rest, joinComma (map memberText ((k, v) :: members)) ++ [125] ++ r
                                 = QUOTE :: rest).
    { destruct members as [|kv' members].
      - change (joinComma (map memberText [(k, v)])) with (memberText (k, v)).
        rewrite memberText_app. by eexists.
      - change (map memberText ((k, v) :: kv' :: members))
          with (memberText (k, v) :: memberText kv' :: map memberText members).
        rewrite joinComma_cons2, <- app_assoc, memberText_app. by eexists. }
    destruct Hhead as [rest Hhead].
    assert (Hskip : skipWs (joinComma (map memberText ((k, v) :: members)) ++ [125] ++ r)
                    = QUOTE :: rest) by (by rewrite Hhead).
    rewrite Hskip. change (QUOTE =? 125) with false. cbv iota.
    rewrite <- Hhead. clear Hhead Hskip rest.
    change ([125] ++ r) with (125 :: r).
    rewrite (parseMembers_joinComma f); [done | done | | | done].
    + pose proof (joinComma_length_count (map memberText ((k, v) :: members))) as Hcount.
      rewrite length_map in Hcount.
      assert (Hone : Forall (fun x => 1 ≤ length x)%nat
                       (map memberText ((k, v) :: members))).
      { apply Forall_forall. intros x ([k' v'] & -> & _)%elem_of_map.
        unfold memberText, quote. simpl. lia. }
      specialize (Hcount Hone). lia.
    + apply Forall_forall. intros [k' v'] Hx r' Hr'.
      rewrite Forall_forall in IH. apply (IH (k', v') Hx); [| | done].
      * rewrite forallb_Forall, Forall_forall in Hcs. by apply (Hcs (k', v')).
      * pose proof (joinComma_length_elem (map memberText ((k, v) :: members))
                      (memberText (k', v'))
                      ltac:(apply elem_of_map; by eexists)) as Hlen.
        assert (length (stringify v') ≤ length (memberText (k', v')))%nat.
        { unfold memberText. rewrite length_app. simpl. lia. }
        simpl. lia.
Qed.

(** [JSON.parse(JSON.stringify(j))] is [j]. *)
Lemma parse_stringify (j : Json) :
  canonical j = true -> parse (stringify j) = Some j.
Proof.
  intros Hcan. unfold parse. rewrite <- (app_nil_r (stringify j)) at 2.
  rewrite skipWs_stringify, app_nil_r.
  rewrite <- (app_nil_r (stringify j)) at 2.
  by rewrite parseValue_stringify by (done || lia).
Qed.

(** * Serialized texts without line terminator *)

Lemma singleLine_cons c s :
  singleLine (c :: s) <-> isLineTerminator c = false /\ singleLine s.
Proof. unfold singleLine. by rewrite Forall_cons. Qed.

Lemma singleLine_nil : singleLine [].
Proof. constructor. Qed.

Lemma singleLine_lit_ascii (s : jsstring) :
  forallb (fun c => negb (isLineTerminator c)) s = true -> singleLine s.
Proof.
  intros Hall. rewrite forallb_Forall, Forall_forall in Hall.
  apply Forall_forall. intros c Hc. specialize (Hall c Hc).
  by destruct (isLineTerminator c).
Qed.

Lemma singleLine_hex4 c : singleLine (hex4 c).
Proof.
  assert (Hd : forall d, d < 16 -> isLineTerminator (digitChar d) = false).
  { intros d Hd.
    assert (Hcases : d = 0 \/ d = 1 \/ d = 2 \/ d = 3 \/ d = 4 \/ d = 5 \/ d = 6
                     \/ d = 7 \/ d = 8 \/ d = 9 \/ d = 10 \/ d = 11 \/ d = 12
                     \/ d = 13 \/ d = 14 \/ d = 15) by lia.
    repeat (destruct Hcases as [-> | Hcases]; [reflexivity |]). by subst. }
  unfold hex4. repeat (apply singleLine_cons; split; [apply Hd, N.mod_lt; lia |]).
  apply singleLine_nil.
Qed.

Lemma singleLine_unicodeEscape c : singleLine (unicodeEscape c).
Proof.
  unfold unicodeEscape. do 2 (apply singleLine_cons; split; [done |]).
  apply singleLine_hex4.
Qed.

Lemma isLineTerminator_false c :
  c ≠ 10 -> c ≠ 13 -> c ≠ 8232 -> c ≠ 8233 -> isLineTerminator c = false.
Proof.
  intros. unfold isLineTerminator.
  destruct (N.eqb_spec c 10); [done |]. destruct (N.eqb_spec c 13); [done |].
  destruct (N.eqb_spec c 8232); [done |]. by destruct (N.eqb_spec c 8233).
Qed.

Lemma plainUnit_spec c :
  negb ((c =? 8232) || (c =? 8233)) = true <-> c ≠ 8232 /\ c ≠ 8233.
Proof.
  rewrite negb_true_iff, orb_false_iff, !N.eqb_neq. done.
Qed.

Lemma singleLine_quoteUnit c :
  c ≠ 8232 -> c ≠ 8233 -> singleLine (quoteUnit c).
Proof.
  intros H1 H2. unfold quoteUnit.
  repeat (match goal with
          | |- context [if ?x =? ?y then _ else _] =>
              destruct (N.eqb_spec x y) as [-> |]; [by apply singleLine_lit_ascii |]
          end).
  destruct ((c <? 32) || isLeadingSurrogate c || isTrailingSurrogate c).
  - apply singleLine_unicodeEscape.
  - apply singleLine_cons. split; [by apply isLineTerminator_false | apply singleLine_nil].
Qed.

Lemma singleLine_quoteUnits s : plainString s = true -> singleLine (quoteUnits s).
Proof.
  remember (length s) as n eqn:Hn. revert s Hn.
  induction n as [n IH] using lt_wf_ind. intros s Hn Hs.
  destruct s as [|c rest]; [apply singleLine_nil |].
  unfold plainString in Hs. cbn [forallb] in Hs.
  apply andb_true_iff in Hs as [Hc Hrest]. apply plainUnit_spec in Hc as [Hc1 Hc2].
  rewrite quoteUnits_cons.
  destruct (isLeadingSurrogate c) eqn:El.
  - apply isLeadingSurrogate_range in El.
    destruct rest as [|d rest']; [apply singleLine_unicodeEscape |].
    destruct (isTrailingSurrogate d) eqn:Et.
    + apply isTrailingSurrogate_range in Et.
      cbn [forallb] in Hrest. apply andb_true_iff in Hrest as [_ Hrest'].
      apply singleLine_cons. split; [apply isLineTerminator_false; lia |].
      apply singleLine_cons. split; [apply isLineTerminator_false; lia |].
      apply (IH (length rest')); [simpl in Hn; lia | done | done].
    + apply singleLine_app. split; [apply singleLine_unicodeEscape |].
      apply (IH (length (d :: rest'))); [simpl in *; lia | done | done].
  - apply singleLine_app. split; [by apply singleLine_quoteUnit |].
    apply (IH (length rest)); [simpl in *; lia | done | done].
Qed.

Lemma singleLine_quote s : plainString s = true -> singleLine (quote s).
Proof.
  intros Hs. unfold quote. apply singleLine_cons. split; [done |].
  apply singleLine_app. split; [by apply singleLine_quoteUnits |].
  by apply singleLine_lit_ascii.
Qed.

Lemma singleLine_numberToString z : singleLine (numberToString z).
Proof.
  assert (Hd : forall n, singleLine (toStringRadix 10 n)).
  { intros n. apply (toStringRadix_Forall 10); [lia |].
    intros d Hd. unfold digitChar. destruct (N.ltb_spec d 10); [| lia].
    apply isLineTerminator_false; lia. }
  destruct z as [|p|p]; simpl.
  - by apply singleLine_lit_ascii.
  - apply Hd.
  - apply singleLine_cons. split; [done | apply Hd].
Qed.

Lemma singleLine_joinComma (l : list jsstring) :
  Forall singleLine l -> singleLine (joinComma l).
Proof.
  induction 1 as [|x l Hx Hl IH]; [apply singleLine_nil |].
  destruct l as [|y l]; [done |].
  rewrite joinComma_cons2. apply singleLine_app. split; [done |].
  apply singleLine_cons. split; [done | apply IH].
Qed.

(** A value without U+2028 and U+2029 in its strings and keys
    serializes to a text without line terminator. *)
Lemma singleLine_stringify (j : Json) :
  plainText j = true -> singleLine (stringify j).
Proof.
  induction j as [ | b | z | s | elems IH | members IH] using Json_induction;
    intros Hplain.
  - by apply singleLine_lit_ascii.
  - destruct b; by apply singleLine_lit_ascii.
  - apply singleLine_numberToString.
  - by apply singleLine_quote.
  - rewrite stringify_JArray. apply singleLine_cons. split; [done |].
    apply singleLine_app. split; [| by apply singleLine_lit_ascii].
    apply singleLine_joinComma. apply Forall_forall.
    intros x (e & -> & He)%elem_of_map.
    rewrite Forall_forall in IH. apply (IH e He).
    cbn [plainText] in Hplain. rewrite forallb_Forall, Forall_forall in Hplain.
    by apply Hplain.
  - rewrite stringify_JObject. apply singleLine_cons. split; [done |].
    apply singleLine_app. split; [| by apply singleLine_lit_ascii].
    apply singleLine_joinComma. apply Forall_forall.
    intros x ([k v] & -> & Hkv)%elem_of_map.
    cbn [plainText] in Hplain. rewrite forallb_Forall, Forall_forall in Hplain.
    specialize (Hplain (k, v) Hkv). apply andb_true_iff in Hplain as [Hk Hv].
    unfold memberText. apply singleLine_app. split; [by apply singleLine_quote |].
    apply singleLine_cons. split; [done |].
    rewrite Forall_forall in IH. by apply (IH (k, v) Hkv).
Qed.

(** * Payloads through the router *)

Section Payloads.
Context `{Common}.

Lemma parseRawPayload_asPayload text :
  parseRawPayload (Some text) = asPayload <$> parse text.
Proof.
  unfold parseRawPayload, asPayload. simpl.
  destruct (parse text) as [[ | | | | | members] |]; try done.
  simpl. by destruct (getMember IPCFAILURE members).
Qed.

Lemma parseRawPayload_stringify j :
  canonical j = true -> parseRawPayload (Some (stringify j)) = Some (asPayload j).
Proof.
  intros Hcan. by rewrite parseRawPayload_asPayload, parse_stringify.
Qed.

Lemma serialize_envelope v : serialize (envelope v) = stringify (onWire v).
Proof. by destruct v. Qed.

Lemma asPayload_onWire v : unreserved v -> asPayload (onWire v) = v.
Proof.
  destruct v as [j | m].
  - destruct j as [ | | | | | members]; try done. simpl. by intros ->.
  - intros _. unfold asPayload, onWire. cbn [getMember].
    by rewrite bool_decide_eq_true_2.
Qed.

(** A Send frame that carries the serialized text of a value, routed
    to an application callback: the callback is called with that value
    (an object with the reserved key as a Failure), whatever characters
    its strings hold; what the callback throws is logged, a Failure it
    returns is logged, a promise it returns is awaited; nothing is
    sent, scheduled or settled. *)
Theorem send_frame_delivers_value (id : jsstring)
    (f : SerializableValue -> Completion) (j : Json) (w : World) :
  canonical j = true ->
  subscribed w = true -> drained w ->
  listeners (router w) !! id = Some (Callback f) ->
  step w (ScriptEvent id (IpcTypeFlag_Send :: stringify j))
  = match f (asPayload j) with
    | Return (Failure m) => warn (Data (Failure m)) w
    | Return (Plain _) => w
    | Throw e => warn e w
    | ReturnPromise outcome => suspend AfterCall outcome false w
    end.
Proof.
  intros Hcan Hsub Hd Hl. unfold step, handle, onScriptEventRecieved.
  rewrite Hsub, (routeEvent_Send _ (Callback f)) by done.
  unfold callListener. rewrite parseRawPayload_stringify by done. simpl.
  destruct (f (asPayload j)) as [v | e | outcome].
  - rewrite runMicrotasks_suspend by done. by destruct v.
  - apply runMicrotasks_drained. by apply (drained_same w).
  - apply runMicrotasks_drained. by apply drained_suspend_later.
Qed.

End Payloads.

(** * The ids the router generates *)

Section Uids.
Context `{Common}.

Lemma toStringRadix36_chars n :
  Forall (fun c => 48 <= c <= 57 \/ 97 <= c <= 122) (toStringRadix 36 n).
Proof.
  apply toStringRadix_Forall; [lia |].
  intros d Hd. unfold digitChar. destruct (N.ltb_spec d 10); lia.
Qed.

Lemma toStringRadix36_without c n :
  ~ (48 <= c <= 57 \/ 97 <= c <= 122) -> c ∉ toStringRadix 36 n.
Proof.
  intros Hc Hin. pose proof (toStringRadix36_chars n) as Hall.
  rewrite Forall_forall in Hall. by apply Hc, Hall.
Qed.

Lemma generateListenerUid_fst w :
  (generateListenerUid w).1
  = uid (router w) ++ lit ":__" ++ toStringRadix 36 (listenerUidsGenerated (router w)).
Proof. reflexivity. Qed.

Lemma generateStreamUid_fst w :
  (generateStreamUid w).1
  = uid (router w) ++ toStringRadix 36 (streamUidsGenerated (router w)).
Proof. reflexivity. Qed.

Lemma generateListenerUid_without c w :
  c ∉ uid (router w) -> c ≠ COLON -> c ≠ UNDERSCORE ->
  ~ (48 <= c <= 57 \/ 97 <= c <= 122) ->
  c ∉ (generateListenerUid w).1.
Proof.
  intros Hu Hc1 Hc2 Hc. rewrite generateListenerUid_fst.
  apply not_elem_of_app. split; [done |]. apply not_elem_of_app. split.
  - change (lit ":__") with [COLON; UNDERSCORE; UNDERSCORE].
    rewrite !not_elem_of_cons. repeat split; try done. apply not_elem_of_nil.
  - by apply toStringRadix36_without.
Qed.

Lemma generateStreamUid_without c w :
  c ∉ uid (router w) -> ~ (48 <= c <= 57 \/ 97 <= c <= 122) ->
  c ∉ (generateStreamUid w).1.
Proof.
  intros Hu Hc. rewrite generateStreamUid_fst. apply not_elem_of_app. split; [done |].
  by apply toStringRadix36_without.
Qed.

(** The ids [generateListenerUid] and [generateStreamUid] return.  Two
    calls on the same router return the same id only when the counter
    had the same value, and each call adds one to its counter, so no
    id is returned twice.  An id holds a space only if the uid of the
    router does.  [registerListener] refuses every listener id of a
    router whose uid holds no colon, so an application callback is
    never registered under the response id of an invoke; with a uid
    that holds a colon followed by anything but an underscore it
    accepts them. *)
Theorem generated_uids_distinct_and_reserved (w w' : World) :
  uid (router w') = uid (router w) ->
  ((generateListenerUid w).1 = (generateListenerUid w').1 ->
     listenerUidsGenerated (router w) = listenerUidsGenerated (router w'))
  /\ ((generateStreamUid w).1 = (generateStreamUid w').1 ->
     streamUidsGenerated (router w) = streamUidsGenerated (router w'))
  /\ listenerUidsGenerated (router (generateListenerUid w).2)
     = listenerUidsGenerated (router w) + 1
  /\ streamUidsGenerated (router (generateStreamUid w).2)
     = streamUidsGenerated (router w) + 1
  /\ (SPACE ∉ uid (router w) ->
      (SPACE ∉ (generateListenerUid w).1) /\ (SPACE ∉ (generateStreamUid w).1))
  /\ (COLON ∉ uid (router w) ->
      forall callback w0,
        exists e, registerListener (generateListenerUid w).1 callback w0
                  = Throws e w0)
  /\ (forall ns c rest callback w0,
        uid (router w) = ns ++ COLON :: c :: rest -> COLON ∉ ns ->
        c ≠ UNDERSCORE -> c ≠ COLON ->
        listeners (router w0) !! (generateListenerUid w).1 = None ->
        registerListener (generateListenerUid w).1 callback w0
        = Ok (setListener (generateListenerUid w).1 callback w0)).
Proof.
  intros Huid. split; [| split; [| split; [| split; [| split; [| split]]]]].
  - rewrite !generateListenerUid_fst, Huid. intros E%app_inv_head%app_inv_head.
    by apply (toStringRadix_inj 36) in E.
  - rewrite !generateStreamUid_fst, Huid. intros E%app_inv_head.
    by apply (toStringRadix_inj 36) in E.
  - done.
  - done.
  - intros Hu. split.
    + apply generateListenerUid_without; [done | done | done | unfold SPACE; lia].
    + apply generateStreamUid_without; [done | unfold SPACE; lia].
  - intros Hu callback w0.
    change (generateListenerUid w).1
      with (uid (router w) ++ COLON :: UNDERSCORE
              :: (UNDERSCORE :: toStringRadix 36 (listenerUidsGenerated (router w)))).
    by apply registerListener_reserved.
  - intros ns c rest callback w0 Hu Hns Hc1 Hc2 Hfree.
    unfold registerListener. rewrite bool_decide_eq_false_2
      by (rewrite Hfree; by apply is_Some_None).
    assert (Hid : (generateListenerUid w).1
                  = ns ++ COLON :: c :: (rest ++ lit ":__"
                      ++ toStringRadix 36 (listenerUidsGenerated (router w)))).
    { rewrite generateListenerUid_fst, Hu. by rewrite <- app_assoc. }
    rewrite Hid.
    assert (Hincl : includes COLON (ns ++ COLON :: c :: (rest ++ lit ":__"
                      ++ toStringRadix 36 (listenerUidsGenerated (router w)))) = true).
    { apply includes_true. apply elem_of_app. right. left. }
    rewrite Hincl, splitColon1_local by done.
    rewrite upTo_head by done. simpl.
    destruct (N.eqb_spec c UNDERSCORE); done.
Qed.

End Uids.

(** * An invoke and its answer *)

Section RoundTrip.
Context `{Common}.

Lemma unused_generateListenerUid respId w :
  unused respId w -> unused respId (generateListenerUid w).2.
Proof. intros [H1 H2 H3 H4 H5 H6]. by constructor. Qed.

(** [invoke] on a router that also holds the handler: the call puts
    the Invoke frame on the transport; when that frame is delivered
    the handler is called with the payload and its result goes out in
    one Send frame addressed to the response id; when that frame is
    delivered the promise settles with the result (rejected with it
    when it is a Failure and [throwFailures] is set), the response
    listener is removed and the timeout is cleared.  The payload has no
    U+2028 or U+2029 in its strings, the result is not an object with
    the reserved key, and both frames fit the limit. *)
Theorem invoke_resolves_with_handler_result (options : InvokeOptions)
    (f : SerializableValue -> Completion) (j : Json) (v : SerializableValue)
    (w : World) :
  let respId := (generateListenerUid w).1 in
  let event := io_event options in
  let request := IpcTypeFlag_Invoke :: respId ++ SPACE :: stringify j in
  let response := IpcTypeFlag_Send :: stringify (onWire v) in
  let p := (invoke options w).1 in
  let w1 := (invoke options w).2 in
  let w2 := step w1 (ScriptEvent event request) in
  let w3 := step w2 (ScriptEvent respId response) in
  flagsDistinct -> subscribed w = true -> drained w ->
  SPACE ∉ uid (router w) -> unused respId w ->
  listeners (router w) !! event = Some (Callback f) -> event ≠ respId ->
  io_payload options = Plain j -> canonical j = true -> plainText j = true ->
  f (asPayload j) = Return v -> canonical (onWire v) = true -> unreserved v ->
  (length (stringify j) + length respId + 1 ≤ MAX_MESSAGE_LENGTH)%nat ->
  (length (stringify (onWire v)) ≤ MAX_MESSAGE_LENGTH)%nat ->
  wire w1 = wire w ++ [(event, request)]
  /\ wire w2 = wire w1 ++ [(respId, response)]
  /\ promises w2 !! p = None
  /\ promises w3 !! p = Some (responseOutcome (io_throwFailures options) v)
  /\ listeners (router w3) !! respId = None
  /\ noRun (nextRunId w) w3.
Proof.
  intros respId event request response p w1 w2 w3 Hd Hsub Hdr Huid Hunused Hl
    Hne Hpayload Hcan Hplain Hf Hcanv Hres Hlen1 Hlen2.
  set (internal := {| ii_event := io_event options;
                      ii_payload := serialize (io_payload options);
                      ii_force := io_force options;
                      ii_throwFailures := io_throwFailures options |}).
  set (w0 := (generateListenerUid w).2).
  assert (Hinvoke : invoke options w = invokeInternal internal respId w0) by done.
  assert (Hspace : SPACE ∉ respId).
  { apply generateListenerUid_without; [done | done | done | unfold SPACE; lia]. }
  pose proof (unused_generateListenerUid respId w Hunused) as Hunused0.
  fold w0 in Hunused0.
  assert (Hw1 : w1 = withWire (wire w ++ [(event, request)])
                       (setListener respId
                          (InvokeResponse respId (nextRunId w)
                             (io_throwFailures options) (nextPromise w))
                          (withNextRunId (S (nextRunId w))
                             (withRuns (runs w ++
                                [{| runId := nextRunId w; dueTick := currentTick w + 20;
                                    runCallback :=
                                      InvokeTimeout respId (nextPromise w) event |}])
                                (withNextPromise (S (nextPromise w)) w0))))).
  { subst w1. rewrite Hinvoke. unfold invokeInternal, runTimeout, sendInternal.
    cbn [ii_event ii_payload ii_force ii_throwFailures internal].
    rewrite Hpayload. cbn [serialize].
    rewrite bool_decide_eq_false_2, andb_false_r; [done |].
    rewrite length_app. cbn [length]. lia. }
  assert (Hp : p = nextPromise w).
  { subst p. by rewrite Hinvoke, invokeInternal_promise. }
  assert (Hpending : promises w1 !! nextPromise w = None).
  { rewrite Hw1. simpl. apply Hunused. }
  destruct (invokeInternal_establishes internal respId w0 Hunused0) as (Haw & Har & _ & Hsub1).
  { by rewrite <- Hinvoke. }
  rewrite <- Hinvoke in Haw, Har, Hsub1. fold w1 in Haw, Har, Hsub1.
  change (nextPromise w0) with (nextPromise w) in Haw, Har.
  change (nextRunId w0) with (nextRunId w) in Haw, Har.
  change (subscribed w0) with (subscribed w) in Hsub1.
  change (currentTick w0) with (currentTick w) in Har.
  cbn [ii_throwFailures ii_event internal] in Haw, Har.
  assert (Hdr1 : drained w1) by (rewrite Hw1; by apply (drained_same w)).
  assert (Hl1 : listeners (router w1) !! event = Some (Callback f)).
  { rewrite Hw1. simpl. by rewrite lookup_insert_ne. }
  assert (Hw2 : w2 = withWire (wire w1 ++ [(respId, response)]) w1).
  { subst w2 request. unfold step.
    rewrite (step_Invoke_Callback event f respId (stringify j) (asPayload j));
      [| done | by rewrite Hsub1 | done | done | by apply singleLine_stringify
       | by apply parseRawPayload_stringify].
    rewrite Hf, runMicrotasks_suspend by done. cbn [resume].
    rewrite invokeListenerRest_no_error.
    destruct (voidSendAuto_response respId (envelope v) w1) as [Hshort _].
    rewrite serialize_envelope in Hshort. by apply Hshort. }
  assert (Hq : quiet w1 w2) by (rewrite Hw2; quiet_tac).
  split; [by rewrite Hw1 |]. split; [by rewrite Hw2 |].
  split; [by rewrite Hp, (quiet_promises _ _ Hq) |].
  destruct (response_settles respId (nextRunId w) (nextPromise w)
              (io_throwFailures options) event (currentTick w + 20)
              (stringify (onWire v)) v w2)
    as (Hsettled & Hremoved & Hno).
  - by apply (awaiting_quiet _ _ _ w1).
  - by apply (armed_quiet _ _ _ _ _ w1).
  - by rewrite (quiet_subscribed _ _ Hq), Hsub1.
  - by rewrite parseRawPayload_stringify, asPayload_onWire.
  - by rewrite Hp.
Qed.

End RoundTrip.

(** * A destroyed router *)

Section Destroyed.
Context `{Common}.

Lemma step_unsubscribed id message w :
  subscribed w = false -> drained w -> step w (ScriptEvent id message) = w.
Proof.
  intros Hsub Hd. unfold step, handle. rewrite Hsub.
  by apply runMicrotasks_drained.
Qed.

(** An unsubscribed router receives nothing: the script events of a
    trace can be left out. *)
Lemma run_unsubscribed es : forall w,
  subscribed w = false -> drained w -> run es w = run (hostEvents es) w.
Proof.
  induction es as [|e es IH]; intros w Hsub Hd; [done |].
  rewrite run_cons. unfold hostEvents.
  destruct e as [id message | | k | k].
  - rewrite filter_cons_False by (simpl; congruence).
    rewrite step_unsubscribed by done. by apply IH.
  - rewrite filter_cons_True by done. rewrite run_cons.
    apply IH; [by rewrite step_subscribed | apply drained_step].
  - rewrite filter_cons_True by done. rewrite run_cons.
    apply IH; [by rewrite step_subscribed | apply drained_step].
  - rewrite filter_cons_True by done. rewrite run_cons.
    apply IH; [by rewrite step_subscribed | apply drained_step].
Qed.

Lemma ticks_hostEvents es : ticks (hostEvents es) = ticks es.
Proof.
  induction es as [|e es IH]; [done |]. unfold hostEvents.
  destruct e as [id message | | k | k].
  - rewrite filter_cons_False by (simpl; congruence). apply IH.
  - rewrite filter_cons_True by done. simpl. f_equal. apply IH.
  - rewrite filter_cons_True by done. apply IH.
  - rewrite filter_cons_True by done. apply IH.
Qed.

Lemma silent_hostEvents id es : silent id (hostEvents es).
Proof.
  apply Forall_forall. intros e [He _]%list_elem_of_filter. by destruct e.
Qed.

(** The timeout of a waiting invoke fires when its tick comes, if no
    script event was addressed to the response id before. *)
Lemma invoke_times_out respId t p event due l es w :
  awaiting respId p l w -> armed respId t p event due w ->
  silent respId es ->
  (currentTick w < due ≤ currentTick w + ticks es)%nat ->
  promises (run es w) !! p = Some (Rejected (timedOut event))
  /\ listeners (router (run es w)) !! respId = None.
Proof.
  intros Haw Har Hs [Hlo Hhi].
  destruct (ticks_split (due - currentTick w - 1) es ltac:(lia))
    as (es1 & es2 & -> & Ht1).
  apply silent_app in Hs as [Hs1 Hs2].
  destruct (pending_run respId t p event due l es1 w Haw Har Hs1 ltac:(lia))
    as [Haw1 Har1].
  destruct (armed_timeout respId t p event due (run es1 w) Har1
              (aw_pending _ _ _ _ Haw1)) as [Hrejected Hremoved].
  { rewrite run_tick. lia. }
  rewrite run_app, run_cons.
  pose proof (later_run es2 (step (run es1 w) Tick)) as [Hl Hp].
  split; [by apply Hp | by apply Hl].
Qed.

Lemma awaiting_destroy respId p l w :
  awaiting respId p l w -> awaiting respId p l (destroy w).
Proof. by apply awaiting_same. Qed.

Lemma armed_destroy respId t p event due w :
  armed respId t p event due w -> armed respId t p event due (destroy w).
Proof. intros [H1 H2 H3 H4 H5 H6 H7]. by constructor. Qed.

(** [destroy] does not cancel an invoke that is waiting, and from then
    on its response cannot reach it: whatever arrives, the promise is
    pending until the twentieth tick after the call and is rejected
    with the timeout error from that tick on, and the response listener,
    still registered until then, is removed by the timeout. *)
Theorem destroy_leaves_invoke_to_time_out (options : InternalInvokeOptions)
    (respId : jsstring) (w : World) :
  let p := nextPromise w in
  let w1 := destroy (invokeInternal options respId w).2 in
  unused respId w -> drained w ->
  promises (invokeInternal options respId w).2 !! p = None ->
  is_Some (listeners (router w1) !! respId)
  /\ (forall es, (ticks es < 20)%nat ->
        promises (run es w1) !! p = None
        /\ is_Some (listeners (router (run es w1)) !! respId))
  /\ (forall es, (20 ≤ ticks es)%nat ->
        promises (run es w1) !! p = Some (Rejected (timedOut (ii_event options)))
        /\ listeners (router (run es w1)) !! respId = None).
Proof.
  intros p w1 Hunused Hd Hpending.
  destruct (invokeInternal_establishes options respId w Hunused Hpending)
    as (Haw & Har & Htick & _).
  apply awaiting_destroy in Haw. apply armed_destroy in Har.
  fold p w1 in Haw, Har.
  assert (Hsub : subscribed w1 = false) by done.
  assert (Hd1 : drained w1).
  { apply (drained_same w); [| done]. subst w1.
    destruct (invokeInternal_cases options respId w) as [-> | [e ->]]; [done |].
    unfold settle. by case_match. }
  assert (Htick1 : currentTick w1 = currentTick w) by (by rewrite <- Htick).
  split; [by rewrite (aw_listener _ _ _ _ Haw) |]. split.
  - intros es Hticks. rewrite (run_unsubscribed es) by done.
    destruct (pending_run respId (nextRunId w) p (ii_event options)
                (currentTick w + 20) _ (hostEvents es) w1 Haw Har
                (silent_hostEvents respId es)) as [Haw' _].
    { rewrite ticks_hostEvents. lia. }
    split; [apply Haw' | by rewrite (aw_listener _ _ _ _ Haw')].
  - intros es Hticks. rewrite (run_unsubscribed es) by done.
    apply (invoke_times_out respId (nextRunId w) p _ (currentTick w + 20) _ _ w1
             Haw Har (silent_hostEvents respId es)).
    rewrite ticks_hostEvents. lia.
Qed.

End Destroyed.

(** * Stream buffers *)

Section Buffers.
Context `{Common}.

Lemma withBuffers_buffered s content w :
  buffered s content w = withBuffers (<[s := content]> (pendingStreams (router w))) w.
Proof. done. Qed.

Lemma withBuffers_withBuffers m m' w :
  withBuffers m (withBuffers m' w) = withBuffers m w.
Proof. done. Qed.

Lemma withBuffers_same w : withBuffers (pendingStreams (router w)) w = w.
Proof.
  unfold withBuffers, withRouter, withPendingStreams.
  rewrite router_eta. apply world_eta.
Qed.

Lemma fragmentsOf_cons s c cs :
  fragmentsOf s (c :: cs)
  = if decide (fr_stream c = s) then fr_part c :: fragmentsOf s cs
    else fragmentsOf s cs.
Proof.
  unfold fragmentsOf. destruct (decide (fr_stream c = s)).
  - by rewrite filter_cons_True.
  - by rewrite filter_cons_False.
Qed.

(** The buffers are keyed by the stream id alone.  Non-terminal chunks
    of any number of streams, addressed to any registered listeners and
    arriving in any order, change nothing but the buffers; the buffer
    of each stream id grows by the fragments that carry this id, in
    order of arrival, whatever event id they were addressed to; and a
    terminal chunk dispatches the buffer of its stream id to the
    listener of the event id it is addressed to. *)
Theorem stream_buffers_keyed_by_stream_id (cs : list Fragment) (w : World) :
  flagsDistinct ->
  Forall (fun c => isStreamFlag (fr_flag c) /\ (SPACE ∉ fr_stream c)
                   /\ is_Some (listeners (router w) !! fr_event c)) cs ->
  let w' := deliverFragments cs w in
  withBuffers (pendingStreams (router w)) w' = w
  /\ (forall s, cached s w'
                = cached s w ++ concat (map dotStar (fragmentsOf s cs)))
  /\ (forall id l s part,
        listeners (router w) !! id = Some l -> SPACE ∉ s ->
        routeEvent id (IpcTypeFlag_SendStream :: chunkBody s FLAG_END part) w'
        = Ok (callListener l
                (Some (cached s w ++ concat (map dotStar (fragmentsOf s cs))
                       ++ dotStar part))
                (unbuffered s w'))).
Proof.
  intros Hd Hall.
  assert (Hmain : withBuffers (pendingStreams (router w)) (deliverFragments cs w) = w
                  /\ forall s, cached s (deliverFragments cs w)
                               = cached s w ++ concat (map dotStar (fragmentsOf s cs))).
  { revert w Hall. induction cs as [|c cs IH]; intros w Hall.
    - split; [apply withBuffers_same | intros s; by rewrite app_nil_r].
    - apply Forall_cons in Hall as [(Hf & Hs & [l Hl]) Hall].
      change (deliverFragments (c :: cs) w)
        with (deliverFragments cs (deliverFragment w c)).
      assert (Hstep : deliverFragment w c
                      = buffered (fr_stream c)
                          (cached (fr_stream c) w ++ dotStar (fr_part c)) w).
      { unfold deliverFragment, onScriptEventRecieved.
        by rewrite (routeEvent_chunk_more _ l). }
      destruct (IH (deliverFragment w c)) as [IH1 IH2].
      { rewrite Hstep. eapply Forall_impl; [exact Hall |]. by intros c' (? & ? & ?). }
      split.
      + rewrite <- (withBuffers_withBuffers _ (pendingStreams (router (deliverFragment w c)))).
        rewrite IH1, Hstep. rewrite withBuffers_buffered, withBuffers_withBuffers.
        apply withBuffers_same.
      + intros s. rewrite IH2, fragmentsOf_cons, Hstep.
        destruct (decide (fr_stream c = s)) as [<- | Hne].
        * rewrite cached_buffered. simpl. by rewrite <- app_assoc.
        * unfold cached, buffered. simpl. by rewrite lookup_insert_ne. }
  destruct Hmain as [H1 H2]. split; [done |]. split; [done |].
  intros id l s part Hl Hs.
  assert (Hl' : listeners (router (deliverFragments cs w)) !! id = Some l).
  { rewrite <- H1 in Hl. exact Hl. }
  pose proof (routeEvent_chunk_end id l IpcTypeFlag_SendStream s part
                (deliverFragments cs w) Hd ltac:(by left) Hl' Hs) as Hr.
  cbv zeta in Hr. rewrite Hr, H2.
  destruct (flagsDistinct_ne Hd) as (_ & _ & _ & _ & _ & Hne).
  destruct (N.eqb_spec IpcTypeFlag_SendStream IpcTypeFlag_InvokeStream); [done |].
  by rewrite <- app_assoc.
Qed.

End Buffers.

(** * A streamed request *)

Section StreamedRequest.
Context `{Common}.

Lemma step_scriptEvent_drained id message w :
  subscribed w = true -> drained (onScriptEventRecieved id message w) ->
  step w (ScriptEvent id message) = onScriptEventRecieved id message w.
Proof.
  intros Hsub Hd. unfold step, handle. rewrite Hsub.
  by apply runMicrotasks_drained.
Qed.

(** The non-terminal chunks of a stream, one script event each. *)
Lemma run_delivery_more id listener flag streamId (init : list jsstring) :
  flagsDistinct -> isStreamFlag flag -> SPACE ∉ streamId ->
  forall w, subscribed w = true -> drained w ->
  listeners (router w) !! id = Some listener ->
  let w' := deliverAll id (map (fun p => flag :: chunkBody streamId FLAG_MORE p) init) w in
  run (delivery (map (fun p => (id, flag :: chunkBody streamId FLAG_MORE p)) init)) w = w'
  /\ subscribed w' = true /\ drained w'
  /\ listeners (router w') !! id = Some listener.
Proof.
  intros Hd Hf Hs. induction init as [|part init IH]; intros w Hsub Hdr Hl; [done |].
  assert (Hstep : onScriptEventRecieved id (flag :: chunkBody streamId FLAG_MORE part) w
                  = buffered streamId (cached streamId w ++ dotStar part) w).
  { unfold onScriptEventRecieved. by rewrite (routeEvent_chunk_more _ listener). }
  cbn [map delivery]. rewrite run_cons. cbn [fst snd].
  rewrite step_scriptEvent_drained; [| done | by rewrite Hstep].
  unfold deliverAll. cbn [foldl]. fold (deliverAll id (map (fun p => flag :: chunkBody streamId FLAG_MORE p) init)
                                          (onScriptEventRecieved id (flag :: chunkBody streamId FLAG_MORE part) w)).
  apply IH; by rewrite Hstep.
Qed.

Lemma run_delivery_chunkFrames id listener flag payload streamId w :
  flagsDistinct -> isStreamFlag flag -> SPACE ∉ streamId ->
  subscribed w = true -> drained w ->
  listeners (router w) !! id = Some listener ->
  run (delivery (chunkFrames flag id payload streamId)) w
  = runMicrotasks (deliverAll id (map snd (chunkFrames flag id payload streamId)) w).
Proof.
  intros Hd Hf Hs Hsub Hdr Hl.
  destruct (splitParts_spec payload) as (parts & Hparts & _ & _ & Hne & _).
  destruct (nonempty_snoc parts Hne) as (init & lastPart & ->).
  rewrite (chunkFrames_snoc _ _ _ _ init lastPart) by done.
  unfold delivery. rewrite !map_app. fold (delivery (map (fun p => (id, flag :: chunkBody streamId FLAG_MORE p)) init)).
  rewrite run_app.
  destruct (run_delivery_more id listener flag streamId init Hd Hf Hs w Hsub Hdr Hl)
    as (Hrun & Hsub' & _ & _).
  rewrite Hrun. cbn [map fst snd]. rewrite run_cons. cbn [run foldl].
  unfold step, handle. rewrite Hsub'.
  unfold deliverAll. rewrite foldl_app, map_map. done.
Qed.

(** The chunk frames of an InvokeStream request, delivered in order to
    the router that holds the handler: the handler is called once, with
    the payload, and is answered as for an Invoke frame. *)
Theorem streamed_invoke_reaches_handler (event respId streamId : jsstring)
    (f : SerializableValue -> Completion) (j : Json) (w : World) :
  flagsDistinct -> subscribed w = true -> drained w ->
  listeners (router w) !! event = Some (Callback f) ->
  pendingStreams (router w) !! streamId = None ->
  SPACE ∉ streamId -> SPACE ∉ respId -> singleLine respId ->
  canonical j = true -> plainText j = true ->
  let frames :=
    chunkFrames IpcTypeFlag_InvokeStream event (respId ++ SPACE :: stringify j)
      streamId in
  let answer := fun (v : SerializableValue) =>
    voidSendAuto {| so_event := respId; so_payload := envelope v;
                    so_force := false |} w in
  run (delivery frames) w
  = match f (asPayload j) with
    | Return v => answer v
    | Throw e => if truthy e then warn e (answer (Plain JNull))
                 else answer (Plain JNull)
    | ReturnPromise outcome => suspend (AfterInvoke respId) outcome false w
    end.
Proof.
  intros Hd Hsub Hdr Hl Hfresh Hs Hr Hrl Hcan Hplain frames answer.
  subst frames.
  rewrite (run_delivery_chunkFrames _ (Callback f)) by (done || by right).
  set (payload := respId ++ SPACE :: stringify j).
  assert (Hline : singleLine payload).
  { apply singleLine_app. split; [done |]. apply singleLine_cons.
    split; [done | by apply singleLine_stringify]. }
  destruct (splitParts_spec payload) as (parts & Hparts & Hcat & _ & Hne & _).
  assert (Hframes : map snd (chunkFrames IpcTypeFlag_InvokeStream event payload streamId)
                    = map (cons IpcTypeFlag_InvokeStream) (chunkMessages streamId parts)).
  { unfold chunkFrames. rewrite Hparts. simpl. by rewrite map_map. }
  assert (Hlines : Forall singleLine parts).
  { apply singleLine_concat. by rewrite Hcat. }
  assert (Hcached : cached streamId w = []) by (unfold cached; by rewrite Hfresh).
  destruct (nonempty_snoc parts Hne) as (init & lastPart & ->).
  rewrite Hframes, (deliverAll_chunks event (Callback f)) by (done || by right).
  rewrite Hcached, map_dotStar_singleLine, Hcat by done.
  rewrite N.eqb_refl, unbuffered_fresh by done. cbn [app].
  subst payload. rewrite splitFirst_at_first_space, dotStar_singleLine
    by (done || by apply singleLine_stringify). cbn [fst snd].
  unfold invokeListener. rewrite parseRawPayload_stringify by done.
  cbn [callFunction]. destruct (f (asPayload j)) as [v | e | outcome].
  - by rewrite runMicrotasks_suspend.
  - rewrite runMicrotasks_drained by (by apply drained_invokeListenerRest).
    unfold invokeListenerRest. by destruct (truthy e).
  - apply runMicrotasks_drained. by apply drained_suspend_later.
Qed.

End StreamedRequest.

(** * The function-based module *)

Module LegacyTheory.
Import Legacy.

(** ** The registries *)

Lemma eventHasAnythingRegistered_false event s :
  eventHasAnythingRegistered event s = false
  <-> listeners s !! event = None /\ streamListeners s !! event = None
      /\ handlers s !! event = None.
Proof.
  unfold eventHasAnythingRegistered.
  rewrite !orb_false_iff, !bool_decide_eq_false, <- !eq_None_not_Some. tauto.
Qed.


Lemma legacy_narrowed_refl s : narrowed s s.
Proof. done. Qed.























(** ** An invoke and its answer *)

Lemma canonical_handlerPayload respId payload :
  match payload with Some pl => canonical pl = true | None => True end ->
  canonical (handlerPayload respId payload) = true.
Proof.
  intros Hpl. unfold handlerPayload. cbn [canonical].
  apply andb_true_iff. split.
  - apply bool_decide_eq_true.
    destruct payload; simpl; repeat constructor; rewrite ?not_elem_of_cons;
      try apply not_elem_of_nil.
    split; [by vm_compute | apply not_elem_of_nil].
  - destruct payload; simpl; [by rewrite Hpl | done].
Qed.

Lemma field_pl respId payload :
  field (lit "pl") (handlerPayload respId payload) = payload.
Proof.
  unfold field, handlerPayload. cbn [getMember].
  rewrite bool_decide_eq_false_2 by (by vm_compute).
  destruct payload; cbn [getMember]; [| done].
  by rewrite bool_decide_eq_true_2.
Qed.

Lemma field_re respId payload :
  field (lit "re") (handlerPayload respId payload) = Some (JString respId).
Proof.
  unfold field, handlerPayload. cbn [getMember].
  by rewrite bool_decide_eq_true_2.
Qed.

(** The response id, the run and the state of an invoke that went out. *)
Lemma invokeScriptEvent_sent event namespace payload s :
  let respId := namespace ++ lit ":ipc.__hrl" ++ toStringRadix 10 (invokeCount s) in
  let request := stringify (handlerPayload respId payload) in
  let r := {| runId := nextRunId s; dueTick := currentTick s + 20;
              runCallback := Timeout respId (nextPromise s) event |} in
  (length namespace ≤ MAX_NAMESPACE_LENGTH)%nat ->
  eventHasAnythingRegistered respId s = false ->
  (length respId ≤ MAX_EVENT_ID_LENGTH)%nat ->
  (length event ≤ MAX_EVENT_ID_LENGTH)%nat ->
  (length request ≤ MAX_MESSAGE_LENGTH)%nat ->
  invokeScriptEvent event namespace payload false s
  = (nextPromise s,
     withWire (wire s ++ [(event, request)])
       (withListeners
          (<[respId := ResponseListener respId (nextRunId s) (nextPromise s)]>
             (listeners s))
          (withNextRunId (S (nextRunId s))
             (withRuns (runs s ++ [r])
                (withInvokeCount (invokeCount s + 1)
                   (withNextPromise (S (nextPromise s)) s)))))).
Proof.
  intros respId request r Hns Hfree Hrid Hev Hreq.
  unfold invokeScriptEvent.
  rewrite bool_decide_eq_false_2 by lia. cbn [negb andb].
  cbv zeta. unfold runTimeout. cbn [invokeCount withNextPromise nextRunId
    withInvokeCount currentTick runs].
  fold respId. fold r.
  unfold registerScriptEventListener.
  assert (Hfree' : forall s', listeners s' = listeners s ->
                     streamListeners s' = streamListeners s ->
                     handlers s' = handlers s ->
                     eventHasAnythingRegistered respId s' = false).
  { intros s' H1 H2 H3. unfold eventHasAnythingRegistered in *.
    by rewrite H1, H2, H3. }
  rewrite Hfree' by done.
  rewrite bool_decide_eq_false_2 by lia.
  unfold dispatchScriptEvent. cbn [negb fmap option_fmap option_map].
  rewrite bool_decide_eq_false_2 by lia.
  fold request. rewrite bool_decide_eq_false_2 by lia.
  done.
Qed.

(** [invokeScriptEvent] in the module that also holds the handler: the
    call dispatches the request; when it is delivered the handler is
    called with the payload ([undefined] included) and its result is
    dispatched to the response id; when that is delivered the promise
    is resolved with the result, the response listener is removed and
    the timeout is cleared.  Nothing reaches the host as an error. *)
Theorem invoke_resolves_with_response (event namespace : jsstring)
    (payload : option Json) (h : Handler) (response : Json) (s : State) :
  let respId := namespace ++ lit ":ipc.__hrl" ++ toStringRadix 10 (invokeCount s) in
  let request := stringify (handlerPayload respId payload) in
  let p := (invokeScriptEvent event namespace payload false s).1 in
  let s1 := (invokeScriptEvent event namespace payload false s).2 in
  handlers s !! event = Some h ->
  listeners s !! event = None -> streamListeners s !! event = None ->
  eventHasAnythingRegistered respId s = false ->
  promises s !! nextPromise s = None ->
  (length namespace ≤ MAX_NAMESPACE_LENGTH)%nat ->
  (length respId ≤ MAX_EVENT_ID_LENGTH)%nat ->
  (length event ≤ MAX_EVENT_ID_LENGTH)%nat ->
  (length request ≤ MAX_MESSAGE_LENGTH)%nat ->
  match payload with Some pl => canonical pl = true | None => True end ->
  h payload = Returns (Some response) ->
  canonical response = true ->
  (length (stringify response) ≤ MAX_MESSAGE_LENGTH)%nat ->
  wire s1 = wire s ++ [(event, request)]
  /\ exists s2 s3,
       step s1 (ScriptEvent event request) = Some s2
       /\ wire s2 = wire s1 ++ [(respId, stringify response)]
       /\ hostErrors s2 = hostErrors s
       /\ promises s2 !! p = None
       /\ step s2 (ScriptEvent respId (stringify response)) = Some s3
       /\ promises s3 !! p = Some (Resolved response)
       /\ listeners s3 !! respId = None
       /\ (forall r, r ∈ runs s3 -> r ∈ runs s /\ runId r ≠ nextRunId s)
       /\ hostErrors s3 = hostErrors s.
Proof.
  intros respId request p s1 Hh Hl Hsl Hfree Hpending Hns Hrid Hev Hreq Hcan
    Hret Hcanr Hresp.
  subst p s1.
  rewrite (invokeScriptEvent_sent event namespace payload s) by done.
  fold respId. fold request. cbn [fst snd].
  set (s1 := withWire _ _).
  assert (Hne : event ≠ respId).
  { intros ->. apply eventHasAnythingRegistered_false in Hfree as (_ & _ & Hf).
    by rewrite Hf in Hh. }
  split; [done |].
  set (s2 := dispatchScriptEventRaw respId (stringify response) s1).
  exists s2.
  set (s3 := settle (nextPromise s) (Resolved response)
               (clearRun (nextRunId s) (removeScriptEventListener respId s2).2)).
  exists s3.
  assert (Hstep1 : step s1 (ScriptEvent event request) = Some s2).
  { unfold step, onScriptEventReceive.
    assert (Hl1 : listeners s1 !! event = None).
    { subst s1. cbn [listeners withWire withListeners]. by rewrite lookup_insert_ne. }
    rewrite Hl1.
    change (handlers s1) with (handlers s). rewrite Hh.
    unfold handleRequest. subst request.
    rewrite parse_stringify by (by apply canonical_handlerPayload).
    unfold handlerPayload at 1. rewrite field_pl, Hret, field_re.
    unfold dispatchScriptEvent. cbn [negb fmap option_fmap option_map].
    rewrite !bool_decide_eq_false_2 by lia.
    fold s2. change (streamListeners s2) with (streamListeners s).
    by rewrite Hsl. }
  split; [done |]. split; [done |]. split; [done |].
  split; [subst s2 s1; exact Hpending |].
  assert (Hstep2 : step s2 (ScriptEvent respId (stringify response)) = Some s3).
  { unfold step, onScriptEventReceive.
    assert (Hl2 : listeners s2 !! respId
                  = Some (ResponseListener respId (nextRunId s) (nextPromise s))).
    { subst s2 s1. cbn [listeners dispatchScriptEventRaw withWire withListeners].
      apply lookup_insert_eq. }
    rewrite Hl2, parse_stringify by done. done. }
  split; [done |].
  assert (Hp3 : promises s3 !! nextPromise s = Some (Resolved response)).
  { subst s3. unfold settle.
    change (promises (clearRun (nextRunId s) (removeScriptEventListener respId s2).2))
      with (promises s).
    rewrite Hpending. cbn [promises withPromises]. apply lookup_insert_eq. }
  split; [done |].
  assert (Hrest : forall x, settle (nextPromise s) x
                     (clearRun (nextRunId s) (removeScriptEventListener respId s2).2)
                   = withPromises (<[nextPromise s := x]> (promises s))
                       (clearRun (nextRunId s) (removeScriptEventListener respId s2).2)).
  { intros x. unfold settle.
    change (promises (clearRun (nextRunId s) (removeScriptEventListener respId s2).2))
      with (promises s).
    by rewrite Hpending. }
  subst s3. rewrite Hrest.
  split; [| split; [| done]].
  - cbn [listeners withPromises clearRun withRuns removeScriptEventListener snd
         withListeners]. apply lookup_delete_eq.
  - intros r. cbn [runs withPromises clearRun withRuns].
    intros [Hid Hin]%list_elem_of_filter.
    change (runs (removeScriptEventListener respId s2).2)
      with (runs s ++ [{| runId := nextRunId s; dueTick := currentTick s + 20;
                          runCallback := Timeout respId (nextPromise s) event |}]) in Hin.
    apply elem_of_app in Hin as [Hin | ->%list_elem_of_singleton]; done.
Qed.

(** ** An invoke that is not answered *)







Lemma calm_refl p r s : calm p r s s.
Proof. done. Qed.
























(** ** Streams *)

Lemma splitLoop_head maxLen fuel pre lastPart :
  (0 < maxLen)%nat -> (length lastPart < fuel)%nat -> (maxLen < length lastPart)%nat ->
  exists rest,
    splitLoop maxLen fuel (pre ++ [lastPart])
    = Some (pre ++ take maxLen lastPart :: rest).
Proof.
  intros Hpos Hfuel Hlong. destruct fuel as [|fuel]; [lia |].
  simpl. rewrite last_snoc. simpl.
  rewrite bool_decide_eq_false_2 by lia.
  assert (Hins : <[(length (pre ++ [lastPart]) - 1)%nat := take maxLen lastPart]>
                   (pre ++ [lastPart]) = pre ++ [take maxLen lastPart]).
  { rewrite length_app. simpl.
    replace (length pre + 1 - 1)%nat with (length pre + 0)%nat by lia.
    by rewrite insert_app_r. }
  rewrite Hins.
  rewrite bool_decide_eq_false_2 by (rewrite length_drop; lia).
  destruct (splitLoop_spec maxLen Hpos fuel (pre ++ [take maxLen lastPart])
              (drop maxLen lastPart)) as (ps & Heq & _).
  { rewrite length_drop. lia. }
  exists ps. rewrite Heq, <- app_assoc. done.
Qed.

Lemma splitParts_head (text : jsstring) :
  (maxMessageLengthWithPadding < length text)%nat ->
  exists rest, splitParts text = Some (take maxMessageLengthWithPadding text :: rest).
Proof.
  intros Hlong. unfold splitParts.
  apply (splitLoop_head maxMessageLengthWithPadding (S (length text)) [] text);
    [rewrite maxMessageLengthWithPadding_value; lia | lia | done].
Qed.

Lemma chunkMessage_length streamId count i part :
  length (chunkMessage streamId count i part)
  = (length streamId + 3 + length part)%nat.
Proof. unfold chunkMessage. rewrite length_app. simpl. lia. Qed.

Lemma toStringRadix10_short n : n < 100 -> (length (toStringRadix 10 n) ≤ 2)%nat.
Proof.
  intros Hn. rewrite (toStringRadix_eq 10) by lia.
  destruct (N.eqb_spec (n / 10) 0); [simpl; lia |].
  rewrite length_app. simpl.
  rewrite (toStringRadix_eq 10) by lia.
  assert (Hz : n / 10 / 10 = 0).
  { rewrite N.Div0.div_div. apply N.div_small. lia. }
  rewrite Hz. simpl. lia.
Qed.

Lemma toStringRadix10_long n : 100 <= n -> (3 ≤ length (toStringRadix 10 n))%nat.
Proof.
  intros Hn. rewrite (toStringRadix_eq 10) by lia.
  assert (H1 : 10 <= n / 10) by (apply N.div_le_lower_bound; lia).
  destruct (N.eqb_spec (n / 10) 0); [lia |].
  rewrite length_app. simpl.
  rewrite (toStringRadix_eq 10 ltac:(lia) (n / 10)).
  assert (H2 : 1 <= n / 10 / 10) by (apply N.div_le_lower_bound; lia).
  destruct (N.eqb_spec (n / 10 / 10) 0); [lia |].
  rewrite length_app. simpl.
  pose proof (toStringRadix_nonempty 10 ltac:(lia) (n / 10 / 10)) as Hne.
  destruct (toStringRadix 10 (n / 10 / 10)); [done | simpl; lia].
Qed.

(** The messages [streamScriptEvent] dispatches.  Each is the stream
    id, three characters and a fragment of at most 393 characters; so
    all of them are within [MAX_MESSAGE_LENGTH] when the stream id has
    at most 32 characters, which an unforced call guarantees for the
    first hundred streams only: with a stream id of more than 32
    characters the first message of a payload whose text is longer than
    one fragment exceeds the limit, and a namespace of the maximal
    length gives such an id from the hundred and first stream on. *)
Theorem stream_messages_fit_short_stream_ids (event namespace : jsstring)
    (payload : Json) (force : bool) (count count' : N) (frames : list Frame) :
  Stream.streamScriptEvent event namespace payload force count = Some (frames, count') ->
  let streamId := namespace ++ toStringRadix 10 count in
  count' = count + 1
  /\ Forall (fun f => f.1 = event
                      /\ (length f.2 ≤ length streamId + 3
                                       + (MAX_MESSAGE_LENGTH - STREAM_MESSAGE_PADDING))%nat)
       frames
  /\ ((length streamId ≤ 32)%nat ->
      Forall (fun f => length f.2 ≤ MAX_MESSAGE_LENGTH)%nat frames)
  /\ (force = false -> count < 100 ->
      Forall (fun f => length f.2 ≤ MAX_MESSAGE_LENGTH)%nat frames)
  /\ ((32 < length streamId)%nat ->
      (MAX_MESSAGE_LENGTH - STREAM_MESSAGE_PADDING < length (stringify payload))%nat ->
      exists f rest, frames = f :: rest /\ (MAX_MESSAGE_LENGTH < length f.2)%nat)
  /\ (length namespace = MAX_NAMESPACE_LENGTH -> 100 <= count ->
      (32 < length streamId)%nat).
Proof.
  intros Hs streamId. unfold Stream.streamScriptEvent in Hs.
  destruct (negb force && bool_decide (MAX_NAMESPACE_LENGTH < length namespace)%nat)
    eqn:Hcheck; [done |].
  destruct (splitParts_spec (stringify payload)) as (parts & Hparts & Hcat & Hall & Hne & _).
  rewrite Hparts in Hs. injection Hs as <- <-. fold streamId.
  assert (Hbound : Forall (fun f : Frame => f.1 = event
                     /\ (length f.2 ≤ length streamId + 3
                           + (MAX_MESSAGE_LENGTH - STREAM_MESSAGE_PADDING))%nat)
                     (map (pair event) (chunkMessages streamId parts))).
  { apply Forall_forall. intros f (m & -> & Hm)%elem_of_map. split; [done |].
    unfold chunkMessages in Hm. apply elem_of_lookup_imap in Hm as (i & part & -> & Hi).
    cbn [snd]. rewrite chunkMessage_length.
    rewrite Forall_forall in Hall.
    pose proof (Hall part (list_elem_of_lookup_2 _ _ _ Hi)). lia. }
  assert (Hfit : (length streamId ≤ 32)%nat ->
                 Forall (fun f : Frame => length f.2 ≤ MAX_MESSAGE_LENGTH)%nat
                   (map (pair event) (chunkMessages streamId parts))).
  { intros Hid. eapply Forall_impl; [exact Hbound |].
    intros f [_ Hlen]. unfold MAX_MESSAGE_LENGTH, STREAM_MESSAGE_PADDING,
      MAX_NAMESPACE_LENGTH in *. lia. }
  split; [done |]. split; [done |]. split; [done |]. split; [| split].
  - intros -> Hcount. apply Hfit. subst streamId. rewrite length_app.
    simpl in Hcheck. apply bool_decide_eq_false in Hcheck.
    pose proof (toStringRadix10_short count Hcount).
    unfold MAX_NAMESPACE_LENGTH in Hcheck. lia.
  - intros Hid Hlong.
    destruct (splitParts_head (stringify payload) Hlong) as [rest Hhead].
    rewrite Hhead in Hparts. injection Hparts as <-.
    eexists _, _. split; [reflexivity |]. cbn [snd].
    rewrite chunkMessage_length, length_take.
    rewrite maxMessageLengthWithPadding_value.
    unfold MAX_MESSAGE_LENGTH, STREAM_MESSAGE_PADDING, MAX_NAMESPACE_LENGTH in *. lia.
  - intros Hns Hcount. subst streamId. rewrite length_app, Hns.
    pose proof (toStringRadix10_long count Hcount).
    unfold MAX_NAMESPACE_LENGTH. lia.
Qed.

Lemma withPendingStreams_same s : withPendingStreams (pendingStreams s) s = s.
Proof. by destruct s. Qed.

Lemma step_fragment event f streamId part s :
  listeners s !! event = None -> handlers s !! event = None ->
  streamListeners s !! event = Some f -> SPACE ∉ streamId ->
  step s (ScriptEvent event (chunkBody streamId FLAG_MORE part))
  = Some (withPendingStreams
            (<[streamId := default [] (pendingStreams s !! streamId) ++ dotStar part]>
               (pendingStreams s)) s).
Proof.
  intros Hl Hh Hf Hs. unfold step, onScriptEventReceive.
  rewrite Hl, Hh, Hf. unfold receiveChunk.
  rewrite splitFirst_chunk by done.
  rewrite splitFirst_flag by done. rewrite dotStar_idem.
  by rewrite bool_decide_eq_false_2 by done.
Qed.

Lemma run_fragments event f streamId (init : list jsstring) : forall s,
  listeners s !! event = None -> handlers s !! event = None ->
  streamListeners s !! event = Some f -> SPACE ∉ streamId ->
  init ≠ [] ->
  run (delivery (map (pair event) (map (chunkBody streamId FLAG_MORE) init))) s
  = Some (withPendingStreams
            (<[streamId := default [] (pendingStreams s !! streamId)
                           ++ concat (map dotStar init)]> (pendingStreams s)) s).
Proof.
  induction init as [|part init IH]; intros s Hl Hh Hf Hs Hne; [done |].
  cbn [map delivery run]. change (delivery (map (pair event) (map (chunkBody streamId FLAG_MORE) init)))
    with (delivery (map (pair event) (map (chunkBody streamId FLAG_MORE) init))).
  cbn [fst snd]. rewrite (step_fragment event f) by done. cbn [mbind option_bind].
  destruct init as [|part' init].
  - simpl. by rewrite app_nil_r.
  - fold (delivery (map (pair event) (map (chunkBody streamId FLAG_MORE) (part' :: init)))).
    rewrite IH by done. f_equal. cbn [pendingStreams withPendingStreams].
    rewrite lookup_insert_eq, insert_insert_eq. cbn [default concat map].
    unfold withPendingStreams, id. simpl. by rewrite <- app_assoc.
Qed.

Lemma step_last_fragment event f streamId part s :
  listeners s !! event = None -> handlers s !! event = None ->
  streamListeners s !! event = Some f -> SPACE ∉ streamId ->
  step s (ScriptEvent event (chunkBody streamId FLAG_END part))
  = Some (settled
            (let s1 := withPendingStreams (delete streamId (pendingStreams s)) s in
             match parse (default [] (pendingStreams s !! streamId) ++ dotStar part) with
             | None => Throws SyntaxError s1
             | Some payload =>
                 match f payload with
                 | Some e => Throws e s1
                 | None => Ok s1
                 end
             end)).
Proof.
  intros Hl Hh Hf Hs. unfold step, onScriptEventReceive.
  rewrite Hl, Hh, Hf. unfold receiveChunk.
  rewrite splitFirst_chunk by done.
  rewrite splitFirst_flag by done. rewrite dotStar_idem.
  by rewrite bool_decide_eq_true_2 by done.
Qed.

(** The frames [streamScriptEvent] dispatches for a payload without
    U+2028 and U+2029 in its strings, delivered in order to the module
    that holds a stream listener for their event id: the listener is
    called with the payload, once, when the last frame arrives, and the
    state is as before; what the listener throws reaches the host. *)
Theorem stream_reaches_stream_listener (event namespace : jsstring)
    (payload : Json) (force : bool) (f : Json -> option Value)
    (frames : list Frame) (count' : N) (s : State) :
  Stream.streamScriptEvent event namespace payload force (streamCount s)
  = Some (frames, count') ->
  streamListeners s !! event = Some f ->
  listeners s !! event = None -> handlers s !! event = None ->
  pendingStreams s !! (namespace ++ toStringRadix 10 (streamCount s)) = None ->
  SPACE ∉ namespace -> canonical payload = true -> plainText payload = true ->
  run (delivery frames) s
  = Some (match f payload with
          | Some e => withHostErrors (hostErrors s ++ [e]) s
          | None => s
          end).
Proof.
  intros Hs Hf Hl Hh Hfresh Hns Hcan Hplain.
  unfold Stream.streamScriptEvent in Hs.
  destruct (negb force && _); [done |].
  destruct (splitParts_spec (stringify payload)) as (parts & Hparts & Hcat & _ & Hne & _).
  rewrite Hparts in Hs. injection Hs as <- _.
  set (streamId := namespace ++ toStringRadix 10 (streamCount s)) in *.
  assert (Hsid : SPACE ∉ streamId).
  { apply not_elem_of_app. split; [done |]. intros Hin.
    pose proof (toStringRadix10_digits (streamCount s)) as Hd.
    rewrite Forall_forall in Hd. specialize (Hd _ Hin). by vm_compute in Hd. }
  assert (Hlines : Forall singleLine parts).
  { apply singleLine_concat. rewrite Hcat. by apply singleLine_stringify. }
  destruct (nonempty_snoc parts Hne) as (init & lastPart & ->).
  apply Forall_app in Hlines as [Hinit Hlast].
  apply Forall_cons in Hlast as [Hlast _].
  rewrite chunkMessages_snoc. unfold delivery. rewrite !map_app.
  fold (delivery (map (pair event) (map (chunkBody streamId FLAG_MORE) init))).
  cbn [map fst snd].
  assert (Hfinal : forall s0 cached,
            listeners s0 !! event = None -> handlers s0 !! event = None ->
            streamListeners s0 !! event = Some f ->
            pendingStreams s0 !! streamId = cached ->
            default [] cached ++ lastPart = stringify payload ->
            withPendingStreams (delete streamId (pendingStreams s0)) s0 = s ->
            step s0 (ScriptEvent event (chunkBody streamId FLAG_END lastPart))
            = Some (match f payload with
                    | Some e => withHostErrors (hostErrors s ++ [e]) s
                    | None => s
                    end)).
  { intros s0 cached Hl0 Hh0 Hf0 Hc Htext Hback.
    rewrite (step_last_fragment event f) by done. cbv zeta.
    rewrite Hc, dotStar_singleLine, Htext, parse_stringify, Hback by done.
    by destruct (f payload). }
  assert (Hrun : forall es1 e2 s0, run (es1 ++ [e2]) s0 = s1 ← run es1 s0; step s1 e2).
  { induction es1 as [|e es1 IH]; intros e2 s0; simpl.
    - by destruct (step s0 e2).
    - destruct (step s0 e); simpl; [apply IH | done]. }
  rewrite Hrun.
  destruct init as [|part init].
  - cbn [map delivery run mbind option_bind]. rewrite (Hfinal s None); try done.
    + rewrite <- Hcat. simpl. by rewrite app_nil_r.
    + rewrite delete_id by done. apply withPendingStreams_same.
  - rewrite (run_fragments event f) by done. cbn [mbind option_bind].
    rewrite Hfresh. cbn [default app].
    rewrite (Hfinal _ (Some (concat (map dotStar (part :: init))))); try done.
    + cbn [pendingStreams withPendingStreams]. apply lookup_insert_eq.
    + rewrite map_dotStar_singleLine by done. rewrite <- Hcat.
      rewrite concat_app. simpl. by rewrite app_nil_r.
    + cbn [pendingStreams withPendingStreams].
      rewrite delete_insert_eq, delete_id by done.
      by destruct s.
Qed.

End LegacyTheory.

(** * Worlds reached through the public methods *)

(** ** The counters are only moved by the methods that draw from them *)

Section Counters.
Context `{Common}.


Lemma counters_settle p s w : counters (settle p s w) = counters w.
Proof. unfold settle. by case_match. Qed.

Lemma counters_settleInvoke tf p payload w :
  counters (settleInvoke tf p payload w) = counters w.
Proof. unfold settleInvoke. case_match; apply counters_settle. Qed.

Lemma counters_callFunction l payload w :
  counters (callFunction l payload w).2 = counters w.
Proof.
  rewrite callFunction_closure. destruct l; [done | |].
  - by rewrite counters_settleInvoke.
  - rewrite counters_settleInvoke. by case_match.
Qed.

Lemma counters_fire r w : counters (fire r w) = counters w.
Proof. rewrite fire_unfold. case_match. by rewrite counters_settle. Qed.

Lemma counters_foldl {A} (f : World -> A -> World) (xs : list A) :
  (forall w x, counters (f w x) = counters w) ->
  forall w, counters (foldl f w xs) = counters w.
Proof.
  intros Hf. induction xs as [| x xs IH]; intros w; simpl; [done |].
  by rewrite IH, Hf.
Qed.

Lemma counters_tick w : counters (tick w) = counters w.
Proof.
  rewrite tick_unfold, counters_foldl; [done |].
  intros. apply counters_fire.
Qed.

Lemma counters_transmit k w : counters (transmit k w) = counters w.
Proof.
  destruct (transmit_cases k w) as [-> | [(job & frame & rest & _ & _ & _ & ->)
                                         | (job & frame & _ & _ & ->)]];
    [done | done |].
  cbv zeta. case_match; [| done]. rewrite runFinally_unfold. by case_match.
Qed.

Lemma counters_quiet_ids w w' :
  quiet w w' ->
  uid (router w') = uid (router w) ->
  listenerUidsGenerated (router w') = listenerUidsGenerated (router w) ->
  counters w' = counters w.
Proof.
  intros Hq Hu Hn. unfold counters.
  by rewrite Hu, Hn, (quiet_nextPromise _ _ Hq), (quiet_nextVar _ _ Hq).
Qed.


Lemma counters_sendInternal flag event payload force w :
  counters (worldOf (sendInternal flag event payload force w)) = counters w.
Proof. unfold sendInternal. by case_match. Qed.

Lemma counters_sendAuto options w :
  counters (worldOf (sendAuto options w)) = counters w.
Proof.
  unfold sendAuto. case_match; [done |]. apply counters_sendInternal.
Qed.

Lemma counters_voidSendAuto options w :
  counters (voidSendAuto options w) = counters w.
Proof.
  unfold voidSendAuto. pose proof (counters_sendAuto options w) as E.
  by destruct (sendAuto options w).
Qed.

Lemma counters_invokeListenerRest responseEvent response err w :
  counters (invokeListenerRest responseEvent response err w) = counters w.
Proof.
  unfold invokeListenerRest. case_match; [unfold warn |];
    apply counters_voidSendAuto.
Qed.

Lemma counters_resume k s w : counters (resume k s w) = counters w.
Proof.
  destruct k; simpl.
  - destruct s; apply counters_invokeListenerRest.
  - unfold callListenerRest. by repeat case_match.
Qed.

Lemma counters_resumeTask w t : counters (resumeTask w t) = counters w.
Proof. unfold resumeTask. case_match; [apply counters_resume | done]. Qed.

Lemma counters_runMicrotasks w : counters (runMicrotasks w) = counters w.
Proof.
  unfold runMicrotasks. rewrite counters_foldl; [done |].
  apply counters_resumeTask.
Qed.

Lemma counters_settleTask k w : counters (settleTask k w) = counters w.
Proof.
  unfold settleTask. repeat case_match; try done. by rewrite counters_resume.
Qed.

Lemma counters_callListener l raw w : counters (callListener l raw w) = counters w.
Proof.
  unfold callListener. case_match; [| done].
  pose proof (counters_callFunction l s w) as E.
  destruct (callFunction l s w) as [c w1]. simpl in E. by destruct c.
Qed.

Lemma counters_invokeListener l responseEvent raw w :
  counters (invokeListener l responseEvent raw w) = counters w.
Proof.
  unfold invokeListener. case_match; [| done].
  pose proof (counters_callFunction l s w) as E.
  destruct (callFunction l s w) as [c w1]. simpl in E.
  destruct c; [done | | done]. by rewrite counters_invokeListenerRest.
Qed.

Lemma counters_routeEvent id rawMsg w :
  counters (worldOf (routeEvent id rawMsg w)) = counters w.
Proof.
  unfold routeEvent.
  repeat case_match; simpl;
    rewrite ?counters_callListener, ?counters_invokeListener; done.
Qed.

Lemma counters_onScriptEventRecieved id message w :
  counters (onScriptEventRecieved id message w) = counters w.
Proof.
  unfold onScriptEventRecieved. pose proof (counters_routeEvent id message w) as E.
  by destruct (routeEvent id message w).
Qed.

Lemma counters_step w e : counters (step w e) = counters w.
Proof.
  unfold step. rewrite counters_runMicrotasks. destruct e; simpl.
  - case_match; [apply counters_onScriptEventRecieved | done].
  - apply counters_tick.
  - apply counters_transmit.
  - apply counters_settleTask.
Qed.

Lemma counters_run es : forall w, counters (run es w) = counters w.
Proof.
  induction es as [| e es IH]; intros w; [done |].
  by rewrite run_cons, IH, counters_step.
Qed.

Lemma generated_counters respId w w' :
  counters w' = counters w -> generated respId w -> generated respId w'.
Proof.
  unfold counters, generated. intros E (n & Hn & ->). simplify_eq.
  exists n. split; [congruence |]. by f_equal.
Qed.

End Counters.

(** ** Coherence is kept by the event loop *)

Section Coherent.
Context `{Common}.

Lemma coherent_mono w w' :
  (forall rid, generated rid w -> generated rid w') ->
  (nextRunId w <= nextRunId w')%nat ->
  (nextPromise w <= nextPromise w')%nat ->
  (nextVar w <= nextVar w')%nat ->
  (forall k l, listeners (router w') !! k = Some l ->
     (exists k0, listeners (router w) !! k0 = Some l) \/ ownedListener w' l) ->
  (forall r, r ∈ runs w' ->
     r ∈ runs w \/ ((runId r < nextRunId w')%nat /\ ownedCallback w' (runCallback r))) ->
  (forall var t, timeoutIdVars w' !! var = Some t ->
     timeoutIdVars w !! var = Some t \/ ((var < nextVar w')%nat /\ (t < nextRunId w')%nat)) ->
  (forall job fin, job ∈ jobs w' -> onFinally job = Some fin ->
     (exists job0, job0 ∈ jobs w /\ onFinally job0 = Some fin) \/ ownedFinally w' fin) ->
  (forall p s, promises w' !! p = Some s ->
     is_Some (promises w !! p) \/ (p < nextPromise w')%nat) ->
  coherent w -> coherent w'.
Proof.
  intros Hg Hr Hp Hv Hls Hrs Hvs Hjs Hps [Cl Cr Cv Cj Cp]. constructor.
  - intros k l Hl. destruct (Hls k l Hl) as [[k0 Hl0] | ?]; [| done].
    specialize (Cl k0 l Hl0). destruct l; simpl in *; [done | |];
      destruct Cl as (? & ? & ?); repeat split; auto; lia.
  - intros r Hin. destruct (Hrs r Hin) as [Hin0 | ?]; [| done].
    destruct (Cr r Hin0) as [? Ho]. split; [lia |].
    destruct (runCallback r); simpl in *. destruct Ho. split; auto; lia.
  - intros var t Hl. destruct (Hvs var t Hl) as [Hl0 | ?]; [| done].
    destruct (Cv var t Hl0). lia.
  - intros job fin Hin Hfin.
    destruct (Hjs job fin Hin Hfin) as [(job0 & Hin0 & Hfin0) | ?]; [| done].
    specialize (Cj job0 fin Hin0 Hfin0). destruct fin; simpl in *.
    destruct Cj as (? & ? & ?). repeat split; auto; lia.
  - intros p s Hl. destruct (Hps p s Hl) as [[s0 Hl0] | ?]; [| done].
    specialize (Cp p s0 Hl0). lia.
Qed.

(** Worlds with the same counters and the same next run id. *)
Lemma coherent_shrunk w w' :
  counters w' = counters w ->
  nextRunId w' = nextRunId w ->
  (forall k l, listeners (router w') !! k = Some l ->
     listeners (router w) !! k = Some l) ->
  (forall r, r ∈ runs w' -> r ∈ runs w) ->
  timeoutIdVars w' = timeoutIdVars w ->
  (forall job fin, job ∈ jobs w' -> onFinally job = Some fin ->
     exists job0, job0 ∈ jobs w /\ onFinally job0 = Some fin) ->
  (forall p s, promises w' !! p = Some s ->
     is_Some (promises w !! p) \/ (p < nextPromise w)%nat) ->
  coherent w -> coherent w'.
Proof.
  intros Hc Hr Hls Hrs Hvs Hjs Hps. pose proof Hc as Hc'.
  unfold counters in Hc'. injection Hc' as Hu Hn Hp Hv.
  apply coherent_mono; try lia.
  - intros rid. by apply generated_counters.
  - intros k l Hl. left. exists k. auto.
  - auto.
  - intros var t. rewrite Hvs. auto.
  - intros job fin Hin Hfin. left. eauto.
  - intros p s Hl. destruct (Hps p s Hl); [by left | right; lia].
Qed.


Lemma coherent_removeListener rid w : coherent w -> coherent (removeListener rid w).2.
Proof.
  apply coherent_shrunk; simpl; try done.
  - intros k l Hl. by apply lookup_delete_Some in Hl as [_ Hl].
  - eauto.
  - intros p s Hl. left. eauto.
Qed.

Lemma coherent_clearRun t w : coherent w -> coherent (clearRun t w).
Proof.
  apply coherent_shrunk; simpl; try done.
  - intros r Hr. by apply list_elem_of_filter in Hr as [_ Hr].
  - eauto.
  - intros p s Hl. left. eauto.
Qed.

Lemma coherent_settle p s w :
  (p < nextPromise w)%nat -> coherent w -> coherent (settle p s w).
Proof.
  intros Hp. apply coherent_shrunk.
  - apply counters_settle.
  - unfold settle. by case_match.
  - by rewrite settle_listeners.
  - by rewrite settle_runs.
  - unfold settle. by case_match.
  - unfold settle. case_match; eauto.
  - intros q s'. rewrite settle_lookup. destruct (promises w !! q) eqn:E.
    + left. eauto.
    + case_decide; [| done]. subst q. by right.
Qed.

Lemma coherent_settleInvoke tf p payload w :
  (p < nextPromise w)%nat -> coherent w -> coherent (settleInvoke tf p payload w).
Proof. unfold settleInvoke. case_match; apply coherent_settle. Qed.

Lemma coherent_callFunction l payload w :
  ownedListener w l -> coherent w -> coherent (callFunction l payload w).2.
Proof.
  intros Ho Hc. rewrite callFunction_closure. destruct l; [done | |].
  - destruct Ho as (_ & _ & Hp).
    apply coherent_settleInvoke; [done |].
    by apply coherent_clearRun, coherent_removeListener.
  - destruct Ho as (_ & _ & Hp).
    apply coherent_settleInvoke; [by case_match |].
    case_match; [apply coherent_clearRun |]; by apply coherent_removeListener.
Qed.

Lemma coherent_fire r w :
  ownedCallback w (runCallback r) -> coherent w -> coherent (fire r w).
Proof.
  intros Ho Hc. rewrite fire_unfold. destruct (runCallback r) as [rid p ev].
  destruct Ho as [_ Hp]. apply coherent_settle; [done |].
  by apply coherent_removeListener.
Qed.

Lemma ownedCallback_counters c w w' :
  counters w' = counters w -> ownedCallback w c -> ownedCallback w' c.
Proof.
  intros E. destruct c as [rid p ev]. simpl. intros [Hg Hp]. split.
  - by apply (generated_counters rid w).
  - unfold counters in E. injection E as _ _ E _. by rewrite E.
Qed.

Lemma coherent_foldl_fire (rs : list Run) : forall w,
  Forall (fun r => ownedCallback w (runCallback r)) rs ->
  coherent w -> coherent (foldl (fun w r => fire r w) w rs).
Proof.
  induction rs as [| r rs IH]; intros w Hall Hc; [done |].
  apply Forall_cons in Hall as [Hr Hall]. simpl. apply IH.
  - eapply Forall_impl; [done |]. intros r' Hr'. simpl in Hr'.
    apply (ownedCallback_counters _ w); [apply counters_fire | done].
  - by apply coherent_fire.
Qed.

Lemma coherent_tick w : coherent w -> coherent (tick w).
Proof.
  intros Hc. rewrite tick_unfold. apply coherent_foldl_fire.
  - apply Forall_forall. intros r [_ Hr]%list_elem_of_filter.
    by apply (co_runs _ Hc r) in Hr as [_ Hr].
  - revert Hc. apply coherent_shrunk; simpl; try done.
    + intros r Hr. by apply list_elem_of_filter in Hr as [_ Hr].
    + eauto.
    + intros p s Hl. left. eauto.
Qed.

Lemma coherent_runFinally fin w :
  ownedFinally w fin -> coherent w -> coherent (runFinally fin w).
Proof.
  intros Ho. rewrite runFinally_unfold. destruct fin as [var rid p ev].
  destruct Ho as (Hg & Hv & Hp).
  apply coherent_mono; simpl; try done; try lia.
  - intros k l Hl. left. eauto.
  - intros r [Hr | Hr%list_elem_of_singleton]%elem_of_app; [by left | right].
    subst r. simpl. split; [lia | done].
  - intros var' t. destruct (decide (var' = var)) as [-> |].
    + rewrite lookup_insert_eq. intros [= <-]. right. lia.
    + rewrite lookup_insert_ne by done. by left.
  - intros job fin Hin Hfin. left. eauto.
  - intros q s Hl. left. eauto.
Qed.

Lemma coherent_transmit k w : coherent w -> coherent (transmit k w).
Proof.
  intros Hc.
  destruct (transmit_cases k w) as [-> | [(job & frame & rest & Hk & _ & _ & ->)
                                         | (job & frame & Hk & _ & ->)]];
    [done | |].
  - revert Hc. apply coherent_shrunk; simpl; try done.
    + intros j fin [-> | Hin]%elem_of_list_insert_inv Hfin; [| by eauto].
      exists job. split; [by eapply list_elem_of_lookup_2 | done].
    + intros p s Hl. left. eauto.
  - cbv zeta.
    assert (Hc2 : coherent
                    (withJobs (<[k := {| pendingFrames := []; onFinally := None |}]>
                                 (jobs w))
                       (withWire (wire w ++ [frame]) w))).
    { revert Hc. apply coherent_shrunk; simpl; try done.
      - intros j fin [-> | Hin]%elem_of_list_insert_inv Hfin; [done | by eauto].
      - intros p s Hl. left. eauto. }
    destruct (onFinally job) as [fin |] eqn:Hfin; [| done].
    apply coherent_runFinally; [| done].
    pose proof (co_jobs _ Hc job fin ltac:(by eapply list_elem_of_lookup_2) Hfin)
      as Ho.
    by destruct fin.
Qed.

Lemma coherent_quiet w w' :
  quiet w w' -> counters w' = counters w -> coherent w -> coherent w'.
Proof.
  intros [Hl Hr Hnr Hp Hnp Hv Hnv Ht Hs Hj] Hc.
  apply coherent_shrunk; try done.
  - by rewrite Hl.
  - by rewrite Hr.
  - destruct Hj as (new & -> & Hnew).
    intros job fin [Hin | Hin]%elem_of_app Hfin; [by eauto |].
    rewrite Forall_forall in Hnew. rewrite (Hnew job Hin) in Hfin. done.
  - intros p s. rewrite Hp. left. eauto.
Qed.

Lemma coherent_step w e : coherent w -> coherent (step w e).
Proof.
  intros Hc. destruct (step_effect w e) as (w1 & Heff & Hq).
  assert (Hc1 : coherent w1 /\ counters w1 = counters w).
  { destruct e; simpl in Heff.
    - destruct Heff as [-> | (l & payload & Hl & ->)]; [done |].
      split; [| apply counters_callFunction].
      apply coherent_callFunction; [| done]. by apply (co_listeners _ Hc id).
    - subst w1. split; [by apply coherent_tick | apply counters_tick].
    - subst w1. split; [by apply coherent_transmit | apply counters_transmit].
    - by subst w1. }
  destruct Hc1 as [Hc1 E].
  apply (coherent_quiet w1); [done | | done].
  by rewrite counters_step, E.
Qed.

Lemma coherent_run es : forall w, coherent w -> coherent (run es w).
Proof.
  induction es as [| e es IH]; intros w Hc; [done |].
  rewrite run_cons. by apply IH, coherent_step.
Qed.

End Coherent.

(** ** Coherence is kept by the public methods *)

Section Calls.
Context `{Common}.

Lemma generated_generateListenerUid rid w :
  generated rid w -> generated rid (generateListenerUid w).2.
Proof. intros (n & Hn & ->). exists n. simpl. split; [lia | done]. Qed.

Lemma generated_next w :
  generated (generateListenerUid w).1 (generateListenerUid w).2.
Proof. exists (listenerUidsGenerated (router w)). simpl. split; [lia | done]. Qed.

Lemma generated_fresh w : ~ generated (generateListenerUid w).1 w.
Proof.
  intros (n & Hn & E). rewrite generateListenerUid_fst in E.
  apply app_inv_head, app_inv_head in E.
  apply toStringRadix_inj in E; lia.
Qed.

Lemma coherent_generateListenerUid w :
  coherent w -> coherent (generateListenerUid w).2.
Proof.
  apply coherent_mono; [intros rid; apply generated_generateListenerUid | ..]; simpl; try done.
  - intros k l Hl. left. eauto.
  - auto.
  - auto.
  - intros job fin Hin Hfin. left. eauto.
  - intros p s Hl. left. eauto.
Qed.

Lemma coherent_generateStreamUid w :
  coherent w -> coherent (generateStreamUid w).2.
Proof.
  apply coherent_shrunk; simpl; try done.
  - eauto.
  - intros p s Hl. left. eauto.
Qed.

Lemma generated_generateStreamUid rid w :
  generated rid w -> generated rid (generateStreamUid w).2.
Proof. done. Qed.

Lemma coherent_sendInternal flag event payload force w :
  coherent w -> coherent (worldOf (sendInternal flag event payload force w)).
Proof.
  apply coherent_quiet; [apply quiet_sendInternal | apply counters_sendInternal].
Qed.

Lemma coherent_sendStreamInternal flag event payload streamId force w :
  coherent w ->
  coherent (sendStreamInternal flag event payload streamId force None w).
Proof.
  apply coherent_shrunk; simpl; try done.
  - intros job fin [Hin | ->%list_elem_of_singleton]%elem_of_app Hfin; [by eauto | done].
  - intros p s Hl. left. eauto.
Qed.

Lemma coherent_invokeInternal options respId w :
  generated respId w -> coherent w ->
  coherent (invokeInternal options respId w).2.
Proof.
  intros Hg Hc.
  set (p := nextPromise w). set (t := nextRunId w).
  set (w2 :=
    setListener respId (InvokeResponse respId t (ii_throwFailures options) p)
      (withNextRunId (S t)
         (withRuns (runs w ++ [{| runId := t; dueTick := currentTick w + 20;
                                  runCallback :=
                                    InvokeTimeout respId p (ii_event options) |}])
            (withNextPromise (S p) w)))).
  assert (Hc2 : coherent w2).
  { revert Hc. apply coherent_mono; simpl; try done; try lia.
    - intros k l. destruct (decide (k = respId)) as [-> |].
      + rewrite lookup_insert_eq. intros [= <-]. right. simpl.
        repeat split; [done | lia | lia].
      + rewrite lookup_insert_ne by done. left. eauto.
    - intros r [Hr | ->%list_elem_of_singleton]%elem_of_app; [by left | right].
      simpl. repeat split; [lia | done | lia].
    - auto.
    - intros job fin Hin Hfin. left. eauto.
    - intros q s Hl. left. eauto. }
  destruct (invokeInternal_cases options respId w) as [-> | [e ->]].
  - revert Hc2. apply coherent_shrunk; simpl; try done.
    + eauto.
    + intros q s Hl. left. eauto.
  - apply coherent_settle; [simpl; lia | done].
Qed.

Lemma coherent_invokeStreamInternal options respId streamId w :
  generated respId w -> coherent w ->
  coherent (invokeStreamInternal options respId streamId w).2.
Proof.
  intros Hg. apply coherent_mono; simpl; try done; try lia.
  - intros k l. destruct (decide (k = respId)) as [-> |].
    + rewrite lookup_insert_eq. intros [= <-]. right. simpl.
      repeat split; [done | lia | lia].
    + rewrite lookup_insert_ne by done. left. eauto.
  - auto.
  - auto.
  - intros job fin [Hin | ->%list_elem_of_singleton]%elem_of_app Hfin.
    + left. eauto.
    + right. simpl in Hfin. injection Hfin as <-. simpl.
      repeat split; [done | lia | lia].
  - intros q s Hl. left. eauto.
Qed.

Lemma invoke_unfold options w :
  invoke options w
  = invokeInternal (internalOptions options)
      (generateListenerUid w).1 (generateListenerUid w).2.
Proof. reflexivity. Qed.

Lemma invokeStream_unfold options w :
  invokeStream options w
  = invokeStreamInternal (internalOptions options)
      (generateListenerUid w).1
      (generateStreamUid (generateListenerUid w).2).1
      (generateStreamUid (generateListenerUid w).2).2.
Proof. reflexivity. Qed.

Lemma invokeAuto_unfold options w :
  invokeAuto options w
  = if bool_decide (MAX_MESSAGE_LENGTH
                    < length (serialize (io_payload options))
                      + length (generateListenerUid w).1 + 1)%nat
    then invokeStreamInternal (internalOptions options)
           (generateListenerUid w).1
           (generateStreamUid (generateListenerUid w).2).1
           (generateStreamUid (generateListenerUid w).2).2
    else invokeInternal (internalOptions options)
           (generateListenerUid w).1 (generateListenerUid w).2.
Proof. reflexivity. Qed.

Lemma coherent_call c w : coherent w -> coherent (call c w).
Proof.
  intros Hc. destruct c; cbn [call].
  - unfold registerListener. case_match; [done |]. case_match; [done |].
    simpl. revert Hc. apply coherent_mono; simpl; try done.
    + intros k l. destruct (decide (k = event)) as [-> |].
      * rewrite lookup_insert_eq. intros [= <-]. by right.
      * rewrite lookup_insert_ne by done. left. eauto.
    + auto.
    + auto.
    + intros job fin Hin Hfin. left. eauto.
    + intros q s Hl. left. eauto.
  - by apply coherent_removeListener.
  - by apply coherent_sendInternal.
  - unfold sendStream, sendStream_js.
    by apply coherent_sendStreamInternal, coherent_generateStreamUid.
  - revert Hc. apply coherent_quiet; [apply quiet_sendAuto | apply counters_sendAuto].
  - rewrite invoke_unfold.
    apply coherent_invokeInternal;
      [apply generated_next | by apply coherent_generateListenerUid].
  - rewrite invokeStream_unfold.
    apply coherent_invokeStreamInternal;
      [apply generated_generateStreamUid, generated_next
      | by apply coherent_generateStreamUid, coherent_generateListenerUid].
  - rewrite invokeAuto_unfold. case_match.
    + apply coherent_invokeStreamInternal;
      [apply generated_generateStreamUid, generated_next
      | by apply coherent_generateStreamUid, coherent_generateListenerUid].
    + apply coherent_invokeInternal;
      [apply generated_next | by apply coherent_generateListenerUid].
  - revert Hc. apply coherent_shrunk; simpl; try done.
    + eauto.
    + intros q s Hl. left. eauto.
Qed.

Lemma coherent_history actions : forall w,
  coherent w -> coherent (history actions w).
Proof.
  induction actions as [| a actions IH]; intros w Hc; [done |].
  simpl. apply IH. destruct a; [by apply coherent_call | by apply coherent_step].
Qed.

Lemma coherent_newRouter uid w : newRouter uid = inr w -> coherent w.
Proof.
  unfold newRouter. case_match; [done |]. intros [= <-].
  constructor; simpl; intros *; try by rewrite lookup_empty.
  - by intros ?%elem_of_nil.
  - by intros ?%elem_of_nil.
Qed.

(** In a coherent world nothing refers to an id that has not been
    generated. *)
Lemma coherent_unused respId w :
  coherent w -> ~ generated respId w -> unused respId w.
Proof.
  intros [Cl Cr Cv Cj Cp] Hg. constructor.
  - intros k l Hl _. specialize (Cl k l Hl).
    destruct l as [f | rid t tf p | rid var tf p]; simpl in *.
    + split; [done | tauto].
    + destruct Cl as (Hg' & Ht & Hp). split; [split; [congruence | lia] | lia].
    + destruct Cl as (Hg' & Ht & Hp). split; [split; [congruence | lia] | tauto].
  - intros r Hr. destruct (Cr r Hr) as [Hid Ho]. split; [done |].
    destruct (runCallback r) as [rid p ev]. simpl in *. destruct Ho. split; [congruence | lia].
  - intros var Hl. apply Cv in Hl. lia.
  - destruct (timeoutIdVars w !! nextVar w) eqn:E; [| done]. apply Cv in E. lia.
  - intros job fin Hin Hfin. specialize (Cj job fin Hin Hfin).
    destruct fin as [var rid p ev]. simpl in *. destruct Cj as (? & ? & ?).
    split; [split; [congruence | lia] | lia].
  - destruct (promises w !! nextPromise w) eqn:E; [| done]. apply Cp in E. lia.
Qed.

End Calls.

(** ** Concurrent invokes *)

Section Concurrent.
Context `{Common}.

Lemma unused_generateStreamUid respId w :
  unused respId w -> unused respId (generateStreamUid w).2.
Proof. by intros []. Qed.

Lemma unused_next w :
  coherent w -> unused (generateListenerUid w).1 (generateListenerUid w).2.
Proof.
  intros Hc. apply unused_generateListenerUid, coherent_unused; [done |].
  apply generated_fresh.
Qed.

Lemma invokeInternal_nextPromise options respId w :
  nextPromise (invokeInternal options respId w).2 = S (nextPromise w).
Proof.
  destruct (invokeInternal_cases options respId w) as [-> | [e ->]]; [done |].
  unfold settle. by case_match.
Qed.

Lemma generated_invokeInternal rid options respId w :
  generated rid w -> generated rid (invokeInternal options respId w).2.
Proof.
  destruct (invokeInternal_cases options respId w) as [-> | [e ->]]; [done |].
  unfold settle. by case_match.
Qed.

Lemma awaiting_settle respId p l p' s w :
  p' ≠ p -> awaiting respId p l w -> awaiting respId p l (settle p' s w).
Proof.
  intros Hp [Hl Hpend Hf]. constructor.
  - by rewrite settle_listeners.
  - by rewrite settle_lookup_ne.
  - intros k l'. rewrite settle_listeners. apply Hf.
Qed.

(** An invoke that waits is not disturbed by the call of another one. *)
Lemma waiting_invokeInternal respId t p event due l options respId' w :
  respId' ≠ respId -> nextPromise w ≠ p ->
  awaiting respId p l w -> armed respId t p event due w ->
  awaiting respId p l (invokeInternal options respId' w).2
  /\ armed respId t p event due (invokeInternal options respId' w).2.
Proof.
  intros Hid Hp Haw Har.
  set (p' := nextPromise w). set (t' := nextRunId w).
  set (w2 :=
    setListener respId' (InvokeResponse respId' t' (ii_throwFailures options) p')
      (withNextRunId (S t')
         (withRuns (runs w ++ [{| runId := t'; dueTick := currentTick w + 20;
                                  runCallback :=
                                    InvokeTimeout respId' p' (ii_event options) |}])
            (withNextPromise (S p') w)))).
  assert (Haw2 : awaiting respId p l w2).
  { destruct Haw as [Hl Hpend Hf]. constructor; simpl.
    - by rewrite lookup_insert_ne.
    - done.
    - intros k l'. destruct (decide (k = respId')) as [-> |].
      + rewrite lookup_insert_eq. by intros [= <-] _.
      + rewrite lookup_insert_ne by done. apply Hf. }
  assert (Har2 : armed respId t p event due w2).
  { destruct Har as [Hrun Huniq Hruns Hfresh Hls Hvars Hjobs].
    constructor; simpl.
    - apply elem_of_app. by left.
    - intros r [Hr | ->%list_elem_of_singleton]%elem_of_app; [by apply Huniq |].
      simpl. subst t'. lia.
    - intros r [Hr | ->%list_elem_of_singleton]%elem_of_app; [by apply Hruns |].
      by intros _.
    - lia.
    - intros k l'. destruct (decide (k = respId')) as [-> |].
      + rewrite lookup_insert_eq. intros [= <-] _. simpl. subst t'. lia.
      + rewrite lookup_insert_ne by done. apply Hls.
    - done.
    - done. }
  destruct (invokeInternal_cases options respId' w) as [-> | [e ->]]; fold p' t' w2.
  - split.
    + by apply (awaiting_same _ _ _ w2).
    + apply (armed_quiet _ _ _ _ _ w2); [quiet_tac | done].
  - split.
    + by apply awaiting_settle.
    + apply (armed_narrowed _ _ _ _ _ w2); [apply settle_narrowed | done].
Qed.


(** Whatever the application has called on a router and the host has
    delivered since [new Router(uid)]: the response id the next
    [invoke], [invokeStream] or [invokeAuto] draws has not been handed
    out before, and once it is drawn (and a stream id with it) nothing
    in the world refers to it, to the promise, to the run or to the
    [timeoutId] variable the invoke is about to create: no response
    closure, no scheduled timeout, no [finally] callback of a stream
    in transmission, no settled promise. *)
Theorem next_invoke_on_its_own (uid : jsstring) (w0 : World) (actions : list Action) :
  newRouter uid = inr w0 ->
  let w := history actions w0 in
  let respId := (generateListenerUid w).1 in
  ~ generated respId w
  /\ unused respId (generateListenerUid w).2
  /\ unused respId (generateStreamUid (generateListenerUid w).2).2.
Proof.
  intros Hnew w respId.
  assert (Hc : coherent w) by (by eapply coherent_history, coherent_newRouter).
  split; [apply generated_fresh |].
  split; [| apply unused_generateStreamUid]; by apply unused_next.
Qed.

Lemma response_then_rest respId t p tf event due text payload w :
  awaiting respId p (InvokeResponse respId t tf p) w ->
  armed respId t p event due w ->
  subscribed w = true ->
  parseRawPayload (Some text) = Some payload ->
  forall es,
    promises (run (ScriptEvent respId (IpcTypeFlag_Send :: text) :: es) w) !! p
    = Some (responseOutcome tf payload).
Proof.
  intros Haw Har Hsub Hparse es.
  destruct (response_settles respId t p tf event due text payload w
              Haw Har Hsub Hparse) as (Hp & _ & _).
  rewrite run_cons. by apply (later_run es).
Qed.

Lemma waiting_other_response respId t p event due l id message w :
  id ≠ respId ->
  awaiting respId p l w -> armed respId t p event due w ->
  awaiting respId p l (step w (ScriptEvent id message))
  /\ armed respId t p event due (step w (ScriptEvent id message)).
Proof.
  intros Hid Haw Har. split.
  - by apply awaiting_step.
  - by apply armed_step.
Qed.

(** Two invokes of one router, the second called while the first
    waits, after any history of calls and host events.  When both
    frames went out (the promises are pending after the calls), the
    two response ids differ and so do the promises.  If both responses
    arrive within twenty ticks of the first call, each promise settles
    with the payload addressed to its own response id, whichever
    response comes first.  If only the second is answered, the first
    times out on the twentieth tick after its call and the second
    keeps its result. *)
Theorem concurrent_invokes_settle_independently
    (uid : jsstring) (w0 : World) (actions : list Action)
    (options1 options2 : InvokeOptions) (between es : list Event) :
  newRouter uid = inr w0 ->
  let w := history actions w0 in
  let id1 := (generateListenerUid w).1 in
  let p1 := (invoke options1 w).1 in
  let w1 := run between (invoke options1 w).2 in
  let id2 := (generateListenerUid w1).1 in
  let p2 := (invoke options2 w1).1 in
  let w2 := run es (invoke options2 w1).2 in
  subscribed w = true ->
  promises (invoke options1 w).2 !! p1 = None ->
  promises (invoke options2 w1).2 !! p2 = None ->
  silent id1 between -> silent id1 es -> silent id2 es ->
  (ticks between + ticks es < 20)%nat ->
  id1 ≠ id2 /\ p1 ≠ p2
  /\ forall text1 text2 payload1 payload2,
       parseRawPayload (Some text1) = Some payload1 ->
       parseRawPayload (Some text2) = Some payload2 ->
       let response1 := ScriptEvent id1 (IpcTypeFlag_Send :: text1) in
       let response2 := ScriptEvent id2 (IpcTypeFlag_Send :: text2) in
       let outcome1 := responseOutcome (io_throwFailures options1) payload1 in
       let outcome2 := responseOutcome (io_throwFailures options2) payload2 in
       (promises (run [response1; response2] w2) !! p1 = Some outcome1
        /\ promises (run [response1; response2] w2) !! p2 = Some outcome2)
       /\ (promises (run [response2; response1] w2) !! p1 = Some outcome1
           /\ promises (run [response2; response1] w2) !! p2 = Some outcome2)
       /\ (forall es', silent id1 es' ->
             (20 <= ticks between + ticks es + ticks es')%nat ->
             promises (run (response2 :: es') w2) !! p1
               = Some (Rejected (timedOut (io_event options1)))
             /\ promises (run (response2 :: es') w2) !! p2 = Some outcome2).
Proof.
  intros Hnew w id1 p1 w1 id2 p2 w2 Hsub Hpend1 Hpend2 Hsb Hs1 Hs2 Hticks.
  assert (Hc : coherent w) by (by eapply coherent_history, coherent_newRouter).
  set (wa := (generateListenerUid w).2).
  set (wi1 := (invoke options1 w).2) in *.
  assert (Ep1 : p1 = nextPromise w)
    by apply (invokeInternal_promise (internalOptions options1) id1 wa).
  clearbody p1. subst p1. set (p1 := nextPromise w) in *.
  destruct (invokeInternal_establishes (internalOptions options1) id1 wa
              ltac:(by apply unused_next) Hpend1)
    as (Haw1 & Har1 & Htick1 & Hsub1).
  change (invokeInternal (internalOptions options1) id1 wa).2 with wi1
    in Haw1, Har1, Htick1, Hsub1.
  change (nextPromise wa) with p1 in Haw1, Har1.
  change (currentTick wa) with (currentTick w) in Har1, Htick1.
  set (t1 := nextRunId wa) in *.
  set (due1 := (currentTick w + 20)%nat) in *.
  destruct (pending_run id1 t1 p1 _ due1 _ between wi1 Haw1 Har1 Hsb
              ltac:(subst due1; lia)) as [Haw1b Har1b].
  fold w1 in Haw1b, Har1b.
  assert (Hc1 : coherent w1).
  { apply coherent_run. by apply (coherent_call (Invoke options1)). }
  assert (Hids : id1 ≠ id2).
  { intros E. apply (generated_fresh w1). fold id2. rewrite <- E.
    apply (generated_counters id1 wi1); [apply counters_run |].
    apply (generated_invokeInternal id1 (internalOptions options1) id1 wa).
    apply generated_next. }
  assert (Enp : nextPromise w1 = S p1).
  { pose proof (counters_run between wi1) as E. fold w1 in E.
    unfold counters in E. injection E as _ _ -> _.
    apply (invokeInternal_nextPromise (internalOptions options1) id1 wa). }
  assert (Ep2 : p2 = nextPromise w1)
    by apply (invokeInternal_promise (internalOptions options2) id2
                (generateListenerUid w1).2).
  clearbody p2. subst p2. set (p2 := nextPromise w1) in *.
  set (wb := (generateListenerUid w1).2).
  set (wi2 := (invoke options2 w1).2) in *.
  destruct (invokeInternal_establishes (internalOptions options2) id2 wb
              ltac:(by apply unused_next) Hpend2)
    as (Haw2 & Har2 & Htick2 & Hsub2).
  change (invokeInternal (internalOptions options2) id2 wb).2 with wi2
    in Haw2, Har2, Htick2, Hsub2.
  change (nextPromise wb) with p2 in Haw2, Har2.
  change (currentTick wb) with (currentTick w1) in Har2, Htick2.
  change (subscribed wb) with (subscribed w1) in Hsub2.
  set (t2 := nextRunId wb) in *.
  set (due2 := (currentTick w1 + 20)%nat) in *.
  destruct (waiting_invokeInternal id1 t1 p1 (io_event options1) due1
              (InvokeResponse id1 t1 (io_throwFailures options1) p1)
              (internalOptions options2) id2 wb) as [Haw1c Har1c].
  { done. }
  { change (nextPromise wb) with (nextPromise w1). lia. }
  { by apply (awaiting_same _ _ _ w1). }
  { apply (armed_quiet _ _ _ _ _ w1); [quiet_tac | done]. }
  change (invokeInternal (internalOptions options2) id2 wb).2 with wi2
    in Haw1c, Har1c.
  assert (Et1 : currentTick w1 = (currentTick w + ticks between)%nat).
  { unfold w1. by rewrite run_tick, Htick1. }
  assert (Esub : subscribed w2 = true).
  { unfold w2. rewrite run_subscribed, Hsub2. unfold w1.
    by rewrite run_subscribed, Hsub1. }
  destruct (pending_run id1 t1 p1 _ due1 _ es wi2 Haw1c Har1c Hs1
              ltac:(subst due1; lia)) as [Haw1d Har1d].
  destruct (pending_run id2 t2 p2 _ due2 _ es wi2 Haw2 Har2 Hs2
              ltac:(subst due2; lia)) as [Haw2d Har2d].
  fold w2 in Haw1d, Har1d, Haw2d, Har2d.
  assert (Et2 : currentTick w2 = (currentTick w + ticks between + ticks es)%nat).
  { unfold w2. rewrite run_tick. lia. }
  split; [done |]. split; [lia |].
  intros text1 text2 payload1 payload2 Hparse1 Hparse2
    response1 response2 outcome1 outcome2.
  destruct (waiting_other_response id1 t1 p1 _ due1 _ id2
              (IpcTypeFlag_Send :: text2) w2 ltac:(done) Haw1d Har1d)
    as [Haw1e Har1e].
  destruct (waiting_other_response id2 t2 p2 _ due2 _ id1
              (IpcTypeFlag_Send :: text1) w2 ltac:(done) Haw2d Har2d)
    as [Haw2e Har2e].
  assert (Esub' : forall e, subscribed (step w2 e) = true).
  { intros e. by rewrite step_subscribed. }
  split; [| split].
  - split.
    + by apply (response_then_rest id1 t1 p1 _ _ due1 text1 payload1 w2 Haw1d Har1d).
    + rewrite run_cons.
      by apply (response_then_rest id2 t2 p2 _ _ due2 text2 payload2 _ Haw2e Har2e).
  - split.
    + rewrite run_cons.
      by apply (response_then_rest id1 t1 p1 _ _ due1 text1 payload1 _ Haw1e Har1e).
    + by apply (response_then_rest id2 t2 p2 _ _ due2 text2 payload2 w2 Haw2d Har2d).
  - intros es' Hs' Hticks'. split.
    + rewrite run_cons. fold response2 in Haw1e, Har1e.
      set (w3 := step w2 response2) in *.
      destruct (ticks_split (19 - (ticks between + ticks es)) es' ltac:(lia))
        as (es1 & es2 & -> & Hn).
      apply silent_app in Hs' as [Hs1' Hs2'].
      assert (Et3 : currentTick w3 = currentTick w2).
      { unfold w3. rewrite step_tick. simpl. lia. }
      destruct (pending_run id1 t1 p1 _ due1 _ es1 w3 Haw1e Har1e Hs1'
                  ltac:(subst due1; lia)) as [Haw1f Har1f].
      destruct (armed_timeout id1 t1 p1 _ due1 (run es1 w3) Har1f
                  (aw_pending _ _ _ _ Haw1f)) as [Hrejected _].
      { rewrite run_tick. subst due1. lia. }
      rewrite run_app, run_cons. by apply (later_run es2).
    + by apply (response_then_rest id2 t2 p2 _ _ due2 text2 payload2 w2 Haw2d Har2d).
Qed.

End Concurrent.

(** * The earlier router *)

Module SyncTheory.
Import Sync.

Section Routing.
Context `{Common}.


Lemma sync_routeEvent_Invoke id listener message w :
  flagsDistinct ->
  listeners (router w) !! id = Some listener ->
  routeEvent id (IpcTypeFlag_Invoke :: message) w
  = invokeListener listener (splitFirst message).1 (splitFirst message).2 w.
Proof.
  intros (Hsi & _)%flagsDistinct_ne Hl. unfold routeEvent. rewrite Hl.
  destruct (N.eqb_spec IpcTypeFlag_Invoke IpcTypeFlag_Send); [congruence |].
  rewrite N.eqb_refl. by destruct (splitFirst message).
Qed.

Lemma sync_routeEvent_chunk_more id listener flag streamId part w :
  flagsDistinct -> isStreamFlag flag ->
  listeners (router w) !! id = Some listener ->
  SPACE ∉ streamId ->
  routeEvent id (flag :: chunkBody streamId FLAG_MORE part) w
  = Ok (withRouter
          (withPendingStreams
             (insert streamId
                (default [] (pendingStreams (router w) !! streamId) ++ dotStar part)))
          w).
Proof.
  intros Hd Hf Hl Hs. unfold routeEvent. rewrite Hl.
  destruct (streamFlag_tests flag Hd Hf) as (-> & -> & ->).
  rewrite splitFirst_chunk by done.
  rewrite splitFirst_flag by done. rewrite dotStar_idem.
  by rewrite bool_decide_eq_false_2 by done.
Qed.

Lemma sync_routeEvent_chunk_end id listener flag streamId part w :
  flagsDistinct -> isStreamFlag flag ->
  listeners (router w) !! id = Some listener ->
  SPACE ∉ streamId ->
  let fullContent :=
    default [] (pendingStreams (router w) !! streamId) ++ dotStar part in
  let w1 := withRouter (withPendingStreams (delete streamId)) w in
  routeEvent id (flag :: chunkBody streamId FLAG_END part) w
  = if flag =? IpcTypeFlag_InvokeStream
    then invokeListener listener (splitFirst fullContent).1
           (splitFirst fullContent).2 w1
    else callListener listener (Some fullContent) w1.
Proof.
  intros Hd Hf Hl Hs. unfold routeEvent. rewrite Hl.
  destruct (streamFlag_tests flag Hd Hf) as (-> & -> & ->).
  rewrite splitFirst_chunk by done.
  rewrite splitFirst_flag by done. rewrite dotStar_idem.
  rewrite bool_decide_eq_true_2 by done. cbv zeta. simpl.
  case_match; [| done]. by destruct (splitFirst _).
Qed.


Lemma sync_receive_fragment id listener flag streamId part w :
  flagsDistinct -> isStreamFlag flag -> SPACE ∉ streamId ->
  subscribed w = true -> listeners (router w) !! id = Some listener ->
  receive w (id, flag :: chunkBody streamId FLAG_MORE part)
  = withRouter
      (withPendingStreams
         (insert streamId
            (default [] (pendingStreams (router w) !! streamId) ++ dotStar part)))
      w.
Proof.
  intros Hd Hf Hs Hsub Hl. unfold receive, onScriptEventRecieved.
  rewrite Hsub. cbn [fst snd].
  by rewrite (sync_routeEvent_chunk_more id listener).
Qed.

Lemma sync_deliver_cons f fs w : deliver (f :: fs) w = deliver fs (receive w f).
Proof. reflexivity. Qed.

Lemma sync_deliver_fragments id listener flag streamId (init : list jsstring) :
  flagsDistinct -> isStreamFlag flag -> SPACE ∉ streamId ->
  forall w,
    subscribed w = true -> listeners (router w) !! id = Some listener ->
    init ≠ [] ->
    deliver (map (fun p => (id, flag :: chunkBody streamId FLAG_MORE p)) init) w
    = withRouter
        (withPendingStreams
           (insert streamId
              (default [] (pendingStreams (router w) !! streamId)
               ++ concat (map dotStar init))))
        w.
Proof.
  intros Hd Hf Hs. induction init as [| part init IH]; intros w Hsub Hl Hne; [done |].
  rewrite map_cons, sync_deliver_cons.
  rewrite (sync_receive_fragment id listener) by done.
  destruct init as [| part' init].
  - simpl. by rewrite app_nil_r.
  - rewrite IH by done. destruct w as [[u v ps ls n] sub wi st wa rj he].
    unfold withRouter, withPendingStreams. simpl. do 2 f_equal.
    rewrite lookup_insert_eq, insert_insert_eq. simpl. by rewrite <- app_assoc.
Qed.

Lemma sync_unbuffer streamId content w :
  pendingStreams (router w) !! streamId = None ->
  withRouter (withPendingStreams (delete streamId))
    (withRouter (withPendingStreams (insert streamId content)) w)
  = w.
Proof.
  intros Hp. destruct w as [[u v ps ls n] sub wi st wa rj he].
  unfold withRouter, withPendingStreams. simpl in *. do 2 f_equal.
  by rewrite delete_insert_eq, delete_id.
Qed.

Lemma sync_unbuffer_none streamId w :
  pendingStreams (router w) !! streamId = None ->
  withRouter (withPendingStreams (delete streamId)) w = w.
Proof.
  intros Hp. destruct w as [[u v ps ls n] sub wi st wa rj he].
  unfold withRouter, withPendingStreams. simpl in *. do 2 f_equal.
  by rewrite delete_id.
Qed.

(** The chunk frames of a text without line terminator, delivered in
    order: the listener is reached once, by the last frame, with the
    whole text, in the world as it was before the first frame. *)
Lemma sync_deliver_chunkFrames id listener flag text streamId w :
  flagsDistinct -> isStreamFlag flag -> SPACE ∉ streamId ->
  subscribed w = true -> listeners (router w) !! id = Some listener ->
  pendingStreams (router w) !! streamId = None ->
  singleLine text ->
  deliver (chunkFrames flag id text streamId) w
  = toHost (if flag =? IpcTypeFlag_InvokeStream
            then invokeListener listener (splitFirst text).1 (splitFirst text).2 w
            else callListener listener (Some text) w).
Proof.
  intros Hd Hf Hs Hsub Hl Hp Hline.
  destruct (splitParts_spec text) as (parts & Hparts & Hcat & _ & Hne & _).
  destruct (nonempty_snoc parts Hne) as (init & lastPart & ->).
  rewrite (chunkFrames_snoc _ _ _ _ init lastPart) by done.
  assert (Hlines : Forall singleLine (init ++ [lastPart])).
  { apply singleLine_concat. by rewrite Hcat. }
  apply Forall_app in Hlines as [Hinit Hlast].
  apply Forall_cons in Hlast as [Hlast _].
  unfold deliver. rewrite foldl_app. cbn [foldl].
  fold (deliver (map (fun p => (id, flag :: chunkBody streamId FLAG_MORE p)) init) w).
  rewrite concat_app in Hcat. simpl in Hcat. rewrite app_nil_r in Hcat.
  destruct init as [| part init].
  - cbn [map deliver foldl]. unfold receive, onScriptEventRecieved.
    rewrite Hsub. cbn [fst snd].
    rewrite (sync_routeEvent_chunk_end id listener) by done. cbv zeta.
    rewrite Hp, sync_unbuffer_none, dotStar_singleLine by done.
    simpl in Hcat. simpl. by rewrite Hcat.
  - rewrite (sync_deliver_fragments id listener) by done.
    unfold receive, onScriptEventRecieved. cbn [subscribed withRouter fst snd].
    rewrite Hsub.
    rewrite (sync_routeEvent_chunk_end id listener) by done. cbv zeta.
    rewrite sync_unbuffer by done.
    cbn [router withRouter pendingStreams withPendingStreams].
    rewrite lookup_insert_eq, Hp. cbn [default app].
    rewrite map_dotStar_singleLine, dotStar_singleLine by done.
    by rewrite <- Hcat.
Qed.




Lemma sync_hostErrors_voidSendAuto options w :
  hostErrors (voidSendAuto options w) = hostErrors w.
Proof.
  unfold voidSendAuto, sendAuto, sendInternal.
  destruct (bool_decide (MAX_MESSAGE_LENGTH < _)%nat); [done |].
  by destruct (negb _ && _).
Qed.

Lemma sync_invokeListener_stringify listener responseEvent j w :
  canonical j = true -> SPACE ∉ responseEvent -> singleLine (stringify j) ->
  let text := responseEvent ++ SPACE :: stringify j in
  toHost (invokeListener listener (splitFirst text).1 (splitFirst text).2 w)
  = let answer := fun v =>
      voidSendAuto {| so_event := responseEvent; so_payload := envelope v;
                      so_force := false |} w in
    match listener (asPayload j) with
    | Return v => answer v
    | Throw e => if truthy e then warn e (answer (Plain JNull))
                 else answer (Plain JNull)
    end.
Proof.
  intros Hcan Hr Hline text. subst text.
  rewrite splitFirst_at_first_space by done. cbn [fst snd].
  rewrite dotStar_singleLine by done.
  unfold invokeListener. rewrite parseRawPayload_stringify by done.
  destruct (listener (asPayload j)); done.
Qed.

(** An Invoke frame, or the chunk frames of an InvokeStream, with a
    request for a listener the router holds.  The listener is called
    within the call of [onScriptEventRecieved], once, with the
    payload, and is answered before that call returns: one [sendAuto]
    of its result to the response id, a [Failure] as an object with
    the reserved key; of [null] when it throws, the thrown value
    logged when truthy.  Nothing leaves [onScriptEventRecieved].  A
    result whose serialized text is within the limit is on the
    transport as one Send frame. *)
Theorem sync_invoke_answered_within_the_call
    (id responseEvent : jsstring) (listener : ScriptEventListener)
    (j : Json) (w : World) :
  flagsDistinct -> subscribed w = true ->
  listeners (router w) !! id = Some listener ->
  SPACE ∉ responseEvent ->
  canonical j = true -> plainText j = true ->
  let request := responseEvent ++ SPACE :: stringify j in
  let answer := fun v =>
    voidSendAuto {| so_event := responseEvent; so_payload := envelope v;
                    so_force := false |} w in
  let outcome :=
    match listener (asPayload j) with
    | Return v => answer v
    | Throw e => if truthy e then warn e (answer (Plain JNull))
                 else answer (Plain JNull)
    end in
  receive w (id, IpcTypeFlag_Invoke :: request) = outcome
  /\ (forall streamId,
        SPACE ∉ streamId -> pendingStreams (router w) !! streamId = None ->
        singleLine responseEvent ->
        deliver (chunkFrames IpcTypeFlag_InvokeStream id request streamId) w
        = outcome)
  /\ hostErrors outcome = hostErrors w
  /\ (forall v,
        (length (stringify (onWire v)) <= MAX_MESSAGE_LENGTH)%nat ->
        wire (answer v)
        = wire w ++ [(responseEvent, IpcTypeFlag_Send :: stringify (onWire v))]).
Proof.
  intros Hd Hsub Hl Hr Hcan Hplain request answer outcome.
  assert (Hline : singleLine (stringify j)) by (by apply singleLine_stringify).
  split; [| split; [| split]].
  - unfold receive, onScriptEventRecieved. rewrite Hsub. cbn [fst snd].
    rewrite (sync_routeEvent_Invoke id listener) by done.
    by apply sync_invokeListener_stringify.
  - intros streamId Hs Hp Hrl.
    rewrite (sync_deliver_chunkFrames id listener); try done.
    + rewrite N.eqb_refl. by apply sync_invokeListener_stringify.
    + by right.
    + apply singleLine_app. split; [done |]. apply singleLine_cons.
      split; [done | done].
  - subst outcome answer. cbv beta.
    destruct (listener (asPayload j)) as [v | e];
      [| destruct (truthy e)]; cbn [hostErrors warn];
      apply sync_hostErrors_voidSendAuto.
  - intros v Hlen. subst answer. cbv beta.
    unfold voidSendAuto, sendAuto. cbn [so_payload so_event so_force].
    rewrite serialize_envelope.
    rewrite bool_decide_eq_false_2 by lia.
    unfold sendInternal. cbn [negb andb].
    rewrite bool_decide_eq_false_2 by lia. done.
Qed.

End Routing.

Section Uids.
Context `{Common}.

Lemma sync_decimal_head n : exists c rest,
  toStringRadix 10 n = c :: rest /\ isDigit c = true.
Proof.
  pose proof (toStringRadix10_digits n) as Hd.
  pose proof (toStringRadix_nonempty 10 ltac:(lia) n) as Hne.
  destruct (toStringRadix 10 n) as [| c rest]; [done |].
  apply Forall_cons in Hd as [Hc _]. eauto.
Qed.

(** The ids of the earlier router are drawn from one counter, written
    in decimal.  Two listener ids, or two stream ids, of routers with
    the same uid are equal only when the counter had the same value; a
    listener id is never equal to a stream id; and each call of either
    method adds one to the counter, so no id is returned twice,
    whatever the order of the calls. *)
Theorem sync_uids_drawn_from_one_counter (w w' : World) :
  uid (router w') = uid (router w) ->
  ((generateListenerUid w).1 = (generateListenerUid w').1 ->
     uidsGenerated (router w) = uidsGenerated (router w'))
  /\ ((generateStreamUid w).1 = (generateStreamUid w').1 ->
        uidsGenerated (router w) = uidsGenerated (router w'))
  /\ (generateListenerUid w).1 ≠ (generateStreamUid w').1
  /\ uidsGenerated (router (generateListenerUid w).2) = uidsGenerated (router w) + 1
  /\ uidsGenerated (router (generateStreamUid w).2) = uidsGenerated (router w) + 1
  /\ uid (router (generateListenerUid w).2) = uid (router w)
  /\ uid (router (generateStreamUid w).2) = uid (router w).
Proof.
  intros Hu. unfold generateListenerUid, generateStreamUid. cbn [fst snd].
  rewrite Hu. repeat split.
  - intros E%app_inv_head%app_inv_head. apply toStringRadix_inj in E; [done | lia | lia].
  - intros E%app_inv_head. apply toStringRadix_inj in E; [done | lia | lia].
  - intros E%app_inv_head.
    destruct (sync_decimal_head (uidsGenerated (router w'))) as (c & rest & Ec & Hc).
    rewrite Ec in E. change (lit ":l") with [58; 108] in E.
    injection E as <- _. done.
Qed.

End Uids.
End SyncTheory.

(** * [invokeAuto] *)

Section InvokeAuto.
Context `{Common}.

(** [invokeAuto] is [invoke] when the message of the Invoke frame, the
    response id, a space and the serialized payload, is within
    [MAX_MESSAGE_LENGTH], and [invokeStream] otherwise.  In the first
    case the frame goes out whatever [force] is and the promise is not
    settled by the call; in the second nothing is put on the transport
    by the call: the message is handed to the stream sender, which
    cuts it into at least two chunk frames, and the timeout is armed
    by its [finally] callback. *)
Theorem invokeAuto_invoke_or_invokeStream (options : InvokeOptions) (w : World) :
  let respId := (generateListenerUid w).1 in
  let streamId := (generateStreamUid w).1 in
  let message := respId ++ SPACE :: serialize (io_payload options) in
  let frames :=
    chunkFrames IpcTypeFlag_InvokeStream (io_event options) message streamId in
  ((length message <= MAX_MESSAGE_LENGTH)%nat ->
     invokeAuto options w = invoke options w
     /\ wire (invokeAuto options w).2
        = wire w ++ [(io_event options, IpcTypeFlag_Invoke :: message)]
     /\ jobs (invokeAuto options w).2 = jobs w
     /\ promises (invokeAuto options w).2 = promises w)
  /\ ((MAX_MESSAGE_LENGTH < length message)%nat ->
        invokeAuto options w = invokeStream options w
        /\ wire (invokeAuto options w).2 = wire w
        /\ jobs (invokeAuto options w).2
           = jobs w ++ [{| pendingFrames := frames;
                           onFinally :=
                             Some (ArmInvokeTimeout (nextVar w) respId
                                     (nextPromise w) (io_event options)) |}]
        /\ (2 <= length frames)%nat
        /\ runs (invokeAuto options w).2 = runs w
        /\ promises (invokeAuto options w).2 = promises w).
Proof.
  intros respId streamId message frames.
  assert (Hlen : length message
                 = (length (serialize (io_payload options)) + length respId + 1)%nat).
  { unfold message. rewrite length_app. simpl. lia. }
  rewrite invokeAuto_unfold. fold respId. rewrite <- Hlen. split.
  - intros Hfit. rewrite bool_decide_eq_false_2 by lia.
    split; [by rewrite invoke_unfold |].
    unfold invokeInternal, runTimeout, sendInternal.
    cbn [ii_payload ii_force ii_event internalOptions].
    fold message. rewrite (bool_decide_eq_false_2 (_ < _)%nat) by lia.
    rewrite andb_false_r. done.
  - intros Hlong. rewrite bool_decide_eq_true_2 by lia.
    split; [by rewrite invokeStream_unfold |].
    split; [done |]. split; [done |]. split; [| done].
    unfold frames, chunkFrames. rewrite length_map.
    destruct (splitParts_spec message) as (parts & -> & _ & _ & _ & Htwo).
    cbn [default]. unfold chunkMessages. rewrite length_imap. by apply Htwo.
Qed.

End InvokeAuto.

(** * The function-based module: calls that are refused *)

Module LegacyTimer.
Import Legacy LegacyTheory.
















End LegacyTimer.

(** * Stream buffers are kept *)

Section Buffers.
Context `{Common}.


Lemma buffers_settle p s w : buffers (settle p s w) = buffers w.
Proof. unfold settle. by case_match. Qed.

Lemma buffers_settleInvoke tf p payload w :
  buffers (settleInvoke tf p payload w) = buffers w.
Proof. unfold settleInvoke. case_match; apply buffers_settle. Qed.

Lemma buffers_callFunction l payload w :
  buffers (callFunction l payload w).2 = buffers w.
Proof.
  rewrite callFunction_closure. destruct l; [done | |].
  - by rewrite buffers_settleInvoke.
  - rewrite buffers_settleInvoke. by case_match.
Qed.

Lemma buffers_fire r w : buffers (fire r w) = buffers w.
Proof. rewrite fire_unfold. case_match. by rewrite buffers_settle. Qed.

Lemma buffers_foldl {A} (f : World -> A -> World) (xs : list A) :
  (forall w x, buffers (f w x) = buffers w) ->
  forall w, buffers (foldl f w xs) = buffers w.
Proof.
  intros Hf. induction xs as [| x xs IH]; intros w; simpl; [done |].
  by rewrite IH, Hf.
Qed.

Lemma buffers_tick w : buffers (tick w) = buffers w.
Proof.
  rewrite tick_unfold, buffers_foldl; [done |].
  intros. apply buffers_fire.
Qed.

Lemma buffers_transmit k w : buffers (transmit k w) = buffers w.
Proof.
  destruct (transmit_cases k w) as [-> | [(job & frame & rest & _ & _ & _ & ->)
                                         | (job & frame & _ & _ & ->)]];
    [done | done |].
  cbv zeta. case_match; [| done]. rewrite runFinally_unfold. by case_match.
Qed.


Lemma buffers_sendInternal flag event payload force w :
  buffers (worldOf (sendInternal flag event payload force w)) = buffers w.
Proof. unfold sendInternal. by case_match. Qed.

Lemma buffers_sendAuto options w :
  buffers (worldOf (sendAuto options w)) = buffers w.
Proof.
  unfold sendAuto. case_match; [done |]. apply buffers_sendInternal.
Qed.

Lemma buffers_voidSendAuto options w :
  buffers (voidSendAuto options w) = buffers w.
Proof.
  unfold voidSendAuto. pose proof (buffers_sendAuto options w) as E.
  by destruct (sendAuto options w).
Qed.

Lemma buffers_invokeListenerRest responseEvent response err w :
  buffers (invokeListenerRest responseEvent response err w) = buffers w.
Proof.
  unfold invokeListenerRest. case_match; [unfold warn |];
    apply buffers_voidSendAuto.
Qed.

Lemma buffers_resume k s w : buffers (resume k s w) = buffers w.
Proof.
  destruct k; simpl.
  - destruct s; apply buffers_invokeListenerRest.
  - unfold callListenerRest. by repeat case_match.
Qed.

Lemma buffers_resumeTask w t : buffers (resumeTask w t) = buffers w.
Proof. unfold resumeTask. case_match; [apply buffers_resume | done]. Qed.

Lemma buffers_runMicrotasks w : buffers (runMicrotasks w) = buffers w.
Proof.
  unfold runMicrotasks. rewrite buffers_foldl; [done |].
  apply buffers_resumeTask.
Qed.

Lemma buffers_settleTask k w : buffers (settleTask k w) = buffers w.
Proof.
  unfold settleTask. repeat case_match; try done. by rewrite buffers_resume.
Qed.

Lemma buffers_callListener l raw w : buffers (callListener l raw w) = buffers w.
Proof.
  unfold callListener. case_match; [| done].
  pose proof (buffers_callFunction l s w) as E.
  destruct (callFunction l s w) as [c w1]. simpl in E. by destruct c.
Qed.

Lemma buffers_invokeListener l responseEvent raw w :
  buffers (invokeListener l responseEvent raw w) = buffers w.
Proof.
  unfold invokeListener. case_match; [| done].
  pose proof (buffers_callFunction l s w) as E.
  destruct (callFunction l s w) as [c w1]. simpl in E.
  destruct c; [done | | done]. by rewrite buffers_invokeListenerRest.
Qed.


Lemma buffers_routeEvent streamId id rawMsg w :
  match rawMsg with
  | _ :: message => (splitFirst message).1 ≠ streamId
  | [] => True
  end ->
  buffers (worldOf (routeEvent id rawMsg w)) !! streamId = buffers w !! streamId.
Proof.
  intros Hne. unfold routeEvent.
  destruct (listeners (router w) !! id) as [l |]; [| done].
  destruct rawMsg as [| flag message]; [done |].
  destruct (flag =? IpcTypeFlag_Send);
    [cbn [worldOf]; by rewrite buffers_callListener |].
  destruct (flag =? IpcTypeFlag_Invoke).
  { destruct (splitFirst message). cbn [worldOf]. by rewrite buffers_invokeListener. }
  destruct ((flag =? IpcTypeFlag_InvokeStream) || (flag =? IpcTypeFlag_SendStream));
    [| done].
  destruct (splitFirst message) as [sid [afterId |]]; [| done].
  cbn [fst] in Hne. destruct (splitFirst afterId) as [isEndRaw content].
  cbv zeta.
  destruct (negb (bool_decide (isEndRaw = [FLAG_END]))).
  - cbn [worldOf]. unfold buffers. simpl. by rewrite lookup_insert_ne.
  - destruct (flag =? IpcTypeFlag_InvokeStream).
    + destruct (splitFirst _). cbn [worldOf]. rewrite buffers_invokeListener.
      unfold buffers. simpl. by rewrite lookup_delete_ne.
    + cbn [worldOf]. rewrite buffers_callListener.
      unfold buffers. simpl. by rewrite lookup_delete_ne.
Qed.

Lemma buffers_step streamId w e :
  ~ namesStream streamId (Host e) ->
  buffers (step w e) !! streamId = buffers w !! streamId.
Proof.
  intros Hn. unfold step. rewrite buffers_runMicrotasks. destruct e; simpl.
  - case_match; [| done]. unfold onScriptEventRecieved.
    pose proof (buffers_routeEvent streamId id message w) as E.
    destruct (routeEvent id message w); simpl in E; apply E;
      destruct message; simpl in Hn; done.
  - by rewrite buffers_tick.
  - by rewrite buffers_transmit.
  - by rewrite buffers_settleTask.
Qed.

Lemma buffers_invokeInternal options respId w :
  buffers (invokeInternal options respId w).2 = buffers w.
Proof.
  destruct (invokeInternal_cases options respId w) as [-> | [e ->]]; [done |].
  by rewrite buffers_settle.
Qed.

Lemma buffers_call c w : buffers (call c w) = buffers w.
Proof.
  destruct c; cbn [call].
  - unfold registerListener. by repeat case_match.
  - done.
  - apply buffers_sendInternal.
  - done.
  - apply buffers_sendAuto.
  - rewrite invoke_unfold. by rewrite buffers_invokeInternal.
  - by rewrite invokeStream_unfold.
  - rewrite invokeAuto_unfold. case_match; [done |]. by rewrite buffers_invokeInternal.
  - done.
Qed.

(** The router never gives up on a stream.  The text buffered under a
    stream id stays as it is through every call of a public method,
    [destroy] and [removeListener] included, and through every turn of
    the event loop, as long as no script event names that stream id in
    the first field of its message: no tick, no timeout and no other
    stream discards or changes it. *)
Theorem unfinished_stream_never_discarded (streamId : jsstring)
    (actions : list Action) (w : World) :
  Forall (fun a => ~ namesStream streamId a) actions ->
  pendingStreams (router (history actions w)) !! streamId
  = pendingStreams (router w) !! streamId.
Proof.
  revert w. induction actions as [| a actions IH]; intros w Hall; [done |].
  apply Forall_cons in Hall as [Ha Hall]. simpl. rewrite IH by done.
  fold (buffers (act w a)) (buffers w). destruct a as [c | e]; simpl.
  - by rewrite buffers_call.
  - by apply buffers_step.
Qed.

End Buffers.

(** * A streamed invoke after its last chunk *)

Section ArmedVia.
Context `{Common}.

Lemma armedVia_quiet respId var t p event due w w' :
  quiet w w' -> armedVia respId var t p event due w ->
  armedVia respId var t p event due w'.
Proof.
  intros [Hl Hr Hn _ _ Hv _ _ _ (new & Hj & Hnew)] [H0 H1 H2 H3 H4 H5 H6 H7].
  constructor; rewrite ?Hl, ?Hr, ?Hn, ?Hv; try done.
  intros job fin. rewrite Hj. intros [Hin | Hin]%elem_of_app Hfin.
  - by apply (H7 job).
  - rewrite Forall_forall in Hnew. rewrite (Hnew job Hin) in Hfin. done.
Qed.

Lemma armedVia_narrowed respId var t p event due w w' :
  narrowed w w' -> armedVia respId var t p event due w ->
  armedVia respId var t p event due w'.
Proof.
  intros [Hl Hr Hn Hv Hj _] [H0 H1 H2 H3 H4 H5 H6 H7].
  constructor; rewrite ?Hr, ?Hn, ?Hv, ?Hj; try done.
  intros k l' Hk. apply H6. by apply Hl.
Qed.

Lemma armedVia_clearRun respId var t p event due t' w :
  t' ≠ t ->
  armedVia respId var t p event due w ->
  armedVia respId var t p event due (clearRun t' w).
Proof.
  intros Hne [H0 H1 H2 H3 H4 H5 H6 H7]. constructor; simpl; try done.
  - apply list_elem_of_filter. split; [simpl; congruence | done].
  - intros r [_ Hr]%list_elem_of_filter. by apply H3.
  - intros r [_ Hr]%list_elem_of_filter. by apply H4.
Qed.

Lemma armedVia_callFunction respId var t p event due l' payload w :
  ~ clearsRun t l' -> ~ readsVar var l' ->
  armedVia respId var t p event due w ->
  armedVia respId var t p event due (callFunction l' payload w).2.
Proof.
  intros Hc Hv Har. rewrite callFunction_closure.
  destruct l' as [f | rid t' tf p' | rid var' tf p']; [done | |].
  - eapply armedVia_narrowed; [apply settleInvoke_narrowed |].
    apply armedVia_clearRun; [simpl in Hc; congruence |].
    eapply armedVia_narrowed; [apply removeListener_narrowed | done].
  - eapply armedVia_narrowed; [apply settleInvoke_narrowed |].
    destruct (timeoutIdVars w !! var') as [t' |] eqn:Hv'.
    + apply armedVia_clearRun.
      * intros ->. apply Hv. simpl. by apply (av_vars _ _ _ _ _ _ _ Har).
      * eapply armedVia_narrowed; [apply removeListener_narrowed | done].
    + eapply armedVia_narrowed; [apply removeListener_narrowed | done].
Qed.

Lemma armedVia_tick respId var t p event due w :
  (S (currentTick w) < due)%nat ->
  armedVia respId var t p event due w ->
  armedVia respId var t p event due (tick w).
Proof.
  intros Hlt Har. rewrite tick_unfold.
  eapply armedVia_narrowed;
    [apply narrowed_foldl; intros; apply narrowed_fire |].
  destruct Har as [H0 H1 H2 H3 H4 H5 H6 H7]. constructor; simpl; try done.
  - apply list_elem_of_filter. split; [| done].
    unfold isDue. simpl. rewrite bool_decide_eq_false_2 by lia. done.
  - intros r [_ Hr]%list_elem_of_filter. by apply H3.
  - intros r [_ Hr]%list_elem_of_filter. by apply H4.
Qed.

Lemma armedVia_transmit respId var t p event due k w :
  armedVia respId var t p event due w ->
  armedVia respId var t p event due (transmit k w).
Proof.
  intros Har.
  destruct (transmit_cases k w) as [-> | [(job & f & rest & Hj & Hp & Hne & ->)
                                         | (job & f & Hj & Hp & ->)]]; [done | |].
  - destruct Har as [H0 H1 H2 H3 H4 H5 H6 H7]. constructor; simpl; try done.
    intros job' fin [-> | Hin]%elem_of_list_insert_inv Hfin.
    + simpl in Hfin. apply (H7 job); [| done].
      apply list_elem_of_lookup. by exists k.
    + by apply (H7 job').
  - assert (Har2 : armedVia respId var t p event due
                     (withJobs (<[k := {| pendingFrames := []; onFinally := None |}]> (jobs w))
                        (withWire (wire w ++ [f]) w))).
    { destruct Har as [H0 H1 H2 H3 H4 H5 H6 H7]. constructor; simpl; try done.
      intros job' fin [-> | Hin]%elem_of_list_insert_inv Hfin; [done |].
      by apply (H7 job'). }
    cbv zeta. destruct (onFinally job) as [fin |] eqn:Hfin; [| done].
    assert (Hforeign : foreignFinally respId p fin /\ finallyVar fin ≠ var).
    { apply (av_jobs _ _ _ _ _ _ _ Har job); [| done].
      apply list_elem_of_lookup. by exists k. }
    rewrite runFinally_unfold. destruct fin as [var' rid p' event'].
    destruct Hforeign as [Hforeign Hvar]. simpl in Hvar.
    destruct Har2 as [H0 H1 H2 H3 H4 H5 H6 H7]. simpl in *.
    constructor; simpl; try done.
    + by rewrite lookup_insert_ne.
    + intros v. destruct (decide (v = var')) as [-> |].
      * rewrite lookup_insert_eq. intros [= E]. lia.
      * rewrite lookup_insert_ne by done. apply H1.
    + apply elem_of_app. by left.
    + intros r [Hr | Hr%list_elem_of_singleton]%elem_of_app Hid; [by apply H3 |].
      subst r. simpl in Hid. lia.
    + intros r [Hr | Hr%list_elem_of_singleton]%elem_of_app Hid; [by apply H4 |].
      by subst r.
    + lia.
Qed.

Lemma armedVia_step respId var t p event due w e :
  silentEvent respId e ->
  (e = Tick -> (S (currentTick w) < due)%nat) ->
  armedVia respId var t p event due w ->
  armedVia respId var t p event due (step w e).
Proof.
  intros Hs Hdue Har.
  destruct (step_effect w e) as (w1 & He & Hq).
  apply (armedVia_quiet respId var t p event due w1); [done |].
  destruct e as [id message | | k | k]; simpl in He, Hs; subst; try done.
  - destruct He as [-> | (l' & payload & Hl' & ->)]; [done |].
    destruct (av_listeners _ _ _ _ _ _ _ Har id l' Hl' Hs) as [Hc Hv].
    by apply armedVia_callFunction.
  - by apply armedVia_tick; [apply Hdue |].
  - by apply armedVia_transmit.
Qed.

Lemma armedVia_timeout respId var t p event due w :
  armedVia respId var t p event due w -> promises w !! p = None ->
  (due ≤ S (currentTick w))%nat ->
  promises (step w Tick) !! p = Some (Rejected (timedOut event))
  /\ listeners (router (step w Tick)) !! respId = None.
Proof.
  intros Har Hpending Hdue.
  pose proof (quiet_runMicrotasks (tick w)) as Hq.
  unfold step, handle.
  rewrite (quiet_promises _ _ Hq), (quiet_listeners _ _ Hq).
  rewrite tick_unfold.
  apply (foldl_fire_timeout respId p event
           {| runId := t; dueTick := due; runCallback := InvokeTimeout respId p event |}).
  - done.
  - apply list_elem_of_filter. split; [| apply Har].
    unfold isDue. simpl. by rewrite bool_decide_eq_true_2.
  - intros r [_ Hr]%list_elem_of_filter.
    destruct (decide (runId r = t)) as [Hid | Hid].
    + left. by apply (av_unique _ _ _ _ _ _ _ Har).
    + right. by apply (av_runs _ _ _ _ _ _ _ Har).
  - done.
Qed.

(** While the timeout is not due and no script event is addressed to
    the response id, the streamed invoke keeps waiting. *)
Lemma streamed_pending_run respId var t p event due l es : forall w,
  awaiting respId p l w -> armedVia respId var t p event due w ->
  silent respId es -> (currentTick w + ticks es < due)%nat ->
  awaiting respId p l (run es w) /\ armedVia respId var t p event due (run es w).
Proof.
  induction es as [| e es IH]; intros w Haw Har Hs Hlt; [done |].
  apply Forall_cons in Hs as [He Hs]. rewrite run_cons.
  assert (Hdue : e = Tick -> (S (currentTick w) < due)%nat).
  { intros ->. simpl in Hlt. lia. }
  apply IH; try done.
  - apply awaiting_step; [done | | done].
    intros -> r Hr Hd.
    destruct (decide (runId r = t)) as [Hid | Hid].
    + rewrite (av_unique _ _ _ _ _ _ _ Har r Hr Hid) in Hd. simpl in Hd.
      specialize (Hdue eq_refl). lia.
    + by apply (av_runs _ _ _ _ _ _ _ Har).
  - by apply armedVia_step.
  - rewrite step_tick. destruct e; simpl in *; lia.
Qed.

(** The response of a streamed invoke whose timeout is armed: the
    closure reads the variable and clears the run. *)
Lemma stream_response_clears respId var t p tf event due text payload w :
  awaiting respId p (InvokeStreamResponse respId var tf p) w ->
  armedVia respId var t p event due w ->
  subscribed w = true ->
  parseRawPayload (Some text) = Some payload ->
  let w2 := step w (ScriptEvent respId (IpcTypeFlag_Send :: text)) in
  promises w2 !! p = Some (responseOutcome tf payload)
  /\ listeners (router w2) !! respId = None
  /\ noRun t w2.
Proof.
  intros Haw Har Hsub Hparse w2.
  pose proof (step_response respId _ text payload w Hsub
                (aw_listener _ _ _ _ Haw) I Hparse) as Hq.
  fold w2 in Hq. rewrite callFunction_closure in Hq.
  rewrite (av_var _ _ _ _ _ _ _ Har) in Hq.
  split; [| split].
  - rewrite (quiet_promises _ _ Hq). apply settleInvoke_lookup. simpl.
    apply Haw.
  - rewrite (quiet_listeners _ _ Hq), settleInvoke_listeners. simpl.
    apply lookup_delete_eq.
  - eapply noRun_quiet; [done |]. split.
    + rewrite settleInvoke_runs. simpl.
      intros r [Hr _]%list_elem_of_filter. done.
    + rewrite settleInvoke_nextRunId. simpl. apply Har.
Qed.

End ArmedVia.

Section StreamedInvoke.
Context `{Common}.

Lemma listeners_callFunction l payload w k l' :
  listeners (router (callFunction l payload w).2) !! k = Some l' ->
  listeners (router w) !! k = Some l'.
Proof.
  rewrite callFunction_closure. destruct l as [f | rid t tf p | rid var tf p];
    [done | |]; rewrite settleInvoke_listeners.
  - simpl. by intros [_ ?]%lookup_delete_Some.
  - destruct (timeoutIdVars w !! var); simpl; by intros [_ ?]%lookup_delete_Some.
Qed.

Lemma listeners_step w e k l :
  listeners (router (step w e)) !! k = Some l ->
  listeners (router w) !! k = Some l.
Proof.
  destruct (step_effect w e) as (w1 & He & Hq).
  rewrite (quiet_listeners _ _ Hq).
  destruct e as [id message | | j | j]; simpl in He.
  - destruct He as [-> | (l' & payload & _ & ->)]; [done |].
    apply listeners_callFunction.
  - subst w1. rewrite tick_unfold. intros Hl.
    pose proof (narrowed_foldl (fun w r => fire r w)
                  (filter (fun r => isDue (S (currentTick w)) r = true) (runs w))
                  ltac:(intros; apply narrowed_fire)
                  (withRuns (filter (fun r => isDue (S (currentTick w)) r ≠ true)
                               (runs w))
                     (withTick (S (currentTick w)) w))) as Hn.
    by apply (na_listeners _ _ Hn) in Hl.
  - subst w1. by rewrite transmit_listeners.
  - by subst w1.
Qed.

Lemma listeners_run es : forall w k l,
  listeners (router (run es w)) !! k = Some l ->
  listeners (router w) !! k = Some l.
Proof.
  induction es as [| e es IH]; intros w k l Hl; [done |].
  rewrite run_cons in Hl. apply (listeners_step w e). by apply IH.
Qed.

(** The last chunk of a streamed invoke goes out: the [finally]
    callback schedules the timeout and stores its id. *)
Lemma unarmed_arms respId p var j event job frame w :
  unarmed respId p var j event w -> coherent w ->
  (forall k l', listeners (router w) !! k = Some l' -> k ≠ respId ->
                ~ readsVar var l') ->
  jobs w !! j = Some job -> pendingFrames job = [frame] ->
  armedVia respId var (nextRunId w) p event (currentTick w + 20)
    (step w (Transmit j)).
Proof.
  intros Hun Hc Hread Hj Hp.
  destruct Hun as [(job' & Hj' & _ & Hfin) Hruns Hvar Hjobs].
  rewrite Hj in Hj'. injection Hj' as <-.
  destruct Hc as [Cl Cr Cv Cj Cp].
  assert (Et : transmit j w
               = runFinally (ArmInvokeTimeout var respId p event)
                   (withJobs (<[j := {| pendingFrames := []; onFinally := None |}]>
                                (jobs w))
                      (withWire (wire w ++ [frame]) w))).
  { unfold transmit. by rewrite Hj, Hp, Hfin. }
  apply (armedVia_quiet _ _ _ _ _ _ (transmit j w));
    [apply quiet_runMicrotasks |].
  rewrite Et, runFinally_unfold. constructor; simpl.
  - apply lookup_insert_eq.
  - intros var'. destruct (decide (var' = var)) as [-> | Hne]; [done |].
    rewrite lookup_insert_ne by done. intros Hv. apply Cv in Hv. lia.
  - apply elem_of_app. right. by apply list_elem_of_singleton.
  - intros r [Hr | ->%list_elem_of_singleton]%elem_of_app Hid; [| done].
    apply Cr in Hr. lia.
  - intros r [Hr | ->%list_elem_of_singleton]%elem_of_app Hid; [| done].
    by apply Hruns.
  - lia.
  - intros k l' Hk Hne. split; [| by apply (Hread k)].
    specialize (Cl k l' Hk). destruct l'; simpl in *; try tauto.
    destruct Cl as (_ & Ht & _). lia.
  - intros job' fin [k Hk]%list_elem_of_lookup Hf.
    apply list_lookup_insert_Some in Hk as [(-> & <- & _) | (Hne & Hk)]; [done |].
    by apply (Hjobs k job').
Qed.


(** A streamed invoke after its last chunk went out, in a world
    reached through the public methods.  The timeout runs from the
    transmission of the last chunk: while fewer than twenty ticks have
    passed and no script event is addressed to the response id the
    promise is pending and the response listener registered; on the
    twentieth tick the promise is rejected with the timeout error and
    the listener removed.  A response routed to the response id before
    that settles the promise with its payload (rejected with it when it
    is a Failure and [throwFailures] is set), removes the listener and
    clears the timeout through the [timeoutId] variable: the promise
    stays as it is and the run is never scheduled again. *)
Theorem streamed_invoke_settles_after_last_chunk
    (uid : jsstring) (w0 : World) (actions : list Action)
    (options : InvokeOptions) (es1 : list Event)
    (job : StreamJob) (frame : Frame) :
  newRouter uid = inr w0 ->
  let w := history actions w0 in
  let respId := (generateListenerUid w).1 in
  let p := (invokeStream options w).1 in
  let j := length (jobs w) in
  let w1 := run es1 (invokeStream options w).2 in
  let w2 := step w1 (Transmit j) in
  subscribed w = true ->
  silent respId es1 ->
  jobs w1 !! j = Some job -> pendingFrames job = [frame] ->
  (forall es2, silent respId es2 -> (ticks es2 < 20)%nat ->
     promises (run es2 w2) !! p = None
     /\ is_Some (listeners (router (run es2 w2)) !! respId))
  /\ (forall es2, silent respId es2 -> (20 <= ticks es2)%nat ->
        promises (run es2 w2) !! p
        = Some (Rejected (timedOut (io_event options)))
        /\ listeners (router (run es2 w2)) !! respId = None)
  /\ (forall es2 text payload,
        silent respId es2 -> (ticks es2 < 20)%nat ->
        parseRawPayload (Some text) = Some payload ->
        let w3 := step (run es2 w2)
                    (ScriptEvent respId (IpcTypeFlag_Send :: text)) in
        let outcome := responseOutcome (io_throwFailures options) payload in
        promises w3 !! p = Some outcome
        /\ listeners (router w3) !! respId = None
        /\ forall es',
             promises (run es' w3) !! p = Some outcome
             /\ forall r, r ∈ runs (run es' w3) -> runId r ≠ nextRunId w1).
Proof.
  intros Hnew w respId p j w1 w2 Hsub Hs1 Hjob Hframe.
  assert (Hc : coherent w) by (by eapply coherent_history, coherent_newRouter).
  set (wg := (generateStreamUid (generateListenerUid w).2).2).
  set (streamId := (generateStreamUid (generateListenerUid w).2).1).
  set (wi := (invokeStream options w).2) in *.
  assert (Ep : p = nextPromise w)
    by apply (invokeStreamInternal_promise (internalOptions options) respId
                streamId wg).
  clearbody p. subst p. set (p := nextPromise w) in *.
  set (var := nextVar w).
  set (l := InvokeStreamResponse respId var (io_throwFailures options) p).
  destruct (invokeStreamInternal_establishes (internalOptions options) respId
              streamId wg)
    as (Haw & Hun & Hsubi).
  { apply unused_generateStreamUid. by apply unused_next. }
  change (invokeStreamInternal (internalOptions options) respId streamId wg).2
    with wi in Haw, Hun, Hsubi.
  change (nextPromise wg) with p in Haw, Hun.
  change (nextVar wg) with var in Haw, Hun.
  change (length (jobs wg)) with j in Hun.
  change (subscribed wg) with (subscribed w) in Hsubi.
  cbn [ii_throwFailures ii_event internalOptions] in Haw, Hun. fold l in Haw.
  assert (Hinc : incomplete j w1).
  { exists job. split; [done |]. by rewrite Hframe. }
  pose proof (unarmed_run respId p var j _ es1 wi Hun Hinc) as Hun1.
  pose proof (streaming_run respId p var j _ l es1 wi Haw Hun Hs1 Hinc) as Haw1.
  fold w1 in Hun1, Haw1.
  assert (Hc1 : coherent w1).
  { apply coherent_run. by apply (coherent_call (InvokeStream options)). }
  assert (Hread : forall k l', listeners (router w1) !! k = Some l' ->
                    k ≠ respId -> ~ readsVar var l').
  { intros k l' Hk Hne. apply listeners_run in Hk.
    assert (Hk0 : listeners (router w) !! k = Some l').
    { unfold wi in Hk. rewrite invokeStream_unfold in Hk. simpl in Hk.
      by rewrite lookup_insert_ne in Hk. }
    pose proof (co_listeners _ Hc k l' Hk0) as Ho.
    destruct l'; simpl in *; try tauto. destruct Ho as (_ & Hv & _).
    subst var. lia. }
  pose proof (unarmed_arms respId p var j _ job frame w1 Hun1 Hc1 Hread Hjob Hframe)
    as Har2.
  fold w2 in Har2.
  assert (Haw2 : awaiting respId p l w2) by (by apply awaiting_step).
  assert (Ht2 : currentTick w2 = currentTick w1).
  { unfold w2. rewrite step_tick. simpl. lia. }
  assert (Hsub2 : subscribed w2 = true).
  { unfold w2. rewrite step_subscribed. unfold w1.
    by rewrite run_subscribed, Hsubi. }
  set (t := nextRunId w1) in *.
  set (due := (currentTick w1 + 20)%nat) in *.
  split; [| split].
  - intros es2 Hs2 Hlt.
    destruct (streamed_pending_run respId var t p _ due l es2 w2 Haw2 Har2 Hs2
                ltac:(subst due; lia)) as [Haw3 _].
    split; [apply Haw3 |]. rewrite (aw_listener _ _ _ _ Haw3). eauto.
  - intros es2 Hs2 Hge.
    destruct (ticks_split 19 es2 ltac:(lia)) as (a & b & -> & Ha).
    apply silent_app in Hs2 as [Hsa Hsb].
    destruct (streamed_pending_run respId var t p _ due l a w2 Haw2 Har2 Hsa
                ltac:(subst due; lia)) as [Haw3 Har3].
    destruct (armedVia_timeout respId var t p _ due (run a w2) Har3
                (aw_pending _ _ _ _ Haw3)) as [Hrej Hgone].
    { rewrite run_tick. subst due. lia. }
    rewrite run_app, run_cons.
    destruct (later_run b (step (run a w2) Tick)) as [Hfree Hkept].
    split; [by apply Hkept | by apply Hfree].
  - intros es2 text payload Hs2 Hlt Hparse w3 outcome.
    destruct (streamed_pending_run respId var t p _ due l es2 w2 Haw2 Har2 Hs2
                ltac:(subst due; lia)) as [Haw3 Har3].
    destruct (stream_response_clears respId var t p _ _ due text payload
                (run es2 w2) Haw3 Har3
                ltac:(by rewrite run_subscribed) Hparse)
      as (Hsettled & Hgone & Hno).
    fold w3 in Hsettled, Hgone, Hno.
    split; [done |]. split; [done |].
    intros es'. split.
    + by apply (later_run es' w3).
    + apply (noRun_run t es' w3 Hno).
Qed.

End StreamedInvoke.

(** * The added statements at concrete inputs *)

Section MoreExamples.
#[local] Existing Instance exampleCommon.

Lemma send_frame_delivers_value_witness :
  let j := JString [97; 8232; 98] in
  let w := exampleWorld echo in
  canonical j = true
  /\ drained w
  /\ step w (ScriptEvent (lit "app:h") (IpcTypeFlag_Send :: stringify j)) = w.
Proof.
  cbv zeta.
  assert (Hd : drained (exampleWorld echo)) by constructor.
  split; [done |]. split; [done |].
  exact (send_frame_delivers_value (lit "app:h") Return (JString [97; 8232; 98])
           (exampleWorld echo) eq_refl eq_refl Hd eq_refl).
Defined.

Lemma generated_uids_distinct_and_reserved_witness :
  let w := exampleWorld echo in
  (SPACE ∉ uid (router w))
  /\ (SPACE ∉ (generateListenerUid w).1)
  /\ (SPACE ∉ (generateStreamUid w).1).
Proof.
  cbv zeta.
  assert (Hs : SPACE ∉ uid (router (exampleWorld echo)))
    by (apply not_elem_of_indexOf; by vm_compute).
  split; [done |].
  exact (proj1 (proj2 (proj2 (proj2 (proj2
           (generated_uids_distinct_and_reserved (exampleWorld echo)
              (exampleWorld echo) eq_refl))))) Hs).
Defined.

Lemma invoke_resolves_with_handler_result_witness :
  let options := {| io_event := lit "app:h"; io_payload := Plain (JString (lit "hi"));
                    io_force := false; io_throwFailures := false |} in
  let w := exampleWorld echo in
  let w1 := (invoke options w).2 in
  let w2 := step w1 (ScriptEvent (lit "app:h")
                       (IpcTypeFlag_Invoke :: lit "r:__0" ++ SPACE
                          :: stringify (JString (lit "hi")))) in
  let w3 := step w2 (ScriptEvent (lit "r:__0")
                       (IpcTypeFlag_Send :: stringify (JString (lit "hi")))) in
  unused (lit "r:__0") w
  /\ (SPACE ∉ uid (router w))
  /\ promises w3 !! (invoke options w).1 = Some (Fulfilled (Plain (JString (lit "hi")))).
Proof.
  cbv zeta.
  assert (Hu : unused (lit "r:__0") (exampleWorld echo))
    by (by apply exampleWorld_unused).
  assert (Hs : SPACE ∉ uid (router (exampleWorld echo)))
    by (apply not_elem_of_indexOf; by vm_compute).
  assert (Hd : drained (exampleWorld echo)) by constructor.
  split; [done |]. split; [done |].
  destruct (invoke_resolves_with_handler_result
              {| io_event := lit "app:h"; io_payload := Plain (JString (lit "hi"));
                 io_force := false; io_throwFailures := false |}
              Return (JString (lit "hi")) (Plain (JString (lit "hi")))
              (exampleWorld echo) exampleCommon_flagsDistinct eq_refl Hd Hs Hu
              eq_refl ltac:(by vm_compute) eq_refl eq_refl eq_refl eq_refl eq_refl I
              ltac:(vm_compute; lia) ltac:(vm_compute; lia))
    as (_ & _ & _ & Hsettled & _).
  exact Hsettled.
Defined.

Lemma destroy_leaves_invoke_to_time_out_witness :
  let w := exampleWorld echo in
  let w1 := destroy (invokeInternal (exampleInvoke false) (lit "r:__0") w).2 in
  let es := ScriptEvent (lit "r:__0") (IpcTypeFlag_Send :: lit "true")
            :: replicate 20 Tick in
  unused (lit "r:__0") w
  /\ drained w
  /\ promises (run es w1) !! 0%nat = Some (Rejected (timedOut (lit "app:h"))).
Proof.
  cbv zeta.
  assert (Hu : unused (lit "r:__0") (exampleWorld echo))
    by (by apply exampleWorld_unused).
  assert (Hd : drained (exampleWorld echo)) by constructor.
  split; [done |]. split; [done |].
  destruct (destroy_leaves_invoke_to_time_out (exampleInvoke false) (lit "r:__0")
              (exampleWorld echo) Hu Hd ltac:(by vm_compute)) as (_ & _ & Hafter).
  exact (proj1 (Hafter (ScriptEvent (lit "r:__0") (IpcTypeFlag_Send :: lit "true")
                          :: replicate 20 Tick) ltac:(vm_compute; lia))).
Defined.

Lemma stream_buffers_keyed_by_stream_id_witness :
  let w := exampleWorld echo in
  Forall (fun c => isStreamFlag (fr_flag c) /\ (SPACE ∉ fr_stream c)
                   /\ is_Some (listeners (router w) !! fr_event c)) exampleFragments
  /\ cached (lit "s") (deliverFragments exampleFragments w) = lit "abcd".
Proof.
  cbv zeta.
  assert (Hs : SPACE ∉ lit "s") by (apply not_elem_of_indexOf; by vm_compute).
  assert (Hall : Forall (fun c => isStreamFlag (fr_flag c) /\ (SPACE ∉ fr_stream c)
                           /\ is_Some (listeners (router (exampleWorld echo))
                                         !! fr_event c)) exampleFragments).
  { apply Forall_cons. split; [split; [by left | split; [done | by eexists]] |].
    apply Forall_cons. split; [split; [by right | split; [done | by eexists]] |].
    constructor. }
  split; [done |].
  exact (proj1 (proj2 (stream_buffers_keyed_by_stream_id exampleFragments
                         (exampleWorld echo) exampleCommon_flagsDistinct Hall))
           (lit "s")).
Defined.

Lemma streamed_invoke_reaches_handler_witness :
  let w := exampleWorld echo in
  let j := JString (repeat 97 500) in
  (SPACE ∉ lit "r0") /\ (SPACE ∉ lit "r:__0") /\ singleLine (lit "r:__0")
  /\ run (delivery (chunkFrames IpcTypeFlag_InvokeStream (lit "app:h")
                      (lit "r:__0" ++ SPACE :: stringify j) (lit "r0"))) w
     = voidSendAuto {| so_event := lit "r:__0"; so_payload := Plain j;
                       so_force := false |} w.
Proof.
  cbv zeta.
  assert (H1 : SPACE ∉ lit "r0") by (apply not_elem_of_indexOf; by vm_compute).
  assert (H2 : SPACE ∉ lit "r:__0") by (apply not_elem_of_indexOf; by vm_compute).
  assert (H3 : singleLine (lit "r:__0")) by (apply singleLine_forallb; by vm_compute).
  assert (Hd : drained (exampleWorld echo)) by constructor.
  split; [done |]. split; [done |]. split; [done |].
  exact (streamed_invoke_reaches_handler (lit "app:h") (lit "r:__0") (lit "r0")
           Return (JString (repeat 97 500)) (exampleWorld echo)
           exampleCommon_flagsDistinct eq_refl Hd eq_refl eq_refl H1 H2 H3
           eq_refl ltac:(by vm_compute)).
Defined.

Lemma next_invoke_on_its_own_witness :
  let options := {| io_event := lit "app:h"; io_payload := Plain JNull;
                    io_force := false; io_throwFailures := false |} in
  let w := history [Api (Invoke options); Host Tick] exampleRouter in
  newRouter (lit "r") = inr exampleRouter
  /\ unused (generateListenerUid w).1 (generateListenerUid w).2.
Proof.
  cbv zeta.
  assert (Hnew : newRouter (lit "r") = inr exampleRouter) by reflexivity.
  split; [done |].
  exact (proj1 (proj2 (next_invoke_on_its_own (lit "r") exampleRouter
           [Api (Invoke {| io_event := lit "app:h"; io_payload := Plain JNull;
                           io_force := false; io_throwFailures := false |});
            Host Tick] Hnew))).
Defined.

Lemma concurrent_invokes_settle_independently_witness :
  let options := {| io_event := lit "app:h"; io_payload := Plain JNull;
                    io_force := false; io_throwFailures := false |} in
  let w1 := (invoke options exampleRouter).2 in
  let w2 := (invoke options w1).2 in
  newRouter (lit "r") = inr exampleRouter
  /\ promises w1 !! (invoke options exampleRouter).1 = None
  /\ promises w2 !! (invoke options w1).1 = None
  /\ (generateListenerUid exampleRouter).1 ≠ (generateListenerUid w1).1.
Proof.
  cbv zeta.
  set (options := {| io_event := lit "app:h"; io_payload := Plain JNull;
                     io_force := false; io_throwFailures := false |}).
  assert (Hnew : newRouter (lit "r") = inr exampleRouter) by reflexivity.
  assert (Hp1 : promises (invoke options exampleRouter).2
                  !! (invoke options exampleRouter).1 = None)
    by (by vm_compute).
  assert (Hp2 : promises (invoke options (invoke options exampleRouter).2).2
                  !! (invoke options (invoke options exampleRouter).2).1 = None)
    by (by vm_compute).
  split; [done |]. split; [done |]. split; [done |].
  assert (Hs : forall id, silent id []) by (intros; constructor).
  exact (proj1 (concurrent_invokes_settle_independently (lit "r") exampleRouter
                  [] options options [] [] Hnew eq_refl Hp1 Hp2
                  (Hs _) (Hs _) (Hs _) ltac:(simpl; lia))).
Defined.

Lemma invokeAuto_invoke_or_invokeStream_witness :
  let options := {| io_event := lit "app:h"; io_payload := Plain JNull;
                    io_force := false; io_throwFailures := false |} in
  (length (lit "r:__0" ++ SPACE :: lit "null") <= MAX_MESSAGE_LENGTH)%nat
  /\ invokeAuto options exampleRouter = invoke options exampleRouter.
Proof.
  cbv zeta.
  assert (Hlen : (length (lit "r:__0" ++ SPACE :: lit "null")
                  <= MAX_MESSAGE_LENGTH)%nat) by (vm_compute; lia).
  split; [done |].
  exact (proj1 (proj1 (invokeAuto_invoke_or_invokeStream
                         {| io_event := lit "app:h"; io_payload := Plain JNull;
                            io_force := false; io_throwFailures := false |}
                         exampleRouter) Hlen)).
Defined.


Lemma sync_invoke_answered_within_the_call_witness :
  let w := exampleSyncWorld Sync.Return in
  flagsDistinct
  /\ (SPACE ∉ lit "r:l0")
  /\ Sync.wire (Sync.receive w (lit "app:h",
                   IpcTypeFlag_Invoke :: lit "r:l0" ++ SPACE :: stringify JNull))
     = [(lit "r:l0", IpcTypeFlag_Send :: lit "null")].
Proof.
  cbv zeta.
  assert (Hs : SPACE ∉ lit "r:l0") by (apply not_elem_of_indexOf; by vm_compute).
  split; [apply exampleCommon_flagsDistinct |]. split; [done |].
  destruct (SyncTheory.sync_invoke_answered_within_the_call
              (lit "app:h") (lit "r:l0") Sync.Return JNull
              (exampleSyncWorld Sync.Return)
              exampleCommon_flagsDistinct eq_refl eq_refl Hs eq_refl eq_refl)
    as (-> & _).
  reflexivity.
Defined.

Lemma sync_uids_drawn_from_one_counter_witness :
  let w := exampleSyncWorld Sync.Return in
  Sync.uid (Sync.router w) = Sync.uid (Sync.router w)
  /\ (Sync.generateListenerUid w).1 ≠ (Sync.generateStreamUid w).1.
Proof.
  cbv zeta. split; [done |].
  exact (proj1 (proj2 (proj2 (SyncTheory.sync_uids_drawn_from_one_counter
                                (exampleSyncWorld Sync.Return)
                                (exampleSyncWorld Sync.Return) eq_refl)))).
Defined.

Lemma unfinished_stream_never_discarded_witness :
  let w := buffered (lit "s") (lit "ab") (exampleWorld echo) in
  let actions := [Host Tick; Api Destroy; Api (RemoveListener (lit "app:h"));
                  Host (ScriptEvent (lit "app:h") (lit "2t t cd"))] in
  Forall (fun a => ~ namesStream (lit "s") a) actions
  /\ pendingStreams (router (history actions w)) !! lit "s" = Some (lit "ab").
Proof.
  cbv zeta.
  assert (Hall : Forall (fun a => ~ namesStream (lit "s") a)
                   [Host Tick; Api Destroy; Api (RemoveListener (lit "app:h"));
                    Host (ScriptEvent (lit "app:h") (lit "2t t cd"))]).
  { repeat constructor; simpl; try tauto. by vm_compute. }
  split; [done |].
  rewrite (unfinished_stream_never_discarded (lit "s") _
             (buffered (lit "s") (lit "ab") (exampleWorld echo)) Hall).
  reflexivity.
Defined.

Lemma streamed_invoke_settles_after_last_chunk_witness :
  let options := {| io_event := lit "app:h"; io_payload := Plain JNull;
                    io_force := false; io_throwFailures := false |} in
  let w1 := (invokeStream options exampleRouter).2 in
  let w2 := step w1 (Transmit 0) in
  newRouter (lit "r") = inr exampleRouter
  /\ (exists job frame, jobs w1 !! 0%nat = Some job /\ pendingFrames job = [frame])
  /\ promises (run (replicate 20 Tick) w2) !! (invokeStream options exampleRouter).1
     = Some (Rejected (timedOut (lit "app:h"))).
Proof.
  cbv zeta.
  set (options := {| io_event := lit "app:h"; io_payload := Plain JNull;
                     io_force := false; io_throwFailures := false |}).
  assert (Hnew : newRouter (lit "r") = inr exampleRouter) by reflexivity.
  assert (Hjob : exists job frame,
             jobs (invokeStream options exampleRouter).2 !! 0%nat = Some job
             /\ pendingFrames job = [frame])
    by (do 2 eexists; split; by vm_compute).
  split; [done |]. split; [exact Hjob |].
  destruct Hjob as (job & frame & Hj & Hf).
  assert (Hs : forall id, silent id (replicate 20 Tick))
    by (intros; repeat constructor).
  exact (proj1 (proj1 (proj2 (streamed_invoke_settles_after_last_chunk
                  (lit "r") exampleRouter [] options [] job frame Hnew eq_refl
                  ltac:(constructor) Hj Hf))
                 (replicate 20 Tick) (Hs _) ltac:(vm_compute; lia))).
Defined.

End MoreExamples.

(** * The function-based module at concrete inputs *)


Lemma invoke_resolves_with_response_witness :
  let s := exampleState exampleHandler in
  let s1 := (Legacy.invokeScriptEvent (lit "app:h") (lit "ns") (Some (JNumber 1))
               false s).2 in
  Legacy.handlers s !! lit "app:h" = Some exampleHandler
  /\ Legacy.eventHasAnythingRegistered (lit "ns:ipc.__hrl0") s = false
  /\ Legacy.wire s1
     = [(lit "app:h",
         stringify (Legacy.handlerPayload (lit "ns:ipc.__hrl0") (Some (JNumber 1))))].
Proof.
  cbv zeta. split; [by vm_compute |]. split; [by vm_compute |].
  exact (proj1 (LegacyTheory.invoke_resolves_with_response (lit "app:h") (lit "ns")
                  (Some (JNumber 1)) exampleHandler (JBool true)
                  (exampleState exampleHandler)
                  ltac:(by vm_compute) ltac:(by vm_compute) ltac:(by vm_compute)
                  ltac:(by vm_compute) ltac:(by vm_compute)
                  ltac:(vm_compute; lia) ltac:(vm_compute; lia)
                  ltac:(vm_compute; lia) ltac:(vm_compute; lia)
                  eq_refl eq_refl eq_refl ltac:(vm_compute; lia))).
Defined.



Lemma stream_messages_fit_short_stream_ids_witness :
  let payload := JString (repeat 97 500) in
  exists frames,
    Stream.streamScriptEvent (lit "app:s") (lit "ns") payload false 0
    = Some (frames, 1)
    /\ Forall (fun f => length f.2 ≤ MAX_MESSAGE_LENGTH)%nat frames.
Proof.
  cbv zeta. eexists. split; [by vm_compute |].
  refine (proj1 (proj2 (proj2 (proj2
            (LegacyTheory.stream_messages_fit_short_stream_ids (lit "app:s") (lit "ns")
               (JString (repeat 97 500)) false 0 1 _ _)))) eq_refl _);
    [by vm_compute | done].
Defined.

Lemma stream_reaches_stream_listener_witness :
  let payload := JString (repeat 97 500) in
  let s := exampleStreamState in
  exists frames,
    Stream.streamScriptEvent (lit "app:s") (lit "ns") payload false 0
    = Some (frames, 1)
    /\ (2 ≤ length frames)%nat
    /\ Legacy.run (Legacy.delivery frames) s = Some s.
Proof.
  cbv zeta. eexists. split; [by vm_compute |]. split; [vm_compute; lia |].
  refine (LegacyTheory.stream_reaches_stream_listener (lit "app:s") (lit "ns")
            (JString (repeat 97 500)) false (fun _ => None) _ 1 exampleStreamState
            _ _ _ _ _ _ _ _); try (by vm_compute).
  apply not_elem_of_indexOf. by vm_compute.
Defined.



